(** * perl_version: a shallow embedding of the Go package and its properties

    The package parses Perl version strings (lax and strict grammar of
    version::regex), rebuilds them as a sequence of int64 components, and
    compares, formats and (un)marshals the resulting [Version].

    Layout:
    - outcomes of Go calls (value, returned error, panic);
    - the parts of [strings], [strconv] and [regexp] that the package calls;
    - util.go, patterns.go, the lax and strict reconstructors, Parse;
    - the methods of [Version], with the parts of [unicode/utf8] and
      [encoding/json] that its record codec calls;
    - the properties. *)

From Stdlib Require Import String Ascii List ZArith Lia Bool Arith DecimalString.
From Stdlib Require DecimalFacts DecimalPos DecimalN DecimalZ.
Import ListNotations.

Local Open Scope string_scope.
Local Open Scope list_scope.

(** ** Outcomes

    A Go call either returns a value, returns a non-nil [error], or panics. *)

Inductive error : Type :=
| errAlphaWithoutDecimal                 (* util.go *)
| errInvalidVersionString (version : string)   (* Parse *)
| errJSON.                               (* any error of encoding/json *)

Inductive outcome (A : Type) : Type :=
| Ok (a : A)
| Err (e : error)
| Panic.

Arguments Ok {A} a.
Arguments Err {A} e.
Arguments Panic {A}.

Definition bind {A B : Type} (m : outcome A) (f : A -> outcome B) : outcome B :=
  match m with
  | Ok a => f a
  | Err e => Err e
  | Panic => Panic
  end.

Notation "'do' x <- m ; k" := (bind m (fun x => k))
  (at level 10, x name, m at level 100, k at level 200).

(** ** package strings *)

Module Strings.

Fixpoint HasPrefix (s prefix : string) : bool :=
  match prefix, s with
  | "", _ => true
  | String p prefix', String c s' => Ascii.eqb p c && HasPrefix s' prefix'
  | String _ _, "" => false
  end.

Fixpoint drop (n : nat) (s : string) : string :=
  match n, s with
  | O, _ => s
  | S n', String _ s' => drop n' s'
  | S _, "" => ""
  end.

Fixpoint take (n : nat) (s : string) : string :=
  match n, s with
  | O, _ => ""
  | S n', String c s' => String c (take n' s')
  | S _, "" => ""
  end.

(** [strings.TrimPrefix]: [s] without the leading [prefix], or [s] itself. *)
Definition TrimPrefix (s prefix : string) : string :=
  if HasPrefix s prefix then drop (String.length prefix) s else s.

(** [strings.Split(s, sep)] for a one-byte separator: always at least one
    piece, [Split "" sep = [""]]. *)
Fixpoint Split (s : string) (sep : ascii) : list string :=
  match s with
  | "" => [""]
  | String c s' =>
      if Ascii.eqb c sep then "" :: Split s' sep
      else match Split s' sep with
           | piece :: pieces => String c piece :: pieces
           | [] => [String c ""]
           end
  end.

(** last byte of a string, [s[len(s)-1]]; out of range on the empty string *)
Fixpoint lastByte (s : string) : option ascii :=
  match s with
  | "" => None
  | String c "" => Some c
  | String _ s' => lastByte s'
  end.

End Strings.

(** ** package strconv *)

Module Strconv.

Definition isDigit (c : ascii) : bool :=
  ((48 <=? nat_of_ascii c) && (nat_of_ascii c <=? 57))%nat.

Definition digitVal (c : ascii) : Z := Z.of_nat (nat_of_ascii c) - 48.

Fixpoint allDigits (s : string) : bool :=
  match s with
  | "" => true
  | String c s' => isDigit c && allDigits s'
  end.

(** base-10 value of a digit string, most significant digit first *)
Fixpoint digitsValue (acc : Z) (s : string) : option Z :=
  match s with
  | "" => Some acc
  | String c s' =>
      if isDigit c then digitsValue (10 * acc + digitVal c)%Z s' else None
  end.

Definition minInt : Z := (- 2 ^ 63)%Z.
Definition maxInt : Z := (2 ^ 63 - 1)%Z.

(** [strconv.Atoi] where [int] has 64 bits: an optional sign, then one or
    more decimal digits; [None] is a syntax or range error. *)
Definition Atoi (s : string) : option Z :=
  let parse (neg : bool) (digits : string) :=
    match digits with
    | "" => None
    | _ =>
        match digitsValue 0 digits with
        | Some n =>
            let val := if neg then (- n)%Z else n in
            if (minInt <=? val)%Z && (val <=? maxInt)%Z then Some val else None
        | None => None
        end
    end in
  match s with
  | String "-" digits => parse true digits
  | String "+" digits => parse false digits
  | _ => parse false s
  end.

End Strconv.

(** ** util.go *)

Definition mustParseInt64 (s : string) : outcome Z :=
  match Strconv.Atoi s with
  | Some val => Ok val
  | None => Panic
  end.

(** [for i, s := range raw { minors[i] = mustParseInt64(s) }] *)
Fixpoint parseAll (raw : list string) : outcome (list Z) :=
  match raw with
  | [] => Ok []
  | s :: rest =>
      do val <- mustParseInt64 s;
      do vals <- parseAll rest;
      Ok (val :: vals)
  end.

Definition dottedToMinors (s : string) : outcome (list Z) :=
  let s := Strings.TrimPrefix s "." in
  let raw := Strings.Split s "." in
  parseAll raw.

Definition min (a b : nat) : nat := if (a <? b)%nat then a else b.

Definition max (a b : nat) : nat := if (b <? a)%nat then a else b.

(** [slice[i] = x]; [None] is the index-out-of-range panic. *)
Fixpoint store {A : Type} (slice : list A) (i : nat) (x : A) : option (list A) :=
  match slice, i with
  | [], _ => None
  | _ :: rest, O => Some (x :: rest)
  | y :: rest, S i' =>
      match store rest i' x with
      | Some rest' => Some (y :: rest')
      | None => None
      end
  end.

(** The first loop of getFractionValue, [for i := range s], from index [i] on
    the bytes [s] still to read.  (A nil slice is modelled by the empty list
    throughout.)  Ranging over a string steps by runes, which on ASCII text
    is by bytes; a byte above 127 is no digit in either reading, and ends in
    the panic of mustParseInt64 both here and there. *)
Fixpoint fractionLoop (s : string) (i : nat) (stringValues : list string)
    (currentString : string) : outcome (list string * string) :=
  match s with
  | "" => Ok (stringValues, currentString)
  | String c s' =>
      if ((i mod 3 =? 0) && negb (i =? 0))%nat then
        match store stringValues (i / 3 - 1) currentString with
        | Some stringValues' =>
            fractionLoop s' (S i) stringValues' ("" ++ String c "")
        | None => Panic
        end
      else fractionLoop s' (S i) stringValues (currentString ++ String c "")
  end.

(** [for i := len(currentString); i < 3; i++ { currentString += "0" }] *)
Fixpoint padLoop (steps : nat) (currentString : string) : string :=
  match steps with
  | O => currentString
  | S steps' => padLoop steps' (currentString ++ "0")
  end.

Definition getFractionValue (s : string) : outcome (list Z) :=
  if String.eqb s "" then Ok []
  else
    let s := Strings.TrimPrefix s "." in
    let expectedValues := String.length s / 3 + 1 in
    let expectedValues :=
      if (String.length s mod 3 =? 0)%nat then expectedValues - 1
      else expectedValues in
    let stringValues := repeat "" expectedValues in
    do st <- fractionLoop s 0 stringValues "";
    let '(stringValues, currentString) := st in
    let currentString := padLoop (3 - String.length currentString) currentString in
    match expectedValues with
    | O => Panic   (* stringValues[len(stringValues)-1] with len 0 *)
    | S lastIndex =>
        match store stringValues lastIndex currentString with
        | Some stringValues => parseAll stringValues
        | None => Panic
        end
    end.

(** *** Fraction grouping as the specification words it *)

(** maximal left-to-right chunks of exactly three bytes; the last may be shorter *)
Fixpoint chunks3 (digits : string) : list string :=
  match digits with
  | "" => []
  | String a "" => [String a ""]
  | String a (String b "") => [String a (String b "")]
  | String a (String b (String c rest)) =>
      String a (String b (String c "")) :: chunks3 rest
  end.

(** right-pad with '0' to width 3 *)
Definition padRight3 (chunk : string) : string :=
  match String.length chunk with
  | 0 => "000"
  | 1 => chunk ++ "00"
  | 2 => chunk ++ "0"
  | _ => chunk
  end.

(** value of a digit string read as a base-10 integer *)
Definition decimalValue (chunk : string) : Z :=
  match Strconv.digitsValue 0 chunk with
  | Some n => n
  | None => 0%Z
  end.

Definition fractionGrouping (digits : string) : list Z :=
  map (fun chunk => decimalValue (padRight3 chunk)) (chunks3 digits).

(** ** package regexp

    The syntax tree of a pattern and a backtracking matcher with submatches.
    Alternatives are tried left to right and repetitions are greedy, which is
    the priority order of Go's engines; [Longest] then prefers, at the
    leftmost start, the longest match and, among equally long ones, the one of
    highest priority. *)

Module Regexp.

Inductive regex : Type :=
| Empty                                   (* matches the empty string *)
| Lit (c : ascii)                         (* one literal byte *)
| Class (lo hi : ascii)                   (* [lo-hi] *)
| Cat (r1 r2 : regex)                     (* r1r2 *)
| Alt (r1 r2 : regex)                     (* r1|r2 *)
| Repeat (lo : nat) (hi : option nat) (r : regex)  (* r{lo,hi}, r{lo,} *)
| Group (r : regex)                       (* (r), capturing *)
| EndText.                                (* $ *)

Definition Star (r : regex) : regex := Repeat 0 None r.       (* r* *)
Definition Plus (r : regex) : regex := Repeat 1 None r.       (* r+ *)
Definition Opt (r : regex) : regex := Repeat 0 (Some 1) r.    (* r? *)

Fixpoint Seq (rs : list regex) : regex :=
  match rs with
  | [] => Empty
  | [r] => r
  | r :: rs' => Cat r (Seq rs')
  end.

Fixpoint Alts (rs : list regex) : regex :=
  match rs with
  | [] => Empty
  | [r] => r
  | r :: rs' => Alt r (Alts rs')
  end.

Fixpoint Str (s : string) : regex :=
  match s with
  | "" => Empty
  | String c "" => Lit c
  | String c s' => Cat (Lit c) (Str s')
  end.

(** number of capturing groups, Regexp.NumSubexp *)
Fixpoint NumSubexp (r : regex) : nat :=
  match r with
  | Empty | Lit _ | Class _ _ | EndText => 0
  | Cat r1 r2 | Alt r1 r2 => NumSubexp r1 + NumSubexp r2
  | Repeat _ _ r1 => NumSubexp r1
  | Group r1 => S (NumSubexp r1)
  end.

(** submatch texts by group number; a group that took no part is "" *)
Definition captures : Type := nat -> string.

Definition noCaptures : captures := fun _ => "".

Definition setCapture (g : nat) (text : string) (cap : captures) : captures :=
  fun i => if (i =? g)%nat then text else cap i.

(** a successful path: the text left over and its submatches *)
Definition thread : Type := (string * captures)%type.

Definition inClass (lo hi c : ascii) : bool :=
  ((nat_of_ascii lo <=? nat_of_ascii c) && (nat_of_ascii c <=? nat_of_ascii hi))%nat.

(** the text consumed between [text] and its suffix [rest] *)
Definition consumed (text rest : string) : string :=
  Strings.take (String.length text - String.length rest) text.

(** a matcher in continuation-passing style: all the ways to match a
    prefix of the text, in priority order, each continued by [k] *)
Definition matcher : Type :=
  string -> captures -> (string -> captures -> list thread) -> list thread.

(** greedy optional rounds of a repetition, at most [rounds] of them: one
    more round first, stopping second; a round that consumes nothing is cut *)
Fixpoint more (step : matcher) (k : string -> captures -> list thread)
    (rounds : nat) (text : string) (cap : captures) : list thread :=
  match rounds with
  | O => k text cap
  | S rounds' =>
      step text cap
        (fun text' cap' =>
           if (String.length text' <? String.length text)%nat
           then more step k rounds' text' cap' else [])
      ++ k text cap
  end.

(** the mandatory rounds of a repetition *)
Fixpoint must (step : matcher) (k : string -> captures -> list thread)
    (rounds : nat) (text : string) (cap : captures) : list thread :=
  match rounds with
  | O => k text cap
  | S rounds' => step text cap (must step k rounds')
  end.

(** All the ways [r] matches a prefix of [text], in priority order, each
    continued by [k].  Groups are numbered by their opening parenthesis,
    left to right: [g] is the number of the next group to open.  A
    repetition runs its [lo] mandatory rounds, then greedy optional rounds
    up to [hi] (as many as the text allows when there is no [hi]). *)
Fixpoint run (r : regex) (g : nat) (text : string) (cap : captures)
    (k : string -> captures -> list thread) {struct r} : list thread :=
  match r with
  | Empty => k text cap
  | Lit c =>
      match text with
      | String b rest => if Ascii.eqb b c then k rest cap else []
      | "" => []
      end
  | Class lo hi =>
      match text with
      | String b rest => if inClass lo hi b then k rest cap else []
      | "" => []
      end
  | Cat r1 r2 =>
      run r1 g text cap
        (fun text' cap' => run r2 (g + NumSubexp r1) text' cap' k)
  | Alt r1 r2 =>
      run r1 g text cap k ++ run r2 (g + NumSubexp r1) text cap k
  | Group r1 =>
      run r1 (S g) text cap
        (fun text' cap' => k text' (setCapture g (consumed text text') cap'))
  | EndText =>
      match text with
      | "" => k text cap
      | String _ _ => []
      end
  | Repeat lo hi r1 =>
      must (run r1 g)
        (fun text' cap' =>
           more (run r1 g) k
             (match hi with
              | Some hi' => hi' - lo
              | None => String.length text'
              end) text' cap')
        lo text cap
  end.

(** *** The language of a pattern

    [remainder r text text']: a match of [r] at the start of [text] may leave
    [text'].  (The upper bound of a repetition is not kept: the relation is
    used to bound what the matcher can do.) *)

Fixpoint iter (R : string -> string -> Prop) (n : nat) (text text' : string)
    : Prop :=
  match n with
  | O => text' = text
  | S n' => exists mid, R text mid /\ iter R n' mid text'
  end.

Fixpoint remainder (r : regex) (text text' : string) : Prop :=
  match r with
  | Empty => text' = text
  | Lit c => text = String c text'
  | Class lo hi => exists b, text = String b text' /\ inClass lo hi b = true
  | Cat r1 r2 => exists mid, remainder r1 text mid /\ remainder r2 mid text'
  | Alt r1 r2 => remainder r1 text text' \/ remainder r2 text text'
  | Repeat lo _ r1 => exists n, lo <= n /\ iter (remainder r1) n text text'
  | Group r1 => remainder r1 text text'
  | EndText => text = "" /\ text' = ""
  end.

(** A matcher is sound for a relation [R], with respect to a property [Q] of
    threads and a submatch [i], when every thread it yields was yielded by
    its continuation, called on a text in relation [R] with the text it
    started on and with submatch [i] as it was. *)
Definition sound (Q : thread -> Prop) (i : nat) (step : matcher)
    (R : string -> string -> Prop) : Prop :=
  forall text cap k,
    (forall text' cap', R text text' -> cap' i = cap i ->
                        Forall Q (k text' cap')) ->
    Forall Q (step text cap k).

(** a compiled pattern: [MustCompile] leaves it leftmost-first,
    [Longest] switches it to leftmost-longest *)
Record Regexp : Type := { expr : regex; longest : bool }.

Definition MustCompile (pattern : regex) : Regexp :=
  {| expr := pattern; longest := false |}.

Definition Longest (re : Regexp) : Regexp :=
  {| expr := expr re; longest := true |}.

(** the thread that wins: the first one, or in longest mode the first among
    those that leave the least text *)
Fixpoint pick (longest : bool) (threads : list thread) : option thread :=
  match threads with
  | [] => None
  | t :: others =>
      if longest then
        match pick longest others with
        | Some t' =>
            if (String.length (fst t') <? String.length (fst t))%nat
            then Some t' else Some t
        | None => Some t
        end
      else Some t
  end.

(** a match that starts at the first byte of [text] *)
Definition matchAt (re : Regexp) (text : string) : option (list string) :=
  match pick (longest re)
          (run (expr re) 1 text noCaptures (fun rest cap => [(rest, cap)])) with
  | Some (rest, cap) =>
      let cap := setCapture 0 (consumed text rest) cap in
      Some (map cap (seq 0 (S (NumSubexp (expr re)))))
  | None => None
  end.

(** Regexp.FindStringSubmatch: the leftmost start that matches; [None]
    is the nil slice *)
Fixpoint FindStringSubmatch (re : Regexp) (text : string) : option (list string) :=
  match matchAt re text with
  | Some matches => Some matches
  | None =>
      match text with
      | "" => None
      | String _ text' => FindStringSubmatch re text'
      end
  end.

End Regexp.

(** ** patterns.go

    Each constant is the syntax tree of the pattern text of the same name;
    where the Go constant is built by concatenation, so is the tree. *)

Module Patterns.
Import Regexp.

(** "[0-9]" *)
Definition digit : regex := Class "0" "9".

(* shared between lax and strict: *)

(** fractionR = "(\.[0-9]+)" *)
Definition fractionR : regex := Group (Seq [Lit "."; Plus digit]).

(* strict regexes: *)

(** strictIntR: a group of "0" or "[1-9][0-9]*" *)
Definition strictIntR : regex :=
  Group (Alts [Lit "0"; Seq [Class "1" "9"; Star digit]]).

(** strictDottedNcR = "(?:\.[0-9]{1,3})" *)
Definition strictDottedNcR : regex := Seq [Lit "."; Repeat 1 (Some 3) digit].

(** strictDotted2PR = "(" + strictDottedNcR + "{2,})" *)
Definition strictDotted2PR : regex := Group (Repeat 2 None strictDottedNcR).

(** strictDecimalFormR = "(" + strictIntR + fractionR + "?)" *)
Definition strictDecimalFormR : regex := Group (Seq [strictIntR; Opt fractionR]).

(** strictDottedFormR = "(v" + strictIntR + strictDotted2PR + ")" *)
Definition strictDottedFormR : regex :=
  Group (Seq [Lit "v"; strictIntR; strictDotted2PR]).

(* lax regexes: *)

(** laxIntR = "([0-9]+)" *)
Definition laxIntR : regex := Group (Plus digit).

(** laxDottedNcR = "(?:\.[0-9]+)" *)
Definition laxDottedNcR : regex := Seq [Lit "."; Plus digit].

(** laxDotted2PR = "(" + laxDottedNcR + "{2,})" *)
Definition laxDotted2PR : regex := Group (Repeat 2 None laxDottedNcR).

(** laxDottedPR = "(" + laxDottedNcR + "+)" *)
Definition laxDottedPR : regex := Group (Plus laxDottedNcR).

(** laxAlphaR = "(_[0-9]+)" *)
Definition laxAlphaR : regex := Group (Seq [Lit "_"; Plus digit]).

(** laxUndefR = "(undef)" *)
Definition laxUndefR : regex := Group (Str "undef").

(** laxDecimalFormR = "(" + laxIntR + "(?:" + fractionR + "|\.)?" + laxAlphaR
    + "?|" + fractionR + laxAlphaR + "?)" *)
Definition laxDecimalFormR : regex :=
  Group (Alts [Seq [laxIntR; Opt (Alts [fractionR; Lit "."]); Opt laxAlphaR];
               Seq [fractionR; Opt laxAlphaR]]).

(** laxDottedFormR = "(v" + laxIntR + "(?:" + laxDottedPR + laxAlphaR + "?)?|"
    + laxIntR + "?" + laxDotted2PR + laxAlphaR + "?)" *)
Definition laxDottedFormR : regex :=
  Group (Alts [Seq [Lit "v"; laxIntR; Opt (Seq [laxDottedPR; Opt laxAlphaR])];
               Seq [Opt laxIntR; laxDotted2PR; Opt laxAlphaR]]).

(** LaxVersionRegex = "(?:" + laxUndefR + "|" + laxDottedFormR + "|"
    + laxDecimalFormR + ")$" *)
Definition LaxVersionRegex : regex :=
  Seq [Alts [laxUndefR; laxDottedFormR; laxDecimalFormR]; EndText].

(** StrictVersionRegex = "(?:" + strictDecimalFormR + "|" + strictDottedFormR
    + ")$" *)
Definition StrictVersionRegex : regex :=
  Seq [Alts [strictDecimalFormR; strictDottedFormR]; EndText].

End Patterns.

(** [regexp.MustCompile] at package level, then [init] calls [Longest] on both *)
Definition laxRegexp : Regexp.Regexp :=
  Regexp.Longest (Regexp.MustCompile Patterns.LaxVersionRegex).

Definition strictRegexp : Regexp.Regexp :=
  Regexp.Longest (Regexp.MustCompile Patterns.StrictVersionRegex).

(** ** perl_version.go: the Version type *)

Record Version : Type := {
  original : string;
  alpha : bool;
  qv : bool;
  version : list Z
}.

(** the zero value [Version{}] *)
Definition zeroVersion : Version :=
  {| original := ""; alpha := false; qv := false; version := [] |}.

(** *** Slices of int64 *)

(** [make([]int64, n)] *)
Definition make (n : nat) : list Z := repeat 0%Z n.

(** [copy(dst, src)]: overwrites the first [min(len(dst), len(src))] elements *)
Fixpoint copy (dst src : list Z) : list Z :=
  match dst, src with
  | _ :: dst', x :: src' => x :: copy dst' src'
  | _, _ => dst
  end.

(** [copy(values[1:], src)]; slicing [values[1:]] panics on an empty slice *)
Definition copyFrom1 (values src : list Z) : outcome (list Z) :=
  match values with
  | [] => Panic
  | first :: tail => Ok (first :: copy tail src)
  end.

(** [values[i] = x] *)
Definition assign (values : list Z) (i : nat) (x : Z) : outcome (list Z) :=
  match store values i x with
  | Some values' => Ok values'
  | None => Panic
  end.

Definition nonEmpty (s : string) : bool := negb (String.eqb s "").

(** [s[0] == c]; indexing the empty string panics *)
Definition firstByteIs (s : string) (c : ascii) : outcome bool :=
  match s with
  | "" => Panic
  | String b _ => Ok (Ascii.eqb b c)
  end.

(** [s[len(s)-1] == c] *)
Definition lastByteIs (s : string) (c : ascii) : outcome bool :=
  match Strings.lastByte s with
  | None => Panic
  | Some b => Ok (Ascii.eqb b c)
  end.

(** ** The lax reconstructor

    One module per Go struct type, holding its fields and methods.  Inside
    them a [Version] literal is written with its constructor, fields in the
    order original, alpha, qv, version. *)

Module LaxDotted.

Record laxDotted : Type := {
  integer : string;              (* version A *)
  dottedGroup : string;
  alpha : string;
  secondInteger : string;        (* version B *)
  secondDottedGroup : string;
  secondAlpha : string
}.

Definition toPerlVersionA (d : laxDotted) (original : string)
    : outcome Version :=
  let dotted := dottedGroup d in
  let isAlpha := nonEmpty (alpha d) in
  let dotted :=
    if isAlpha then (dotted ++ Strings.TrimPrefix (alpha d) "_")%string
    else dotted in
  do minors <- (if nonEmpty dotted then dottedToMinors dotted else Ok []);
  let numValues := List.length minors in
  let numValues := if (numValues <? 3)%nat then 3 else numValues in
  let values := make numValues in
  do major <- mustParseInt64 (integer d);
  do values <- assign values 0 major;
  do values <- (match minors with
                | [] => Ok values
                | _ => copyFrom1 values minors
                end);
  Ok (Build_Version original isAlpha true values).

Definition toPerlVersionB (d : laxDotted) (original : string)
    : outcome Version :=
  let dotted := secondDottedGroup d in
  let isAlpha := nonEmpty (secondAlpha d) in
  let dotted :=
    if isAlpha then (dotted ++ Strings.TrimPrefix (secondAlpha d) "_")%string
    else dotted in
  do minors <- dottedToMinors dotted;
  let numValues := List.length minors in
  do leadingDot <- firstByteIs (secondDottedGroup d) ".";
  let impliedZero := leadingDot && negb (nonEmpty (secondInteger d)) in
  let numValues :=
    if nonEmpty (secondInteger d) || impliedZero then S numValues
    else numValues in
  let values := make numValues in
  do values <- (if nonEmpty (secondInteger d) then
                  do major <- mustParseInt64 (secondInteger d);
                  assign values 0 major
                else if impliedZero then assign values 0 0%Z
                else Ok values);
  do values <- (match minors with
                | [] => Ok values
                | _ => copyFrom1 values minors
                end);
  Ok (Build_Version original (nonEmpty (secondAlpha d))
        (numValues =? 3)%nat values).

Definition toPerlVersion (d : laxDotted) (original : string)
    : outcome Version :=
  if nonEmpty (integer d) then toPerlVersionA d original
  else if nonEmpty (secondDottedGroup d) then toPerlVersionB d original
  else Panic.

End LaxDotted.

Module LaxDecimal.

Record laxDecimal : Type := {
  integer : string;              (* version A *)
  fraction : string;
  alpha : string;
  secondFraction : string;       (* version B *)
  secondAlpha : string
}.

Definition toPerlVersionA (d : laxDecimal) (original : string)
    : outcome Version :=
  let fractionStr := fraction d in
  let isAlpha := nonEmpty (alpha d) in
  do fractionStr <-
    (if isAlpha then
       if String.eqb (fraction d) "" then Err errAlphaWithoutDecimal
       else Ok (fractionStr ++ Strings.TrimPrefix (alpha d) "_")%string
     else Ok fractionStr);
  do fractions <- getFractionValue fractionStr;
  let numValues := List.length fractions + 1 in
  do trailingDot <- lastByteIs original ".";
  let impliedZeroEnd := trailingDot && String.eqb (fraction d) "" in
  let numValues := if impliedZeroEnd then S numValues else numValues in
  let values := make numValues in
  do major <- mustParseInt64 (integer d);
  do values <- assign values 0 major;
  do values <- (match fractions with
                | [] => Ok values
                | _ => copyFrom1 values fractions
                end);
  do values <- (if impliedZeroEnd
                then assign values (List.length values - 1) 0%Z
                else Ok values);
  Ok (Build_Version original (nonEmpty (alpha d)) false values).

Definition toPerlVersionB (d : laxDecimal) (original : string)
    : outcome Version :=
  let fractionStr := secondFraction d in
  let isAlpha := nonEmpty (secondAlpha d) in
  let fractionStr :=
    if isAlpha
    then (fractionStr ++ Strings.TrimPrefix (secondAlpha d) "_")%string
    else fractionStr in
  do fractions <- getFractionValue fractionStr;
  match fractions with
  | [] => Panic
  | _ =>
      let values := make (List.length fractions + 1) in   (* implied zero *)
      do values <- assign values 0 0%Z;
      do values <- copyFrom1 values fractions;
      Ok (Build_Version original (nonEmpty (secondAlpha d)) false values)
  end.

Definition toPerlVersion (d : laxDecimal) (original : string)
    : outcome Version :=
  if nonEmpty (integer d) then toPerlVersionA d original
  else if nonEmpty (secondFraction d) then toPerlVersionB d original
  else Panic.

End LaxDecimal.

Module Lax.

Record lax : Type := {
  original : string;
  undef : string;
  dotted : string;
  dottedMatches : LaxDotted.laxDotted;
  decimal : string;
  decimalMatches : LaxDecimal.laxDecimal
}.

Definition toPerlVersion (d : lax) : outcome Version :=
  if nonEmpty (undef d) then
    Ok (Build_Version (original d) false false [0%Z])
  else if nonEmpty (dotted d) then
    LaxDotted.toPerlVersion (dottedMatches d) (original d)
  else if nonEmpty (decimal d) then
    LaxDecimal.toPerlVersion (decimalMatches d) (original d)
  else Panic.

End Lax.

(** [matches[i]]; the slices of FindStringSubmatch have one entry per group *)
Definition at_ (matches : list string) (i : nat) : string := nth i matches "".

Definition laxVersion (matches : list string) : outcome Version :=
  Lax.toPerlVersion
    {| Lax.original := at_ matches 0;
       Lax.undef := at_ matches 1;
       Lax.dotted := at_ matches 2;
       Lax.dottedMatches :=
         {| LaxDotted.integer := at_ matches 3;
            LaxDotted.dottedGroup := at_ matches 4;
            LaxDotted.alpha := at_ matches 5;
            LaxDotted.secondInteger := at_ matches 6;
            LaxDotted.secondDottedGroup := at_ matches 7;
            LaxDotted.secondAlpha := at_ matches 8 |};
       Lax.decimal := at_ matches 9;
       Lax.decimalMatches :=
         {| LaxDecimal.integer := at_ matches 10;
            LaxDecimal.fraction := at_ matches 11;
            LaxDecimal.alpha := at_ matches 12;
            LaxDecimal.secondFraction := at_ matches 13;
            LaxDecimal.secondAlpha := at_ matches 14 |} |}.

(** ** The strict reconstructor *)

Module StrictDecimalForm.

Record strictDecimalForm : Type := {
  integerPart : string;
  fractionPart : string
}.

Definition toPerlVersion (d : strictDecimalForm) (original : string)
    : outcome Version :=
  let trimmed := Strings.TrimPrefix (fractionPart d) "." in
  do fracValues <- getFractionValue trimmed;
  let values := make (List.length fracValues + 1) in
  do major <- mustParseInt64 (integerPart d);
  do values <- assign values 0 major;
  do values <- copyFrom1 values fracValues;
  Ok (Build_Version original false false values).

End StrictDecimalForm.

Module StrictDottedForm.

Record strictDottedForm : Type := {
  integerPart : string;
  dottedGroup : string
}.

(** [for i, part := range minors { pv.version[i+1] = mustParseInt64(part) }] *)
Fixpoint fillMinors (values : list Z) (i : nat) (minors : list string)
    : outcome (list Z) :=
  match minors with
  | [] => Ok values
  | part :: minors' =>
      do val <- mustParseInt64 part;
      do values <- assign values (i + 1) val;
      fillMinors values (S i) minors'
  end.

Definition toPerlVersion (d : strictDottedForm) (original : string)
    : outcome Version :=
  let trimmed := Strings.TrimPrefix (dottedGroup d) "." in
  let minors := Strings.Split trimmed "." in
  let values := make (List.length minors + 1) in
  do major <- mustParseInt64 (integerPart d);
  do values <- assign values 0 major;
  do values <- fillMinors values 0 minors;
  Ok (Build_Version original false true values).

End StrictDottedForm.

Module Strict.

Record strict : Type := {
  original : string;
  decimal : string;
  decimalMatches : StrictDecimalForm.strictDecimalForm;
  dotted : string;
  dottedMatches : StrictDottedForm.strictDottedForm
}.

Definition toPerlVersion (d : strict) : outcome Version :=
  if nonEmpty (decimal d) then
    StrictDecimalForm.toPerlVersion (decimalMatches d) (original d)
  else if nonEmpty (dotted d) then
    StrictDottedForm.toPerlVersion (dottedMatches d) (original d)
  else Panic.

End Strict.

Definition strictVersion (matches : list string) : outcome Version :=
  Strict.toPerlVersion
    {| Strict.original := at_ matches 0;
       Strict.decimal := at_ matches 1;
       Strict.decimalMatches :=
         {| StrictDecimalForm.integerPart := at_ matches 2;
            StrictDecimalForm.fractionPart := at_ matches 3 |};
       Strict.dotted := at_ matches 4;
       Strict.dottedMatches :=
         {| StrictDottedForm.integerPart := at_ matches 5;
            StrictDottedForm.dottedGroup := at_ matches 6 |} |}.

(** ** Parse *)

(** the tail of Parse, from the comment "try strict next" on *)
Definition tryStrict (strictMatch : option (list string)) (version : string)
    : outcome Version :=
  match strictMatch with
  | Some strictMatch => strictVersion strictMatch
  | None => Err (errInvalidVersionString version)
  end.

Definition Parse (version : string) : outcome Version :=
  let laxMatch := Regexp.FindStringSubmatch laxRegexp version in
  let strictMatch := Regexp.FindStringSubmatch strictRegexp version in
  match laxMatch with
  | Some laxMatch =>
      match strictMatch with
      | None => laxVersion laxMatch
      | Some strictMatch' =>
          if (String.length (at_ strictMatch' 0) <? String.length (at_ laxMatch 0))%nat
          then
            match laxVersion laxMatch with
            | Ok lax => Ok lax
            | Err _ => tryStrict strictMatch version
            | Panic => Panic
            end
          else tryStrict strictMatch version
      end
  | None => tryStrict strictMatch version
  end.

Definition Undef : Version :=
  {| original := "undef"; alpha := false; qv := false; version := [0%Z] |}.

Definition IsValid (version : string) : outcome bool :=
  match Parse version with
  | Ok _ => Ok true
  | Err _ => Ok false
  | Panic => Panic
  end.

(** ** Methods of Version *)

Definition IsAlpha (v : Version) : bool := alpha v.

Definition IsQv (v : Version) : bool := qv v.

Definition Stringify (v : Version) : string :=
  if String.eqb (original v) "undef" then "0" else original v.

Definition Raw (v : Version) : string := original v.

(** *** Comparisons *)

(** [for i := 0; i < length; i++], with [steps = length - i] rounds to go *)
Fixpoint lessThanLoop (mine theirs : list Z) (i steps : nat) : bool :=
  match steps with
  | O => false
  | S steps' =>
      if (nth i mine 0 <? nth i theirs 0)%Z then true
      else if (nth i mine 0 >? nth i theirs 0)%Z then false
      else lessThanLoop mine theirs (S i) steps'
  end.

Fixpoint greaterThanLoop (mine theirs : list Z) (i steps : nat) : bool :=
  match steps with
  | O => false
  | S steps' =>
      if (nth i mine 0 >? nth i theirs 0)%Z then true
      else if (nth i mine 0 <? nth i theirs 0)%Z then false
      else greaterThanLoop mine theirs (S i) steps'
  end.

Definition LessThan (v other : Version) : bool :=
  let length := min (List.length (version v)) (List.length (version other)) in
  lessThanLoop (version v) (version other) 0 length.

Definition GreaterThan (v other : Version) : bool :=
  let length := min (List.length (version v)) (List.length (version other)) in
  greaterThanLoop (version v) (version other) 0 length.

Definition Equal (v other : Version) : bool :=
  negb (LessThan v other || GreaterThan v other).

Definition LessThanOrEqual (v other : Version) : bool :=
  Equal v other || LessThan v other.

Definition GreaterThanOrEqual (v other : Version) : bool :=
  Equal v other || GreaterThan v other.

Definition NotEqual (v other : Version) : bool := negb (Equal v other).

Definition Compare (v other : Version) : Z :=
  if LessThan v other then (-1)%Z
  else if GreaterThan v other then 1%Z
  else 0%Z.

(** *** package unicode/utf8 *)

Module Utf8.

Definition byte (c : ascii) : N := N_of_ascii c.

Definition inRange (lo hi : N) (c : ascii) : bool :=
  ((lo <=? byte c) && (byte c <=? hi))%N.

(** the table of first bytes: the size of the encoding that a byte opens,
    and the range that its second byte must be in *)
Definition first (c : ascii) : option (nat * N * N) :=
  if inRange 194 223 c then Some (2, 128%N, 191%N)
  else if inRange 224 224 c then Some (3, 160%N, 191%N)
  else if inRange 225 236 c then Some (3, 128%N, 191%N)
  else if inRange 237 237 c then Some (3, 128%N, 159%N)
  else if inRange 238 239 c then Some (3, 128%N, 191%N)
  else if inRange 240 240 c then Some (4, 144%N, 191%N)
  else if inRange 241 243 c then Some (4, 128%N, 191%N)
  else if inRange 244 244 c then Some (4, 128%N, 143%N)
  else None.

Fixpoint continuation (n : nat) (s : string) : bool :=
  match n, s with
  | O, _ => true
  | S n', String c s' => inRange 128 191 c && continuation n' s'
  | S _, "" => false
  end.

(** The size that utf8.DecodeRuneInString returns with a rune that is
    properly encoded at the head of [s]; 0 stands for its (RuneError, 1) and
    (RuneError, 0), the head of [s] being no encoding or [s] being empty. *)
Definition runeLen (s : string) : nat :=
  match s with
  | "" => 0
  | String c0 rest =>
      if (byte c0 <? 128)%N then 1
      else
        match first c0, rest with
        | Some (size, lo, hi), String c1 rest' =>
            if inRange lo hi c1 && continuation (size - 2) rest'
            then size else 0
        | _, _ => 0
        end
  end.

(** utf8.ValidString, rune by rune *)
Fixpoint validFrom (fuel : nat) (s : string) : bool :=
  match s, fuel with
  | "", _ => true
  | _, O => false
  | _, S fuel' =>
      match runeLen s with
      | O => false
      | size => validFrom fuel' (Strings.drop size s)
      end
  end.

Definition ValidString (s : string) : bool := validFrom (String.length s) s.

(** utf8.EncodeRune *)
Definition EncodeRune (r : N) : string :=
  let b (n : N) : ascii := ascii_of_N n in
  let low6 (n : N) : N := N.lor 128 (N.land n 63) in
  (if r <? 128 then String (b r) ""
   else if r <? 2048 then
     String (b (N.lor 192 (N.shiftr r 6))) (String (b (low6 r)) "")
   else if (55296 <=? r) && (r <=? 57343) || (1114111 <? r) then
     String (b 239) (String (b 191) (String (b 189) ""))
   else if r <? 65536 then
     String (b (N.lor 224 (N.shiftr r 12)))
       (String (b (low6 (N.shiftr r 6))) (String (b (low6 r)) ""))
   else
     String (b (N.lor 240 (N.shiftr r 18)))
       (String (b (low6 (N.shiftr r 12)))
          (String (b (low6 (N.shiftr r 6))) (String (b (low6 r)) ""))))%N.

(** the encoding of U+FFFD, utf8.RuneError *)
Definition replacement : string := EncodeRune 65533%N.

End Utf8.

(** *** package encoding/json

    MarshalJSON and UnmarshalJSON mirror the four fields into an anonymous
    struct and hand it to encoding/json.  The library is not part of the
    package; what follows is its behaviour on that struct: Marshal as its
    encoder writes the struct, Unmarshal as its scanner and decoder read any
    text into it. *)

Module Json.

Local Open Scope string_scope.

(** the anonymous struct declared by both methods, with its exported fields *)
Record object : Type := {
  Original : string;
  Alpha : bool;
  Qv : bool;
  Version : list Z
}.

Definition dquote : ascii := "034"%char.
Definition backslash : ascii := "092"%char.

(** **** Encoding *)

Definition hex (n : N) : ascii :=
  match String.get (N.to_nat n) "0123456789abcdef" with
  | Some c => c
  | None => "0"%char
  end.

(** htmlSafeSet: the ASCII bytes that are written as they are *)
Definition htmlSafe (c : ascii) : bool :=
  Utf8.inRange 32 127 c
  && negb (Ascii.eqb c dquote || Ascii.eqb c backslash
           || Ascii.eqb c "<" || Ascii.eqb c ">" || Ascii.eqb c "&").

(** what appendString writes for a byte below utf8.RuneSelf.  (Before Go
    1.22 backspace and form feed were written as \u0008 and \u000c, which
    read back as the same bytes.) *)
Definition escapeByte (c : ascii) : string :=
  if htmlSafe c then String c ""
  else if Ascii.eqb c backslash || Ascii.eqb c dquote
  then String backslash (String c "")
  else if Ascii.eqb c "008" then String backslash "b"
  else if Ascii.eqb c "012" then String backslash "f"
  else if Ascii.eqb c "010" then String backslash "n"
  else if Ascii.eqb c "013" then String backslash "r"
  else if Ascii.eqb c "009" then String backslash "t"
  else String backslash
         (String "u" (String "0" (String "0"
            (String (hex (N.shiftr (Utf8.byte c) 4%N))
               (String (hex (N.land (Utf8.byte c) 15%N)) ""))))).

(** U+2028 and U+2029, as they are encoded *)
Definition lineSeparator : string := Utf8.EncodeRune 8232%N.
Definition paragraphSeparator : string := Utf8.EncodeRune 8233%N.

(** The loop of appendString over the bytes of [src], with HTML escaping
    as json.Marshal sets it: a byte that opens no encoding is written as the
    escape of U+FFFD, U+2028 and U+2029 are escaped, any other rune is
    copied. *)
Fixpoint appendLoop (fuel : nat) (src : string) : string :=
  match fuel, src with
  | S fuel', String c rest =>
      if (Utf8.byte c <? 128)%N then escapeByte c ++ appendLoop fuel' rest
      else
        match Utf8.runeLen src with
        | O => String backslash "ufffd" ++ appendLoop fuel' rest
        | size =>
            let rune := Strings.take size src in
            (if String.eqb rune lineSeparator then String backslash "u2028"
             else if String.eqb rune paragraphSeparator
                  then String backslash "u2029"
                  else rune)
            ++ appendLoop fuel' (Strings.drop size src)
        end
  | _, _ => ""
  end.

Definition appendString (src : string) : string :=
  String dquote (appendLoop (String.length src) src ++ String dquote "").

Definition appendBool (b : bool) : string := if b then "true" else "false".

(** strconv.AppendInt in base 10 *)
Definition appendInt (n : Z) : string := NilZero.string_of_int (Z.to_int n).

Fixpoint appendInts (l : list Z) : string :=
  match l with
  | [] => ""
  | [n] => appendInt n
  | n :: l' => appendInt n ++ "," ++ appendInts l'
  end.

(** A nil slice is written as null, and the empty list stands for the nil
    slice of the zero Version.  (An empty slice that is not nil, which only
    the decoding of an empty array leaves, is written as an empty array; it
    reads back as an empty slice too.) *)
Definition appendSlice (l : list Z) : string :=
  match l with
  | [] => "null"
  | _ => "[" ++ appendInts l ++ "]"
  end.

(** json.Marshal of a pointer to the struct: the members in the order of
    the fields, under the names of their tags, without white space.  None of
    the four types can fail to encode. *)
Definition Marshal (obj : object) : outcome string :=
  Ok ("{" ++ appendString "original" ++ ":" ++ appendString (Original obj)
      ++ "," ++ appendString "alpha" ++ ":" ++ appendBool (Alpha obj)
      ++ "," ++ appendString "qv" ++ ":" ++ appendBool (Qv obj)
      ++ "," ++ appendString "version" ++ ":" ++ appendSlice (Version obj)
      ++ "}").

(** **** Scanning *)

#[warnings="-register-all"]
Inductive value : Type :=
| Null
| Bool (b : bool)
| Number (literal : string)
| Text (s : string)
| Array (elements : list value)
| Object (members : list (string * value)).

Definition isSpace (c : ascii) : bool :=
  Ascii.eqb c " " || Ascii.eqb c "009" || Ascii.eqb c "013"
  || Ascii.eqb c "010".

Fixpoint skipSpace (s : string) : string :=
  match s with
  | String c s' => if isSpace c then skipSpace s' else s
  | "" => ""
  end.

Definition hexVal (c : ascii) : option N :=
  if Utf8.inRange 48 57 c then Some (Utf8.byte c - 48)%N
  else if Utf8.inRange 97 102 c then Some (Utf8.byte c - 87)%N
  else if Utf8.inRange 65 70 c then Some (Utf8.byte c - 55)%N
  else None.

(** the states of the scanner inside a string literal *)
Inductive inString : Type :=
| InString
| InStringEsc
| InStringEscU (digits : nat).

Definition andMore (c : ascii) (found : option (string * string))
    : option (string * string) :=
  match found with
  | Some (literal, rest) => Some (String c literal, rest)
  | None => None
  end.

(** The scanner from behind the opening quote: the literal up to its
    closing quote, escapes as written, and the text behind it.  A control
    byte, an unknown escape and the end of the text are syntax errors. *)
Fixpoint scanString (state : inString) (s : string)
    : option (string * string) :=
  match s with
  | "" => None
  | String c s' =>
      match state with
      | InString =>
          if Ascii.eqb c dquote then Some ("", s')
          else if Ascii.eqb c backslash
          then andMore c (scanString InStringEsc s')
          else if (Utf8.byte c <? 32)%N then None
          else andMore c (scanString InString s')
      | InStringEsc =>
          if Ascii.eqb c "b" || Ascii.eqb c "f" || Ascii.eqb c "n"
             || Ascii.eqb c "r" || Ascii.eqb c "t" || Ascii.eqb c backslash
             || Ascii.eqb c "/" || Ascii.eqb c dquote
          then andMore c (scanString InString s')
          else if Ascii.eqb c "u"
          then andMore c (scanString (InStringEscU 4) s')
          else None
      | InStringEscU digits =>
          match hexVal c, digits with
          | Some _, 1 => andMore c (scanString InString s')
          | Some _, S digits' =>
              andMore c (scanString (InStringEscU digits') s')
          | _, _ => None
          end
      end
  end.

(** getu4 behind the backslash and the u: the value of four hex digits *)
Definition getu4 (s : string) : option N :=
  match s with
  | String a (String b (String c (String d _))) =>
      match hexVal a, hexVal b, hexVal c, hexVal d with
      | Some a, Some b, Some c, Some d =>
          Some (((a * 16 + b) * 16 + c) * 16 + d)%N
      | _, _, _, _ => None
      end
  | _ => None
  end.

(** What unquote writes for the escape whose four hex digits open [s], and
    the bytes of [s] that it takes: a surrogate makes one rune with the
    escaped surrogate that follows it, and is replaced by U+FFFD when none
    follows. *)
Definition unquoteU (s : string) : string * nat :=
  match getu4 s with
  | None => (Utf8.replacement, 4)
  | Some r =>
      if ((55296 <=? r) && (r <=? 57343))%N then
        match Strings.drop 4 s with
        | String e (String u s') =>
            match getu4 s' with
            | Some r' =>
                if Ascii.eqb e backslash && Ascii.eqb u "u"
                   && (r <? 56320)%N && (56320 <=? r')%N && (r' <=? 57343)%N
                then (Utf8.EncodeRune
                        (N.lor (N.shiftl (r - 55296) 10) (r' - 56320)
                         + 65536)%N, 10)
                else (Utf8.replacement, 4)
            | None => (Utf8.replacement, 4)
            end
        | _ => (Utf8.replacement, 4)
        end
      else (Utf8.EncodeRune r, 4)
  end.

Definition unescape (c : ascii) : ascii :=
  if Ascii.eqb c "b" then "008"
  else if Ascii.eqb c "f" then "012"
  else if Ascii.eqb c "n" then "010"
  else if Ascii.eqb c "r" then "013"
  else if Ascii.eqb c "t" then "009"
  else c.

(** The loop of unquote over a scanned literal: escapes are resolved, and
    the text is coerced to valid UTF-8, a byte that is no encoding being
    replaced by U+FFFD. *)
Fixpoint unquoteLoop (fuel : nat) (s : string) : string :=
  match fuel, s with
  | S fuel', String c rest =>
      if Ascii.eqb c backslash then
        match rest with
        | String e rest' =>
            if Ascii.eqb e "u" then
              let '(text, used) := unquoteU rest' in
              text ++ unquoteLoop fuel' (Strings.drop used rest')
            else String (unescape e) (unquoteLoop fuel' rest')
        | "" => ""
        end
      else
        match Utf8.runeLen s with
        | O => Utf8.replacement ++ unquoteLoop fuel' rest
        | size =>
            Strings.take size s ++ unquoteLoop fuel' (Strings.drop size s)
        end
  | _, _ => ""
  end.

Definition unquote (literal : string) : string :=
  unquoteLoop (String.length literal) literal.

Fixpoint spanDigits (s : string) : string * string :=
  match s with
  | String c s' =>
      if Strconv.isDigit c
      then let '(digits, rest) := spanDigits s' in (String c digits, rest)
      else ("", s)
  | "" => ("", "")
  end.

(** The scanner on a number: an optional minus, then 0 or digits that do
    not start with 0, then an optional fraction and an optional exponent,
    each with one digit at least. *)
Definition scanNumber (s : string) : option (string * string) :=
  let '(sign, s) :=
    match s with
    | String "-" s' => ("-", s')
    | _ => ("", s)
    end in
  let integer :=
    match s with
    | String "0" s' => Some ("0", s')
    | _ => match spanDigits s with
           | ("", _) => None
           | found => Some found
           end
    end in
  match integer with
  | None => None
  | Some (int, s) =>
      let fraction :=
        match s with
        | String "." s' =>
            match spanDigits s' with
            | ("", _) => None
            | (digits, rest) => Some ("." ++ digits, rest)
            end
        | _ => Some ("", s)
        end in
      match fraction with
      | None => None
      | Some (frac, s) =>
          let exponent :=
            match s with
            | String e s' =>
                if Ascii.eqb e "e" || Ascii.eqb e "E" then
                  let '(esign, s'') :=
                    match s' with
                    | String "+" t => ("+", t)
                    | String "-" t => ("-", t)
                    | _ => ("", s')
                    end in
                  match spanDigits s'' with
                  | ("", _) => None
                  | (digits, rest) =>
                      Some (String e (esign ++ digits), rest)
                  end
                else Some ("", s)
            | "" => Some ("", s)
            end in
          match exponent with
          | None => None
          | Some (exp, rest) => Some (sign ++ int ++ frac ++ exp, rest)
          end
      end
  end.

Definition scanLiteral (word : string) (v : value) (s : string)
    : option (value * string) :=
  if Strings.HasPrefix s word
  then Some (v, Strings.drop (String.length word) s) else None.

(** maxNestingDepth of the scanner *)
Definition maxNestingDepth : N := 10000%N.

(** The scanner on a value, its white space skipped: the value and the
    text behind it, [None] for a syntax error.  [depth] counts the arrays
    and objects that are open; [fuel] bounds the values still to read and is
    never short when it is the length of the text. *)
Fixpoint scanValue (fuel : nat) (depth : N) (s : string)
    : option (value * string) :=
  match fuel with
  | O => None
  | S fuel' =>
      match skipSpace s with
      | "" => None
      | String c s' =>
          if Ascii.eqb c "{" then
            if (maxNestingDepth <=? depth)%N then None
            else
              match skipSpace s' with
              | String "}" rest => Some (Object [], rest)
              | _ =>
                  match scanMembers fuel' (depth + 1) s' with
                  | Some (members, rest) => Some (Object members, rest)
                  | None => None
                  end
              end
          else if Ascii.eqb c "[" then
            if (maxNestingDepth <=? depth)%N then None
            else
              match skipSpace s' with
              | String "]" rest => Some (Array [], rest)
              | _ =>
                  match scanElements fuel' (depth + 1) s' with
                  | Some (elements, rest) => Some (Array elements, rest)
                  | None => None
                  end
              end
          else if Ascii.eqb c dquote then
            match scanString InString s' with
            | Some (literal, rest) => Some (Text (unquote literal), rest)
            | None => None
            end
          else if Ascii.eqb c "t" then
            scanLiteral "true" (Bool true) (String c s')
          else if Ascii.eqb c "f" then
            scanLiteral "false" (Bool false) (String c s')
          else if Ascii.eqb c "n" then scanLiteral "null" Null (String c s')
          else
            match scanNumber (String c s') with
            | Some (literal, rest) => Some (Number literal, rest)
            | None => None
            end
      end
  end
with scanMembers (fuel : nat) (depth : N) (s : string)
    : option (list (string * value) * string) :=
  match fuel with
  | O => None
  | S fuel' =>
      match skipSpace s with
      | String q s' =>
          if Ascii.eqb q dquote then
            match scanString InString s' with
            | Some (literal, s'') =>
                match skipSpace s'' with
                | String ":" s''' =>
                    match scanValue fuel' depth s''' with
                    | Some (v, rest) =>
                        match skipSpace rest with
                        | String "," rest' =>
                            match scanMembers fuel' depth rest' with
                            | Some (members, rest'') =>
                                Some ((unquote literal, v) :: members, rest'')
                            | None => None
                            end
                        | String "}" rest' =>
                            Some ([(unquote literal, v)], rest')
                        | _ => None
                        end
                    | None => None
                    end
                | _ => None
                end
            | None => None
            end
          else None
      | "" => None
      end
  end
with scanElements (fuel : nat) (depth : N) (s : string)
    : option (list value * string) :=
  match fuel with
  | O => None
  | S fuel' =>
      match scanValue fuel' depth s with
      | Some (v, rest) =>
          match skipSpace rest with
          | String "," rest' =>
              match scanElements fuel' depth rest' with
              | Some (elements, rest'') => Some (v :: elements, rest'')
              | None => None
              end
          | String "]" rest' => Some ([v], rest')
          | _ => None
          end
      | None => None
      end
  end.

(** checkValid and the scan of the decoder: the one value of the text, with
    nothing but white space around it *)
Definition scan (data : string) : option value :=
  match scanValue (S (String.length data)) 0%N data with
  | Some (v, rest) =>
      match skipSpace rest with
      | "" => Some v
      | _ => None
      end
  | None => None
  end.

(** **** Decoding into the struct *)

(** bytes.EqualFold of a key with a field name of lower-case ASCII letters:
    the letters match in either case, and so does U+017F, the long s, for s,
    and U+212A, the Kelvin sign, for k *)
Fixpoint equalFold (name key : string) : bool :=
  match name, key with
  | "", "" => true
  | String n name', String c key' =>
      if Ascii.eqb c n || (Utf8.inRange 65 90 c
                           && (Utf8.byte c + 32 =? Utf8.byte n)%N)
      then equalFold name' key'
      else if Ascii.eqb n "s" && Strings.HasPrefix key (Utf8.EncodeRune 383%N)
      then equalFold name' (Strings.drop 1 key')
      else if Ascii.eqb n "k" && Strings.HasPrefix key (Utf8.EncodeRune 8490%N)
      then equalFold name' (Strings.drop 2 key')
      else false
  | _, _ => false
  end.

(** an element of the array that is decoded into a []int64: a number that
    strconv.ParseInt converts to an int64, or null, which leaves the zero of
    the new element; [None] is an UnmarshalTypeError *)
Fixpoint decodeInts (elements : list value) : option (list Z) :=
  match elements with
  | [] => Some []
  | element :: elements' =>
      let n :=
        match element with
        | Number literal => Strconv.Atoi literal
        | Null => Some 0%Z
        | _ => None
        end in
      match n, decodeInts elements' with
      | Some n, Some ns => Some (n :: ns)
      | _, _ => None
      end
  end.

(** One member of the object into the field that its key names, if any;
    null leaves a string or a bool as it is and makes the slice nil; a
    value of another type than the field's is an UnmarshalTypeError. *)
Definition decodeMember (obj : object) (member : string * value)
    : option object :=
  let '(key, v) := member in
  if equalFold "original" key then
    match v with
    | Text s => Some {| Original := s; Alpha := Alpha obj; Qv := Qv obj;
                        Version := Version obj |}
    | Null => Some obj
    | _ => None
    end
  else if equalFold "alpha" key then
    match v with
    | Bool b => Some {| Original := Original obj; Alpha := b; Qv := Qv obj;
                        Version := Version obj |}
    | Null => Some obj
    | _ => None
    end
  else if equalFold "qv" key then
    match v with
    | Bool b => Some {| Original := Original obj; Alpha := Alpha obj; Qv := b;
                        Version := Version obj |}
    | Null => Some obj
    | _ => None
    end
  else if equalFold "version" key then
    match v with
    | Array elements =>
        match decodeInts elements with
        | Some ns => Some {| Original := Original obj; Alpha := Alpha obj;
                             Qv := Qv obj; Version := ns |}
        | None => None
        end
    | Null => Some {| Original := Original obj; Alpha := Alpha obj;
                      Qv := Qv obj; Version := [] |}
    | _ => None
    end
  else Some obj.

Fixpoint decodeMembers (obj : object) (members : list (string * value))
    : option object :=
  match members with
  | [] => Some obj
  | member :: members' =>
      match decodeMember obj member with
      | Some obj' => decodeMembers obj' members'
      | None => None
      end
  end.

(** json.Unmarshal into a pointer to the zero struct: a syntax error of the
    text, or a value that does not fit its field, is returned as an error;
    members that name no field are skipped, and of members that name the
    same field the last one counts. *)
Definition Unmarshal (data : string) : outcome object :=
  let zero :=
    {| Original := ""; Alpha := false; Qv := false; Version := [] |} in
  match scan data with
  | Some (Object members) =>
      match decodeMembers zero members with
      | Some obj => Ok obj
      | None => Err errJSON
      end
  | Some Null => Ok zero
  | _ => Err errJSON
  end.

End Json.

Definition MarshalJSON (v : Version) : outcome string :=
  let data :=
    {| Json.Original := original v;
       Json.Alpha := alpha v;
       Json.Qv := qv v;
       Json.Version := version v |} in
  Json.Marshal data.

(** The receiver [v] is updated in place: the result is the receiver after
    the call together with the returned error ([None] is nil). *)
Definition UnmarshalJSON (v : Version) (data : string)
    : outcome (Version * option error) :=
  match Json.Unmarshal data with
  | Ok obj =>
      Ok ({| original := Json.Original obj;
             alpha := Json.Alpha obj;
             qv := Json.Qv obj;
             version := Json.Version obj |}, None)
  | Err err => Ok (v, Some err)
  | Panic => Panic
  end.

(** ** The rest of the package *)

(** strings.Join *)
Fixpoint Join (elems : list string) (sep : string) : string :=
  match elems with
  | [] => ""
  | [elem] => elem
  | elem :: elems' => elem ++ sep ++ Join elems' sep
  end.

(** [fmt.Sprintf("%d", n)]: decimal, with a minus sign when negative *)
Definition formatInt (n : Z) : string := NilZero.string_of_int (Z.to_int n).

Definition Normal (v : Version) : string :=
  let num := List.length (version v) in
  let num := if (num <? 3)%nat then 3 else num in
  let fixed := copy (make num) (version v) in
  let asStrings := map formatInt fixed in
  "v" ++ Join asStrings ".".

(** the error is returned with two zero Versions, which no caller reads *)
Definition parseMulti (a b : string) : outcome (Version * Version) :=
  do aPv <- Parse a;
  do bPv <- Parse b;
  Ok (aPv, bPv).

(** an error of parseMulti becomes a panic *)
Definition CompatibleWith (candidate target : string) : outcome bool :=
  match parseMulti candidate target with
  | Ok (candidatePv, targetPv) => Ok (GreaterThanOrEqual candidatePv targetPv)
  | Err _ => Panic
  | Panic => Panic
  end.

Definition MustParse (version : string) : outcome Version :=
  match Parse version with
  | Ok v => Ok v
  | Err _ => Panic
  | Panic => Panic
  end.

(** ** The runs of a pattern

    [accepts r g text cap text' cap']: the pattern [r], its groups numbered
    from [g], can match at the start of [text] with submatches [cap], leaving
    the text [text'] and the submatches [cap'].  This is the matcher without
    its order of preference. *)

Fixpoint laps (R : string -> Regexp.captures -> string -> Regexp.captures -> Prop)
    (n : nat) (text : string) (cap : Regexp.captures)
    (text' : string) (cap' : Regexp.captures) : Prop :=
  match n with
  | O => text' = text /\ cap' = cap
  | S n' =>
      exists mid capm, R text cap mid capm /\ laps R n' mid capm text' cap'
  end.

Fixpoint accepts (r : Regexp.regex) (g : nat) (text : string)
    (cap : Regexp.captures) (text' : string) (cap' : Regexp.captures) : Prop :=
  match r with
  | Regexp.Empty => text' = text /\ cap' = cap
  | Regexp.Lit c => text = String c text' /\ cap' = cap
  | Regexp.Class lo hi =>
      (exists b, text = String b text' /\ Regexp.inClass lo hi b = true)
      /\ cap' = cap
  | Regexp.Cat r1 r2 =>
      exists mid capm,
        accepts r1 g text cap mid capm
        /\ accepts r2 (g + Regexp.NumSubexp r1) mid capm text' cap'
  | Regexp.Alt r1 r2 =>
      accepts r1 g text cap text' cap'
      \/ accepts r2 (g + Regexp.NumSubexp r1) text cap text' cap'
  | Regexp.Repeat lo hi r1 =>
      exists n,
        lo <= n
        /\ match hi with Some hi' => n <= lo + (hi' - lo) | None => True end
        /\ laps (accepts r1 g) n text cap text' cap'
  | Regexp.Group r1 =>
      exists cap1,
        accepts r1 (S g) text cap text' cap1
        /\ cap' = Regexp.setCapture g (Regexp.consumed text text') cap1
  | Regexp.EndText => text = "" /\ text' = "" /\ cap' = cap
  end.

(** ** Vocabulary of the properties *)

(** the components agree on every index of the common length *)
Definition agreeOnCommon (mine theirs : list Z) : Prop :=
  forall i, i < min (List.length mine) (List.length theirs) ->
            nth i mine 0%Z = nth i theirs 0%Z.

(** [j] is the first index, from [i] on, where the components differ *)
Definition firstDifference (mine theirs : list Z) (i j : nat) : Prop :=
  i <= j /\ (forall k, i <= k < j -> nth k mine 0%Z = nth k theirs 0%Z)
  /\ nth j mine 0%Z <> nth j theirs 0%Z.

(** a call that may panic but returns no error *)
Definition noErr {A : Type} (m : outcome A) : Prop := forall e, m <> Err e.

(** a fragment captured by an optional group [lead][0-9]+ of the grammar:
    empty when the group took no part, else the lead byte and digits *)
Definition fragment (lead : ascii) (s : string) : bool :=
  match s with
  | "" => true
  | String c digits => Ascii.eqb c lead && nonEmpty digits && Strconv.allDigits digits
  end.

(** the digits of such a fragment *)
Definition digitsOf (s : string) : string := Strings.drop 1 s.

Definition endsInDigit (text : string) : bool :=
  match Strings.lastByte text with
  | Some b => Strconv.isDigit b
  | None => false
  end.

Definition endsWithDot (text : string) : bool :=
  match Strings.lastByte text with
  | Some b => Ascii.eqb b "."
  | None => false
  end.

(** *** The shapes of the submatches *)

(** one digit or more *)
Definition digitRun (s : string) : bool := nonEmpty s && Strconv.allDigits s.

(** digits whose value an int64 holds: what strconv.Atoi converts *)
Definition fitsInt64 (s : string) : bool :=
  (decimalValue s <=? Strconv.maxInt)%Z.

(** the text ".g1.g2...": each group behind its dot *)
Fixpoint dots (groups : list string) : string :=
  match groups with
  | [] => ""
  | group :: groups' => "." ++ group ++ dots groups'
  end.

(** at least [n] dotted groups of digits *)
Definition dottedText (n : nat) (s : string) : Prop :=
  exists groups,
    s = dots groups /\ n <= List.length groups
    /\ Forall (fun group => digitRun group = true) groups.

(** the integers of the strict grammar: "0", or digits that start with
    none *)
Definition strictInt (s : string) : bool :=
  match s with
  | "" => false
  | String b ds =>
      String.eqb s "0"
      || (Strconv.isDigit b && negb (Ascii.eqb b "0") && Strconv.allDigits ds)
  end.

(** What FindStringSubmatch can return for the lax pattern: the whole match,
    then the fourteen groups, of which the ones of the alternative taken are
    set. *)
Inductive laxSubmatches : list string -> Prop :=
| laxUndefined :
    laxSubmatches
      ["undef"; "undef"; ""; ""; ""; ""; ""; ""; ""; ""; ""; ""; ""; ""; ""]
| laxDottedA (int dotted alpha : string) :
    digitRun int = true -> dottedText 0 dotted -> fragment "_" alpha = true ->
    (dotted = "" -> alpha = "") ->
    laxSubmatches
      [("v" ++ int ++ dotted ++ alpha)%string; ""; ("v" ++ int ++ dotted ++ alpha)%string;
       int; dotted; alpha; ""; ""; ""; ""; ""; ""; ""; ""; ""]
| laxDottedB (int dotted alpha : string) :
    int = "" \/ digitRun int = true -> dottedText 2 dotted ->
    fragment "_" alpha = true ->
    laxSubmatches
      [(int ++ dotted ++ alpha)%string; ""; (int ++ dotted ++ alpha)%string; ""; ""; "";
       int; dotted; alpha; ""; ""; ""; ""; ""; ""]
| laxDecimalA (int frac dot alpha : string) :
    digitRun int = true -> fragment "." frac = true ->
    dot = "" \/ (dot = "." /\ frac = "") -> fragment "_" alpha = true ->
    laxSubmatches
      [(int ++ frac ++ dot ++ alpha)%string; ""; ""; ""; ""; ""; ""; ""; "";
       (int ++ frac ++ dot ++ alpha)%string; int; frac; alpha; ""; ""]
| laxDecimalB (frac alpha : string) :
    frac <> "" -> fragment "." frac = true -> fragment "_" alpha = true ->
    laxSubmatches
      [(frac ++ alpha)%string; ""; ""; ""; ""; ""; ""; ""; ""; (frac ++ alpha)%string;
       ""; ""; ""; frac; alpha].

(** the same for the strict pattern and its six groups *)
Inductive strictSubmatches : list string -> Prop :=
| strictDecimal (int frac : string) :
    digitRun int = true -> fragment "." frac = true ->
    strictInt int = true ->
    strictSubmatches [(int ++ frac)%string; (int ++ frac)%string; int; frac; ""; ""; ""]
| strictDotted (int dotted : string) :
    digitRun int = true -> dottedText 2 dotted ->
    strictInt int = true ->
    (exists groups,
        dotted = dots groups
        /\ Forall (fun group =>
                     digitRun group = true /\ String.length group <= 3)
             groups) ->
    strictSubmatches
      [("v" ++ int ++ dotted)%string; ""; ""; ""; ("v" ++ int ++ dotted)%string; int; dotted].

(** the groups with the digits of the alpha suffix appended to the last *)
Fixpoint appendToLast (groups : list string) (extra : string) : list string :=
  match groups with
  | [] => []
  | [group] => [(group ++ extra)%string]
  | group :: groups' => group :: appendToLast groups' extra
  end.

(** [strings.IndexByte(s, c) >= 0] *)
Fixpoint hasByte (c : ascii) (s : string) : bool :=
  match s with
  | "" => false
  | String b s' => Ascii.eqb b c || hasByte c s'
  end.

(** [strings.HasSuffix] *)
Fixpoint HasSuffix (s suffix : string) : bool :=
  match s with
  | "" => String.eqb "" suffix
  | String _ s' => String.eqb s suffix || HasSuffix s' suffix
  end.

(** [s] coerced to valid UTF-8 as encoding/json does it: every byte that
    opens no encoding is replaced by U+FFFD *)
Fixpoint coerceLoop (fuel : nat) (s : string) : string :=
  match fuel, s with
  | S fuel', String _ rest =>
      match Utf8.runeLen s with
      | O => (Utf8.replacement ++ coerceLoop fuel' rest)%string
      | size =>
          (Strings.take size s ++ coerceLoop fuel' (Strings.drop size s))%string
      end
  | _, _ => ""
  end.

Definition coerceUTF8 (s : string) : string := coerceLoop (String.length s) s.

(** text of bytes below 128 *)
Fixpoint isASCII (s : string) : bool :=
  match s with
  | "" => true
  | String c s' => (Utf8.byte c <? 128)%N && isASCII s'
  end.

(** the values of Go's int64 *)
Definition int64 (n : Z) : Prop := (Strconv.minInt <= n <= Strconv.maxInt)%Z.

(** *** The texts of the record codec *)

(** the literal found behind [p] with [p] in front of it *)
Definition prefixed (p : string) (found : option (string * string))
    : option (string * string) :=
  match found with
  | Some (literal, rest) => Some ((p ++ literal)%string, rest)
  | None => None
  end.

(** the scanner passes over [p] inside a string literal *)
Definition passes (p : string) : Prop :=
  forall t,
    Json.scanString Json.InString (p ++ t)
    = prefixed p (Json.scanString Json.InString t).

Fixpoint allHigh (s : string) : bool :=
  match s with
  | "" => true
  | String c s' => negb (Utf8.byte c <? 128)%N && allHigh s'
  end.

(** the bytes that end a number inside an array *)
Definition closes (rest : string) : Prop :=
  exists rest', rest = String "," rest' \/ rest = String "]" rest'.

(** a printed integer opens with a digit or a minus *)
Definition leads (c : ascii) : bool := Strconv.isDigit c || Ascii.eqb c "-".

Definition numbers (l : list Z) : list Json.value :=
  map (fun n => Json.Number (Json.appendInt n)) l.

(** the value that the scanner finds for a printed slice *)
Definition slice (l : list Z) : Json.value :=
  match l with
  | [] => Json.Null
  | _ => Json.Array (numbers l)
  end.

(** the text that Marshal writes *)
Definition document (obj : Json.object) : string :=
  let quote := String Json.dquote in
  (String "{" (quote ("original" ++ quote (String ":"
     (Json.appendString (Json.Original obj) ++ String "," (quote ("alpha"
        ++ quote (String ":" (Json.appendBool (Json.Alpha obj) ++ String ","
             (quote ("qv" ++ quote (String ":"
                (Json.appendBool (Json.Qv obj) ++ String "," (quote ("version"
                   ++ quote (String ":" (Json.appendSlice (Json.Version obj)
                        ++ "}")))))))))))))))))%string.

(** and the members that the scanner finds in it *)
Definition members (obj : Json.object) : list (string * Json.value) :=
  [("original", Json.Text (coerceUTF8 (Json.Original obj)));
   ("alpha", Json.Bool (Json.Alpha obj));
   ("qv", Json.Bool (Json.Qv obj));
   ("version", slice (Json.Version obj))].

(** [whole] is the leftmost match of an end-anchored pattern in [text]: the
    longest suffix of [text] that the pattern matches from its first byte *)
Definition leftmostMatch (re : Regexp.Regexp) (text whole : string) : Prop :=
  exists skipped,
    text = (skipped ++ whole)%string
    /\ Regexp.matchAt re whole <> None
    /\ forall skipped' rest,
         text = (skipped' ++ rest)%string ->
         String.length skipped' < String.length skipped ->
         Regexp.matchAt re rest = None.

(** the chunks of three bytes that strconv.Atoi converts: three digits, or a
    sign and two digits *)
Definition chunkConverts (chunk : string) : bool :=
  match chunk with
  | String a (String b (String c "")) =>
      (Strconv.isDigit a || Ascii.eqb a "+" || Ascii.eqb a "-")
      && Strconv.isDigit b && Strconv.isDigit c
  | _ => false
  end.

(** the text ends in a digit followed by a dot *)
Fixpoint endsInDigitDot (text : string) : bool :=
  match text with
  | "" => false
  | String c rest =>
      (Strconv.isDigit c && String.eqb rest ".") || endsInDigitDot rest
  end.

(** the endings of the texts in which the lax pattern finds a match *)
Definition validEnding (text : string) : bool :=
  endsInDigit text || endsInDigitDot text || HasSuffix text "undef".

(** whether a pattern matches the empty string *)
Fixpoint nullable (r : Regexp.regex) : bool :=
  match r with
  | Regexp.Empty | Regexp.EndText => true
  | Regexp.Lit _ | Regexp.Class _ _ => false
  | Regexp.Cat r1 r2 => nullable r1 && nullable r2
  | Regexp.Alt r1 r2 => nullable r1 || nullable r2
  | Regexp.Repeat lo _ r1 => (lo =? 0)%nat || nullable r1
  | Regexp.Group r1 => nullable r1
  end.

(** no repetition of the pattern repeats a part that matches the empty
    string: the matcher then cuts no round of a run *)
Fixpoint productive (r : Regexp.regex) : bool :=
  match r with
  | Regexp.Cat r1 r2 | Regexp.Alt r1 r2 => productive r1 && productive r2
  | Regexp.Repeat _ _ r1 => negb (nullable r1) && productive r1
  | Regexp.Group r1 => productive r1
  | _ => true
  end.

(** the text does not go on with a digit *)
Definition noDigitNext (s : string) : Prop :=
  match s with
  | "" => True
  | String c _ => Strconv.isDigit c = false
  end.

(** what every Version built by the package satisfies *)
Definition wellFormed (v : Version) : Prop :=
  original v <> ""
  /\ version v <> []
  /\ Forall (fun x => (0 <= x)%Z) (version v)
  /\ (qv v = true -> 3 <= List.length (version v)).

(** * Properties *)

(** ** Comparator *)

Section Comparator.

Lemma min_is_min (a b : nat) : min a b = Nat.min a b.
Proof. unfold min. destruct (Nat.ltb_spec a b); lia. Qed.

Lemma lessThanLoop_spec (mine theirs : list Z) (steps i : nat) :
  lessThanLoop mine theirs i steps = true <->
  exists j, j < i + steps /\ firstDifference mine theirs i j
            /\ (nth j mine 0 < nth j theirs 0)%Z.
Proof.
  revert i. induction steps as [|steps IH]; intros i; simpl.
  - split; [discriminate|]. intros (j & Hj & (Hij & _) & _). lia.
  - destruct (Z.ltb_spec (nth i mine 0%Z) (nth i theirs 0%Z)) as [Hlt|Hge].
    + split; [intros _|reflexivity].
      exists i. repeat split; lia.
    + destruct (Z.gtb_spec (nth i mine 0%Z) (nth i theirs 0%Z)) as [Hgt|Hle].
      * split; [discriminate|].
        intros (j & Hj & (Hij & Hsame & Hne) & Hlt).
        destruct (Nat.eq_dec i j) as [->|Hneq]; [lia|].
        specialize (Hsame i). lia.
      * rewrite IH. split.
        -- intros (j & Hj & (Hij & Hsame & Hne) & Hlt).
           exists j. repeat split; try lia.
           intros k Hk. destruct (Nat.eq_dec k i) as [->|Hki]; [lia|].
           apply Hsame. lia.
        -- intros (j & Hj & (Hij & Hsame & Hne) & Hlt).
           assert (i <> j) by (intros ->; lia).
           exists j. repeat split; try lia.
           intros k Hk. apply Hsame. lia.
Qed.

Lemma greaterThanLoop_spec (mine theirs : list Z) (steps i : nat) :
  greaterThanLoop mine theirs i steps = true <->
  exists j, j < i + steps /\ firstDifference mine theirs i j
            /\ (nth j mine 0 > nth j theirs 0)%Z.
Proof.
  revert i. induction steps as [|steps IH]; intros i; simpl.
  - split; [discriminate|]. intros (j & Hj & (Hij & _) & _). lia.
  - destruct (Z.gtb_spec (nth i mine 0%Z) (nth i theirs 0%Z)) as [Hgt|Hle].
    + split; [intros _|reflexivity].
      exists i. repeat split; lia.
    + destruct (Z.ltb_spec (nth i mine 0%Z) (nth i theirs 0%Z)) as [Hlt|Hge].
      * split; [discriminate|].
        intros (j & Hj & (Hij & Hsame & Hne) & Hgt).
        destruct (Nat.eq_dec i j) as [->|Hneq]; [lia|].
        specialize (Hsame i). lia.
      * rewrite IH. split.
        -- intros (j & Hj & (Hij & Hsame & Hne) & Hgt).
           exists j. repeat split; try lia.
           intros k Hk. destruct (Nat.eq_dec k i) as [->|Hki]; [lia|].
           apply Hsame. lia.
        -- intros (j & Hj & (Hij & Hsame & Hne) & Hgt).
           assert (i <> j) by (intros ->; lia).
           exists j. repeat split; try lia.
           intros k Hk. apply Hsame. lia.
Qed.

Lemma LessThan_spec (v w : Version) :
  LessThan v w = true <->
  exists j, j < min (List.length (version v)) (List.length (version w))
            /\ firstDifference (version v) (version w) 0 j
            /\ (nth j (version v) 0 < nth j (version w) 0)%Z.
Proof. unfold LessThan. apply lessThanLoop_spec. Qed.

Lemma GreaterThan_spec (v w : Version) :
  GreaterThan v w = true <->
  exists j, j < min (List.length (version v)) (List.length (version w))
            /\ firstDifference (version v) (version w) 0 j
            /\ (nth j (version v) 0 > nth j (version w) 0)%Z.
Proof. unfold GreaterThan. apply greaterThanLoop_spec. Qed.

Lemma firstDifference_unique (mine theirs : list Z) (i j j' : nat) :
  firstDifference mine theirs i j -> firstDifference mine theirs i j' -> j = j'.
Proof.
  intros (Hij & Hsame & Hne) (Hij' & Hsame' & Hne').
  destruct (Nat.lt_trichotomy j j') as [Hlt|[Heq|Hgt]]; [|assumption|].
  - exfalso. apply Hne, Hsame'. lia.
  - exfalso. apply Hne', Hsame. lia.
Qed.

Lemma Less_Greater_exclusive (v w : Version) :
  LessThan v w = true -> GreaterThan v w = true -> False.
Proof.
  rewrite LessThan_spec, GreaterThan_spec.
  intros (j & _ & Hj & Hlt) (j' & _ & Hj' & Hgt).
  assert (j = j') by eauto using firstDifference_unique. subst. lia.
Qed.

(** a first difference exists below [n] unless all indices below [n] agree *)
Lemma firstDifference_or_agree (mine theirs : list Z) (n : nat) :
  (exists j, j < n /\ firstDifference mine theirs 0 j)
  \/ (forall i, i < n -> nth i mine 0%Z = nth i theirs 0%Z).
Proof.
  induction n as [|n [(j & Hj & Hd)|Hall]].
  - right. intros i Hi. lia.
  - left. exists j. split; [lia|assumption].
  - destruct (Z.eq_dec (nth n mine 0%Z) (nth n theirs 0%Z)) as [Heq|Hne].
    + right. intros i Hi. destruct (Nat.eq_dec i n) as [->|]; [assumption|].
      apply Hall. lia.
    + left. exists n. split; [lia|]. repeat split; try lia; try assumption.
      intros k Hk. apply Hall. lia.
Qed.

Lemma Equal_spec (v w : Version) :
  Equal v w = true <-> agreeOnCommon (version v) (version w).
Proof.
  unfold Equal, agreeOnCommon. rewrite negb_true_iff, orb_false_iff. split.
  - intros [Hl Hg].
    destruct (firstDifference_or_agree (version v) (version w)
                (min (List.length (version v)) (List.length (version w))))
      as [(j & Hj & Hd)|Hall]; [exfalso|assumption].
    destruct (Z.lt_trichotomy (nth j (version v) 0%Z) (nth j (version w) 0%Z))
      as [Hlt|[Heq|Hgt]].
    + assert (LessThan v w = true) by (apply LessThan_spec; eauto).
      congruence.
    + destruct Hd as (_ & _ & Hne). contradiction.
    + assert (GreaterThan v w = true)
        by (apply GreaterThan_spec; exists j; repeat split; try apply Hd; lia).
      congruence.
  - intros Hall. split.
    + destruct (LessThan v w) eqn:E; [|reflexivity].
      apply LessThan_spec in E. destruct E as (j & Hj & _ & Hlt).
      specialize (Hall j Hj). lia.
    + destruct (GreaterThan v w) eqn:E; [|reflexivity].
      apply GreaterThan_spec in E. destruct E as (j & Hj & _ & Hgt).
      specialize (Hall j Hj). lia.
Qed.

Lemma Equal_refl (v : Version) : Equal v v = true.
Proof. apply Equal_spec. intros i _. reflexivity. Qed.

Lemma Equal_sym (v w : Version) : Equal v w = Equal w v.
Proof.
  apply eq_true_iff_eq. rewrite !Equal_spec. unfold agreeOnCommon.
  rewrite !min_is_min, (Nat.min_comm (List.length (version w))).
  split; intros H i Hi; symmetry; apply H; assumption.
Qed.

Lemma Compare_cases (v w : Version) :
  (Compare v w = (-1)%Z <-> LessThan v w = true)
  /\ (Compare v w = 0%Z <-> Equal v w = true)
  /\ (Compare v w = 1%Z <-> GreaterThan v w = true).
Proof.
  pose proof (Less_Greater_exclusive v w) as Hex.
  unfold Compare, Equal.
  destruct (LessThan v w), (GreaterThan v w); simpl;
    repeat split; intros; try reflexivity; try discriminate;
    try lia; exfalso; auto.
Qed.

End Comparator.

(** C6: comparison is prefix-limited lexicographic.  LessThan and GreaterThan
    are decided by the first index, within the common length, where the
    components differ; two Versions are Equal exactly when their components
    agree on every index of the common length, whatever follows it.  Equal is
    reflexive and symmetric but not transitive: components [5] are Equal to
    [5,1] and to [5,2], which are NotEqual to each other.  Compare is -1, 0 or
    1, and is so exactly when LessThan, Equal or GreaterThan holds. *)
Theorem comparison_prefix_limited :
  (forall v w,
      (LessThan v w = true <->
       exists j, j < min (List.length (version v)) (List.length (version w))
                 /\ firstDifference (version v) (version w) 0 j
                 /\ (nth j (version v) 0 < nth j (version w) 0)%Z)
      /\ (GreaterThan v w = true <->
          exists j, j < min (List.length (version v)) (List.length (version w))
                    /\ firstDifference (version v) (version w) 0 j
                    /\ (nth j (version v) 0 > nth j (version w) 0)%Z)
      /\ (Equal v w = true <-> agreeOnCommon (version v) (version w)))
  /\ (forall v, Equal v v = true)
  /\ (forall v w, Equal v w = Equal w v)
  /\ (forall a b c,
         version a = [5%Z] -> version b = [5%Z; 1%Z] -> version c = [5%Z; 2%Z] ->
         Equal b a = true /\ Equal a c = true /\ Equal b c = false
         /\ NotEqual b c = true)
  /\ (forall v w,
         (Compare v w = (-1)%Z \/ Compare v w = 0%Z \/ Compare v w = 1%Z)
         /\ (Compare v w = (-1)%Z <-> LessThan v w = true)
         /\ (Compare v w = 0%Z <-> Equal v w = true)
         /\ (Compare v w = 1%Z <-> GreaterThan v w = true)).
Proof.
  split; [|split; [|split; [|split]]].
  - intros v w. split; [apply LessThan_spec|].
    split; [apply GreaterThan_spec|apply Equal_spec].
  - apply Equal_refl.
  - apply Equal_sym.
  - intros a b c Ha Hb Hc.
    unfold NotEqual, Equal, LessThan, GreaterThan. rewrite Ha, Hb, Hc.
    repeat split; reflexivity.
  - intros v w. split; [|apply Compare_cases].
    unfold Compare. destruct (LessThan v w), (GreaterThan v w); auto.
Qed.

(** C10: every comparison depends on the components only.  Two runs on
    Versions with the same components, whatever their original text, alpha
    and qv, give the same Compare, LessThan, GreaterThan and Equal (and the
    same derived relations). *)
Theorem comparison_components_only (v w v' w' : Version)
    (Hv : version v = version v') (Hw : version w = version w') :
  Compare v w = Compare v' w'
  /\ LessThan v w = LessThan v' w'
  /\ GreaterThan v w = GreaterThan v' w'
  /\ Equal v w = Equal v' w'
  /\ NotEqual v w = NotEqual v' w'
  /\ LessThanOrEqual v w = LessThanOrEqual v' w'
  /\ GreaterThanOrEqual v w = GreaterThanOrEqual v' w'.
Proof.
  unfold Compare, LessThanOrEqual, GreaterThanOrEqual, NotEqual, Equal,
    LessThan, GreaterThan.
  rewrite Hv, Hw. repeat split; reflexivity.
Qed.

Lemma comparison_components_only_witness :
  Compare (Build_Version "v1.2.3" false true [1; 2; 3]%Z)
          (Build_Version "1.2" false false [1; 200]%Z)
  = Compare (Build_Version "garbage" true false [1; 2; 3]%Z)
            (Build_Version "undef" true true [1; 200]%Z).
Proof.
  apply (comparison_components_only
           (Build_Version "v1.2.3" false true [1; 2; 3]%Z)
           (Build_Version "1.2" false false [1; 200]%Z)
           (Build_Version "garbage" true false [1; 2; 3]%Z)
           (Build_Version "undef" true true [1; 200]%Z));
    reflexivity.
Defined.

(** C9: Stringify tests the original text, not the identity of the undefined
    value.  It is "0" for every Version whose original is "undef", whatever
    its alpha, qv and components, and the original text for every other
    Version. *)
Theorem Stringify_tests_original :
  (forall (a q : bool) (components : list Z),
      Stringify (Build_Version "undef" a q components) = "0")
  /\ (forall v, original v = "undef" -> Stringify v = "0")
  /\ (forall v, original v <> "undef" -> Stringify v = original v).
Proof.
  split; [|split].
  - reflexivity.
  - intros v H. unfold Stringify. rewrite H. reflexivity.
  - intros v H. unfold Stringify.
    destruct (String.eqb_spec (original v) "undef"); [contradiction|reflexivity].
Qed.

(** ** Fraction grouping *)

Section FractionGrouping.

Lemma string_ind3 (P : string -> Prop) :
  P "" ->
  (forall a, P (String a "")) ->
  (forall a b, P (String a (String b ""))) ->
  (forall a b c rest, P rest -> P (String a (String b (String c rest)))) ->
  forall s, P s.
Proof.
  intros H0 H1 H2 H3 s.
  assert (P s /\ (forall a, P (String a s)) /\
          (forall a b, P (String a (String b s)))) as [H _].
  { induction s as [|c s (IH0 & IH1 & IH2)]; repeat split; auto. }
  exact H.
Qed.

Lemma append_assoc (s1 s2 s3 : string) :
  ((s1 ++ s2) ++ s3 = s1 ++ (s2 ++ s3))%string.
Proof. induction s1 as [|c s1 IH]; simpl; [reflexivity|now rewrite IH]. Qed.

Lemma append_empty_r (s : string) : (s ++ "")%string = s.
Proof. induction s as [|c s IH]; simpl; [reflexivity|now rewrite IH]. Qed.

Lemma append_length (s1 s2 : string) :
  String.length (s1 ++ s2) = String.length s1 + String.length s2.
Proof. induction s1 as [|c s1 IH]; simpl; [reflexivity|now rewrite IH]. Qed.

Lemma chunks3_length (s : string) :
  List.length (chunks3 s) =
  if (String.length s mod 3 =? 0)%nat then String.length s / 3 + 1 - 1
  else String.length s / 3 + 1.
Proof.
  induction s as [| a | a b | a b c rest IH] using string_ind3;
    try reflexivity.
  cbn [chunks3 List.length String.length]. rewrite IH.
  replace (S (S (S (String.length rest)))) with (String.length rest + 1 * 3)
    by lia.
  rewrite Nat.Div0.mod_add, Nat.div_add by lia.
  destruct (String.length rest mod 3 =? 0)%nat eqn:E.
  - apply Nat.eqb_eq in E.
    assert (String.length rest = 0 \/ 1 <= String.length rest / 3) as [H0|H1].
    { destruct (String.length rest / 3) eqn:D; [left|right; lia].
      pose proof (Nat.div_mod_eq (String.length rest) 3). lia. }
    + destruct rest; [reflexivity|discriminate].
    + lia.
  - lia.
Qed.

Lemma chunks3_nonempty (c : ascii) (s : string) : chunks3 (String c s) <> [].
Proof. destruct s as [|b [|a s]]; discriminate. Qed.

Lemma store_middle {A : Type} (done rest : list A) (old x : A) :
  store (done ++ old :: rest) (List.length done) x = Some (done ++ x :: rest).
Proof. induction done as [|y done IH]; simpl; [reflexivity|now rewrite IH]. Qed.

Lemma removelast_cons {A : Type} (x : A) (l : list A) :
  l <> [] -> removelast (x :: l) = x :: removelast l.
Proof. destruct l; [contradiction|reflexivity]. Qed.

Lemma last_cons {A : Type} (x d : A) (l : list A) :
  l <> [] -> last (x :: l) d = last l d.
Proof. destruct l; [contradiction|reflexivity]. Qed.

(** The loop stores every chunk but the last in its slot and ends with the
    last chunk, unpadded, in currentString. *)
Lemma fractionLoop_chunks (rest : string) :
  forall (cur : string) (done : list string),
    1 <= String.length cur <= 3 ->
    fractionLoop rest (3 * List.length done + String.length cur)
      (done ++ repeat "" (List.length (chunks3 (cur ++ rest)))) cur
    = Ok (done ++ removelast (chunks3 (cur ++ rest)) ++ [""],
          last (chunks3 (cur ++ rest)) "").
Proof.
  induction rest as [|c rest IH]; intros cur done Hcur.
  - rewrite append_empty_r.
    destruct cur as [|x [|y [|z [|w cur]]]]; simpl in Hcur; try lia;
      reflexivity.
  - cbn [fractionLoop].
    destruct cur as [|x [|y [|z [|w cur]]]]; simpl in Hcur; try lia.
    + replace ((3 * List.length done + String.length (String x "")) mod 3 =? 0)%nat
        with false
        by (symmetry; apply Nat.eqb_neq; cbn [String.length];
            rewrite Nat.mul_comm, Nat.add_comm, Nat.Div0.mod_add; discriminate).
      cbn [andb].
      specialize (IH (String x "" ++ String c "")%string done).
      cbn [String.append String.length] in IH |- *.
      replace (3 * List.length done + 2) with (S (3 * List.length done + 1))
        in IH by lia.
      apply IH. lia.
    + replace ((3 * List.length done
                + String.length (String x (String y ""))) mod 3 =? 0)%nat
        with false
        by (symmetry; apply Nat.eqb_neq; cbn [String.length];
            rewrite Nat.mul_comm, Nat.add_comm, Nat.Div0.mod_add; discriminate).
      cbn [andb].
      specialize (IH (String x (String y "") ++ String c "")%string done).
      cbn [String.append String.length] in IH |- *.
      replace (3 * List.length done + 3) with (S (3 * List.length done + 2))
        in IH by lia.
      apply IH. lia.
    + cbn [String.length String.append].
      change (chunks3 (String x (String y (String z (String c rest)))))
        with (String x (String y (String z "")) :: chunks3 (String c rest)).
      cbn [List.length repeat].
      replace (3 * List.length done + 3) with (0 + (List.length done + 1) * 3)
        by lia.
      rewrite Nat.Div0.mod_add, Nat.div_add by lia.
      change (0 mod 3 =? 0)%nat with true. change (0 / 3) with 0.
      replace ((0 + (List.length done + 1) * 3 =? 0)%nat) with false
        by (symmetry; apply Nat.eqb_neq; lia).
      cbn [negb andb].
      replace (0 + (List.length done + 1) - 1) with (List.length done) by lia.
      assert (Hne : chunks3 (String c rest) <> []) by apply chunks3_nonempty.
      destruct (List.length (chunks3 (String c rest))) eqn:Hlen;
        [destruct (chunks3 (String c rest)); [contradiction|discriminate]|].
      cbn [repeat]. rewrite store_middle.
      specialize (IH (String c "") (done ++ [String x (String y (String z ""))])).
      rewrite length_app in IH. cbn [List.length String.length
                                     String.append] in IH.
      replace (3 * (List.length done + 1) + 1)
        with (S (0 + (List.length done + 1) * 3)) in IH by lia.
      rewrite <- app_assoc in IH. cbn [app] in IH.
      rewrite Hlen in IH. cbn [repeat] in IH.
      rewrite IH by lia.
      rewrite removelast_cons, last_cons by assumption.
      rewrite <- app_assoc. reflexivity.
Qed.


Lemma padLoop_padRight3 (cur : string) :
  1 <= String.length cur <= 3 ->
  padLoop (3 - String.length cur) cur = padRight3 cur.
Proof.
  destruct cur as [|x [|y [|z [|w cur]]]]; simpl; intros H; try lia;
    reflexivity.
Qed.

Lemma last_chunk_length (c : ascii) (s : string) :
  1 <= String.length (last (chunks3 (String c s)) "") <= 3.
Proof.
  revert c. induction s as [| a | a b | a b d rest IH] using string_ind3;
    intros c; try (simpl; lia).
  change (chunks3 (String c (String a (String b (String d rest)))))
    with (String c (String a (String b "")) :: chunks3 (String d rest)).
  rewrite last_cons by apply chunks3_nonempty. apply IH.
Qed.

Lemma padded_chunks (c : ascii) (s : string) :
  map padRight3 (chunks3 (String c s))
  = removelast (chunks3 (String c s))
    ++ [padRight3 (last (chunks3 (String c s)) "")].
Proof.
  revert c. induction s as [| a | a b | a b d rest IH] using string_ind3;
    intros c; try reflexivity.
  change (chunks3 (String c (String a (String b (String d rest)))))
    with (String c (String a (String b "")) :: chunks3 (String d rest)).
  rewrite removelast_cons, last_cons by apply chunks3_nonempty.
  cbn [map]. rewrite IH. reflexivity.
Qed.

Lemma removelast_length {A : Type} (l : list A) :
  List.length (removelast l) = List.length l - 1.
Proof.
  induction l as [|x [|y l] IH]; try reflexivity.
  rewrite removelast_cons by discriminate.
  cbn [List.length] in *. rewrite IH. lia.
Qed.

(** getFractionValue on a string that is not empty once its leading dot is
    trimmed: the padded chunks of three, each parsed. *)
Lemma getFractionValue_trimmed (s : string) (c : ascii) (t : string) :
  Strings.TrimPrefix s "." = String c t ->
  getFractionValue s = parseAll (map padRight3 (chunks3 (String c t))).
Proof.
  intros Htrim. unfold getFractionValue.
  destruct (String.eqb_spec s "") as [->|_]; [discriminate|].
  rewrite Htrim. cbv zeta.
  rewrite <- chunks3_length.
  cbn [fractionLoop]. change (0 mod 3 =? 0)%nat with true.
  cbn [Nat.eqb negb andb String.append].
  pose proof (fractionLoop_chunks t (String c "") []) as Hloop.
  cbn [List.length String.length Nat.mul Nat.add app String.append] in Hloop.
  rewrite Hloop by lia. cbn [bind].
  rewrite padLoop_padRight3 by apply last_chunk_length.
  destruct (List.length (chunks3 (String c t))) as [|lastIndex] eqn:Hlen.
  - destruct (chunks3 (String c t)) eqn:Hch; [|discriminate].
    exfalso. eapply chunks3_nonempty. eassumption.
  - replace lastIndex with (List.length (removelast (chunks3 (String c t))))
      by (rewrite removelast_length; lia).
    rewrite store_middle, padded_chunks. reflexivity.
Qed.

Lemma isDigit_not_dot (c : ascii) :
  Strconv.isDigit c = true -> Ascii.eqb "." c = false.
Proof.
  intros H. destruct (Ascii.eqb_spec "." c) as [<-|]; [discriminate|reflexivity].
Qed.

Lemma Atoi_unsigned (c : ascii) (s : string) :
  Strconv.isDigit c = true ->
  Strconv.Atoi (String c s)
  = match Strconv.digitsValue 0 (String c s) with
    | Some n =>
        if ((Strconv.minInt <=? n) && (n <=? Strconv.maxInt))%Z
        then Some n else None
    | None => None
    end.
Proof.
  intros H.
  destruct (Ascii.eqb_spec c "-") as [->|Hm]; [discriminate|].
  destruct (Ascii.eqb_spec c "+") as [->|Hp]; [discriminate|].
  unfold Strconv.Atoi.
  destruct c as [[] [] [] [] [] [] [] []]; try reflexivity; congruence.
Qed.

Lemma digitVal_range (c : ascii) :
  Strconv.isDigit c = true -> (0 <= Strconv.digitVal c <= 9)%Z.
Proof.
  unfold Strconv.isDigit, Strconv.digitVal. rewrite andb_true_iff.
  intros [H1 H2]. apply Nat.leb_le in H1, H2. lia.
Qed.

(** a chunk of three digits parses, to its decimal value *)
Lemma mustParseInt64_chunk (a b c : ascii) :
  Strconv.isDigit a = true -> Strconv.isDigit b = true ->
  Strconv.isDigit c = true ->
  mustParseInt64 (String a (String b (String c "")))
  = Ok (decimalValue (String a (String b (String c "")))).
Proof.
  intros Ha Hb Hc. unfold mustParseInt64, decimalValue.
  rewrite Atoi_unsigned by assumption.
  cbn [Strconv.digitsValue]. rewrite Ha, Hb, Hc.
  pose proof (digitVal_range a Ha). pose proof (digitVal_range b Hb).
  pose proof (digitVal_range c Hc).
  replace ((Strconv.minInt <=? _) && (_ <=? Strconv.maxInt))%Z with true;
    [reflexivity|].
  symmetry. apply andb_true_iff. unfold Strconv.minInt, Strconv.maxInt.
  split; apply Z.leb_le; lia.
Qed.

Lemma parseAll_digit_chunks (digits : string) :
  Strconv.allDigits digits = true ->
  parseAll (map padRight3 (chunks3 digits)) = Ok (fractionGrouping digits).
Proof.
  unfold fractionGrouping.
  induction digits as [| a | a b | a b c rest IH] using string_ind3;
    cbn [Strconv.allDigits]; rewrite ?andb_true_iff.
  - reflexivity.
  - intros [Ha _]. cbn [chunks3 map parseAll].
    change (padRight3 (String a "")) with (String a "00").
    rewrite mustParseInt64_chunk by (assumption || reflexivity). reflexivity.
  - intros (Ha & Hb & _). cbn [chunks3 map parseAll].
    change (padRight3 (String a (String b ""))) with (String a (String b "0")).
    rewrite mustParseInt64_chunk by (assumption || reflexivity). reflexivity.
  - intros (Ha & Hb & Hc & Hrest). cbn [chunks3 map parseAll].
    change (padRight3 (String a (String b (String c ""))))
      with (String a (String b (String c ""))).
    rewrite mustParseInt64_chunk by assumption.
    rewrite IH by assumption. reflexivity.
Qed.

Lemma getFractionValue_digits (digits : string) :
  Strconv.allDigits digits = true ->
  getFractionValue digits = Ok (fractionGrouping digits).
Proof.
  intros H. destruct digits as [|c t]; [reflexivity|].
  rewrite <- parseAll_digit_chunks by assumption.
  apply getFractionValue_trimmed.
  cbn [Strconv.allDigits] in H. apply andb_true_iff in H as [Hc _].
  unfold Strings.TrimPrefix. cbn [Strings.HasPrefix].
  rewrite (isDigit_not_dot c Hc). reflexivity.
Qed.

(** the same with the leading dot that the fraction group of the lax
    grammar carries *)
Lemma getFractionValue_dot_digits (c : ascii) (digits : string) :
  Strconv.allDigits (String c digits) = true ->
  getFractionValue (String "." (String c digits))
  = Ok (fractionGrouping (String c digits)).
Proof.
  intros H. rewrite <- parseAll_digit_chunks by assumption.
  apply getFractionValue_trimmed. reflexivity.
Qed.

End FractionGrouping.

(** C2: fraction grouping.  For every digit string, getFractionValue returns
    the values of its maximal left-to-right chunks of three digits, the last
    chunk right-padded with '0' to width 3, each read as a base-10 integer;
    "0023" gives [2, 300], "2" gives [200], "002" gives [2] and "002003004"
    gives [2, 3, 4]. *)
Theorem getFractionValue_grouping (digits : string)
    (Hdigits : Strconv.allDigits digits = true) :
  getFractionValue digits = Ok (fractionGrouping digits)
  /\ getFractionValue "0023" = Ok [2; 300]%Z
  /\ getFractionValue "2" = Ok [200]%Z
  /\ getFractionValue "002" = Ok [2]%Z
  /\ getFractionValue "002003004" = Ok [2; 3; 4]%Z.
Proof.
  split; [apply getFractionValue_digits; assumption|].
  repeat split; reflexivity.
Qed.

Lemma getFractionValue_grouping_witness :
  getFractionValue "00203" = Ok (fractionGrouping "00203")
  /\ fractionGrouping "00203" = [2; 30]%Z.
Proof.
  split; [apply (getFractionValue_grouping "00203"); reflexivity|reflexivity].
Defined.

(** ** Reconstruction *)

(** inversion of a chain of binds that ended in [Ok] *)
Ltac bind_inv H :=
  repeat (cbv zeta in H;
          match type of H with
          | bind ?m _ = Ok _ =>
              let x := fresh "x" in
              let E := fresh "E" in
              destruct m as [x| |] eqn:E; cbn [bind] in H;
              [|discriminate H|discriminate H]
          end);
  cbv zeta in H.

Section Slices.

Lemma store_length {A : Type} (l l' : list A) (i : nat) (x : A) :
  store l i x = Some l' -> List.length l' = List.length l.
Proof.
  revert i l'. induction l as [|y l IH]; intros [|i] l' H; simpl in H;
    try discriminate.
  - injection H as <-. reflexivity.
  - destruct (store l i x) eqn:E; [|discriminate]. injection H as <-.
    simpl. f_equal. eapply IH. eassumption.
Qed.

Lemma assign_length (values values' : list Z) (i : nat) (x : Z) :
  assign values i x = Ok values' -> List.length values' = List.length values.
Proof.
  unfold assign. destruct (store values i x) eqn:E; [|discriminate].
  intros H. injection H as <-. eapply store_length. eassumption.
Qed.

Lemma copy_length (dst src : list Z) :
  List.length (copy dst src) = List.length dst.
Proof.
  revert src. induction dst as [|d dst IH]; intros [|x src]; simpl;
    try reflexivity. now rewrite IH.
Qed.

Lemma copyFrom1_length (values values' src : list Z) :
  copyFrom1 values src = Ok values' ->
  List.length values' = List.length values.
Proof.
  destruct values as [|first tail]; [discriminate|].
  intros H. injection H as <-. simpl. now rewrite copy_length.
Qed.

Lemma make_length (n : nat) : List.length (make n) = n.
Proof. apply repeat_length. Qed.

Lemma copy_all (dst src : list Z) :
  List.length dst = List.length src -> copy dst src = src.
Proof.
  revert src. induction dst as [|d dst IH]; intros [|x src] H; simpl in *;
    try reflexivity; try discriminate.
  f_equal. apply IH. lia.
Qed.

Lemma copied_length (minors values values' : list Z) :
  match minors with
  | [] => Ok values
  | _ :: _ => copyFrom1 values minors
  end = Ok values' ->
  List.length values' = List.length values.
Proof.
  destruct minors; [intros H; injection H as <-; reflexivity|].
  apply copyFrom1_length.
Qed.

End Slices.

Lemma toPerlVersionB_qv (d : LaxDotted.laxDotted) (text : string) (v : Version) :
  LaxDotted.toPerlVersionB d text = Ok v ->
  qv v = (List.length (version v) =? 3)%nat.
Proof.
  unfold LaxDotted.toPerlVersionB. intros H. bind_inv H.
  injection H as <-. cbn [qv version].
  apply copied_length in E2. rewrite E2.
  assert (List.length x1 =
          if nonEmpty (LaxDotted.secondInteger d)
             || x0 && negb (nonEmpty (LaxDotted.secondInteger d))
          then S (List.length x) else List.length x) as ->; [|reflexivity].
  destruct (nonEmpty (LaxDotted.secondInteger d)); cbn [orb andb negb] in *.
  - bind_inv E1. apply assign_length in E1. now rewrite E1, make_length.
  - rewrite andb_true_r in *. destruct x0.
    + apply assign_length in E1. now rewrite E1, make_length.
    + injection E1 as <-. now rewrite make_length.
Qed.

(** C5: lax dotted sub-form B.  Whenever this reconstruction returns a
    Version, its qv flag is set exactly when the Version has three
    components, the implied leading zero included.  Parse(".1.2") takes this
    branch and gives [0,1,2] with qv; the four-component results of
    ".1.2.3" and "1.2.3.4" are not qv. *)
Theorem laxDotted_B_qv_iff_three (d : LaxDotted.laxDotted) (text : string)
    (v : Version) (Hok : LaxDotted.toPerlVersionB d text = Ok v) :
  (qv v = true <-> List.length (version v) = 3)
  /\ Parse ".1.2"
     = LaxDotted.toPerlVersionB
         (LaxDotted.Build_laxDotted "" "" "" "" ".1.2" "") ".1.2"
  /\ Parse ".1.2" = Ok (Build_Version ".1.2" false true [0; 1; 2]%Z)
  /\ Parse ".1.2.3"
     = LaxDotted.toPerlVersionB
         (LaxDotted.Build_laxDotted "" "" "" "" ".1.2.3" "") ".1.2.3"
  /\ Parse ".1.2.3" = Ok (Build_Version ".1.2.3" false false [0; 1; 2; 3]%Z)
  /\ Parse "1.2.3.4"
     = LaxDotted.toPerlVersionB
         (LaxDotted.Build_laxDotted "" "" "" "1" ".2.3.4" "") "1.2.3.4"
  /\ Parse "1.2.3.4" = Ok (Build_Version "1.2.3.4" false false [1; 2; 3; 4]%Z).
Proof.
  split.
  - rewrite (toPerlVersionB_qv d text v Hok). apply Nat.eqb_eq.
  - repeat split; vm_compute; reflexivity.
Qed.

Lemma laxDotted_B_qv_iff_three_witness :
  qv (Build_Version "1.2.3" false true [1; 2; 3]%Z) = true
  <-> List.length (version (Build_Version "1.2.3" false true [1; 2; 3]%Z)) = 3.
Proof.
  apply (laxDotted_B_qv_iff_three
           (LaxDotted.Build_laxDotted "" "" "" "1" ".2.3" "") "1.2.3").
  vm_compute. reflexivity.
Defined.

(** ** Errors of the reconstructors *)

Section NoError.

Lemma noErr_Ok {A : Type} (a : A) : noErr (Ok a).
Proof. intros e; discriminate. Qed.

Lemma noErr_Panic {A : Type} : noErr (@Panic A).
Proof. intros e; discriminate. Qed.

Lemma noErr_bind {A B : Type} (m : outcome A) (f : A -> outcome B) :
  noErr m -> (forall a, noErr (f a)) -> noErr (bind m f).
Proof.
  intros Hm Hf e. destruct m as [a|e'|]; cbn [bind].
  - apply Hf.
  - exfalso. eapply Hm. reflexivity.
  - discriminate.
Qed.

Lemma noErr_mustParseInt64 (s : string) : noErr (mustParseInt64 s).
Proof. unfold mustParseInt64. destruct (Strconv.Atoi s); intros e; discriminate. Qed.

Lemma noErr_parseAll (raw : list string) : noErr (parseAll raw).
Proof.
  induction raw as [|s raw IH]; cbn [parseAll]; [apply noErr_Ok|].
  apply noErr_bind; [apply noErr_mustParseInt64|intros val].
  apply noErr_bind; [assumption|intros vals; apply noErr_Ok].
Qed.

Lemma noErr_dottedToMinors (s : string) : noErr (dottedToMinors s).
Proof. apply noErr_parseAll. Qed.

Lemma noErr_assign (values : list Z) (i : nat) (x : Z) :
  noErr (assign values i x).
Proof. unfold assign. destruct (store values i x); intros e; discriminate. Qed.

Lemma noErr_copyFrom1 (values src : list Z) : noErr (copyFrom1 values src).
Proof. destruct values; intros e; discriminate. Qed.

Lemma noErr_copied (minors values : list Z) :
  noErr (match minors with
         | [] => Ok values
         | _ :: _ => copyFrom1 values minors
         end).
Proof. destruct minors; [apply noErr_Ok|apply noErr_copyFrom1]. Qed.

Lemma noErr_firstByteIs (s : string) (c : ascii) : noErr (firstByteIs s c).
Proof. destruct s; intros e; discriminate. Qed.

Lemma noErr_lastByteIs (s : string) (c : ascii) : noErr (lastByteIs s c).
Proof.
  unfold lastByteIs. destruct (Strings.lastByte s); intros e; discriminate.
Qed.

Lemma noErr_fractionLoop (s : string) :
  forall i stringValues currentString,
    noErr (fractionLoop s i stringValues currentString).
Proof.
  induction s as [|c s IH]; intros i sv cur; cbn [fractionLoop].
  - apply noErr_Ok.
  - destruct ((i mod 3 =? 0)%nat && negb (i =? 0)%nat); [|apply IH].
    destruct (store sv (i / 3 - 1) cur); [apply IH|apply noErr_Panic].
Qed.

Lemma noErr_getFractionValue (s : string) : noErr (getFractionValue s).
Proof.
  unfold getFractionValue. destruct (String.eqb s ""); [apply noErr_Ok|].
  cbv zeta. apply noErr_bind; [apply noErr_fractionLoop|].
  intros [sv cur].
  destruct (if (String.length (Strings.TrimPrefix s ".") mod 3 =? 0)%nat
            then _ else _); [apply noErr_Panic|].
  destruct (store sv _ _); [apply noErr_parseAll|apply noErr_Panic].
Qed.

Lemma noErr_fillMinors (minors : list string) :
  forall values i, noErr (StrictDottedForm.fillMinors values i minors).
Proof.
  induction minors as [|part minors IH]; intros values i;
    cbn [StrictDottedForm.fillMinors]; [apply noErr_Ok|].
  apply noErr_bind; [apply noErr_mustParseInt64|intros val].
  apply noErr_bind; [apply noErr_assign|intros values'; apply IH].
Qed.

Create HintDb noerr.

Hint Resolve noErr_Ok noErr_Panic noErr_mustParseInt64 noErr_parseAll
  noErr_dottedToMinors noErr_assign noErr_copyFrom1 noErr_copied
  noErr_firstByteIs noErr_lastByteIs noErr_getFractionValue
  noErr_fillMinors : noerr.

(** splits a chain of binds and conditionals into its calls *)
Ltac no_err :=
  repeat (cbv zeta;
          first [ apply noErr_bind; [|intro]
                | match goal with
                  | |- noErr (if ?b then _ else _) => destruct b
                  | |- noErr (match ?l with [] => _ | _ :: _ => _ end) =>
                      destruct l
                  end
                | solve [auto with noerr] ]).

Lemma noErr_laxDotted_A (d : LaxDotted.laxDotted) (text : string) :
  noErr (LaxDotted.toPerlVersionA d text).
Proof. unfold LaxDotted.toPerlVersionA. no_err. Qed.

Lemma noErr_laxDotted_B (d : LaxDotted.laxDotted) (text : string) :
  noErr (LaxDotted.toPerlVersionB d text).
Proof. unfold LaxDotted.toPerlVersionB. no_err. Qed.

Lemma noErr_laxDecimal_B (d : LaxDecimal.laxDecimal) (text : string) :
  noErr (LaxDecimal.toPerlVersionB d text).
Proof. unfold LaxDecimal.toPerlVersionB. no_err. Qed.

Lemma noErr_strictVersion (matches : list string) :
  noErr (strictVersion matches).
Proof.
  unfold strictVersion, Strict.toPerlVersion, StrictDecimalForm.toPerlVersion,
    StrictDottedForm.toPerlVersion.
  no_err.
Qed.

(** the error of lax decimal sub-form A: returned exactly when there is an
    alpha suffix and no fraction, and it is errAlphaWithoutDecimal *)
Lemma laxDecimal_A_Err (d : LaxDecimal.laxDecimal) (text : string) (e : error) :
  LaxDecimal.toPerlVersionA d text = Err e <->
  e = errAlphaWithoutDecimal
  /\ LaxDecimal.alpha d <> "" /\ LaxDecimal.fraction d = "".
Proof.
  unfold LaxDecimal.toPerlVersionA, nonEmpty. cbv zeta.
  destruct (String.eqb_spec (LaxDecimal.alpha d) "") as [Ha|Ha];
    destruct (String.eqb_spec (LaxDecimal.fraction d) "") as [Hf|Hf];
    cbn [negb bind].
  1,2,4: split; [|intros (_ & H1 & H2); congruence];
    intros H; exfalso; revert H;
    match goal with
    | |- ?m = Err ?e' -> False =>
        let Hn := fresh "Hn" in
        assert (Hn : noErr m) by no_err; exact (Hn e')
    end.
  split; [intros H; injection H as <-; auto|].
  intros (-> & _). reflexivity.
Qed.

Lemma laxVersion_Err (matches : list string) (e : error) :
  laxVersion matches = Err e -> e = errAlphaWithoutDecimal.
Proof.
  unfold laxVersion, Lax.toPerlVersion, LaxDotted.toPerlVersion,
    LaxDecimal.toPerlVersion.
  cbn [Lax.undef Lax.dotted Lax.decimal Lax.dottedMatches Lax.decimalMatches
       Lax.original].
  repeat match goal with
         | |- (if ?b then _ else _) = Err e -> _ => destruct b
         end; try discriminate.
  - intros H. exfalso. eapply noErr_laxDotted_A. eassumption.
  - intros H. exfalso. eapply noErr_laxDotted_B. eassumption.
  - intros H. apply laxDecimal_A_Err in H. tauto.
  - intros H. exfalso. eapply noErr_laxDecimal_B. eassumption.
Qed.

End NoError.

Section LaxDecimalA.

Lemma allDigits_app (s1 s2 : string) :
  Strconv.allDigits (s1 ++ s2)
  = Strconv.allDigits s1 && Strconv.allDigits s2.
Proof.
  induction s1 as [|c s1 IH]; cbn [String.append Strconv.allDigits andb];
    [reflexivity|].
  rewrite IH. apply andb_assoc.
Qed.

Lemma fragment_inv (lead : ascii) (s : string) :
  fragment lead s = true ->
  s = "" \/ exists c digits,
      s = String lead (String c digits)
      /\ Strconv.allDigits (String c digits) = true.
Proof.
  destruct s as [|l [|c digits]]; [left; reflexivity| |].
  - cbn. rewrite andb_false_r. discriminate.
  - unfold fragment, nonEmpty. change (String.eqb (String c digits) "") with false.
    cbn [negb]. rewrite andb_true_r, andb_true_iff. intros [Hl Hd].
    apply Ascii.eqb_eq in Hl. subst l. right. eauto.
Qed.

Lemma fractionGrouping_nonempty (c : ascii) (digits : string) :
  fractionGrouping (String c digits) <> [].
Proof.
  unfold fractionGrouping. pose proof (chunks3_nonempty c digits).
  destruct (chunks3 (String c digits)); [contradiction|discriminate].
Qed.

(** component 0 from the integer, the rest from the fraction values *)
Lemma values_of_fractions (major : Z) (c : Z) (fractions : list Z) :
  bind (assign (make (List.length (c :: fractions) + 1)) 0 major)
    (fun values => copyFrom1 values (c :: fractions))
  = Ok (major :: c :: fractions).
Proof.
  unfold make. rewrite Nat.add_comm. cbn [Nat.add repeat assign store bind].
  unfold copyFrom1. f_equal. f_equal.
  change (0%Z :: repeat 0%Z (List.length fractions))
    with (repeat 0%Z (List.length (c :: fractions))).
  apply copy_all. apply repeat_length.
Qed.

Lemma lastByteIs_endsWithDot (text : string) :
  text <> "" -> lastByteIs text "." = Ok (endsWithDot text).
Proof.
  unfold lastByteIs, endsWithDot. intros H.
  assert (exists b, Strings.lastByte text = Some b) as [b ->];
    [|reflexivity].
  induction text as [|c text IH]; [contradiction|].
  destruct text as [|c' text]; [exists c; reflexivity|].
  destruct IH as [b Hb]; [discriminate|]. exists b. exact Hb.
Qed.

(** what sub-form A builds when it does not fail *)
Lemma laxDecimal_A_Ok (d : LaxDecimal.laxDecimal) (text : string) (major : Z) :
  Strconv.Atoi (LaxDecimal.integer d) = Some major ->
  fragment "." (LaxDecimal.fraction d) = true ->
  fragment "_" (LaxDecimal.alpha d) = true ->
  text <> "" ->
  ~ (LaxDecimal.alpha d <> "" /\ LaxDecimal.fraction d = "") ->
  LaxDecimal.toPerlVersionA d text
  = Ok (Build_Version text (nonEmpty (LaxDecimal.alpha d)) false
          (major
           :: fractionGrouping (digitsOf (LaxDecimal.fraction d)
                                ++ digitsOf (LaxDecimal.alpha d))
           ++ (if endsWithDot text && String.eqb (LaxDecimal.fraction d) ""
               then [0%Z] else []))).
Proof.
  intros Hint Hfrac Halpha Htext Hnot.
  unfold LaxDecimal.toPerlVersionA, mustParseInt64. cbv zeta.
  rewrite Hint, (lastByteIs_endsWithDot text Htext).
  apply fragment_inv in Hfrac, Halpha.
  destruct Hfrac as [Hf|(c & digits & Hf & Hd)]; rewrite Hf in *.
  - destruct Halpha as [Ha|(a & adigits & Ha & _)]; rewrite Ha in *.
    + cbn. destruct (endsWithDot text); reflexivity.
    + exfalso. apply Hnot. split; [discriminate|reflexivity].
  - assert (Hall : Strconv.allDigits
                     (String c digits ++ digitsOf (LaxDecimal.alpha d))
                   = true).
    { rewrite allDigits_app, Hd.
      destruct Halpha as [Ha|(a & adigits & Ha & Had)]; rewrite Ha;
        [reflexivity|exact Had]. }
    assert (Hstr :
             (if nonEmpty (LaxDecimal.alpha d)
              then
                if String.eqb (String "." (String c digits)) ""
                then Err errAlphaWithoutDecimal
                else Ok (String "." (String c digits)
                         ++ Strings.TrimPrefix (LaxDecimal.alpha d) "_")%string
              else Ok (String "." (String c digits)))
             = Ok (String "." (String c digits
                               ++ digitsOf (LaxDecimal.alpha d)))).
    { destruct Halpha as [Ha|(a & adigits & Ha & _)]; rewrite Ha.
      - cbn [nonEmpty String.eqb negb digitsOf Strings.drop].
        now rewrite append_empty_r.
      - reflexivity. }
    rewrite Hstr. cbn [bind].
    change (String c digits ++ digitsOf (LaxDecimal.alpha d))%string
      with (String c (digits ++ digitsOf (LaxDecimal.alpha d))) in *.
    rewrite getFractionValue_dot_digits by exact Hall. cbn [bind].
    change (String.eqb (String "." (String c digits)) "") with false.
    rewrite andb_false_r.
    change (digitsOf (String "." (String c digits))) with (String c digits).
    cbn [String.append].
    pose proof (fractionGrouping_nonempty c
                  (digits ++ digitsOf (LaxDecimal.alpha d))) as Hne.
    destruct (fractionGrouping
                (String c (digits ++ digitsOf (LaxDecimal.alpha d))))
      as [|f fractions]; [contradiction|].
    pose proof (values_of_fractions major f fractions) as Hv.
    destruct (assign (make (List.length (f :: fractions) + 1)) 0 major)
      as [values| |]; cbn [bind] in Hv |- *; try discriminate.
    rewrite Hv. cbn [bind]. rewrite app_nil_r. reflexivity.
Qed.

End LaxDecimalA.

(** C4: lax decimal sub-form A (leading integer).  On the fragments the
    grammar captures, with an integer in the int64 range, the reconstruction
    fails with errAlphaWithoutDecimal if and only if there is an alpha suffix
    and no fraction; in every other case it returns a Version whose components
    are the integer followed by the 3-digit grouping of the fraction digits
    with the alpha digits appended to them (and the implied zero of a trailing
    dot).  No reconstructor returns any other error: the lax ones return this
    one only, the strict ones none. *)
Theorem laxDecimal_A_alpha_without_decimal
    (d : LaxDecimal.laxDecimal) (text : string) (major : Z)
    (Hint : Strconv.Atoi (LaxDecimal.integer d) = Some major)
    (Hfrac : fragment "." (LaxDecimal.fraction d) = true)
    (Halpha : fragment "_" (LaxDecimal.alpha d) = true)
    (Htext : text <> "") :
  (LaxDecimal.toPerlVersionA d text = Err errAlphaWithoutDecimal <->
   LaxDecimal.alpha d <> "" /\ LaxDecimal.fraction d = "")
  /\ (~ (LaxDecimal.alpha d <> "" /\ LaxDecimal.fraction d = "") ->
      LaxDecimal.toPerlVersionA d text
      = Ok (Build_Version text (nonEmpty (LaxDecimal.alpha d)) false
              (major
               :: fractionGrouping (digitsOf (LaxDecimal.fraction d)
                                    ++ digitsOf (LaxDecimal.alpha d))
               ++ (if endsWithDot text && String.eqb (LaxDecimal.fraction d) ""
                   then [0%Z] else []))))
  /\ (forall e, LaxDecimal.toPerlVersionA d text = Err e ->
                e = errAlphaWithoutDecimal)
  /\ (forall matches e, laxVersion matches = Err e -> e = errAlphaWithoutDecimal)
  /\ (forall matches, noErr (strictVersion matches)).
Proof.
  split; [|split; [|split; [|split]]].
  - rewrite laxDecimal_A_Err. tauto.
  - intros Hnot. apply laxDecimal_A_Ok; assumption.
  - intros e H. apply laxDecimal_A_Err in H. tauto.
  - apply laxVersion_Err.
  - apply noErr_strictVersion.
Qed.

Lemma laxDecimal_A_alpha_without_decimal_witness :
  LaxDecimal.toPerlVersionA
    (LaxDecimal.Build_laxDecimal "1" ".02" "_03" "" "") "1.02_03"
  = Ok (Build_Version "1.02_03" true false [1; 20; 300]%Z)
  /\ LaxDecimal.toPerlVersionA
       (LaxDecimal.Build_laxDecimal "1" "" "_0" "" "") "1_0"
     = Err errAlphaWithoutDecimal.
Proof.
  split.
  - apply (laxDecimal_A_alpha_without_decimal
             (LaxDecimal.Build_laxDecimal "1" ".02" "_03" "" "") "1.02_03" 1%Z);
      try reflexivity; try discriminate.
    intros [_ H]. discriminate H.
  - apply (laxDecimal_A_alpha_without_decimal
             (LaxDecimal.Build_laxDecimal "1" "" "_0" "" "") "1_0" 1%Z);
      try reflexivity; try discriminate.
    split; [discriminate|reflexivity].
Defined.

(** ** The matcher *)

Section Matcher.
Import Regexp.

Variable Q : thread -> Prop.

Lemma more_Forall (step : matcher) (k : string -> captures -> list thread) :
  (forall text cap k', (forall text' cap', Forall Q (k' text' cap')) ->
                       Forall Q (step text cap k')) ->
  (forall text cap, Forall Q (k text cap)) ->
  forall rounds text cap, Forall Q (more step k rounds text cap).
Proof.
  intros Hstep Hk. induction rounds as [|rounds IH]; intros text cap;
    cbn [more]; [apply Hk|].
  apply Forall_app. split; [|apply Hk].
  apply Hstep. intros text' cap'.
  destruct (String.length text' <? String.length text)%nat;
    [apply IH|constructor].
Qed.

Lemma must_Forall (step : matcher) (k : string -> captures -> list thread) :
  (forall text cap k', (forall text' cap', Forall Q (k' text' cap')) ->
                       Forall Q (step text cap k')) ->
  (forall text cap, Forall Q (k text cap)) ->
  forall rounds text cap, Forall Q (must step k rounds text cap).
Proof.
  intros Hstep Hk. induction rounds as [|rounds IH]; intros text cap;
    cbn [must]; [apply Hk|].
  apply Hstep. exact IH.
Qed.

(** every thread of a run was produced by its continuation *)
Lemma run_Forall (r : regex) :
  forall g text cap k,
    (forall text' cap', Forall Q (k text' cap')) ->
    Forall Q (run r g text cap k).
Proof.
  induction r as [| c | lo hi | r1 IH1 r2 IH2 | r1 IH1 r2 IH2
                  | lo hi r1 IH1 | r1 IH1 | ];
    intros g text cap k Hk; cbn [run].
  - apply Hk.
  - destruct text as [|b rest]; [constructor|].
    destruct (Ascii.eqb b c); [apply Hk|constructor].
  - destruct text as [|b rest]; [constructor|].
    destruct (inClass lo hi b); [apply Hk|constructor].
  - apply IH1. intros text' cap'. apply IH2. exact Hk.
  - apply Forall_app. split; [apply IH1|apply IH2]; exact Hk.
  - apply must_Forall.
    + intros text0 cap0 k' Hk'. apply IH1. exact Hk'.
    + intros text0 cap0. apply more_Forall.
      * intros text1 cap1 k' Hk'. apply IH1. exact Hk'.
      * exact Hk.
  - apply IH1. intros text' cap'. apply Hk.
  - destruct text; [apply Hk|constructor].
Qed.

End Matcher.

Section Find.
Import Regexp.

Lemma pick_In (longest : bool) (threads : list thread) (t : thread) :
  pick longest threads = Some t -> In t threads.
Proof.
  revert t. induction threads as [|t0 others IH]; intros t; cbn [pick];
    [discriminate|].
  destruct longest; [|intros H; injection H as <-; left; reflexivity].
  destruct (pick true others) as [t'|].
  - destruct (String.length (fst t') <? String.length (fst t0))%nat;
      intros H; injection H as <-; [right; apply IH|left]; reflexivity.
  - intros H; injection H as <-; left; reflexivity.
Qed.

Lemma take_all (s : string) : Strings.take (String.length s) s = s.
Proof. induction s as [|c s IH]; cbn; [reflexivity|now rewrite IH]. Qed.

(** a pattern that ends in [$] leaves no text *)
Lemma run_EndText (body : regex) (g : nat) (text : string) (cap : captures) :
  Forall (fun t => fst t = "")
    (run (Seq [body; EndText]) g text cap (fun rest cap' => [(rest, cap')])).
Proof.
  cbn [Seq run]. apply run_Forall. intros text' cap'.
  destruct text'; constructor; [reflexivity|constructor].
Qed.

(** so that its match, entry 0 of the submatches, is the whole text from
    the start of the match on *)
Lemma matchAt_EndText (body : regex) (text : string) (matches : list string) :
  matchAt (Longest (MustCompile (Seq [body; EndText]))) text = Some matches ->
  at_ matches 0 = text.
Proof.
  unfold matchAt. cbn [expr longest Longest MustCompile].
  destruct (pick true _) as [[rest cap]|] eqn:Hpick; [|discriminate].
  apply pick_In in Hpick.
  pose proof (run_EndText body 1 text noCaptures) as Hall.
  rewrite Forall_forall in Hall. apply Hall in Hpick. cbn [fst] in Hpick.
  subst rest. intros H. injection H as <-.
  unfold at_. cbn [seq map nth]. unfold setCapture, consumed.
  cbn [Nat.eqb String.length]. rewrite Nat.sub_0_r. apply take_all.
Qed.

(** FindStringSubmatch returns the match at some suffix of the text *)
Lemma FindStringSubmatch_suffix (re : Regexp) (text : string)
    (matches : list string) :
  FindStringSubmatch re text = Some matches ->
  exists skipped rest,
    text = (skipped ++ rest)%string /\ matchAt re rest = Some matches.
Proof.
  induction text as [|c text IH]; cbn [FindStringSubmatch].
  - destruct (matchAt re "") eqn:E; [|discriminate].
    intros H. injection H as <-. exists "", "". auto.
  - destruct (matchAt re (String c text)) eqn:E.
    + intros H. injection H as <-. exists "", (String c text). auto.
    + intros H. destruct (IH H) as (skipped & rest & -> & Hm).
      exists (String c skipped), rest. auto.
Qed.

Lemma lax_match_suffix (text : string) (matches : list string) :
  FindStringSubmatch laxRegexp text = Some matches ->
  exists skipped, text = (skipped ++ at_ matches 0)%string.
Proof.
  intros H. apply FindStringSubmatch_suffix in H.
  destruct H as (skipped & rest & -> & Hm).
  apply matchAt_EndText in Hm. exists skipped. now rewrite Hm.
Qed.

Lemma strict_match_suffix (text : string) (matches : list string) :
  FindStringSubmatch strictRegexp text = Some matches ->
  exists skipped, text = (skipped ++ at_ matches 0)%string.
Proof.
  intros H. apply FindStringSubmatch_suffix in H.
  destruct H as (skipped & rest & -> & Hm).
  apply matchAt_EndText in Hm. exists skipped. now rewrite Hm.
Qed.

End Find.

(** ** Parse *)

Section ParseOriginal.

(** every reconstructor stores the text it is given as [original] *)
Lemma laxVersion_original (matches : list string) (v : Version) :
  laxVersion matches = Ok v -> original v = at_ matches 0.
Proof.
  unfold laxVersion, Lax.toPerlVersion, LaxDotted.toPerlVersion,
    LaxDecimal.toPerlVersion, LaxDotted.toPerlVersionA,
    LaxDotted.toPerlVersionB, LaxDecimal.toPerlVersionA,
    LaxDecimal.toPerlVersionB.
  cbn [Lax.undef Lax.dotted Lax.decimal Lax.dottedMatches Lax.decimalMatches
       Lax.original].
  repeat match goal with
         | |- (if ?b then _ else _) = Ok v -> _ => destruct b
         end; try discriminate; intros H; bind_inv H.
  - injection H as <-. reflexivity.
  - injection H as <-. reflexivity.
  - injection H as <-. reflexivity.
  - injection H as <-. reflexivity.
  - destruct x; [discriminate|]. bind_inv H. injection H as <-. reflexivity.
Qed.

Lemma strictVersion_original (matches : list string) (v : Version) :
  strictVersion matches = Ok v -> original v = at_ matches 0.
Proof.
  unfold strictVersion, Strict.toPerlVersion, StrictDecimalForm.toPerlVersion,
    StrictDottedForm.toPerlVersion.
  cbn [Strict.decimal Strict.dotted Strict.decimalMatches
       Strict.dottedMatches Strict.original].
  repeat match goal with
         | |- (if ?b then _ else _) = Ok v -> _ => destruct b
         end; try discriminate; intros H; bind_inv H;
    injection H as <-; reflexivity.
Qed.

(** the decisions of Parse once the lax grammar has matched *)
Lemma Parse_lax_only (text : string) (laxMatch : list string) :
  Regexp.FindStringSubmatch laxRegexp text = Some laxMatch ->
  Regexp.FindStringSubmatch strictRegexp text = None ->
  Parse text = laxVersion laxMatch.
Proof. intros Hl Hs. unfold Parse. rewrite Hl, Hs. reflexivity. Qed.

Lemma Parse_lax_longer (text : string) (laxMatch strictMatch : list string) :
  Regexp.FindStringSubmatch laxRegexp text = Some laxMatch ->
  Regexp.FindStringSubmatch strictRegexp text = Some strictMatch ->
  String.length (at_ strictMatch 0) < String.length (at_ laxMatch 0) ->
  Parse text = match laxVersion laxMatch with
               | Ok lax => Ok lax
               | Err _ => strictVersion strictMatch
               | Panic => Panic
               end.
Proof.
  intros Hl Hs Hlen. unfold Parse. rewrite Hl, Hs.
  apply Nat.ltb_lt in Hlen. rewrite Hlen. reflexivity.
Qed.

Lemma Parse_lax_not_longer (text : string) (laxMatch strictMatch : list string) :
  Regexp.FindStringSubmatch laxRegexp text = Some laxMatch ->
  Regexp.FindStringSubmatch strictRegexp text = Some strictMatch ->
  String.length (at_ laxMatch 0) <= String.length (at_ strictMatch 0) ->
  Parse text = strictVersion strictMatch.
Proof.
  intros Hl Hs Hlen. unfold Parse. rewrite Hl, Hs.
  apply Nat.ltb_ge in Hlen. rewrite Hlen. reflexivity.
Qed.

(** the original of a parsed Version is the match that was reconstructed,
    a suffix of the input *)
Lemma Parse_original_suffix (text : string) (v : Version) :
  Parse text = Ok v -> exists skipped, text = (skipped ++ original v)%string.
Proof.
  unfold Parse, tryStrict.
  destruct (Regexp.FindStringSubmatch laxRegexp text) as [lm|] eqn:Hl;
    destruct (Regexp.FindStringSubmatch strictRegexp text) as [sm|] eqn:Hs.
  - apply lax_match_suffix in Hl. apply strict_match_suffix in Hs.
    destruct (String.length (at_ sm 0) <? String.length (at_ lm 0))%nat.
    + destruct (laxVersion lm) as [lax| |] eqn:E; try discriminate.
      * intros H. injection H as <-.
        rewrite (laxVersion_original lm lax E). exact Hl.
      * intros H. rewrite (strictVersion_original sm v H). exact Hs.
    + intros H. rewrite (strictVersion_original sm v H). exact Hs.
  - apply lax_match_suffix in Hl.
    intros H. rewrite (laxVersion_original lm v H). exact Hl.
  - apply strict_match_suffix in Hs.
    intros H. rewrite (strictVersion_original sm v H). exact Hs.
  - discriminate.
Qed.

End ParseOriginal.

(** C1: the disambiguation of Parse.  When the lax grammar matches and the
    strict one does not, the lax reconstruction is the result, its error
    included.  When both match and the lax match is strictly longer, the lax
    reconstruction is tried: its Version is the result, and when it raises
    errAlphaWithoutDecimal (its only error) the result is the strict
    reconstruction and that error is not returned.  When both match and the
    lax match is not strictly longer, the strict reconstruction is the
    result. *)
Theorem Parse_disambiguation (text : string) (laxMatch : list string)
    (Hlax : Regexp.FindStringSubmatch laxRegexp text = Some laxMatch) :
  (Regexp.FindStringSubmatch strictRegexp text = None ->
   Parse text = laxVersion laxMatch
   /\ forall e, laxVersion laxMatch = Err e -> Parse text = Err e)
  /\ (forall strictMatch,
         Regexp.FindStringSubmatch strictRegexp text = Some strictMatch ->
         (String.length (at_ strictMatch 0) < String.length (at_ laxMatch 0) ->
          (forall lax, laxVersion laxMatch = Ok lax -> Parse text = Ok lax)
          /\ (forall e, laxVersion laxMatch = Err e ->
                        e = errAlphaWithoutDecimal
                        /\ Parse text = strictVersion strictMatch
                        /\ Parse text <> Err e))
         /\ (String.length (at_ laxMatch 0) <= String.length (at_ strictMatch 0) ->
             Parse text = strictVersion strictMatch)).
Proof.
  split.
  - intros Hs. rewrite (Parse_lax_only text laxMatch Hlax Hs).
    split; [reflexivity|auto].
  - intros strictMatch Hs. split.
    + intros Hlen. rewrite (Parse_lax_longer text laxMatch strictMatch Hlax Hs Hlen).
      split.
      * intros lax ->. reflexivity.
      * intros e He. rewrite He. split; [|split].
        -- apply (laxVersion_Err laxMatch e He).
        -- reflexivity.
        -- apply noErr_strictVersion.
    + apply Parse_lax_not_longer; assumption.
Qed.

Lemma Parse_disambiguation_witness :
  Parse "1_0" = strictVersion ["0"; "0"; "0"; ""; ""; ""; ""]
  /\ Parse "1.02_03" = Ok (Build_Version "1.02_03" true false [1; 20; 300]%Z)
  /\ Parse "1.2" = strictVersion ["1.2"; "1.2"; "1"; ".2"; ""; ""; ""]
  /\ Parse "1."
     = laxVersion ["1."; ""; ""; ""; ""; ""; ""; ""; ""; "1."; "1"; ""; ""; ""; ""].
Proof.
  split; [|split; [|split]].
  - apply (Parse_disambiguation "1_0"
             ["1_0"; ""; ""; ""; ""; ""; ""; ""; ""; "1_0"; "1"; ""; "_0"; ""; ""]
             eq_refl) with (e := errAlphaWithoutDecimal);
      [reflexivity|vm_compute; lia|reflexivity].
  - apply (Parse_disambiguation "1.02_03"
             ["1.02_03"; ""; ""; ""; ""; ""; ""; ""; ""; "1.02_03"; "1"; ".02";
              "_03"; ""; ""]
             eq_refl) with (strictMatch := ["3"; "3"; "3"; ""; ""; ""; ""]);
      [apply eq_refl|vm_compute; lia|reflexivity].
  - apply (Parse_disambiguation "1.2"
             ["1.2"; ""; ""; ""; ""; ""; ""; ""; ""; "1.2"; "1"; ".2"; ""; ""; ""]
             eq_refl); [reflexivity|vm_compute; lia].
  - apply (Parse_disambiguation "1."
             ["1."; ""; ""; ""; ""; ""; ""; ""; ""; "1."; "1"; ""; ""; ""; ""]
             eq_refl). reflexivity.
Defined.

Section RawOfParse.
Import Regexp.

Lemma FindStringSubmatch_leftmost (re : Regexp) (text : string)
    (matches : list string) :
  FindStringSubmatch re text = Some matches ->
  exists skipped rest,
    text = (skipped ++ rest)%string
    /\ matchAt re rest = Some matches
    /\ forall skipped' rest',
         text = (skipped' ++ rest')%string ->
         String.length skipped' < String.length skipped ->
         matchAt re rest' = None.
Proof.
  induction text as [|c text IH]; cbn [FindStringSubmatch].
  - destruct (matchAt re "") eqn:E; [|discriminate].
    intros H. injection H as <-. exists "", "".
    repeat split; [exact E|]. cbn [String.length]. lia.
  - destruct (matchAt re (String c text)) eqn:E.
    + intros H. injection H as <-. exists "", (String c text).
      repeat split; [exact E|]. cbn [String.length]. lia.
    + intros H. destruct (IH H) as (skipped & rest & -> & Hm & Hleft).
      exists (String c skipped), rest. repeat split; [exact Hm|].
      intros [|c' skipped'] rest'; cbn [String.append String.length].
      * intros <- _. exact E.
      * intros Heq Hlen. injection Heq as _ Heq.
        apply (Hleft skipped' rest' Heq). lia.
Qed.

Lemma FindStringSubmatch_first (re : Regexp) (text : string)
    (matches : list string) :
  matchAt re text = Some matches -> FindStringSubmatch re text = Some matches.
Proof. intros H. destruct text; cbn [FindStringSubmatch]; now rewrite H. Qed.

Lemma append_same_length (skipped whole : string) :
  (skipped ++ whole)%string = whole -> skipped = "".
Proof.
  intros H. apply (f_equal String.length) in H.
  rewrite append_length in H. destruct skipped; [reflexivity|].
  cbn [String.length] in H. lia.
Qed.

(** the match of an end-anchored pattern is its leftmost match, and is the
    input when it is as long *)
Lemma FindStringSubmatch_EndText (body : regex) (text : string)
    (matches : list string) :
  let re := Longest (MustCompile (Seq [body; EndText])) in
  FindStringSubmatch re text = Some matches ->
  leftmostMatch re text (at_ matches 0)
  /\ matchAt re (at_ matches 0) = Some matches.
Proof.
  intros re H. apply FindStringSubmatch_leftmost in H.
  destruct H as (skipped & rest & -> & Hm & Hleft).
  rewrite (matchAt_EndText body rest matches Hm). split; [|exact Hm].
  exists skipped. repeat split; [now rewrite Hm|exact Hleft].
Qed.

Lemma lax_leftmost (text : string) (matches : list string) :
  FindStringSubmatch laxRegexp text = Some matches ->
  leftmostMatch laxRegexp text (at_ matches 0)
  /\ matchAt laxRegexp (at_ matches 0) = Some matches.
Proof. exact (FindStringSubmatch_EndText _ text matches). Qed.

Lemma strict_leftmost (text : string) (matches : list string) :
  FindStringSubmatch strictRegexp text = Some matches ->
  leftmostMatch strictRegexp text (at_ matches 0)
  /\ matchAt strictRegexp (at_ matches 0) = Some matches.
Proof. exact (FindStringSubmatch_EndText _ text matches). Qed.

Lemma lax_nothing : matchAt laxRegexp "" = None.
Proof. vm_compute. reflexivity. Qed.

Lemma strict_nothing : matchAt strictRegexp "" = None.
Proof. vm_compute. reflexivity. Qed.

(** Parse returns the reconstruction of a strict match of the whole input *)
Lemma Parse_strict_match_whole (text : string) (strictMatch : list string) :
  matchAt strictRegexp text = Some strictMatch ->
  Parse text = strictVersion strictMatch.
Proof.
  intros Hm. pose proof (matchAt_EndText _ _ _ Hm) as H0.
  apply FindStringSubmatch_first in Hm.
  destruct (FindStringSubmatch laxRegexp text) as [lm|] eqn:Hl.
  - apply (Parse_lax_not_longer text lm strictMatch Hl Hm).
    destruct (lax_match_suffix text lm Hl) as (skipped & Htext).
    rewrite H0, Htext, append_length. lia.
  - unfold Parse, tryStrict. now rewrite Hl, Hm.
Qed.

End RawOfParse.

(** C3: Raw of a parsed Version is the match that Parse reconstructed, and
    that is not always the input.  On "perl-5.36.0" Parse succeeds and Raw is
    "5.36.0".  For every input s on which Parse succeeds, Raw is the text of
    the lax or of the strict match that was reconstructed, which is the
    longest suffix of s that the grammar matches, and is never empty; and
    Raw is s itself exactly when the strict grammar matches s from its first
    byte, or the lax grammar does and its reconstruction does not fail. *)
Theorem Parse_Raw_is_the_match :
  Parse "perl-5.36.0"
  = Ok {| original := "5.36.0"; alpha := false; qv := true;
          version := [5; 36; 0]%Z |}
  /\ (forall s v,
        Parse s = Ok v ->
        ((exists laxMatch,
             Regexp.FindStringSubmatch laxRegexp s = Some laxMatch
             /\ laxVersion laxMatch = Ok v
             /\ Raw v = at_ laxMatch 0
             /\ leftmostMatch laxRegexp s (Raw v))
         \/ (exists strictMatch,
                Regexp.FindStringSubmatch strictRegexp s = Some strictMatch
                /\ strictVersion strictMatch = Ok v
                /\ Raw v = at_ strictMatch 0
                /\ leftmostMatch strictRegexp s (Raw v)))
        /\ Raw v <> ""
        /\ (Raw v = s
            <-> Regexp.matchAt strictRegexp s <> None
                \/ exists laxMatch,
                     Regexp.matchAt laxRegexp s = Some laxMatch
                     /\ laxVersion laxMatch <> Err errAlphaWithoutDecimal)).
Proof.
  split; [vm_compute; reflexivity|].
  intros s v Hparse.
  assert (Hfrom :
            (exists laxMatch,
                Regexp.FindStringSubmatch laxRegexp s = Some laxMatch
                /\ laxVersion laxMatch = Ok v)
            \/ (exists strictMatch,
                   Regexp.FindStringSubmatch strictRegexp s = Some strictMatch
                   /\ strictVersion strictMatch = Ok v)).
  { revert Hparse. unfold Parse, tryStrict.
    destruct (Regexp.FindStringSubmatch laxRegexp s) as [lm|] eqn:Hl;
      destruct (Regexp.FindStringSubmatch strictRegexp s) as [sm|] eqn:Hs.
    - destruct (String.length (at_ sm 0) <? String.length (at_ lm 0))%nat.
      + destruct (laxVersion lm) as [lax|e|] eqn:E; try discriminate.
        * intros H. left. exists lm. split; [reflexivity|]. now rewrite E.
        * intros H. right. exists sm. auto.
      + intros H. right. exists sm. auto.
    - intros H. left. exists lm. auto.
    - intros H. right. exists sm. auto.
    - discriminate. }
  assert (Hraw :
            (exists laxMatch,
                Regexp.FindStringSubmatch laxRegexp s = Some laxMatch
                /\ laxVersion laxMatch = Ok v
                /\ Raw v = at_ laxMatch 0
                /\ leftmostMatch laxRegexp s (Raw v))
            \/ (exists strictMatch,
                   Regexp.FindStringSubmatch strictRegexp s = Some strictMatch
                   /\ strictVersion strictMatch = Ok v
                   /\ Raw v = at_ strictMatch 0
                   /\ leftmostMatch strictRegexp s (Raw v))).
  { destruct Hfrom as [(lm & Hl & Hv)|(sm & Hs & Hv)]; [left|right].
    - exists lm. pose proof (laxVersion_original lm v Hv) as Ho.
      unfold Raw. rewrite Ho. repeat split; try assumption.
      apply (lax_leftmost _ _ Hl).
    - exists sm. pose proof (strictVersion_original sm v Hv) as Ho.
      unfold Raw. rewrite Ho. repeat split; try assumption.
      apply (strict_leftmost _ _ Hs). }
  split; [exact Hraw|]. split.
  - intros Hempty.
    destruct Hraw as [(m & _ & _ & _ & Hleft)|(m & _ & _ & _ & Hleft)];
      destruct Hleft as (skipped & _ & Hm & _); rewrite Hempty in Hm;
      apply Hm; [exact lax_nothing|exact strict_nothing].
  - split.
    + intros Hs.
      destruct Hraw as [(m & Hfind & Hv & H0 & _)|(m & Hfind & Hv & H0 & _)].
      * right. exists m. split; [|rewrite Hv; discriminate].
        destruct (lax_leftmost _ _ Hfind) as [_ Hm].
        now rewrite <- H0, Hs in Hm.
      * left. destruct (strict_leftmost _ _ Hfind) as [_ Hm].
        rewrite <- H0, Hs in Hm. now rewrite Hm.
    + intros [Hstrict|(lm & Hl & Hne)].
      * destruct (Regexp.matchAt strictRegexp s) as [sm|] eqn:Hm;
          [|contradiction].
        rewrite (Parse_strict_match_whole s sm Hm) in Hparse.
        unfold Raw. rewrite (strictVersion_original sm v Hparse).
        apply (matchAt_EndText _ _ _ Hm).
      * destruct (Regexp.matchAt strictRegexp s) as [sm|] eqn:Hm.
        { rewrite (Parse_strict_match_whole s sm Hm) in Hparse.
          unfold Raw. rewrite (strictVersion_original sm v Hparse).
          apply (matchAt_EndText _ _ _ Hm). }
        pose proof (matchAt_EndText _ _ _ Hl) as H0.
        apply FindStringSubmatch_first in Hl.
        destruct Hfrom as [(lm' & Hl' & Hv)|(sm & Hs & Hv)].
        { rewrite Hl in Hl'. injection Hl' as <-.
          unfold Raw. now rewrite (laxVersion_original lm v Hv). }
        exfalso.
        destruct (strict_leftmost _ _ Hs) as [_ Hsm].
        destruct (strict_match_suffix s sm Hs) as (skipped & Htext).
        assert (Hlt : String.length (at_ sm 0) < String.length (at_ lm 0)).
        { destruct skipped as [|c skipped].
          - cbn [String.append] in Htext. rewrite <- Htext in Hsm.
            congruence.
          - rewrite H0, Htext.
            cbn [String.append String.length]. rewrite append_length. lia. }
        rewrite (Parse_lax_longer s lm sm Hl Hs Hlt) in Hparse.
        destruct (laxVersion lm) as [lax|e|] eqn:E; try discriminate.
        -- injection Hparse as ->.
           pose proof (laxVersion_original lm v E) as Hlo.
           pose proof (strictVersion_original sm v Hv) as Hso.
           rewrite Hlo in Hso. rewrite Hso in Hlt. lia.
        -- apply Hne. f_equal. apply (laxVersion_Err lm e E).
Qed.

Lemma Parse_Raw_is_the_match_witness :
  "5.36.0" = "perl-5.36.0"
  <-> Regexp.matchAt strictRegexp "perl-5.36.0" <> None
      \/ exists laxMatch,
           Regexp.matchAt laxRegexp "perl-5.36.0" = Some laxMatch
           /\ laxVersion laxMatch <> Err errAlphaWithoutDecimal.
Proof.
  destruct Parse_Raw_is_the_match as [_ H].
  apply (H "perl-5.36.0" (Build_Version "5.36.0" false true [5; 36; 0]%Z)).
  vm_compute. reflexivity.
Defined.

(** ** The error that Parse cannot return *)

Section MatcherSound.
Import Regexp.

Variable Q : thread -> Prop.
Variable i : nat.

Lemma iter_app (R : string -> string -> Prop) (n m : nat) (a b c : string) :
  iter R n a b -> iter R m b c -> iter R (n + m) a c.
Proof.
  revert a. induction n as [|n IH]; intros a; cbn [iter Nat.add].
  - intros ->. auto.
  - intros (mid & HR & Hit) Hm. exists mid. auto.
Qed.

Lemma must_sound (step : matcher) (R : string -> string -> Prop) :
  sound Q i step R ->
  forall n text cap k,
    (forall text' cap', iter R n text text' -> cap' i = cap i ->
                        Forall Q (k text' cap')) ->
    Forall Q (must step k n text cap).
Proof.
  intros Hstep. induction n as [|n IH]; intros text cap k Hk; cbn [must].
  - apply Hk; reflexivity.
  - apply Hstep. intros text' cap' HR Hc. apply IH.
    intros text'' cap'' Hit Hc'. apply Hk; [|congruence].
    exists text'. auto.
Qed.

Lemma more_sound (step : matcher) (R : string -> string -> Prop) :
  sound Q i step R ->
  forall rounds text cap k,
    (forall text' cap' n, iter R n text text' -> cap' i = cap i ->
                          Forall Q (k text' cap')) ->
    Forall Q (more step k rounds text cap).
Proof.
  intros Hstep. induction rounds as [|rounds IH]; intros text cap k Hk;
    cbn [more].
  - apply (Hk text cap 0); reflexivity.
  - apply Forall_app. split; [|apply (Hk text cap 0); reflexivity].
    apply Hstep. intros text' cap' HR Hc.
    destruct (String.length text' <? String.length text)%nat; [|constructor].
    apply IH. intros text'' cap'' n Hit Hc'.
    apply (Hk text'' cap'' (S n)); [|congruence]. exists text'. auto.
Qed.

(** The matcher is sound for the language of its pattern, and changes no
    submatch but those of the groups of the pattern. *)
Lemma run_sound (r : regex) :
  forall g, i < g \/ g + NumSubexp r <= i -> sound Q i (run r g) (remainder r).
Proof.
  induction r as [| c | lo hi | r1 IH1 r2 IH2 | r1 IH1 r2 IH2
                  | lo hi r1 IH1 | r1 IH1 | ];
    intros g Hi text cap k Hk; cbn [run remainder NumSubexp] in *.
  - apply Hk; reflexivity.
  - destruct text as [|b rest]; [constructor|].
    destruct (Ascii.eqb_spec b c) as [->|]; [|constructor].
    apply Hk; reflexivity.
  - destruct text as [|b rest]; [constructor|].
    destruct (inClass lo hi b) eqn:E; [|constructor].
    apply Hk; [|reflexivity]. exists b. auto.
  - apply IH1; [lia|]. intros mid cap1 H1 Hc1.
    apply IH2; [lia|]. intros text' cap2 H2 Hc2.
    apply Hk; [|congruence]. exists mid. auto.
  - apply Forall_app. split.
    + apply IH1; [lia|]. intros text' cap' H Hc. apply Hk; auto.
    + apply IH2; [lia|]. intros text' cap' H Hc. apply Hk; auto.
  - apply (must_sound (run r1 g) (remainder r1)); [apply IH1; exact Hi|].
    intros text0 cap0 Hit0 Hc0.
    apply (more_sound (run r1 g) (remainder r1)); [apply IH1; exact Hi|].
    intros text' cap' n Hit Hc. apply Hk; [|congruence].
    exists (lo + n). split; [lia|]. eapply iter_app; eassumption.
  - apply IH1; [lia|]. intros text' cap' H Hc.
    apply Hk; [exact H|]. unfold setCapture.
    destruct (Nat.eqb_spec i g); [lia|exact Hc].
  - destruct text; [|constructor]. apply Hk; auto.
Qed.

End MatcherSound.

Section Remainders.
Import Regexp.

Lemma iter_suffix (R : string -> string -> Prop) :
  (forall text text', R text text' -> exists p, text = (p ++ text')%string) ->
  forall n text text',
    iter R n text text' -> exists p, text = (p ++ text')%string.
Proof.
  intros HR. induction n as [|n IH]; intros text text'; cbn [iter].
  - intros ->. exists "". reflexivity.
  - intros (mid & H1 & H2). destruct (HR _ _ H1) as [p1 ->].
    destruct (IH _ _ H2) as [p2 ->]. exists (p1 ++ p2)%string.
    symmetry. apply append_assoc.
Qed.

(** what a match leaves is a suffix of the text *)
Lemma remainder_suffix (r : regex) :
  forall text text',
    remainder r text text' -> exists p, text = (p ++ text')%string.
Proof.
  induction r as [| c | lo hi | r1 IH1 r2 IH2 | r1 IH1 r2 IH2
                  | lo hi r1 IH1 | r1 IH1 | ];
    intros text text'; cbn [remainder].
  - intros ->. exists "". reflexivity.
  - intros ->. exists (String c ""). reflexivity.
  - intros (b & -> & _). exists (String b ""). reflexivity.
  - intros (mid & H1 & H2). destruct (IH1 _ _ H1) as [p1 ->].
    destruct (IH2 _ _ H2) as [p2 ->]. exists (p1 ++ p2)%string.
    symmetry. apply append_assoc.
  - intros [H|H]; eauto.
  - intros (n & _ & Hit). eapply iter_suffix; eassumption.
  - apply IH1.
  - intros [-> ->]. exists "". reflexivity.
Qed.

Lemma lastByte_app (p s : string) :
  s <> "" -> Strings.lastByte (p ++ s) = Strings.lastByte s.
Proof.
  intros Hs. induction p as [|c p IH]; [reflexivity|].
  cbn [String.append Strings.lastByte]. rewrite IH.
  destruct (p ++ s)%string eqn:E; [|reflexivity].
  destruct p; [cbn in E; contradiction|discriminate].
Qed.

Lemma endsInDigit_app (p s : string) :
  endsInDigit s = true -> endsInDigit (p ++ s) = true.
Proof.
  intros H. unfold endsInDigit in *. rewrite lastByte_app; [exact H|].
  intros ->. discriminate.
Qed.

(** one digit or more, up to the end of the text: the text ends in a digit *)
Lemma digits_to_the_end (n : nat) :
  forall text,
    iter (remainder Patterns.digit) (S n) text "" -> endsInDigit text = true.
Proof.
  induction n as [|n IH]; intros text (mid & (b & -> & Hb) & Hit).
  - cbn [iter] in Hit. subst mid. exact Hb.
  - apply IH in Hit. apply (endsInDigit_app (String b "") mid Hit).
Qed.

(** the alpha group, up to the end of the text *)
Lemma alpha_to_the_end (text : string) :
  remainder Patterns.laxAlphaR text "" -> endsInDigit text = true.
Proof.
  intros (mid & -> & n & Hn & Hit).
  destruct n as [|n]; [lia|].
  apply (endsInDigit_app (String "_" "") mid). eapply digits_to_the_end.
  exact Hit.
Qed.

End Remainders.

Section LaxAlpha.
Import Regexp.

(** In a thread of the lax pattern, submatch 12 (the alpha suffix of decimal
    sub-form A) is set only when the text ends in a digit. *)
Lemma lax_alpha_ends_in_digit (text : string) :
  Forall (fun t => snd t 12 = "" \/ endsInDigit text = true)
    (run Patterns.LaxVersionRegex 1 text noCaptures
       (fun rest cap => [(rest, cap)])).
Proof.
  unfold Patterns.LaxVersionRegex. cbn [Seq Alts run].
  repeat rewrite Forall_app. split; [|split].
  - apply (run_sound _ 12); [right; vm_compute; lia|].
    intros text' cap' _ Hc. destruct text'; constructor; [|constructor].
    left. cbn [snd]. rewrite Hc. reflexivity.
  - apply (run_sound _ 12); [right; vm_compute; lia|].
    intros text' cap' _ Hc. destruct text'; constructor; [|constructor].
    left. cbn [snd]. rewrite Hc. reflexivity.
  - change (1 + NumSubexp Patterns.laxUndefR
            + NumSubexp Patterns.laxDottedFormR) with 9.
    unfold Patterns.laxDecimalFormR. cbn [Seq Alts run].
    rewrite Forall_app. split.
    + apply (run_sound _ 12); [right; vm_compute; lia|].
      intros text1 cap1 H1 Hc1.
      apply (run_sound _ 12); [right; vm_compute; lia|].
      intros text2 cap2 H2 Hc2.
      change (10 + NumSubexp Patterns.laxIntR
              + NumSubexp (Opt (Alt Patterns.fractionR (Lit ".")))) with 12.
      unfold Opt at 1. cbn [run must more Nat.sub]. rewrite Forall_app. split.
      * apply (run_sound _ 0); [left; lia|].
        intros text3 cap3 H3 _.
        destruct (String.length text3 <? String.length text2)%nat;
          [|constructor].
        destruct text3; constructor; [|constructor].
        right. apply alpha_to_the_end in H3.
        apply remainder_suffix in H1, H2.
        destruct H1 as [p1 ->]. destruct H2 as [p2 ->].
        now apply endsInDigit_app, endsInDigit_app.
      * destruct text2; constructor; [|constructor].
        left. cbn [snd]. unfold setCapture. cbn [Nat.eqb].
        rewrite Hc2, Hc1. reflexivity.
    + apply (run_sound _ 12); [left; vm_compute; lia|].
      intros text1 cap1 _ Hc1.
      apply (run_sound _ 12); [left; vm_compute; lia|].
      intros text' cap' _ Hc. destruct text'; constructor; [|constructor].
      left. cbn [snd]. unfold setCapture. cbn [Nat.eqb]. rewrite Hc, Hc1.
      reflexivity.
Qed.

Lemma matchAt_lax_alpha (text : string) (matches : list string) :
  matchAt laxRegexp text = Some matches ->
  at_ matches 12 <> "" -> endsInDigit text = true.
Proof.
  unfold matchAt, laxRegexp. cbn [expr longest Longest MustCompile].
  destruct (pick true _) as [[rest cap]|] eqn:Hpick; [|discriminate].
  apply pick_In in Hpick.
  pose proof (lax_alpha_ends_in_digit text) as Hall.
  rewrite Forall_forall in Hall. apply Hall in Hpick. cbn [snd] in Hpick.
  intros H. injection H as <-. intros Hne.
  destruct Hpick as [Hcap|Hd]; [|exact Hd].
  exfalso. apply Hne. exact Hcap.
Qed.

(** the strict grammar matches a single digit *)
Lemma strict_matches_digit (b : ascii) :
  Strconv.isDigit b = true -> matchAt strictRegexp (String b "") <> None.
Proof.
  intros H.
  destruct b as [[] [] [] [] [] [] [] []]; vm_compute in H;
    try discriminate H; vm_compute; intros H'; discriminate H'.
Qed.

(** a match at some suffix is found, or one further left *)
Lemma FindStringSubmatch_complete (re : Regexp) (skipped rest : string) :
  matchAt re rest <> None ->
  FindStringSubmatch re (skipped ++ rest) <> None.
Proof.
  intros Hm. induction skipped as [|c skipped IH].
  - destruct rest; cbn [String.append FindStringSubmatch];
      destruct (matchAt re _); congruence.
  - cbn [String.append FindStringSubmatch].
    destruct (matchAt re (String c (skipped ++ rest)));
      [intros H; discriminate H|exact IH].
Qed.

Lemma endsInDigit_inv (text : string) :
  endsInDigit text = true ->
  exists p b, text = (p ++ String b "")%string /\ Strconv.isDigit b = true.
Proof.
  unfold endsInDigit. induction text as [|c text IH]; [discriminate|].
  cbn [Strings.lastByte]. destruct text as [|c' text].
  - intros H. exists "", c. auto.
  - intros H. destruct (IH H) as (p & b & -> & Hb).
    exists (String c p), b. auto.
Qed.

(** so the strict grammar matches every text that ends in a digit *)
Lemma strict_matches_digit_end (text : string) :
  endsInDigit text = true ->
  FindStringSubmatch strictRegexp text <> None.
Proof.
  intros H. apply endsInDigit_inv in H. destruct H as (p & b & -> & Hb).
  apply FindStringSubmatch_complete, strict_matches_digit, Hb.
Qed.

Lemma laxVersion_Err_alpha (matches : list string) (e : error) :
  laxVersion matches = Err e -> at_ matches 12 <> "".
Proof.
  unfold laxVersion, Lax.toPerlVersion, LaxDotted.toPerlVersion,
    LaxDecimal.toPerlVersion.
  cbn [Lax.undef Lax.dotted Lax.decimal Lax.dottedMatches Lax.decimalMatches
       Lax.original].
  repeat match goal with
         | |- (if ?b then _ else _) = Err e -> _ => destruct b
         end; try discriminate.
  - intros H. exfalso. eapply noErr_laxDotted_A. eassumption.
  - intros H. exfalso. eapply noErr_laxDotted_B. eassumption.
  - intros H. apply laxDecimal_A_Err in H. cbn [LaxDecimal.alpha] in H. tauto.
  - intros H. exfalso. eapply noErr_laxDecimal_B. eassumption.
Qed.

(** Whenever the lax reconstruction of an input raises an error, the strict
    grammar matches the input too. *)
Lemma lax_error_strict_matches (text : string) (laxMatch : list string)
    (e : error) :
  FindStringSubmatch laxRegexp text = Some laxMatch ->
  laxVersion laxMatch = Err e ->
  FindStringSubmatch strictRegexp text <> None.
Proof.
  intros Hl He. apply laxVersion_Err_alpha in He.
  apply FindStringSubmatch_suffix in Hl.
  destruct Hl as (skipped & rest & -> & Hm).
  apply strict_matches_digit_end, endsInDigit_app.
  eapply matchAt_lax_alpha; eassumption.
Qed.

(** Parse returns no error but "invalid version string". *)
Lemma Parse_Err (text : string) (e : error) :
  Parse text = Err e -> e = errInvalidVersionString text.
Proof.
  unfold Parse, tryStrict.
  destruct (FindStringSubmatch laxRegexp text) as [lm|] eqn:Hl;
    destruct (FindStringSubmatch strictRegexp text) as [sm|] eqn:Hs.
  - destruct (String.length (at_ sm 0) <? String.length (at_ lm 0))%nat.
    + destruct (laxVersion lm); try discriminate.
      intros H. exfalso. eapply noErr_strictVersion. eassumption.
    + intros H. exfalso. eapply noErr_strictVersion. eassumption.
  - intros H. exfalso.
    apply (lax_error_strict_matches text lm e Hl H). exact Hs.
  - intros H. exfalso. eapply noErr_strictVersion. eassumption.
  - intros H. injection H as <-. reflexivity.
Qed.

End LaxAlpha.

(** C7: what Parse does on "1_0".  The lax grammar matches the whole input
    and its reconstruction raises errAlphaWithoutDecimal; the strict grammar
    matches the last byte "0"; the lax match being longer, Parse tries it,
    drops its error and returns the strict reconstruction of "0" with no
    error.  More generally Parse returns errAlphaWithoutDecimal on no input
    at all: its only error is "invalid version string". *)
Theorem Parse_1_0_returns_strict_suffix :
  Regexp.FindStringSubmatch laxRegexp "1_0"
  = Some ["1_0"; ""; ""; ""; ""; ""; ""; ""; ""; "1_0"; "1"; ""; "_0"; ""; ""]
  /\ laxVersion
       ["1_0"; ""; ""; ""; ""; ""; ""; ""; ""; "1_0"; "1"; ""; "_0"; ""; ""]
     = Err errAlphaWithoutDecimal
  /\ Regexp.FindStringSubmatch strictRegexp "1_0"
     = Some ["0"; "0"; "0"; ""; ""; ""; ""]
  /\ Parse "1_0" = Ok (Build_Version "0" false false [0%Z])
  /\ IsValid "1_0" = Ok true
  /\ (forall text, Parse text <> Err errAlphaWithoutDecimal).
Proof.
  split; [vm_compute; reflexivity|].
  split; [vm_compute; reflexivity|].
  split; [vm_compute; reflexivity|].
  split; [vm_compute; reflexivity|].
  split; [vm_compute; reflexivity|].
  intros text H. apply Parse_Err in H. discriminate H.
Qed.

(** * Further properties *)

(** ** The order on Versions *)

Section Order.

Lemma firstDifference_swap (mine theirs : list Z) (i j : nat) :
  firstDifference mine theirs i j -> firstDifference theirs mine i j.
Proof.
  intros (Hij & Hsame & Hne). repeat split; [exact Hij| |congruence].
  intros k Hk. symmetry. apply Hsame. exact Hk.
Qed.

Lemma LessThan_swap (v w : Version) : LessThan v w = GreaterThan w v.
Proof.
  apply eq_true_iff_eq. rewrite LessThan_spec, GreaterThan_spec.
  rewrite !min_is_min, (Nat.min_comm (List.length (version w))).
  split; intros (j & Hj & Hd & Hlt); exists j;
    (split; [exact Hj|split; [apply firstDifference_swap, Hd|lia]]).
Qed.

Lemma LessThan_irrefl (v : Version) : LessThan v v = false.
Proof.
  destruct (LessThan v v) eqn:E; [|reflexivity].
  apply LessThan_spec in E. destruct E as (j & _ & _ & Hlt). lia.
Qed.

Lemma LessThan_trans (u v w : Version) :
  LessThan u v = true -> LessThan v w = true -> LessThan u w = true.
Proof.
  rewrite !LessThan_spec, !min_is_min.
  intros (i & Hi & (_ & Hsame1 & _) & Hlt1) (j & Hj & (_ & Hsame2 & _) & Hlt2).
  assert (Hboth : forall k, k < Nat.min i j ->
                            nth k (version u) 0%Z = nth k (version w) 0%Z).
  { intros k Hk. rewrite (Hsame1 k) by lia. apply Hsame2. lia. }
  destruct (Nat.lt_trichotomy i j) as [Hij|[Heq|Hji]].
  - assert (Hw : nth i (version v) 0%Z = nth i (version w) 0%Z)
      by (apply Hsame2; lia).
    exists i. split; [lia|]. split; [|lia].
    split; [lia|]. split; [|lia]. intros k Hk. apply Hboth. lia.
  - subst j. exists i. split; [lia|]. split; [|lia].
    split; [lia|]. split; [|lia]. intros k Hk. apply Hboth. lia.
  - assert (Hu : nth j (version u) 0%Z = nth j (version v) 0%Z)
      by (apply Hsame1; lia).
    exists j. split; [lia|]. split; [|lia].
    split; [lia|]. split; [|lia]. intros k Hk. apply Hboth. lia.
Qed.

Lemma Compare_swap (v w : Version) : Compare v w = (- Compare w v)%Z.
Proof.
  pose proof (Less_Greater_exclusive v w) as Hex.
  unfold Compare. rewrite (LessThan_swap w v), <- (LessThan_swap v w).
  destruct (LessThan v w), (GreaterThan v w); try reflexivity.
  exfalso. auto.
Qed.

End Order.

(** X1: LessThan is a strict partial order on Versions: no Version is older
    than itself, older-than is transitive, and two Versions are never older
    than each other. *)
Theorem LessThan_strict_order :
  (forall v, LessThan v v = false)
  /\ (forall u v w, LessThan u v = true -> LessThan v w = true ->
                    LessThan u w = true)
  /\ (forall v w, LessThan v w = true -> LessThan w v = false).
Proof.
  split; [apply LessThan_irrefl|]. split; [apply LessThan_trans|].
  intros v w H. destruct (LessThan w v) eqn:E; [|reflexivity].
  rewrite <- (LessThan_irrefl v). symmetry. eapply LessThan_trans; eassumption.
Qed.

(** X2: GreaterThan is LessThan with the operands exchanged, and exchanging
    the operands of Compare negates its result. *)
Theorem comparison_duality (v w : Version) :
  GreaterThan v w = LessThan w v
  /\ Compare v w = (- Compare w v)%Z
  /\ Equal v w = Equal w v
  /\ GreaterThanOrEqual v w = LessThanOrEqual w v.
Proof.
  split; [symmetry; apply LessThan_swap|].
  split; [apply Compare_swap|]. split; [apply Equal_sym|].
  unfold GreaterThanOrEqual, LessThanOrEqual.
  rewrite (Equal_sym v w), (LessThan_swap w v). reflexivity.
Qed.

(** X3: of LessThan, Equal and GreaterThan exactly one holds.  So
    LessThanOrEqual is "not GreaterThan", GreaterThanOrEqual is "not
    LessThan", NotEqual is "LessThan or GreaterThan", and any two Versions are
    comparable by LessThanOrEqual one way or the other. *)
Theorem comparison_trichotomy (v w : Version) :
  ((LessThan v w = true /\ Equal v w = false /\ GreaterThan v w = false)
   \/ (LessThan v w = false /\ Equal v w = true /\ GreaterThan v w = false)
   \/ (LessThan v w = false /\ Equal v w = false /\ GreaterThan v w = true))
  /\ LessThanOrEqual v w = negb (GreaterThan v w)
  /\ GreaterThanOrEqual v w = negb (LessThan v w)
  /\ NotEqual v w = (LessThan v w || GreaterThan v w)
  /\ (LessThanOrEqual v w = true \/ LessThanOrEqual w v = true).
Proof.
  pose proof (Less_Greater_exclusive v w) as Hex.
  unfold LessThanOrEqual, GreaterThanOrEqual, NotEqual, Equal.
  rewrite (LessThan_swap w v), <- (LessThan_swap v w).
  destruct (LessThan v w), (GreaterThan v w); cbn;
    try (exfalso; auto; fail); repeat split; auto.
Qed.

(** X4: LessThanOrEqual is not transitive, because Equal is not: [5,2] is no
    newer than [5], and [5] no newer than [5,1], yet [5,2] is newer than
    [5,1].  The same holds with extra fields of any content. *)
Theorem LessThanOrEqual_not_transitive (a b c : Version)
    (Ha : version a = [5; 2]%Z) (Hb : version b = [5%Z])
    (Hc : version c = [5; 1]%Z) :
  LessThanOrEqual a b = true /\ LessThanOrEqual b c = true
  /\ LessThanOrEqual a c = false.
Proof.
  unfold LessThanOrEqual, Equal, LessThan, GreaterThan.
  rewrite Ha, Hb, Hc. repeat split; reflexivity.
Qed.

Lemma LessThanOrEqual_not_transitive_witness :
  LessThanOrEqual (Build_Version "5.002" false false [5; 2]%Z)
    (Build_Version "5" false false [5%Z]) = true.
Proof.
  apply (LessThanOrEqual_not_transitive
           (Build_Version "5.002" false false [5; 2]%Z)
           (Build_Version "5" false false [5%Z])
           (Build_Version "5.001" false false [5; 1]%Z)); reflexivity.
Defined.

(** ** Fraction values *)

Section FractionValues.

Lemma chunks3_count (s : string) :
  List.length (chunks3 s) = (String.length s + 2) / 3.
Proof.
  induction s as [| a | a b | a b c rest IH] using string_ind3;
    try reflexivity.
  cbn [chunks3 List.length String.length]. rewrite IH.
  replace (S (S (S (String.length rest))) + 2)
    with (String.length rest + 2 + 1 * 3) by lia.
  rewrite Nat.div_add by lia. lia.
Qed.

Lemma chunk_value_range (a b c : ascii) :
  Strconv.isDigit a = true -> Strconv.isDigit b = true ->
  Strconv.isDigit c = true ->
  (0 <= decimalValue (String a (String b (String c ""))) <= 999)%Z.
Proof.
  intros Ha Hb Hc. unfold decimalValue. cbn [Strconv.digitsValue].
  rewrite Ha, Hb, Hc.
  pose proof (digitVal_range a Ha). pose proof (digitVal_range b Hb).
  pose proof (digitVal_range c Hc). lia.
Qed.

Lemma fractionGrouping_range (digits : string) :
  Strconv.allDigits digits = true ->
  Forall (fun x => (0 <= x <= 999)%Z) (fractionGrouping digits).
Proof.
  unfold fractionGrouping.
  induction digits as [| a | a b | a b c rest IH] using string_ind3;
    cbn [Strconv.allDigits]; rewrite ?andb_true_iff.
  - constructor.
  - intros [Ha _]. cbn [chunks3 map]. constructor; [|constructor].
    change (padRight3 (String a "")) with (String a "00").
    apply chunk_value_range; assumption || reflexivity.
  - intros (Ha & Hb & _). cbn [chunks3 map]. constructor; [|constructor].
    change (padRight3 (String a (String b ""))) with (String a (String b "0")).
    apply chunk_value_range; assumption || reflexivity.
  - intros (Ha & Hb & Hc & Hrest). cbn [chunks3 map]. constructor.
    + apply chunk_value_range; assumption.
    + apply IH. assumption.
Qed.

End FractionValues.

(** X5: on a string of n digits getFractionValue does not panic and returns
    ceil(n/3) values, each between 0 and 999. *)
Theorem getFractionValue_count_and_range (digits : string)
    (Hdigits : Strconv.allDigits digits = true) :
  exists values,
    getFractionValue digits = Ok values
    /\ List.length values = (String.length digits + 2) / 3
    /\ Forall (fun x => (0 <= x <= 999)%Z) values.
Proof.
  exists (fractionGrouping digits).
  split; [apply getFractionValue_digits; assumption|].
  split; [|apply fractionGrouping_range; assumption].
  unfold fractionGrouping. rewrite length_map. apply chunks3_count.
Qed.

Lemma getFractionValue_count_and_range_witness :
  exists values,
    getFractionValue "0020034" = Ok values
    /\ List.length values = 3
    /\ Forall (fun x => (0 <= x <= 999)%Z) values.
Proof.
  apply (getFractionValue_count_and_range "0020034"). reflexivity.
Defined.

(** *** What makes getFractionValue panic *)

Section FractionPanics.

Lemma Atoi_no_sign (c : ascii) (s : string) :
  c <> "-"%char -> c <> "+"%char ->
  Strconv.Atoi (String c s)
  = match Strconv.digitsValue 0 (String c s) with
    | Some n =>
        if ((Strconv.minInt <=? n) && (n <=? Strconv.maxInt))%Z
        then Some n else None
    | None => None
    end.
Proof.
  intros Hm Hp. unfold Strconv.Atoi.
  destruct c as [[] [] [] [] [] [] [] []]; try reflexivity; congruence.
Qed.

Lemma two_digits_value (b c : ascii) :
  Strconv.isDigit b = true -> Strconv.isDigit c = true ->
  exists n, Strconv.digitsValue 0 (String b (String c "")) = Some n
            /\ (0 <= n <= 99)%Z.
Proof.
  intros Hb Hc. cbn [Strconv.digitsValue]. rewrite Hb, Hc.
  pose proof (digitVal_range b Hb). pose proof (digitVal_range c Hc).
  eexists. split; [reflexivity|lia].
Qed.

(** Atoi converts a chunk of three bytes when it is three digits or a sign
    and two digits *)
Lemma mustParseInt64_three (a b c : ascii) :
  mustParseInt64 (String a (String b (String c ""))) = Panic
  <-> chunkConverts (String a (String b (String c ""))) = false.
Proof.
  unfold mustParseInt64, chunkConverts.
  assert (Hsigned : forall neg : bool,
             match
               (match Strconv.digitsValue 0 (String b (String c "")) with
                | Some n =>
                    let val := if neg then (- n)%Z else n in
                    if ((Strconv.minInt <=? val) && (val <=? Strconv.maxInt))%Z
                    then Some val else None
                | None => None
                end)
             with Some val => Ok val | None => Panic end = Panic
             <-> Strconv.isDigit b && Strconv.isDigit c = false).
  { intros neg. cbn [Strconv.digitsValue].
    destruct (Strconv.isDigit b) eqn:Hb; [|cbn; tauto].
    destruct (Strconv.isDigit c) eqn:Hc; [|cbn; tauto].
    pose proof (digitVal_range b Hb). pose proof (digitVal_range c Hc).
    cbv zeta.
    replace ((Strconv.minInt <=? _) && (_ <=? Strconv.maxInt))%Z with true.
    - cbn. split; discriminate.
    - symmetry. apply andb_true_iff. unfold Strconv.minInt, Strconv.maxInt.
      destruct neg; split; apply Z.leb_le; lia. }
  destruct (Ascii.eqb_spec a "-") as [->|Hm].
  { rewrite orb_true_r. cbn [andb]. apply (Hsigned true). }
  destruct (Ascii.eqb_spec a "+") as [->|Hp].
  { cbn [orb andb Strconv.isDigit]. apply (Hsigned false). }
  rewrite (Atoi_no_sign a _ Hm Hp), !orb_false_r.
  cbn [Strconv.digitsValue].
  destruct (Strconv.isDigit a) eqn:Ha; [|cbn; tauto].
  destruct (Strconv.isDigit b) eqn:Hb; [|cbn; tauto].
  destruct (Strconv.isDigit c) eqn:Hc; [|cbn; tauto].
  pose proof (digitVal_range a Ha). pose proof (digitVal_range b Hb).
  pose proof (digitVal_range c Hc).
  replace ((Strconv.minInt <=? _) && (_ <=? Strconv.maxInt))%Z with true.
  - cbn. split; discriminate.
  - symmetry. apply andb_true_iff. unfold Strconv.minInt, Strconv.maxInt.
    split; apply Z.leb_le; lia.
Qed.

Lemma parseAll_cons_Panic (chunk : string) (chunks : list string) :
  parseAll (chunk :: chunks) = Panic
  <-> mustParseInt64 chunk = Panic \/ parseAll chunks = Panic.
Proof.
  cbn [parseAll]. unfold mustParseInt64.
  destruct (Strconv.Atoi chunk); cbn [bind].
  - destruct (parseAll chunks); cbn [bind]; split;
      try discriminate; intuition discriminate.
  - tauto.
Qed.

(** the chunks of a string all convert, or getFractionValue panics *)
Lemma parseAll_chunks_Panic (s : string) :
  parseAll (map padRight3 (chunks3 s)) = Panic
  <-> forallb chunkConverts (map padRight3 (chunks3 s)) = false.
Proof.
  induction s as [| a | a b | a b c rest IH] using string_ind3;
    cbn [chunks3 map forallb].
  - cbn. split; discriminate.
  - change (padRight3 (String a "")) with (String a "00").
    rewrite parseAll_cons_Panic, mustParseInt64_three, andb_true_r.
    cbn [parseAll]. intuition discriminate.
  - change (padRight3 (String a (String b ""))) with (String a (String b "0")).
    rewrite parseAll_cons_Panic, mustParseInt64_three, andb_true_r.
    cbn [parseAll]. intuition discriminate.
  - change (padRight3 (String a (String b (String c ""))))
      with (String a (String b (String c ""))).
    rewrite parseAll_cons_Panic, mustParseInt64_three, IH, andb_false_iff.
    tauto.
Qed.

(** in a string whose chunks all convert, every byte is a digit or a sign *)
Lemma chunks_convert_bytes (s : string) (x : ascii) :
  forallb chunkConverts (map padRight3 (chunks3 s)) = true ->
  hasByte x s = true ->
  Strconv.isDigit x = true \/ x = "+"%char \/ x = "-"%char.
Proof.
  assert (Hlead : forall a,
             Strconv.isDigit a || Ascii.eqb a "+" || Ascii.eqb a "-" = true ->
             Strconv.isDigit a = true \/ a = "+"%char \/ a = "-"%char).
  { intros a. rewrite !orb_true_iff.
    intros [[H|H]|H]; auto; apply Ascii.eqb_eq in H; auto. }
  induction s as [| a | a b | a b c rest IH] using string_ind3;
    cbn [chunks3 map forallb hasByte]; [discriminate|..];
    intros H Hx; apply andb_true_iff in H as [H Hrest];
    cbv [padRight3 String.length String.append chunkConverts] in H;
    apply andb_true_iff in H as [H Hc]; apply andb_true_iff in H as [Ha Hb];
    apply Hlead in Ha;
    repeat match goal with
           | E : _ || _ = true |- _ => apply orb_true_iff in E as [E|E]
           | E : Ascii.eqb _ _ = true |- _ => apply Ascii.eqb_eq in E; subst
           | E : false = true |- _ => discriminate E
           end; auto.
Qed.

End FractionPanics.

(** X6: the edges of getFractionValue.  The empty string gives no value; a
    lone dot panics (the slice of chunks is empty when its last slot is
    written); one leading dot is dropped, so that ".ds" gives what "ds"
    gives.  When something is left behind the dropped dot, getFractionValue
    panics exactly when one of the chunks of three bytes of what is left,
    the last one padded with zeros, is neither three digits nor a sign and
    two digits: strconv.Atoi accepts a sign in front.  So a byte that is
    neither a digit nor a sign makes it panic wherever it stands, "1x" and
    "1-2" panic, and "-" gives [0], "+1" gives [10] and "-12" gives
    [-12]. *)
Theorem getFractionValue_edges :
  getFractionValue "" = Ok []
  /\ getFractionValue "." = Panic
  /\ (forall c s, Ascii.eqb "." c = false ->
                  getFractionValue (String "." (String c s))
                  = getFractionValue (String c s))
  /\ (forall s c t,
        Strings.TrimPrefix s "." = String c t ->
        (getFractionValue s = Panic
         <-> forallb chunkConverts
               (map padRight3 (chunks3 (String c t))) = false)
        /\ (forall x, hasByte x (String c t) = true ->
                      Strconv.isDigit x = false ->
                      x <> "+"%char -> x <> "-"%char ->
                      getFractionValue s = Panic))
  /\ getFractionValue "1x" = Panic
  /\ getFractionValue "1-2" = Panic
  /\ getFractionValue "-" = Ok [0%Z]
  /\ getFractionValue "+1" = Ok [10%Z]
  /\ getFractionValue "-12" = Ok [(-12)%Z].
Proof.
  split; [reflexivity|]. split; [reflexivity|].
  split; [|split; [|repeat split]].
  - intros c s Hc.
    rewrite (getFractionValue_trimmed (String "." (String c s)) c s eq_refl).
    symmetry. apply getFractionValue_trimmed.
    unfold Strings.TrimPrefix. cbn [Strings.HasPrefix]. now rewrite Hc.
  - intros s c t Htrim. rewrite (getFractionValue_trimmed s c t Htrim).
    split; [apply parseAll_chunks_Panic|].
    intros x Hx Hd Hp Hm. apply parseAll_chunks_Panic.
    destruct (forallb chunkConverts (map padRight3 (chunks3 (String c t))))
      eqn:E; [|reflexivity].
    destruct (chunks_convert_bytes _ x E Hx) as [H|[H|H]]; congruence.
Qed.

(** ** The matcher and the runs of its pattern *)

Section RunAccepts.
Import Regexp.

Variable Q : thread -> Prop.

(** a step all of whose threads come from its continuation, called at the
    end of a run [R] *)
Let follows (step : matcher)
    (R : string -> captures -> string -> captures -> Prop) : Prop :=
  forall text cap k,
    (forall text' cap', R text cap text' cap' -> Forall Q (k text' cap')) ->
    Forall Q (step text cap k).

Lemma laps_app (R : string -> captures -> string -> captures -> Prop)
    (n m : nat) (t1 : string) (c1 : captures) (t2 : string) (c2 : captures)
    (t3 : string) (c3 : captures) :
  laps R n t1 c1 t2 c2 -> laps R m t2 c2 t3 c3 ->
  laps R (n + m) t1 c1 t3 c3.
Proof.
  revert t1 c1. induction n as [|n IH]; intros t1 c1; cbn [laps Nat.add].
  - intros [-> ->]. auto.
  - intros (mid & capm & HR & Hr) Hm. exists mid, capm. auto.
Qed.

Lemma must_follows (step : matcher)
    (R : string -> captures -> string -> captures -> Prop) :
  follows step R ->
  forall n text cap k,
    (forall text' cap', laps R n text cap text' cap' ->
                        Forall Q (k text' cap')) ->
    Forall Q (must step k n text cap).
Proof.
  intros Hstep. induction n as [|n IH]; intros text cap k Hk; cbn [must].
  - apply Hk. split; reflexivity.
  - apply Hstep. intros mid capm HR. apply IH.
    intros text' cap' Hr. apply Hk. exists mid, capm. auto.
Qed.

Lemma more_follows (step : matcher)
    (R : string -> captures -> string -> captures -> Prop) :
  follows step R ->
  forall fuel text cap k,
    (forall n text' cap', n <= fuel -> laps R n text cap text' cap' ->
                          Forall Q (k text' cap')) ->
    Forall Q (more step k fuel text cap).
Proof.
  intros Hstep. induction fuel as [|fuel IH]; intros text cap k Hk;
    cbn [more].
  - apply (Hk 0); [lia|split; reflexivity].
  - apply Forall_app. split; [|apply (Hk 0); [lia|split; reflexivity]].
    apply Hstep. intros mid capm HR.
    destruct (String.length mid <? String.length text)%nat; [|constructor].
    apply IH. intros n text' cap' Hn Hr.
    apply (Hk (S n)); [lia|]. exists mid, capm. auto.
Qed.

(** every thread of the matcher is the end of a run of its pattern *)
Lemma run_follows (r : regex) : forall g, follows (run r g) (accepts r g).
Proof.
  induction r as [| c | lo hi | r1 IH1 r2 IH2 | r1 IH1 r2 IH2
                  | lo hi r1 IH1 | r1 IH1 | ];
    intros g text cap k Hk; cbn [run accepts] in *.
  - apply Hk. auto.
  - destruct text as [|b rest]; [constructor|].
    destruct (Ascii.eqb_spec b c) as [->|]; [|constructor].
    apply Hk. auto.
  - destruct text as [|b rest]; [constructor|].
    destruct (inClass lo hi b) eqn:E; [|constructor].
    apply Hk. split; [exists b|]; auto.
  - apply IH1. intros mid capm H1. apply IH2. intros text' cap' H2.
    apply Hk. exists mid, capm. auto.
  - apply Forall_app. split.
    + apply IH1. intros text' cap' H. apply Hk. auto.
    + apply IH2. intros text' cap' H. apply Hk. auto.
  - apply (must_follows (run r1 g) (accepts r1 g)); [apply IH1|].
    intros text0 cap0 Hr0.
    apply (more_follows (run r1 g) (accepts r1 g)); [apply IH1|].
    intros n text' cap' Hn Hr. apply Hk. exists (lo + n).
    split; [lia|]. split; [destruct hi; [lia|exact I]|].
    eapply laps_app; eassumption.
  - apply IH1. intros text' cap1 H. apply Hk. exists cap1. auto.
  - destruct text; [|constructor]. apply Hk. auto.
Qed.

End RunAccepts.

Section MatchAccepts.
Import Regexp.

(** a match is the end of a run of the pattern, with the whole match as
    submatch 0 *)
Lemma matchAt_accepts (re : Regexp) (text : string) (matches : list string) :
  matchAt re text = Some matches ->
  exists rest cap,
    accepts (expr re) 1 text noCaptures rest cap
    /\ matches = map (setCapture 0 (consumed text rest) cap)
                   (seq 0 (S (NumSubexp (expr re)))).
Proof.
  unfold matchAt.
  destruct (pick (longest re) _) as [[rest cap]|] eqn:Hpick; [|discriminate].
  apply pick_In in Hpick. intros H. injection H as <-.
  exists rest, cap. split; [|reflexivity].
  pose proof (run_follows
                (fun t => accepts (expr re) 1 text noCaptures (fst t) (snd t))
                (expr re) 1 text noCaptures
                (fun rest cap => [(rest, cap)])) as Hall.
  rewrite Forall_forall in Hall.
  apply (Hall (fun text' cap' H => Forall_cons (text', cap') H (Forall_nil _))
              (rest, cap) Hpick).
Qed.

End MatchAccepts.

(** ** What the groups of the patterns capture *)

Section Blocks.
Import Regexp.

Lemma take_app (p rest : string) :
  Strings.take (String.length p) (p ++ rest) = p.
Proof. induction p as [|c p IH]; cbn; [reflexivity|now rewrite IH]. Qed.

Lemma consumed_app (p rest : string) : consumed (p ++ rest) rest = p.
Proof.
  unfold consumed. rewrite append_length.
  replace (String.length p + String.length rest - String.length rest)
    with (String.length p) by lia.
  apply take_app.
Qed.

Lemma inClass_digit (b : ascii) : inClass "0" "9" b = Strconv.isDigit b.
Proof. reflexivity. Qed.

Lemma digitRun_cons (b : ascii) (ds : string) :
  Strconv.isDigit b = true -> Strconv.allDigits ds = true ->
  digitRun (String b ds) = true.
Proof. intros Hb Hds. unfold digitRun. cbn. now rewrite Hb, Hds. Qed.

Lemma digitRun_inv (s : string) :
  digitRun s = true ->
  exists b ds, s = String b ds /\ Strconv.isDigit b = true
               /\ Strconv.allDigits ds = true.
Proof.
  unfold digitRun. destruct s as [|b ds]; [discriminate|].
  cbn. rewrite andb_true_iff. intros [Hb Hds]. eauto.
Qed.

(** [n] laps of one digit: [n] digits, no submatch touched *)
Lemma laps_digit (g n : nat) :
  forall text cap text' cap',
    laps (accepts Patterns.digit g) n text cap text' cap' ->
    cap' = cap
    /\ exists ds, text = (ds ++ text')%string /\ String.length ds = n
                  /\ Strconv.allDigits ds = true.
Proof.
  induction n as [|n IH]; intros text cap text' cap'; cbn [laps].
  - intros [-> ->]. split; [reflexivity|]. exists "". auto.
  - intros (mid & capm & [(b & -> & Hb) ->] & Hl).
    destruct (IH _ _ _ _ Hl) as (-> & ds & -> & Hlen & Hds).
    split; [reflexivity|]. exists (String b ds).
    rewrite inClass_digit in Hb. cbn. rewrite Hb, Hds, Hlen. auto.
Qed.

(** digits repeated at least once *)
Lemma accepts_digits (hi : option nat) (g : nat) (text : string)
    (cap : captures) (text' : string) (cap' : captures) :
  accepts (Repeat 1 hi Patterns.digit) g text cap text' cap' ->
  cap' = cap
  /\ exists ds, text = (ds ++ text')%string /\ digitRun ds = true.
Proof.
  intros (n & Hn & _ & Hl). apply laps_digit in Hl.
  destruct Hl as (-> & ds & -> & Hlen & Hds). split; [reflexivity|].
  exists ds. split; [reflexivity|].
  destruct ds as [|b ds]; [cbn in Hlen; lia|].
  cbn in Hds. apply andb_true_iff in Hds as [Hb Hds].
  apply digitRun_cons; assumption.
Qed.

(** an optional part: absent, or there once *)
Lemma accepts_Opt (r : regex) (g : nat) (text : string) (cap : captures)
    (text' : string) (cap' : captures) :
  accepts (Opt r) g text cap text' cap' ->
  (text' = text /\ cap' = cap) \/ accepts r g text cap text' cap'.
Proof.
  intros (n & _ & Hhi & Hl). cbn in Hhi.
  destruct n as [|[|n]]; [| |lia]; cbn [laps] in Hl.
  - left. exact Hl.
  - right. destruct Hl as (mid & capm & H & -> & ->). exact H.
Qed.

(** laxIntR *)
Lemma accepts_laxIntR (g : nat) (text : string) (cap : captures)
    (text' : string) (cap' : captures) :
  accepts Patterns.laxIntR g text cap text' cap' ->
  exists int, text = (int ++ text')%string /\ digitRun int = true
              /\ cap' = setCapture g int cap.
Proof.
  intros (cap1 & H & ->). apply accepts_digits in H.
  destruct H as (-> & ds & -> & Hds). exists ds.
  rewrite consumed_app. auto.
Qed.

(** strictIntR: "0", or a digit from 1 to 9 and more digits *)
Lemma accepts_strictIntR (g : nat) (text : string) (cap : captures)
    (text' : string) (cap' : captures) :
  accepts Patterns.strictIntR g text cap text' cap' ->
  exists int, text = (int ++ text')%string /\ digitRun int = true
              /\ strictInt int = true /\ cap' = setCapture g int cap.
Proof.
  intros (cap1 & [[-> ->]|(mid & capm & [(b & -> & Hb) ->] & H)] & ->).
  - exists "0". change (String "0" text') with ("0" ++ text')%string.
    rewrite consumed_app. auto.
  - destruct H as (n & _ & _ & Hl). apply laps_digit in Hl.
    destruct Hl as (-> & ds & -> & _ & Hds). exists (String b ds).
    change (String b (ds ++ text')) with (String b ds ++ text')%string.
    rewrite consumed_app. split; [reflexivity|].
    assert (Hdigit : Strconv.isDigit b = true).
    { unfold inClass in Hb. unfold Strconv.isDigit.
      apply andb_true_iff in Hb as [H1 H2]. apply Nat.leb_le in H1, H2.
      apply andb_true_iff. split; apply Nat.leb_le; cbn in *; lia. }
    assert (Hnz : Ascii.eqb b "0" = false).
    { destruct (Ascii.eqb_spec b "0") as [->|]; [|reflexivity].
      discriminate Hb. }
    split; [apply digitRun_cons; assumption|]. split; [|reflexivity].
    cbn [strictInt]. rewrite Hdigit, Hnz, Hds. apply orb_true_r.
Qed.

(** a lead byte and digits: the fraction and the alpha suffix *)
Lemma accepts_lead_digits (lead : ascii) (g : nat) (text : string)
    (cap : captures) (text' : string) (cap' : captures) :
  accepts (Group (Seq [Lit lead; Plus Patterns.digit])) g text cap text' cap' ->
  exists s, text = (s ++ text')%string /\ s <> "" /\ fragment lead s = true
            /\ cap' = setCapture g s cap.
Proof.
  intros (cap1 & (mid & capm & [-> ->] & H) & ->).
  apply accepts_digits in H. destruct H as (-> & ds & -> & Hds).
  exists (String lead ds).
  change (String lead (ds ++ text')) with (String lead ds ++ text')%string.
  rewrite consumed_app. split; [reflexivity|]. split; [discriminate|].
  split; [|reflexivity]. unfold fragment. rewrite Ascii.eqb_refl.
  exact Hds.
Qed.

Lemma dots_app (groups1 groups2 : list string) :
  dots (groups1 ++ groups2) = (dots groups1 ++ dots groups2)%string.
Proof.
  induction groups1 as [|group groups1 IH]; [reflexivity|].
  cbn [dots app String.append]. rewrite IH, append_assoc. reflexivity.
Qed.

(** [n] laps of a dotted group *)
Lemma laps_dotted (hi : option nat) (g n : nat) :
  forall text cap text' cap',
    laps (accepts (Seq [Lit "."; Repeat 1 hi Patterns.digit]) g) n
      text cap text' cap' ->
    cap' = cap
    /\ exists groups, text = (dots groups ++ text')%string
                      /\ List.length groups = n
                      /\ Forall (fun group => digitRun group = true) groups.
Proof.
  induction n as [|n IH]; intros text cap text' cap'; cbn [laps].
  - intros [-> ->]. split; [reflexivity|]. exists []. auto.
  - intros (mid & capm & (mid0 & cap0 & [-> ->] & H) & Hl).
    apply accepts_digits in H. destruct H as (-> & ds & -> & Hds).
    destruct (IH _ _ _ _ Hl) as (-> & groups & -> & Hlen & Hall).
    split; [reflexivity|]. exists (ds :: groups).
    cbn [dots String.append List.length]. rewrite append_assoc.
    split; [reflexivity|]. split; [lia|]. constructor; assumption.
Qed.

(** a group of dotted groups, [lo] of them or more *)
Lemma accepts_dotted (lo : nat) (hi : option nat) (g : nat) (text : string)
    (cap : captures) (text' : string) (cap' : captures) :
  accepts (Group (Repeat lo None (Seq [Lit "."; Repeat 1 hi Patterns.digit])))
    g text cap text' cap' ->
  exists dotted, text = (dotted ++ text')%string /\ dottedText lo dotted
                 /\ cap' = setCapture g dotted cap.
Proof.
  intros (cap1 & (n & Hn & _ & Hl) & ->). apply laps_dotted in Hl.
  destruct Hl as (-> & groups & -> & Hlen & Hall). exists (dots groups).
  rewrite consumed_app. split; [reflexivity|]. split; [|reflexivity].
  exists groups. split; [reflexivity|]. split; [lia|exact Hall].
Qed.

(** digits repeated at least once and at most [h] times *)
Lemma accepts_digits_bounded (h g : nat) (text : string) (cap : captures)
    (text' : string) (cap' : captures) :
  accepts (Repeat 1 (Some h) Patterns.digit) g text cap text' cap' ->
  cap' = cap
  /\ exists ds, text = (ds ++ text')%string /\ digitRun ds = true
                /\ String.length ds <= 1 + (h - 1).
Proof.
  intros H. destruct (accepts_digits _ _ _ _ _ _ H) as (Hcap & _).
  split; [exact Hcap|]. destruct H as (n & Hn & Hhi & Hl).
  apply laps_digit in Hl. destruct Hl as (_ & ds & -> & Hlen & Hds).
  exists ds. split; [reflexivity|]. split; [|lia].
  destruct ds as [|b ds]; [cbn in Hlen; lia|].
  cbn in Hds. apply andb_true_iff in Hds as [Hb Hds].
  apply digitRun_cons; assumption.
Qed.

(** [n] laps of a dotted group of at most [h] digits *)
Lemma laps_dotted_bounded (h g n : nat) :
  forall text cap text' cap',
    laps (accepts (Seq [Lit "."; Repeat 1 (Some h) Patterns.digit]) g) n
      text cap text' cap' ->
    exists groups, text = (dots groups ++ text')%string
                   /\ List.length groups = n
                   /\ Forall (fun group =>
                                digitRun group = true
                                /\ String.length group <= 1 + (h - 1))
                        groups.
Proof.
  induction n as [|n IH]; intros text cap text' cap'; cbn [laps].
  - intros [-> ->]. exists []. auto.
  - intros (mid & capm & (mid0 & cap0 & [-> ->] & H) & Hl).
    apply accepts_digits_bounded in H.
    destruct H as (-> & ds & -> & Hds & Hlen).
    destruct (IH _ _ _ _ Hl) as (groups & -> & Hcount & Hall).
    exists (ds :: groups).
    cbn [dots String.append List.length]. rewrite append_assoc.
    split; [reflexivity|]. split; [lia|]. constructor; auto.
Qed.

(** the dotted groups of the strict grammar: one to three digits each *)
Lemma accepts_strictDotted2PR (g : nat) (text : string) (cap : captures)
    (text' : string) (cap' : captures) :
  accepts Patterns.strictDotted2PR g text cap text' cap' ->
  exists groups,
    text = (dots groups ++ text')%string
    /\ Forall (fun group => digitRun group = true /\ String.length group <= 3)
         groups.
Proof.
  intros (cap1 & (n & _ & _ & Hl) & _). apply laps_dotted_bounded in Hl.
  destruct Hl as (groups & -> & _ & Hall). exists groups. auto.
Qed.

End Blocks.

Section Shapes.
Import Regexp.

Lemma consumed_all (text : string) : consumed text "" = text.
Proof.
  unfold consumed. cbn [String.length]. rewrite Nat.sub_0_r. apply take_all.
Qed.

Lemma accepts_opt_alpha (g : nat) (text : string) (cap : captures)
    (text' : string) (cap' : captures) :
  accepts (Opt Patterns.laxAlphaR) g text cap text' cap' ->
  (text' = text /\ cap' = cap)
  \/ exists alpha, text = (alpha ++ text')%string /\ alpha <> ""
                   /\ fragment "_" alpha = true
                   /\ cap' = setCapture g alpha cap.
Proof.
  intros H. apply accepts_Opt in H. destruct H as [H|H]; [left; exact H|].
  right. apply accepts_lead_digits. exact H.
Qed.

(** computes the group numbers that unfolding a pattern leaves as sums *)
Ltac groups :=
  repeat match goal with
         | H : context [accepts ?r ?g] |- _ =>
             let g' := eval vm_compute in g in
             progress change g with g' in H
         end.

Lemma lax_shapes (text rest : string) (cap : captures) :
  accepts Patterns.LaxVersionRegex 1 text noCaptures rest cap ->
  rest = ""
  /\ laxSubmatches (map (setCapture 0 (consumed text rest) cap) (seq 0 15)).
Proof.
  unfold Patterns.LaxVersionRegex. cbn [Seq Alts accepts].
  intros (mid & capm & Halt & -> & -> & ->). split; [reflexivity|].
  rewrite consumed_all.
  destruct Halt as [HU|[HD|HC]].
  - unfold Patterns.laxUndefR in HU. cbn [accepts Str] in HU.
    destruct HU as (cap1 & HU & ->).
    repeat match goal with
           | H : exists _ _, _ |- _ => destruct H as (? & ? & [-> ->] & H)
           end.
    destruct HU as [-> ->]. cbn. apply laxUndefined.
  - unfold Patterns.laxDottedFormR in HD. cbn [accepts Seq Alts] in HD. groups.
    destruct HD as (cap1 & [HA|HB] & ->).
    + destruct HA as (mid & cap2 & [-> ->] & mid0 & cap3 & Hint & Hopt).
      apply accepts_laxIntR in Hint. destruct Hint as (int & -> & Hint & ->).
      apply accepts_Opt in Hopt.
      destruct Hopt as [[<- ->]|(mid1 & cap4 & Hdot & Halpha)].
      * rewrite consumed_all.
        apply (laxDottedA int "" ""); auto.
        exists []. repeat split; [cbn; lia|constructor].
      * apply accepts_dotted in Hdot.
        destruct Hdot as (dotted & -> & Hdotted & ->).
        assert (Hne : dotted <> "").
        { destruct Hdotted as ([|group groups] & -> & Hlen & _);
            [cbn in Hlen; lia|discriminate]. }
        assert (H0 : dottedText 0 dotted).
        { destruct Hdotted as (groups & ? & ? & ?). exists groups.
          repeat split; [assumption|lia|assumption]. }
        apply accepts_opt_alpha in Halpha.
        destruct Halpha as [[<- ->]|(alpha & -> & _ & Halpha & ->)].
        -- rewrite consumed_all.
           apply (laxDottedA int dotted ""); auto.
        -- rewrite consumed_all, append_empty_r.
           apply (laxDottedA int dotted alpha); auto. intros; contradiction.
    + destruct HB as (mid & cap2 & Hint & mid0 & cap3 & Hdot & Halpha).
      apply accepts_dotted in Hdot.
      destruct Hdot as (dotted & -> & Hdotted & ->).
      apply accepts_Opt in Hint.
      apply accepts_opt_alpha in Halpha.
      destruct Hint as [[<- ->]|Hint].
      * destruct Halpha as [[<- ->]|(alpha & -> & _ & Halpha & ->)].
        -- rewrite consumed_all. apply (laxDottedB "" dotted ""); auto.
        -- rewrite consumed_all, append_empty_r.
           apply (laxDottedB "" dotted alpha); auto.
      * apply accepts_laxIntR in Hint. destruct Hint as (int & -> & Hint & ->).
        destruct Halpha as [[<- ->]|(alpha & -> & _ & Halpha & ->)].
        -- rewrite consumed_all. apply (laxDottedB int dotted ""); auto.
        -- rewrite consumed_all, append_empty_r.
           apply (laxDottedB int dotted alpha); auto.
  - unfold Patterns.laxDecimalFormR in HC. cbn [accepts Seq Alts] in HC. groups.
    destruct HC as (cap1 & [HA|HB] & ->).
    + destruct HA as (mid & cap2 & Hint & mid0 & cap3 & Hfrac & Halpha).
      apply accepts_laxIntR in Hint. destruct Hint as (int & -> & Hint & ->).
      apply accepts_opt_alpha in Halpha.
      apply accepts_Opt in Hfrac.
      destruct Hfrac as [[-> ->]|[Hfrac|[-> ->]]].
      * destruct Halpha as [[<- ->]|(alpha & -> & _ & Halpha & ->)].
        -- rewrite consumed_all. apply (laxDecimalA int "" "" ""); auto.
        -- rewrite consumed_all, append_empty_r.
           apply (laxDecimalA int "" "" alpha); auto.
      * apply accepts_lead_digits in Hfrac.
        destruct Hfrac as (frac & -> & _ & Hfrac & ->).
        destruct Halpha as [[<- ->]|(alpha & -> & _ & Halpha & ->)].
        -- rewrite consumed_all. apply (laxDecimalA int frac "" ""); auto.
        -- rewrite consumed_all, append_empty_r.
           apply (laxDecimalA int frac "" alpha); auto.
      * destruct Halpha as [[<- ->]|(alpha & -> & _ & Halpha & ->)].
        -- rewrite consumed_all. apply (laxDecimalA int "" "." ""); auto.
        -- rewrite consumed_all, append_empty_r.
           apply (laxDecimalA int "" "." alpha); auto.
    + destruct HB as (mid & cap2 & Hfrac & Halpha).
      apply accepts_lead_digits in Hfrac.
      destruct Hfrac as (frac & -> & Hne & Hfrac & ->).
      apply accepts_opt_alpha in Halpha.
      destruct Halpha as [[<- ->]|(alpha & -> & _ & Halpha & ->)].
      * rewrite consumed_all. apply (laxDecimalB frac ""); auto.
      * rewrite consumed_all, append_empty_r.
        apply (laxDecimalB frac alpha); auto.
Qed.

Lemma strict_shapes (text rest : string) (cap : captures) :
  accepts Patterns.StrictVersionRegex 1 text noCaptures rest cap ->
  rest = ""
  /\ strictSubmatches (map (setCapture 0 (consumed text rest) cap) (seq 0 7)).
Proof.
  unfold Patterns.StrictVersionRegex. cbn [Seq Alts accepts].
  intros (mid & capm & Halt & -> & -> & ->). split; [reflexivity|].
  rewrite consumed_all.
  destruct Halt as [HD|HV].
  - unfold Patterns.strictDecimalFormR in HD. cbn [accepts Seq Alts] in HD.
    groups.
    destruct HD as (cap1 & (mid & cap2 & Hint & Hfrac) & ->).
    apply accepts_strictIntR in Hint.
    destruct Hint as (int & -> & Hint & Hstrict & ->).
    apply accepts_Opt in Hfrac. destruct Hfrac as [[<- ->]|Hfrac].
    + rewrite consumed_all. apply (strictDecimal int ""); auto.
    + apply accepts_lead_digits in Hfrac.
      destruct Hfrac as (frac & -> & _ & Hfrac & ->).
      rewrite consumed_all, append_empty_r.
      apply (strictDecimal int frac); auto.
  - unfold Patterns.strictDottedFormR in HV. cbn [accepts Seq Alts] in HV.
    groups.
    destruct HV as (cap1 & (mid & cap2 & [-> ->] & mid0 & cap3 & Hint & Hdot)
                    & ->).
    apply accepts_strictIntR in Hint.
    destruct Hint as (int & -> & Hint & Hstrict & ->).
    pose proof (accepts_strictDotted2PR _ _ _ _ _ Hdot) as Hbound.
    apply accepts_dotted in Hdot. destruct Hdot as (dotted & -> & Hdotted & ->).
    rewrite consumed_all, append_empty_r.
    apply (strictDotted int dotted); auto.
    destruct Hbound as (groups & Hgroups & Hall). exists groups.
    split; [|exact Hall]. rewrite !append_empty_r in Hgroups. exact Hgroups.
Qed.

(** the submatches that FindStringSubmatch returns for the two patterns *)
Lemma lax_submatches (text : string) (matches : list string) :
  FindStringSubmatch laxRegexp text = Some matches -> laxSubmatches matches.
Proof.
  intros H. apply FindStringSubmatch_suffix in H.
  destruct H as (skipped & rest & _ & Hm). apply matchAt_accepts in Hm.
  destruct Hm as (rest' & cap & Hacc & ->).
  apply lax_shapes in Hacc. apply Hacc.
Qed.

Lemma strict_submatches (text : string) (matches : list string) :
  FindStringSubmatch strictRegexp text = Some matches ->
  strictSubmatches matches.
Proof.
  intros H. apply FindStringSubmatch_suffix in H.
  destruct H as (skipped & rest & _ & Hm). apply matchAt_accepts in Hm.
  destruct Hm as (rest' & cap & Hacc & ->).
  apply strict_shapes in Hacc. apply Hacc.
Qed.

End Shapes.

(** ** Numbers *)

Section Numbers.

(** the value of a digit string, as an accumulator continues it *)
Lemma digitsValue_digits (s : string) :
  Strconv.allDigits s = true ->
  (0 <= decimalValue s < 10 ^ Z.of_nat (String.length s))%Z
  /\ forall acc,
       Strconv.digitsValue acc s
       = Some (acc * 10 ^ Z.of_nat (String.length s) + decimalValue s)%Z.
Proof.
  unfold decimalValue.
  induction s as [|c s IH]; cbn [Strconv.allDigits Strconv.digitsValue].
  - intros _. split; [cbn; lia|]. intros acc. cbn. f_equal. lia.
  - rewrite andb_true_iff. intros [Hc Hs]. rewrite Hc.
    destruct (IH Hs) as [Hrange Hacc]. pose proof (digitVal_range c Hc) as Hd.
    rewrite (Hacc (10 * 0 + Strconv.digitVal c)%Z).
    cbn [String.length]. rewrite Nat2Z.inj_succ, Z.pow_succ_r by lia.
    split; [nia|]. intros acc. rewrite Hacc. f_equal. nia.
Qed.

Lemma decimalValue_nonneg (s : string) :
  Strconv.allDigits s = true -> (0 <= decimalValue s)%Z.
Proof. intros H. apply (digitsValue_digits s H). Qed.

(** on digits Atoi can only fail by overflow, and gives their value *)
Lemma mustParseInt64_digits (s : string) (val : Z) :
  digitRun s = true -> mustParseInt64 s = Ok val -> val = decimalValue s.
Proof.
  intros Hs. destruct (digitRun_inv s Hs) as (b & ds & -> & Hb & Hds).
  unfold mustParseInt64. rewrite Atoi_unsigned by exact Hb.
  unfold decimalValue.
  destruct (Strconv.digitsValue 0 (String b ds)) as [n|]; [|discriminate].
  destruct ((Strconv.minInt <=? n)%Z && (n <=? Strconv.maxInt)%Z);
    [|discriminate].
  intros H. injection H as <-. reflexivity.
Qed.

(** eighteen digits or fewer fit in an int64 *)
Lemma mustParseInt64_fits (s : string) :
  digitRun s = true -> String.length s <= 18 ->
  mustParseInt64 s = Ok (decimalValue s).
Proof.
  intros Hs Hlen. destruct (digitRun_inv s Hs) as (b & ds & -> & Hb & Hds).
  assert (Hall : Strconv.allDigits (String b ds) = true)
    by (cbn; now rewrite Hb, Hds).
  destruct (digitsValue_digits _ Hall) as [Hrange Hacc].
  unfold mustParseInt64. rewrite Atoi_unsigned by exact Hb.
  rewrite (Hacc 0%Z). cbn [Z.mul Z.add].
  assert (Hpow : (10 ^ Z.of_nat (String.length (String b ds)) <= 10 ^ 18)%Z)
    by (apply Z.pow_le_mono_r; lia).
  replace ((Strconv.minInt <=? _)%Z && (_ <=? Strconv.maxInt)%Z) with true;
    [reflexivity|].
  symmetry. apply andb_true_iff. unfold Strconv.minInt, Strconv.maxInt.
  split; apply Z.leb_le; lia.
Qed.

(** on digits Atoi fails by overflow, and by nothing else *)
Lemma mustParseInt64_run (s : string) :
  digitRun s = true ->
  mustParseInt64 s = if fitsInt64 s then Ok (decimalValue s) else Panic.
Proof.
  intros Hs. destruct (digitRun_inv s Hs) as (b & ds & -> & Hb & Hds).
  assert (Hall : Strconv.allDigits (String b ds) = true)
    by (cbn; now rewrite Hb, Hds).
  destruct (digitsValue_digits _ Hall) as [Hrange Hacc].
  unfold mustParseInt64, fitsInt64. rewrite Atoi_unsigned by exact Hb.
  rewrite (Hacc 0%Z). cbn [Z.mul Z.add].
  replace (Strconv.minInt <=? decimalValue (String b ds))%Z with true
    by (symmetry; apply Z.leb_le; unfold Strconv.minInt; lia).
  cbn [andb]. now destruct (decimalValue (String b ds) <=? Strconv.maxInt)%Z.
Qed.

Lemma parseAll_runs (groups : list string) :
  Forall (fun group => digitRun group = true) groups ->
  parseAll groups
  = if forallb fitsInt64 groups then Ok (map decimalValue groups) else Panic.
Proof.
  intros Hall. induction Hall as [|group groups Hg _ IH];
    cbn [parseAll map forallb]; [reflexivity|].
  rewrite (mustParseInt64_run group Hg), IH.
  destruct (fitsInt64 group), (forallb fitsInt64 groups); reflexivity.
Qed.

Lemma parseAll_digits (groups : list string) (vals : list Z) :
  Forall (fun group => digitRun group = true) groups ->
  parseAll groups = Ok vals -> vals = map decimalValue groups.
Proof.
  intros Hall. revert vals.
  induction Hall as [|group groups Hg _ IH]; intros vals; cbn [parseAll map].
  - intros H. injection H as <-. reflexivity.
  - intros H. bind_inv H. injection H as <-.
    rewrite (mustParseInt64_digits group x Hg E), (IH x0 eq_refl).
    reflexivity.
Qed.

Lemma parseAll_fits (groups : list string) :
  Forall (fun group => digitRun group = true) groups ->
  Forall (fun group => String.length group <= 18) groups ->
  parseAll groups = Ok (map decimalValue groups).
Proof.
  intros Hall. induction Hall as [|group groups Hg _ IH]; intros Hfit;
    cbn [parseAll map]; [reflexivity|].
  inversion Hfit as [|? ? Hlen Hfit']; subst.
  rewrite (mustParseInt64_fits group Hg Hlen). cbn [bind].
  rewrite (IH Hfit'). reflexivity.
Qed.

Lemma parseAll_length (groups : list string) (vals : list Z) :
  parseAll groups = Ok vals -> List.length vals = List.length groups.
Proof.
  revert vals. induction groups as [|group groups IH]; intros vals;
    cbn [parseAll].
  - intros H. injection H as <-. reflexivity.
  - intros H. bind_inv H. injection H as <-. cbn. f_equal. apply IH.
    reflexivity.
Qed.

Lemma digitRun_allDigits (s : string) :
  digitRun s = true -> Strconv.allDigits s = true.
Proof. unfold digitRun. rewrite andb_true_iff. tauto. Qed.

Lemma decimalValues_nonneg (groups : list string) :
  Forall (fun group => digitRun group = true) groups ->
  Forall (fun x => (0 <= x)%Z) (map decimalValue groups).
Proof.
  intros H. induction H as [|group groups Hg _ IH]; constructor; [|exact IH].
  apply decimalValue_nonneg, digitRun_allDigits, Hg.
Qed.

End Numbers.

(** ** Dotted groups *)

Section DottedGroups.

Lemma Split_nonempty (s : string) (sep : ascii) : Strings.Split s sep <> [].
Proof.
  destruct s as [|c s]; cbn [Strings.Split]; [discriminate|].
  destruct (Ascii.eqb c sep); [discriminate|].
  destruct (Strings.Split s sep); discriminate.
Qed.

Lemma Split_digits (s rest : string) :
  Strconv.allDigits s = true ->
  Strings.Split (s ++ rest) "."
  = match Strings.Split rest "." with
    | piece :: pieces => (s ++ piece)%string :: pieces
    | [] => [s]
    end.
Proof.
  induction s as [|c s IH]; cbn [Strconv.allDigits String.append].
  - intros _. destruct (Strings.Split rest ".") eqn:E; [|reflexivity].
    exfalso. eapply Split_nonempty. eassumption.
  - rewrite andb_true_iff. intros [Hc Hs]. cbn [Strings.Split].
    rewrite Ascii.eqb_sym, (isDigit_not_dot c Hc), (IH Hs).
    destruct (Strings.Split rest "."); reflexivity.
Qed.

Lemma HasPrefix_empty (s : string) : Strings.HasPrefix s "" = true.
Proof. destruct s; reflexivity. Qed.

Lemma TrimPrefix_lead (lead : ascii) (s : string) :
  Strings.TrimPrefix (String lead s) (String lead "") = s.
Proof.
  unfold Strings.TrimPrefix. cbn [Strings.HasPrefix].
  rewrite Ascii.eqb_refl, HasPrefix_empty. reflexivity.
Qed.

(** splitting ".g1.g2...gn" without its leading dot gives the groups *)
Lemma Split_dots (group : string) (groups : list string) :
  Forall (fun g => digitRun g = true) (group :: groups) ->
  Strings.Split (Strings.TrimPrefix (dots (group :: groups)) ".") "."
  = group :: groups.
Proof.
  intros Hall. cbn [dots String.append]. rewrite TrimPrefix_lead.
  revert group Hall.
 induction groups as [|g groups IH]; intros group Hall;
    inversion Hall as [|? ? Hg Hall']; subst.
  - cbn [dots]. rewrite Split_digits by (apply digitRun_allDigits, Hg).
    cbn. now rewrite append_empty_r.
  - cbn [dots]. rewrite Split_digits by (apply digitRun_allDigits, Hg).
    change ("." ++ g ++ dots groups)%string with (String "." (g ++ dots groups)).
    cbn [Strings.Split]. change (Ascii.eqb "." ".") with true. cbv iota.
    rewrite (IH g Hall'). now rewrite append_empty_r.
Qed.

Lemma dottedToMinors_dots (group : string) (groups : list string) :
  Forall (fun g => digitRun g = true) (group :: groups) ->
  dottedToMinors (dots (group :: groups)) = parseAll (group :: groups).
Proof.
  intros Hall. unfold dottedToMinors. now rewrite Split_dots.
Qed.

End DottedGroups.

(** ** The reconstructors on the submatches of the grammars *)

Section Reconstructors.

Lemma TrimPrefix_fragment (lead : ascii) (s : string) :
  fragment lead s = true ->
  Strings.TrimPrefix s (String lead "") = digitsOf s.
Proof.
  intros H. destruct (fragment_inv lead s H) as [->|(c & ds & -> & _)].
  - reflexivity.
  - apply TrimPrefix_lead.
Qed.

Lemma fragment_digits (lead : ascii) (s : string) :
  fragment lead s = true -> Strconv.allDigits (digitsOf s) = true.
Proof.
  intros H. destruct (fragment_inv lead s H) as [->|(c & ds & -> & Hd)];
    [reflexivity|exact Hd].
Qed.

Lemma nonEmpty_fragment (lead : ascii) (s : string) :
  fragment lead s = true -> nonEmpty s = nonEmpty (digitsOf s).
Proof.
  intros H. destruct (fragment_inv lead s H) as [->|(c & ds & -> & _)];
    reflexivity.
Qed.

Lemma digitRun_app (s extra : string) :
  digitRun s = true -> Strconv.allDigits extra = true ->
  digitRun (s ++ extra) = true.
Proof.
  intros Hs He. destruct (digitRun_inv s Hs) as (b & ds & -> & Hb & Hds).
  cbn [String.append]. apply digitRun_cons; [exact Hb|].
  rewrite allDigits_app, Hds, He. reflexivity.
Qed.

Lemma dots_appendToLast (groups : list string) (extra : string) :
  groups <> [] ->
  (dots groups ++ extra)%string = dots (appendToLast groups extra).
Proof.
  induction groups as [|group [|g groups] IH]; [contradiction| |]; intros _.
  - cbn [dots appendToLast String.append]. now rewrite !append_empty_r.
  - cbn [dots appendToLast] in *. cbn [String.append].
    rewrite <- IH by discriminate. now rewrite append_assoc.
Qed.

Lemma appendToLast_digitRun (groups : list string) (extra : string) :
  Forall (fun g => digitRun g = true) groups ->
  Strconv.allDigits extra = true ->
  Forall (fun g => digitRun g = true) (appendToLast groups extra).
Proof.
  intros Hall He.
  induction groups as [|group [|g groups] IH]; [constructor| |].
  - inversion Hall; subst. constructor; [|constructor].
    apply digitRun_app; assumption.
  - inversion Hall; subst. cbn [appendToLast]. constructor; [assumption|].
    apply IH. assumption.
Qed.

Lemma appendToLast_length (groups : list string) (extra : string) :
  List.length (appendToLast groups extra) = List.length groups.
Proof.
  induction groups as [|group [|g groups] IH]; try reflexivity.
  cbn [appendToLast List.length] in *. now rewrite IH.
Qed.

Lemma dots_empty (groups : list string) : dots groups = "" -> groups = [].
Proof. destruct groups; [reflexivity|discriminate]. Qed.

Lemma nonEmpty_dots (group : string) (groups : list string) :
  nonEmpty (dots (group :: groups)) = true.
Proof. reflexivity. Qed.

(** the first slot written, then the minors copied behind it *)
Lemma values_built (n : nat) (major : Z) (minors : list Z) :
  bind (assign (make (S n)) 0 major)
    (fun values => match minors with
                   | [] => Ok values
                   | _ :: _ => copyFrom1 values minors
                   end)
  = Ok (major :: copy (make n) minors).
Proof.
  cbn. destruct minors; [|reflexivity].
  f_equal. f_equal. now destruct n.
Qed.

(** The dotted text of sub-form A, alpha digits included, as its groups. *)
Lemma laxDotted_A_groups (dotted alpha : string) (groups : list string) :
  dotted = dots groups -> Forall (fun g => digitRun g = true) groups ->
  fragment "_" alpha = true -> (dotted = "" -> alpha = "") ->
  exists groups',
    (if nonEmpty alpha
     then (dotted ++ Strings.TrimPrefix alpha "_")%string else dotted)
    = dots groups'
    /\ List.length groups' = List.length groups
    /\ Forall (fun g => digitRun g = true) groups'.
Proof.
  intros -> Hall Halpha Hempty.
  rewrite (TrimPrefix_fragment "_" alpha Halpha).
  destruct (nonEmpty alpha) eqn:E; [|exists groups; auto].
  exists (appendToLast groups (digitsOf alpha)).
  split; [|split].
  - apply dots_appendToLast. intros ->. rewrite Hempty in E by reflexivity.
    discriminate.
  - apply appendToLast_length.
  - apply appendToLast_digitRun; [exact Hall|].
    apply (fragment_digits "_"), Halpha.
Qed.

Lemma laxDotted_A_eval (d : LaxDotted.laxDotted) (text : string)
    (groups : list string) :
  (if nonEmpty (LaxDotted.alpha d)
   then (LaxDotted.dottedGroup d
         ++ Strings.TrimPrefix (LaxDotted.alpha d) "_")%string
   else LaxDotted.dottedGroup d) = dots groups ->
  Forall (fun g => digitRun g = true) groups ->
  LaxDotted.toPerlVersionA d text
  = (do minors <- parseAll groups;
     do major <- mustParseInt64 (LaxDotted.integer d);
     Ok (Build_Version text (nonEmpty (LaxDotted.alpha d)) true
           (major :: copy (make (Nat.max 3 (List.length minors) - 1)) minors))).
Proof.
  intros Hdots Hall. unfold LaxDotted.toPerlVersionA. cbv zeta.
  rewrite Hdots.
  assert (Hminors : (if nonEmpty (dots groups)
                     then dottedToMinors (dots groups) else Ok [])
                    = parseAll groups).
  { destruct groups as [|group groups]; [reflexivity|].
    rewrite nonEmpty_dots. apply dottedToMinors_dots. exact Hall. }
  rewrite Hminors. destruct (parseAll groups) as [minors| |]; try reflexivity.
  cbn [bind].
  destruct (mustParseInt64 (LaxDotted.integer d)) as [major| |];
    try reflexivity.
  cbn [bind].
  replace (if (List.length minors <? 3)%nat then 3 else List.length minors)
    with (S (Nat.max 3 (List.length minors) - 1))
    by (destruct (Nat.ltb_spec (List.length minors) 3); lia).
  pose proof (values_built (Nat.max 3 (List.length minors) - 1) major minors)
    as Hv.
  destruct (assign _ 0 major) as [values| |]; cbn [bind] in Hv |- *;
    try discriminate.
  rewrite Hv. reflexivity.
Qed.

Lemma copy_zeros (minors : list Z) :
  copy (repeat 0%Z (List.length minors)) minors = minors.
Proof. apply copy_all, repeat_length. Qed.

(** the dotted text of sub-form B, alpha digits included, as its groups *)
Lemma laxDotted_B_groups (dotted alpha : string) (groups : list string) :
  dotted = dots groups -> groups <> [] ->
  Forall (fun g => digitRun g = true) groups ->
  fragment "_" alpha = true ->
  exists groups',
    (if nonEmpty alpha
     then (dotted ++ Strings.TrimPrefix alpha "_")%string else dotted)
    = dots groups'
    /\ List.length groups' = List.length groups
    /\ Forall (fun g => digitRun g = true) groups'.
Proof.
  intros -> Hne Hall Halpha.
  rewrite (TrimPrefix_fragment "_" alpha Halpha).
  destruct (nonEmpty alpha) eqn:E; [|exists groups; auto].
  exists (appendToLast groups (digitsOf alpha)).
  split; [apply dots_appendToLast, Hne|].
  split; [apply appendToLast_length|].
  apply appendToLast_digitRun; [exact Hall|].
  apply (fragment_digits "_"), Halpha.
Qed.

Lemma laxDotted_B_eval (d : LaxDotted.laxDotted) (text : string)
    (group : string) (groups : list string) (rest : string) :
  LaxDotted.secondDottedGroup d = String "." rest ->
  (if nonEmpty (LaxDotted.secondAlpha d)
   then (LaxDotted.secondDottedGroup d
         ++ Strings.TrimPrefix (LaxDotted.secondAlpha d) "_")%string
   else LaxDotted.secondDottedGroup d) = dots (group :: groups) ->
  Forall (fun g => digitRun g = true) (group :: groups) ->
  LaxDotted.toPerlVersionB d text
  = (do minors <- parseAll (group :: groups);
     do lead <- (if nonEmpty (LaxDotted.secondInteger d)
                 then mustParseInt64 (LaxDotted.secondInteger d)
                 else Ok 0%Z);
     Ok (Build_Version text (nonEmpty (LaxDotted.secondAlpha d))
           (S (List.length minors) =? 3)%nat (lead :: minors))).
Proof.
  intros Hdot Hdots Hall. unfold LaxDotted.toPerlVersionB. cbv zeta.
  rewrite Hdots, (dottedToMinors_dots group groups Hall).
  destruct (parseAll (group :: groups)) as [minors| |] eqn:Hp;
    try reflexivity.
  cbn [bind]. rewrite Hdot. cbn [firstByteIs bind].
  change (Ascii.eqb "." ".") with true. cbn [andb].
  assert (Hm : minors <> []).
  { apply parseAll_length in Hp. destruct minors; [discriminate|discriminate]. }
  destruct (nonEmpty (LaxDotted.secondInteger d)); cbn [orb negb].
  - destruct (mustParseInt64 (LaxDotted.secondInteger d)) as [lead| |];
      try reflexivity.
    cbn [bind make repeat assign store].
    destruct minors as [|m minors]; [contradiction|].
    cbn [bind copyFrom1]. rewrite (copy_zeros (m :: minors)). reflexivity.
  - cbn [bind make repeat assign store].
    destruct minors as [|m minors]; [contradiction|].
    cbn [bind copyFrom1]. rewrite (copy_zeros (m :: minors)). reflexivity.
Qed.

Lemma fraction_with_alpha (frac alpha : string) :
  frac <> "" -> fragment "." frac = true -> fragment "_" alpha = true ->
  getFractionValue
    (if nonEmpty alpha then (frac ++ Strings.TrimPrefix alpha "_")%string
     else frac)
  = Ok (fractionGrouping (digitsOf frac ++ digitsOf alpha))
  /\ fractionGrouping (digitsOf frac ++ digitsOf alpha) <> [].
Proof.
  intros Hne Hfrac Halpha.
  destruct (fragment_inv "." frac Hfrac) as [->|(c & ds & -> & Hd)];
    [contradiction|].
  rewrite (TrimPrefix_fragment "_" alpha Halpha).
  pose proof (fragment_digits "_" alpha Halpha) as Ha.
  change (digitsOf (String "." (String c ds))) with (String c ds).
  cbn [String.append]. split; [|apply fractionGrouping_nonempty].
  destruct (nonEmpty alpha) eqn:E.
  - apply getFractionValue_dot_digits.
    change (String c (ds ++ digitsOf alpha))
      with (String c ds ++ digitsOf alpha)%string.
    now rewrite allDigits_app, Hd, Ha.
  - rewrite (nonEmpty_fragment "_" alpha Halpha) in E.
    destruct (digitsOf alpha); [|discriminate]. rewrite append_empty_r.
    apply getFractionValue_dot_digits. exact Hd.
Qed.

Lemma laxDecimal_B_eval (d : LaxDecimal.laxDecimal) (text : string) :
  LaxDecimal.secondFraction d <> "" ->
  fragment "." (LaxDecimal.secondFraction d) = true ->
  fragment "_" (LaxDecimal.secondAlpha d) = true ->
  LaxDecimal.toPerlVersionB d text
  = Ok (Build_Version text (nonEmpty (LaxDecimal.secondAlpha d)) false
          (0%Z :: fractionGrouping (digitsOf (LaxDecimal.secondFraction d)
                                    ++ digitsOf (LaxDecimal.secondAlpha d)))).
Proof.
  intros Hne Hfrac Halpha. unfold LaxDecimal.toPerlVersionB. cbv zeta.
  destruct (fraction_with_alpha _ _ Hne Hfrac Halpha) as [-> Hnil].
  cbn [bind].
  destruct (fractionGrouping _) as [|f fractions]; [contradiction|].
  pose proof (values_of_fractions 0%Z f fractions) as Hv.
  destruct (assign (make (List.length (f :: fractions) + 1)) 0 0%Z)
    as [values| |]; cbn [bind] in Hv |- *; try discriminate.
  rewrite Hv. reflexivity.
Qed.

Lemma laxDecimal_A_eval (d : LaxDecimal.laxDecimal) (text : string) :
  fragment "." (LaxDecimal.fraction d) = true ->
  fragment "_" (LaxDecimal.alpha d) = true ->
  text <> "" ->
  ~ (LaxDecimal.alpha d <> "" /\ LaxDecimal.fraction d = "") ->
  LaxDecimal.toPerlVersionA d text
  = (do major <- mustParseInt64 (LaxDecimal.integer d);
     Ok (Build_Version text (nonEmpty (LaxDecimal.alpha d)) false
           (major
            :: fractionGrouping (digitsOf (LaxDecimal.fraction d)
                                 ++ digitsOf (LaxDecimal.alpha d))
            ++ (if endsWithDot text && String.eqb (LaxDecimal.fraction d) ""
                then [0%Z] else [])))).
Proof.
  intros Hfrac Halpha Htext Hnot.
  destruct (Strconv.Atoi (LaxDecimal.integer d)) as [major|] eqn:Hint.
  - rewrite (laxDecimal_A_Ok d text major Hint Hfrac Halpha Htext Hnot).
    unfold mustParseInt64. rewrite Hint. reflexivity.
  - unfold LaxDecimal.toPerlVersionA, mustParseInt64. cbv zeta.
    rewrite Hint, (lastByteIs_endsWithDot text Htext). cbn [bind].
    destruct (String.eqb_spec (LaxDecimal.fraction d) "") as [Hf|Hf].
    + assert (Ha : LaxDecimal.alpha d = "").
      { destruct (String.eqb_spec (LaxDecimal.alpha d) ""); [assumption|].
        exfalso. apply Hnot. auto. }
      rewrite Ha, Hf. reflexivity.
    + destruct (fraction_with_alpha _ _ Hf Hfrac Halpha) as [Hg _].
      unfold nonEmpty in *.
      destruct (String.eqb (LaxDecimal.alpha d) ""); cbn [negb bind] in *;
        rewrite Hg; reflexivity.
Qed.

Lemma strictDecimal_eval (d : StrictDecimalForm.strictDecimalForm)
    (text : string) :
  fragment "." (StrictDecimalForm.fractionPart d) = true ->
  StrictDecimalForm.toPerlVersion d text
  = (do major <- mustParseInt64 (StrictDecimalForm.integerPart d);
     Ok (Build_Version text false false
           (major
            :: fractionGrouping (digitsOf (StrictDecimalForm.fractionPart d))))).
Proof.
  intros Hfrac. unfold StrictDecimalForm.toPerlVersion. cbv zeta.
  rewrite (TrimPrefix_fragment "." _ Hfrac).
  rewrite (getFractionValue_digits _ (fragment_digits "." _ Hfrac)).
  cbn [bind].
  destruct (mustParseInt64 (StrictDecimalForm.integerPart d)) as [major| |];
    try reflexivity.
  cbn [bind]. rewrite Nat.add_comm. cbn [Nat.add make repeat assign store bind
                                          copyFrom1].
  rewrite (copy_zeros (fractionGrouping _)). reflexivity.
Qed.

(** the loop of the strict dotted form fills the slots behind the integer *)
Lemma fillMinors_filled (groups : list string) :
  forall (filled : list Z),
    filled <> [] ->
    StrictDottedForm.fillMinors
      (filled ++ repeat 0%Z (List.length groups))
      (List.length filled - 1) groups
    = (do minors <- parseAll groups; Ok (filled ++ minors)).
Proof.
  induction groups as [|group groups IH]; intros filled Hne;
    cbn [StrictDottedForm.fillMinors parseAll List.length repeat bind].
  - reflexivity.
  - destruct (mustParseInt64 group) as [val| |]; try reflexivity.
    cbn [bind]. unfold assign.
    replace (List.length filled - 1 + 1) with (List.length filled)
      by (destruct filled; [contradiction|cbn; lia]).
    rewrite store_middle. cbn [bind].
    specialize (IH (filled ++ [val])).
    rewrite length_app, <- app_assoc in IH. cbn [List.length app] in IH.
    replace (List.length filled + 1 - 1) with (S (List.length filled - 1)) in IH
      by (destruct filled; [contradiction|cbn; lia]).
    rewrite IH by (destruct filled; discriminate).
    destruct (parseAll groups); cbn [bind]; try reflexivity.
    now rewrite <- app_assoc.
Qed.

Lemma strictDotted_eval (d : StrictDottedForm.strictDottedForm)
    (text : string) (group : string) (groups : list string) :
  StrictDottedForm.dottedGroup d = dots (group :: groups) ->
  Forall (fun g => digitRun g = true) (group :: groups) ->
  StrictDottedForm.toPerlVersion d text
  = (do major <- mustParseInt64 (StrictDottedForm.integerPart d);
     do minors <- parseAll (group :: groups);
     Ok (Build_Version text false true (major :: minors))).
Proof.
  intros Hdots Hall. unfold StrictDottedForm.toPerlVersion. cbv zeta.
  rewrite Hdots, (Split_dots group groups Hall).
  destruct (mustParseInt64 (StrictDottedForm.integerPart d)) as [major| |];
    try reflexivity.
  cbn [bind]. rewrite Nat.add_comm.
  cbn [Nat.add make repeat assign store bind].
  pose proof (fillMinors_filled (group :: groups) [major]) as Hfill.
  cbn [app List.length Nat.sub repeat] in Hfill |- *.
  rewrite Hfill by discriminate.
  destruct (parseAll (group :: groups)); reflexivity.
Qed.

End Reconstructors.

(** ** laxVersion and strictVersion on the submatches *)

Section Dispatch.

Lemma digitRun_nonEmpty (s : string) : digitRun s = true -> nonEmpty s = true.
Proof. unfold digitRun. rewrite andb_true_iff. tauto. Qed.

Lemma nonEmpty_app_l (s t : string) :
  nonEmpty s = true -> nonEmpty (s ++ t) = true.
Proof. destruct s; [discriminate|reflexivity]. Qed.

Lemma nonEmpty_app_r (s t : string) :
  nonEmpty t = true -> nonEmpty (s ++ t) = true.
Proof. destruct s; [intros H; exact H|reflexivity]. Qed.

Lemma nonEmpty_false (s : string) : nonEmpty s = false -> s = "".
Proof. destruct s; [reflexivity|discriminate]. Qed.

Lemma nonEmpty_true (s : string) : s <> "" -> nonEmpty s = true.
Proof. destruct s; [contradiction|reflexivity]. Qed.

Lemma dottedText_nonEmpty (n : nat) (dotted : string) :
  dottedText (S n) dotted -> nonEmpty dotted = true.
Proof.
  intros ([|group groups] & -> & Hlen & _); [cbn in Hlen; lia|reflexivity].
Qed.

Lemma laxVersion_dottedA (int dotted alpha : string) :
  digitRun int = true ->
  laxVersion
    [("v" ++ int ++ dotted ++ alpha)%string; "";
     ("v" ++ int ++ dotted ++ alpha)%string;
     int; dotted; alpha; ""; ""; ""; ""; ""; ""; ""; ""; ""]
  = LaxDotted.toPerlVersionA
      (LaxDotted.Build_laxDotted int dotted alpha "" "" "")
      ("v" ++ int ++ dotted ++ alpha).
Proof.
  intros Hint. unfold laxVersion, Lax.toPerlVersion, LaxDotted.toPerlVersion.
  cbn [at_ nth Lax.undef Lax.dotted Lax.dottedMatches Lax.original
       LaxDotted.integer].
  rewrite (digitRun_nonEmpty int Hint). reflexivity.
Qed.

Lemma laxVersion_dottedB (int dotted alpha : string) :
  dottedText 2 dotted ->
  laxVersion
    [(int ++ dotted ++ alpha)%string; ""; (int ++ dotted ++ alpha)%string;
     ""; ""; ""; int; dotted; alpha; ""; ""; ""; ""; ""; ""]
  = LaxDotted.toPerlVersionB
      (LaxDotted.Build_laxDotted "" "" "" int dotted alpha)
      (int ++ dotted ++ alpha).
Proof.
  intros Hdot. pose proof (dottedText_nonEmpty 1 dotted Hdot) as Hne.
  unfold laxVersion, Lax.toPerlVersion, LaxDotted.toPerlVersion.
  cbn [at_ nth Lax.undef Lax.dotted Lax.dottedMatches Lax.original
       LaxDotted.integer LaxDotted.secondDottedGroup].
  rewrite Hne, (nonEmpty_app_r int _ (nonEmpty_app_l dotted alpha Hne)).
  reflexivity.
Qed.

Lemma laxVersion_decimalA (int frac dot alpha : string) :
  digitRun int = true ->
  laxVersion
    [(int ++ frac ++ dot ++ alpha)%string; ""; ""; ""; ""; ""; ""; ""; "";
     (int ++ frac ++ dot ++ alpha)%string; int; frac; alpha; ""; ""]
  = LaxDecimal.toPerlVersionA
      (LaxDecimal.Build_laxDecimal int frac alpha "" "")
      (int ++ frac ++ dot ++ alpha).
Proof.
  intros Hint. pose proof (digitRun_nonEmpty int Hint) as Hne.
  unfold laxVersion, Lax.toPerlVersion, LaxDecimal.toPerlVersion.
  cbn [at_ nth Lax.undef Lax.dotted Lax.decimal Lax.decimalMatches
       Lax.original LaxDecimal.integer].
  rewrite Hne, (nonEmpty_app_l int _ Hne). reflexivity.
Qed.

Lemma laxVersion_decimalB (frac alpha : string) :
  frac <> "" ->
  laxVersion
    [(frac ++ alpha)%string; ""; ""; ""; ""; ""; ""; ""; "";
     (frac ++ alpha)%string; ""; ""; ""; frac; alpha]
  = LaxDecimal.toPerlVersionB
      (LaxDecimal.Build_laxDecimal "" "" "" frac alpha) (frac ++ alpha).
Proof.
  intros Hfrac. pose proof (nonEmpty_true frac Hfrac) as Hne.
  unfold laxVersion, Lax.toPerlVersion, LaxDecimal.toPerlVersion.
  cbn [at_ nth Lax.undef Lax.dotted Lax.decimal Lax.decimalMatches
       Lax.original LaxDecimal.integer LaxDecimal.secondFraction].
  rewrite Hne, (nonEmpty_app_l frac _ Hne). reflexivity.
Qed.

Lemma strictVersion_decimal (int frac : string) :
  digitRun int = true ->
  strictVersion [(int ++ frac)%string; (int ++ frac)%string; int; frac;
                 ""; ""; ""]
  = StrictDecimalForm.toPerlVersion
      (StrictDecimalForm.Build_strictDecimalForm int frac) (int ++ frac).
Proof.
  intros Hint. pose proof (digitRun_nonEmpty int Hint) as Hne.
  unfold strictVersion, Strict.toPerlVersion.
  cbn [at_ nth Strict.decimal Strict.decimalMatches Strict.original].
  rewrite (nonEmpty_app_l int _ Hne). reflexivity.
Qed.

Lemma strictVersion_dotted (int dotted : string) :
  strictVersion [("v" ++ int ++ dotted)%string; ""; ""; "";
                 ("v" ++ int ++ dotted)%string; int; dotted]
  = StrictDottedForm.toPerlVersion
      (StrictDottedForm.Build_strictDottedForm int dotted)
      ("v" ++ int ++ dotted).
Proof. reflexivity. Qed.

End Dispatch.

(** ** What the reconstructors return on the submatches *)

Section Results.

Lemma copy_Forall (P : Z -> Prop) (dst src : list Z) :
  Forall P dst -> Forall P src -> Forall P (copy dst src).
Proof.
  intros Hdst. revert src. induction Hdst as [|d dst Hd Hdst IH];
    intros src Hsrc; [destruct src; constructor|].
  destruct Hsrc as [|x src Hx Hsrc]; cbn [copy]; constructor; auto.
Qed.

Lemma make_nonneg (n : nat) : Forall (fun x => (0 <= x)%Z) (make n).
Proof. unfold make. induction n; cbn; constructor; [lia|assumption]. Qed.

Lemma group_lengths (groups : list string) :
  Forall (fun g => String.length g <= String.length (dots groups)) groups.
Proof.
  induction groups as [|group groups IH]; constructor.
  - cbn [dots]. rewrite !append_length. lia.
  - eapply Forall_impl; [|exact IH]. cbn [dots]. intros g Hg.
    rewrite !append_length. lia.
Qed.

Lemma digitsOf_length (s : string) : String.length (digitsOf s) <= String.length s.
Proof. destruct s; cbn; lia. Qed.

Lemma with_alpha_length (dotted alpha : string) (groups' : list string) :
  fragment "_" alpha = true ->
  (if nonEmpty alpha
   then (dotted ++ Strings.TrimPrefix alpha "_")%string else dotted)
  = dots groups' ->
  String.length (dots groups') <= String.length dotted + String.length alpha.
Proof.
  intros Halpha <-. rewrite (TrimPrefix_fragment "_" alpha Halpha).
  pose proof (digitsOf_length alpha).
  destruct (nonEmpty alpha); [rewrite append_length|]; lia.
Qed.

Lemma fits_groups (groups : list string) (bound : nat) :
  String.length (dots groups) <= bound ->
  Forall (fun g => String.length g <= bound) groups.
Proof.
  intros H. eapply Forall_impl; [|apply group_lengths].
  cbn. intros g Hg. lia.
Qed.

Lemma fractionGrouping_nonneg (digits : string) :
  Strconv.allDigits digits = true ->
  Forall (fun x => (0 <= x)%Z) (fractionGrouping digits).
Proof.
  intros H. eapply Forall_impl; [|apply fractionGrouping_range, H].
  cbn. intros x Hx. lia.
Qed.

Lemma mustParseInt64_nonneg (s : string) (val : Z) :
  digitRun s = true -> mustParseInt64 s = Ok val -> (0 <= val)%Z.
Proof.
  intros Hs H. rewrite (mustParseInt64_digits s val Hs H).
  apply decimalValue_nonneg, digitRun_allDigits, Hs.
Qed.

Lemma parseAll_nonneg (groups : list string) (vals : list Z) :
  Forall (fun g => digitRun g = true) groups ->
  parseAll groups = Ok vals -> Forall (fun x => (0 <= x)%Z) vals.
Proof.
  intros Hall H. rewrite (parseAll_digits groups vals Hall H).
  apply decimalValues_nonneg, Hall.
Qed.

(** The lax reconstruction of a submatch slice: a Version it returns is well
    formed, and it does not panic when the match has at most 18 bytes. *)
Lemma laxVersion_results (matches : list string) :
  laxSubmatches matches ->
  (forall v, laxVersion matches = Ok v -> wellFormed v)
  /\ (String.length (at_ matches 0) <= 18 -> laxVersion matches <> Panic).
Proof.
  intros Hshape.
  destruct Hshape as [ | int dotted alpha Hint Hdot Halpha Hempty
                       | int dotted alpha Hint Hdot Halpha
                       | int frac dot alpha Hint Hfrac Hdotc Halpha
                       | frac alpha Hne Hfrac Halpha ].
  - split; [|discriminate]. intros v H. injection H as <-.
    repeat split; try discriminate. repeat constructor. lia.
  - rewrite (laxVersion_dottedA int dotted alpha Hint).
    destruct Hdot as (groups & Hdots & _ & Hall).
    destruct (laxDotted_A_groups dotted alpha groups Hdots Hall Halpha Hempty)
      as (groups' & Hdots' & Hlen' & Hall').
    rewrite (laxDotted_A_eval
               (LaxDotted.Build_laxDotted int dotted alpha "" "" "") _
               groups' Hdots' Hall').
    cbn [LaxDotted.integer LaxDotted.alpha at_ nth]. split.
    + intros v H. bind_inv H. injection H as <-.
      repeat split; cbn [original version qv]; try discriminate.
      * constructor; [eapply mustParseInt64_nonneg; eassumption|].
        apply copy_Forall; [apply make_nonneg|].
        eapply parseAll_nonneg; eassumption.
      * intros _. cbn [List.length]. rewrite copy_length, make_length.
        destruct (List.length x) as [|[|[|n]]]; lia.
    + intros Hlen. cbn [String.append String.length] in Hlen.
      rewrite !append_length in Hlen.
      pose proof (with_alpha_length dotted alpha groups' Halpha Hdots').
      rewrite (parseAll_fits groups' Hall') by (apply fits_groups; lia).
      cbn [bind]. rewrite (mustParseInt64_fits int Hint) by lia. discriminate.
  - rewrite (laxVersion_dottedB int dotted alpha Hdot).
    destruct Hdot as (groups & Hdots & Hn & Hall).
    destruct groups as [|group groups]; [cbn in Hn; lia|].
    destruct (laxDotted_B_groups dotted alpha (group :: groups) Hdots
                ltac:(discriminate) Hall Halpha)
      as (groups' & Hdots' & Hlen' & Hall').
    destruct groups' as [|group' groups']; [discriminate|].
    rewrite (laxDotted_B_eval
               (LaxDotted.Build_laxDotted "" "" "" int dotted alpha) _
               group' groups' (group ++ dots groups) Hdots Hdots' Hall').
    cbn [LaxDotted.secondInteger LaxDotted.secondAlpha at_ nth]. split.
    + intros v H. bind_inv H. injection H as <-.
      pose proof (parseAll_length _ _ E) as Hpl.
      repeat split; cbn [original version qv]; try discriminate.
      * subst dotted. destruct int; discriminate.
      * constructor; [|eapply parseAll_nonneg; eassumption].
        destruct Hint as [->|Hint]; [injection E0 as <-; lia|].
        rewrite (digitRun_nonEmpty int Hint) in E0.
        eapply mustParseInt64_nonneg; eassumption.
      * intros Hqv. apply Nat.eqb_eq in Hqv. cbn [List.length]. lia.
    + intros Hlen. rewrite !append_length in Hlen.
      pose proof (with_alpha_length dotted alpha _ Halpha Hdots').
      rewrite (parseAll_fits _ Hall') by (apply fits_groups; lia).
      cbn [bind]. destruct Hint as [->|Hint]; [discriminate|].
      rewrite (digitRun_nonEmpty int Hint).
      rewrite (mustParseInt64_fits int Hint) by lia. discriminate.
  - rewrite (laxVersion_decimalA int frac dot alpha Hint).
    assert (Htext : (int ++ frac ++ dot ++ alpha)%string <> "").
    { destruct (digitRun_inv int Hint) as (b & ds & -> & _). discriminate. }
    destruct (String.eqb_spec alpha "") as [Ha|Ha];
      [|destruct (String.eqb_spec frac "") as [Hf|Hf]].
    + rewrite laxDecimal_A_eval;
        cbn [LaxDecimal.fraction LaxDecimal.alpha LaxDecimal.integer];
        try assumption; [|tauto].
      split.
      * intros v H. bind_inv H. injection H as <-.
        repeat split; cbn [original version qv]; try discriminate;
          [assumption|].
        constructor; [eapply mustParseInt64_nonneg; eassumption|].
        apply Forall_app. split.
        -- apply fractionGrouping_nonneg. rewrite allDigits_app.
           rewrite (fragment_digits "." frac Hfrac).
           rewrite (fragment_digits "_" alpha Halpha). reflexivity.
        -- destruct (_ && _); repeat constructor. lia.
      * intros Hlen. cbn [at_ nth] in Hlen. rewrite !append_length in Hlen.
        rewrite (mustParseInt64_fits int Hint) by lia. discriminate.
    + assert (He : LaxDecimal.toPerlVersionA
                     (LaxDecimal.Build_laxDecimal int frac alpha "" "")
                     (int ++ frac ++ dot ++ alpha)
                   = Err errAlphaWithoutDecimal)
        by (apply laxDecimal_A_Err; auto).
      rewrite He. split; [discriminate|discriminate].
    + rewrite laxDecimal_A_eval;
        cbn [LaxDecimal.fraction LaxDecimal.alpha LaxDecimal.integer];
        try assumption; [|tauto].
      split.
      * intros v H. bind_inv H. injection H as <-.
        repeat split; cbn [original version qv]; try discriminate;
          [assumption|].
        constructor; [eapply mustParseInt64_nonneg; eassumption|].
        apply Forall_app. split.
        -- apply fractionGrouping_nonneg. rewrite allDigits_app.
           rewrite (fragment_digits "." frac Hfrac).
           rewrite (fragment_digits "_" alpha Halpha). reflexivity.
        -- destruct (_ && _); repeat constructor. lia.
      * intros Hlen. cbn [at_ nth] in Hlen. rewrite !append_length in Hlen.
        rewrite (mustParseInt64_fits int Hint) by lia. discriminate.
  - rewrite (laxVersion_decimalB frac alpha Hne).
    rewrite laxDecimal_B_eval by assumption.
    cbn [LaxDecimal.secondFraction LaxDecimal.secondAlpha].
    split; [|discriminate]. intros v H. injection H as <-.
    repeat split; cbn [original version qv]; try discriminate.
    + destruct frac; [contradiction|discriminate].
    + constructor; [lia|]. apply fractionGrouping_nonneg.
      rewrite allDigits_app, (fragment_digits "." frac Hfrac).
      rewrite (fragment_digits "_" alpha Halpha). reflexivity.
Qed.

Lemma strictVersion_results (matches : list string) :
  strictSubmatches matches ->
  (forall v, strictVersion matches = Ok v ->
             wellFormed v /\ alpha v = false)
  /\ (String.length (at_ matches 0) <= 18 -> strictVersion matches <> Panic).
Proof.
  intros Hshape.
  destruct Hshape as [int frac Hint Hfrac Hstrict | int dotted Hint Hdot Hstrict Hbound].
  - rewrite (strictVersion_decimal int frac Hint).
    rewrite strictDecimal_eval by exact Hfrac.
    cbn [StrictDecimalForm.integerPart StrictDecimalForm.fractionPart at_ nth].
    split.
    + intros v H. bind_inv H. injection H as <-. split; [|reflexivity].
      repeat split; cbn [original version qv]; try discriminate.
      * destruct (digitRun_inv int Hint) as (b & ds & -> & _). discriminate.
      * constructor; [eapply mustParseInt64_nonneg; eassumption|].
        apply fractionGrouping_nonneg, (fragment_digits "." frac Hfrac).
    + intros Hlen. rewrite append_length in Hlen.
      rewrite (mustParseInt64_fits int Hint) by lia. discriminate.
  - rewrite (strictVersion_dotted int dotted).
    destruct Hdot as (groups & Hdots & Hn & Hall).
    destruct groups as [|group groups]; [cbn in Hn; lia|].
    rewrite (strictDotted_eval
               (StrictDottedForm.Build_strictDottedForm int dotted) _
               group groups Hdots Hall).
    cbn [StrictDottedForm.integerPart at_ nth]. split.
    + intros v H. bind_inv H. injection H as <-. split; [|reflexivity].
      pose proof (parseAll_length _ _ E0) as Hpl.
      repeat split; cbn [original version qv]; try discriminate.
      * constructor; [eapply mustParseInt64_nonneg; eassumption|].
        eapply parseAll_nonneg; eassumption.
      * intros _. cbn [List.length] in *. lia.
    + intros Hlen. cbn [String.append String.length] in Hlen.
      rewrite !append_length in Hlen.
      rewrite (mustParseInt64_fits int Hint) by lia. cbn [bind].
      rewrite (parseAll_fits _ Hall) by (apply fits_groups; subst; lia).
      discriminate.
Qed.

End Results.

(** ** The endings of the texts that match *)

Section Endings.
Import Regexp.

Lemma endsInDigit_digitRun (s : string) :
  digitRun s = true -> endsInDigit s = true.
Proof.
  intros H. destruct (digitRun_inv s H) as (b & ds & -> & Hb & Hds).
  clear H. revert b Hb. induction ds as [|c ds IH]; intros b Hb.
  - exact Hb.
  - cbn [Strconv.allDigits] in Hds. apply andb_prop in Hds.
    destruct Hds as [Hc Hds].
    apply (endsInDigit_app (String b "") (String c ds)). now apply IH.
Qed.

Lemma endsInDigit_opt (p s : string) :
  endsInDigit p = true -> s = "" \/ endsInDigit s = true ->
  endsInDigit (p ++ s) = true.
Proof.
  intros Hp [->|Hs]; [now rewrite append_empty_r|].
  now apply endsInDigit_app.
Qed.

Lemma endsInDigit_fragment (lead : ascii) (s : string) :
  fragment lead s = true -> s = "" \/ endsInDigit s = true.
Proof.
  destruct s as [|c digits]; [now left|]. intros H. right.
  cbn [fragment] in H. apply andb_prop in H. destruct H as [H Hd].
  apply andb_prop in H. destruct H as [_ Hne].
  apply (endsInDigit_app (String c "") digits), endsInDigit_digitRun.
  unfold digitRun. now rewrite Hne, Hd.
Qed.

Lemma endsInDigit_dots (groups : list string) :
  Forall (fun g => digitRun g = true) groups ->
  dots groups = "" \/ endsInDigit (dots groups) = true.
Proof.
  intros Hall. induction Hall as [|group groups Hg _ IH]; [now left|].
  right. cbn [dots].
  apply (endsInDigit_app (String "." "") (group ++ dots groups)).
  apply endsInDigit_opt; [apply endsInDigit_digitRun, Hg|exact IH].
Qed.

Lemma endsInDigit_dotted (n : nat) (dotted : string) :
  dottedText n dotted -> dotted = "" \/ endsInDigit dotted = true.
Proof. intros (groups & -> & _ & Hall). apply endsInDigit_dots, Hall. Qed.

Lemma endsInDigitDot_app (p s : string) :
  endsInDigitDot s = true -> endsInDigitDot (p ++ s) = true.
Proof.
  intros H. induction p as [|c p IH]; [exact H|].
  cbn [String.append endsInDigitDot]. rewrite IH. apply orb_true_r.
Qed.

Lemma endsInDigitDot_digit (p : string) :
  endsInDigit p = true -> endsInDigitDot (p ++ ".") = true.
Proof.
  intros H. apply endsInDigit_inv in H. destruct H as (q & b & -> & Hb).
  rewrite append_assoc. apply endsInDigitDot_app.
  cbn. now rewrite Hb.
Qed.

Lemma endsInDigitDot_inv (text : string) :
  endsInDigitDot text = true ->
  exists p b, text = (p ++ String b ".")%string /\ Strconv.isDigit b = true.
Proof.
  induction text as [|c text IH]; [discriminate|].
  cbn [endsInDigitDot]. intros H. apply orb_prop in H. destruct H as [H|H].
  - apply andb_prop in H. destruct H as [Hc H]. apply String.eqb_eq in H.
    subst text. exists "", c. auto.
  - destruct (IH H) as (p & b & -> & Hb). exists (String c p), b. auto.
Qed.

Lemma HasSuffix_app (p s suffix : string) :
  HasSuffix s suffix = true -> HasSuffix (p ++ s) suffix = true.
Proof.
  intros H. induction p as [|c p IH]; [exact H|].
  cbn [String.append HasSuffix]. rewrite IH. apply orb_true_r.
Qed.

Lemma HasSuffix_inv (s suffix : string) :
  HasSuffix s suffix = true -> exists p, s = (p ++ suffix)%string.
Proof.
  induction s as [|c s IH]; cbn [HasSuffix].
  - intros H. apply String.eqb_eq in H. exists "". exact H.
  - intros H. apply orb_prop in H. destruct H as [H|H].
    + apply String.eqb_eq in H. exists "". exact H.
    + destruct (IH H) as (p & ->). exists (String c p). reflexivity.
Qed.

Lemma validEnding_app (p s : string) :
  validEnding s = true -> validEnding (p ++ s) = true.
Proof.
  unfold validEnding. intros H. apply orb_prop in H.
  destruct H as [H|H]; [apply orb_prop in H; destruct H as [H|H]|].
  - now rewrite endsInDigit_app.
  - rewrite endsInDigitDot_app by exact H. now rewrite orb_true_r.
  - rewrite HasSuffix_app by exact H. now rewrite orb_true_r.
Qed.

Lemma validEnding_digit (s : string) :
  endsInDigit s = true -> validEnding s = true.
Proof. unfold validEnding. now intros ->. Qed.

(** the match of the lax pattern has one of the three endings *)
Lemma laxSubmatches_ending (matches : list string) :
  laxSubmatches matches -> validEnding (at_ matches 0) = true.
Proof.
  intros Hshape.
  destruct Hshape as [ | int dotted alpha Hint Hdot Halpha Hempty
                       | int dotted alpha Hint Hdot Halpha
                       | int frac dot alpha Hint Hfrac Hdotc Halpha
                       | frac alpha Hne Hfrac Halpha ];
    cbn [at_ nth].
  - reflexivity.
  - apply validEnding_digit, (endsInDigit_app "v").
    rewrite <- append_assoc.
    apply endsInDigit_opt; [|eapply endsInDigit_fragment; eassumption].
    apply endsInDigit_opt; [apply endsInDigit_digitRun, Hint|].
    eapply endsInDigit_dotted; eassumption.
  - apply validEnding_digit, endsInDigit_app.
    apply endsInDigit_opt; [|eapply endsInDigit_fragment; eassumption].
    destruct (endsInDigit_dotted 2 dotted Hdot) as [->|H]; [|exact H].
    destruct Hdot as (groups & Hdots & Hn & _).
    destruct groups as [|g groups]; [cbn in Hn; lia|discriminate].
  - apply endsInDigit_digitRun in Hint.
    destruct (endsInDigit_fragment "_" alpha Halpha) as [->|Ha].
    + destruct Hdotc as [->|[-> ->]].
      * apply validEnding_digit. rewrite !append_empty_r.
        apply endsInDigit_opt; [exact Hint|].
        eapply endsInDigit_fragment; eassumption.
      * cbn [String.append]. unfold validEnding.
        rewrite (endsInDigitDot_digit int Hint). now rewrite orb_true_r.
    + apply validEnding_digit. rewrite <- !append_assoc.
      now apply endsInDigit_app.
  - apply validEnding_digit.
    apply endsInDigit_opt; [|eapply endsInDigit_fragment; eassumption].
    destruct (endsInDigit_fragment "." frac Hfrac) as [->|H];
      [contradiction|exact H].
Qed.

Lemma strictSubmatches_ending (matches : list string) :
  strictSubmatches matches -> endsInDigit (at_ matches 0) = true.
Proof.
  intros Hshape.
  destruct Hshape as [int frac Hint Hfrac Hstrict | int dotted Hint Hdot Hstrict Hbound];
    cbn [at_ nth].
  - apply endsInDigit_opt; [apply endsInDigit_digitRun, Hint|].
    eapply endsInDigit_fragment; eassumption.
  - apply (endsInDigit_app "v").
    apply endsInDigit_opt; [apply endsInDigit_digitRun, Hint|].
    eapply endsInDigit_dotted; eassumption.
Qed.

Lemma lax_match_ending (text : string) (matches : list string) :
  FindStringSubmatch laxRegexp text = Some matches ->
  validEnding text = true.
Proof.
  intros H. destruct (lax_match_suffix text matches H) as (skipped & ->).
  apply validEnding_app, laxSubmatches_ending, (lax_submatches _ _ H).
Qed.

Lemma strict_match_ending (text : string) (matches : list string) :
  FindStringSubmatch strictRegexp text = Some matches ->
  endsInDigit text = true.
Proof.
  intros H. destruct (strict_match_suffix text matches H) as (skipped & ->).
  apply endsInDigit_app, strictSubmatches_ending, (strict_submatches _ _ H).
Qed.

Lemma lax_matches_digit (b : ascii) :
  Strconv.isDigit b = true -> matchAt laxRegexp (String b "") <> None.
Proof.
  intros H.
  destruct b as [[] [] [] [] [] [] [] []]; vm_compute in H;
    try discriminate H; vm_compute; intros H'; discriminate H'.
Qed.

Lemma lax_matches_digit_dot (b : ascii) :
  Strconv.isDigit b = true -> matchAt laxRegexp (String b ".") <> None.
Proof.
  intros H.
  destruct b as [[] [] [] [] [] [] [] []]; vm_compute in H;
    try discriminate H; vm_compute; intros H'; discriminate H'.
Qed.

Lemma lax_matches_undef : matchAt laxRegexp "undef" <> None.
Proof. vm_compute. intros H. discriminate H. Qed.

(** and the lax pattern finds a match in every text with such an ending *)
Lemma lax_matches_ending (text : string) :
  validEnding text = true -> FindStringSubmatch laxRegexp text <> None.
Proof.
  unfold validEnding. intros H. apply orb_prop in H.
  destruct H as [H|H]; [apply orb_prop in H; destruct H as [H|H]|].
  - apply endsInDigit_inv in H. destruct H as (p & b & -> & Hb).
    apply FindStringSubmatch_complete, lax_matches_digit, Hb.
  - apply endsInDigitDot_inv in H. destruct H as (p & b & -> & Hb).
    apply FindStringSubmatch_complete, lax_matches_digit_dot, Hb.
  - apply HasSuffix_inv in H. destruct H as (p & ->).
    apply FindStringSubmatch_complete, lax_matches_undef.
Qed.

End Endings.

(** ** The results of Parse *)

Section ParseResults.
Import Regexp.

(** a Version returned by Parse was built from one of the two matches *)
Lemma Parse_Ok_from (text : string) (v : Version) :
  Parse text = Ok v ->
  (exists laxMatch,
      FindStringSubmatch laxRegexp text = Some laxMatch
      /\ laxVersion laxMatch = Ok v)
  \/ (exists strictMatch,
         FindStringSubmatch strictRegexp text = Some strictMatch
         /\ strictVersion strictMatch = Ok v).
Proof.
  unfold Parse, tryStrict.
  destruct (FindStringSubmatch laxRegexp text) as [lm|] eqn:Hl;
    destruct (FindStringSubmatch strictRegexp text) as [sm|] eqn:Hs.
  - destruct (String.length (at_ sm 0) <? String.length (at_ lm 0))%nat.
    + destruct (laxVersion lm) as [lax|e|] eqn:E; try discriminate.
      * intros H. left. exists lm. split; [reflexivity|]. now rewrite E.
      * intros H. right. exists sm. auto.
    + intros H. right. exists sm. auto.
  - intros H. left. exists lm. auto.
  - intros H. right. exists sm. auto.
  - discriminate.
Qed.

Lemma Parse_Panic_from (text : string) :
  Parse text = Panic ->
  (exists laxMatch,
      FindStringSubmatch laxRegexp text = Some laxMatch
      /\ laxVersion laxMatch = Panic)
  \/ (exists strictMatch,
         FindStringSubmatch strictRegexp text = Some strictMatch
         /\ strictVersion strictMatch = Panic).
Proof.
  unfold Parse, tryStrict.
  destruct (FindStringSubmatch laxRegexp text) as [lm|] eqn:Hl;
    destruct (FindStringSubmatch strictRegexp text) as [sm|] eqn:Hs.
  - destruct (String.length (at_ sm 0) <? String.length (at_ lm 0))%nat.
    + destruct (laxVersion lm) as [lax|e|] eqn:E; try discriminate.
      * intros H. right. exists sm. auto.
      * intros H. left. exists lm. auto.
    + intros H. right. exists sm. auto.
  - intros H. left. exists lm. auto.
  - intros H. right. exists sm. auto.
  - discriminate.
Qed.

(** Parse returns an error only when neither pattern matches *)
Lemma Parse_Err_no_match (text : string) (e : error) :
  Parse text = Err e ->
  FindStringSubmatch laxRegexp text = None
  /\ FindStringSubmatch strictRegexp text = None.
Proof.
  unfold Parse, tryStrict.
  destruct (FindStringSubmatch laxRegexp text) as [lm|] eqn:Hl;
    destruct (FindStringSubmatch strictRegexp text) as [sm|] eqn:Hs.
  - destruct (String.length (at_ sm 0) <? String.length (at_ lm 0))%nat.
    + destruct (laxVersion lm); try discriminate.
      intros H. exfalso. eapply noErr_strictVersion. eassumption.
    + intros H. exfalso. eapply noErr_strictVersion. eassumption.
  - intros H. exfalso.
    apply (lax_error_strict_matches text lm e Hl H). exact Hs.
  - intros H. exfalso. eapply noErr_strictVersion. eassumption.
  - auto.
Qed.

Lemma match_length (text skipped whole : string) :
  text = (skipped ++ whole)%string -> String.length whole <= String.length text.
Proof. intros ->. rewrite append_length. lia. Qed.

End ParseResults.

(** ** The underscore of alpha versions *)

Section Underscore.

Lemma hasByte_app (c : ascii) (s1 s2 : string) :
  hasByte c (s1 ++ s2) = hasByte c s1 || hasByte c s2.
Proof.
  induction s1 as [|b s1 IH]; [reflexivity|].
  cbn [String.append hasByte]. now rewrite IH, orb_assoc.
Qed.

Lemma isDigit_not_underscore (c : ascii) :
  Strconv.isDigit c = true -> Ascii.eqb c "_" = false.
Proof.
  intros H. destruct (Ascii.eqb_spec c "_") as [->|]; [|reflexivity].
  discriminate H.
Qed.

Lemma hasByte_digits (s : string) :
  Strconv.allDigits s = true -> hasByte "_" s = false.
Proof.
  induction s as [|c s IH]; [reflexivity|].
  cbn [Strconv.allDigits hasByte]. intros H. apply andb_prop in H.
  destruct H as [Hc Hs]. now rewrite (isDigit_not_underscore c Hc), IH.
Qed.

Lemma hasByte_digitRun (s : string) :
  digitRun s = true -> hasByte "_" s = false.
Proof. intros H. apply hasByte_digits, digitRun_allDigits, H. Qed.

Lemma hasByte_dotted (n : nat) (dotted : string) :
  dottedText n dotted -> hasByte "_" dotted = false.
Proof.
  intros (groups & -> & _ & Hall).
  induction Hall as [|group groups Hg _ IH]; [reflexivity|].
  cbn [dots String.append hasByte]. rewrite hasByte_app.
  now rewrite (hasByte_digitRun group Hg), IH.
Qed.

Lemma hasByte_fraction (frac : string) :
  fragment "." frac = true -> hasByte "_" frac = false.
Proof.
  destruct frac as [|c digits]; [reflexivity|]. cbn [fragment hasByte].
  intros H. apply andb_prop in H. destruct H as [H Hd].
  apply andb_prop in H. destruct H as [Hc _].
  apply Ascii.eqb_eq in Hc. subst c. now rewrite (hasByte_digits digits Hd).
Qed.

Lemma hasByte_alpha (alpha : string) :
  fragment "_" alpha = true -> hasByte "_" alpha = nonEmpty alpha.
Proof.
  destruct alpha as [|c digits]; [reflexivity|]. cbn [fragment hasByte].
  intros H. apply andb_prop in H. destruct H as [H _].
  apply andb_prop in H. destruct H as [Hc _]. now rewrite Hc.
Qed.

(** the lax reconstruction sets the alpha flag exactly when the match holds
    an underscore *)
Lemma laxVersion_alpha (matches : list string) (v : Version) :
  laxSubmatches matches -> laxVersion matches = Ok v ->
  alpha v = hasByte "_" (original v).
Proof.
  intros Hshape.
  destruct Hshape as [ | int dotted al Hint Hdot Halpha Hempty
                       | int dotted al Hint Hdot Halpha
                       | int frac dot al Hint Hfrac Hdotc Halpha
                       | frac al Hne Hfrac Halpha ].
  - intros H. injection H as <-. reflexivity.
  - rewrite (laxVersion_dottedA int dotted al Hint).
    pose proof (hasByte_dotted 0 dotted Hdot) as Hd.
    destruct Hdot as (groups & Hdots & _ & Hall).
    destruct (laxDotted_A_groups dotted al groups Hdots Hall Halpha Hempty)
      as (groups' & Hdots' & Hlen' & Hall').
    rewrite (laxDotted_A_eval
               (LaxDotted.Build_laxDotted int dotted al "" "" "") _
               groups' Hdots' Hall').
    cbn [LaxDotted.integer LaxDotted.alpha]. intros H. bind_inv H.
    injection H as <-. cbn [original alpha String.append hasByte].
    rewrite !hasByte_app, (hasByte_digitRun int Hint), Hd.
    now rewrite (hasByte_alpha al Halpha).
  - rewrite (laxVersion_dottedB int dotted al Hdot).
    pose proof (hasByte_dotted 2 dotted Hdot) as Hd.
    destruct Hdot as (groups & Hdots & Hn & Hall).
    destruct groups as [|group groups]; [cbn in Hn; lia|].
    destruct (laxDotted_B_groups dotted al (group :: groups) Hdots
                ltac:(discriminate) Hall Halpha)
      as (groups' & Hdots' & Hlen' & Hall').
    destruct groups' as [|group' groups']; [discriminate|].
    rewrite (laxDotted_B_eval
               (LaxDotted.Build_laxDotted "" "" "" int dotted al) _
               group' groups' (group ++ dots groups) Hdots Hdots' Hall').
    cbn [LaxDotted.secondInteger LaxDotted.secondAlpha]. intros H. bind_inv H.
    injection H as <-. cbn [original alpha].
    rewrite !hasByte_app, Hd, (hasByte_alpha al Halpha).
    destruct Hint as [->|Hint]; [reflexivity|].
    now rewrite (hasByte_digitRun int Hint).
  - rewrite (laxVersion_decimalA int frac dot al Hint).
    assert (Htext : (int ++ frac ++ dot ++ al)%string <> "").
    { destruct (digitRun_inv int Hint) as (b & ds & -> & _). discriminate. }
    assert (Hd : hasByte "_" dot = false)
      by (destruct Hdotc as [->|[-> _]]; reflexivity).
    intros H.
    assert (Hno : ~ (al <> "" /\ frac = "")).
    { intros Hboth.
      assert (He : LaxDecimal.toPerlVersionA
                     (LaxDecimal.Build_laxDecimal int frac al "" "")
                     (int ++ frac ++ dot ++ al)
                   = Err errAlphaWithoutDecimal)
        by (apply laxDecimal_A_Err; auto).
      rewrite He in H. discriminate H. }
    rewrite laxDecimal_A_eval in H;
      cbn [LaxDecimal.fraction LaxDecimal.alpha LaxDecimal.integer] in *;
      try assumption.
    bind_inv H. injection H as <-. cbn [original alpha].
    rewrite !hasByte_app, (hasByte_digitRun int Hint), Hd.
    now rewrite (hasByte_fraction frac Hfrac), (hasByte_alpha al Halpha).
  - rewrite (laxVersion_decimalB frac al Hne).
    rewrite laxDecimal_B_eval by assumption.
    cbn [LaxDecimal.secondFraction LaxDecimal.secondAlpha].
    intros H. injection H as <-. cbn [original alpha].
    rewrite hasByte_app, (hasByte_fraction frac Hfrac).
    now rewrite (hasByte_alpha al Halpha).
Qed.

Lemma strictVersion_alpha (matches : list string) (v : Version) :
  strictSubmatches matches -> strictVersion matches = Ok v ->
  alpha v = hasByte "_" (original v).
Proof.
  intros Hshape H.
  destruct (strictVersion_results matches Hshape) as [Hok _].
  destruct (Hok v H) as [_ ->].
  rewrite (strictVersion_original matches v H).
  destruct Hshape as [int frac Hint Hfrac Hstrict | int dotted Hint Hdot Hstrict Hbound];
    cbn [at_ nth String.append hasByte].
  - now rewrite hasByte_app, (hasByte_digitRun int Hint),
      (hasByte_fraction frac Hfrac).
  - now rewrite hasByte_app, (hasByte_digitRun int Hint),
      (hasByte_dotted 2 dotted Hdot).
Qed.

End Underscore.

(** ** The forms a match selects *)

(** X7 (patterns.go, lax.toPerlVersion and the two dispatchers under it).
    Whenever the lax pattern finds a match, the submatch slice has its 15
    entries, the match is not empty, and exactly one of the three forms took
    part: "undef", or the dotted form with exactly one of its two sub-forms,
    or the decimal form with exactly one of its two sub-forms.  So none of
    the three branches marked unreachable in the lax reconstructors can be
    taken on the submatches Parse passes them. *)
Theorem lax_match_selects_one_form (text : string) (matches : list string)
    (Hmatch : Regexp.FindStringSubmatch laxRegexp text = Some matches) :
  List.length matches = 15
  /\ at_ matches 0 <> ""
  /\ ((at_ matches 1 = "undef" /\ at_ matches 2 = "" /\ at_ matches 9 = "")
      \/ (at_ matches 1 = "" /\ at_ matches 2 = at_ matches 0
          /\ at_ matches 9 = ""
          /\ nonEmpty (at_ matches 3) = negb (nonEmpty (at_ matches 7)))
      \/ (at_ matches 1 = "" /\ at_ matches 2 = ""
          /\ at_ matches 9 = at_ matches 0
          /\ nonEmpty (at_ matches 10) = negb (nonEmpty (at_ matches 13)))).
Proof.
  apply lax_submatches in Hmatch.
  destruct Hmatch as [ | int dotted al Hint Hdot Halpha Hempty
                       | int dotted al Hint Hdot Halpha
                       | int frac dot al Hint Hfrac Hdotc Halpha
                       | frac al Hne Hfrac Halpha ];
    cbn [at_ nth List.length].
  - split; [reflexivity|]. split; [discriminate|]. left. auto.
  - split; [reflexivity|]. split; [discriminate|]. right. left.
    rewrite (digitRun_nonEmpty int Hint). auto.
  - split; [reflexivity|].
    pose proof (dottedText_nonEmpty _ dotted Hdot) as Hd.
    split.
    + intros H. apply (f_equal nonEmpty) in H.
      rewrite nonEmpty_app_r in H; [discriminate H|].
      now rewrite nonEmpty_app_l.
    + right. left. rewrite Hd. auto.
  - split; [reflexivity|].
    pose proof (digitRun_nonEmpty int Hint) as Hi.
    split.
    + intros H. apply (f_equal nonEmpty) in H.
      rewrite nonEmpty_app_l in H; [discriminate H|exact Hi].
    + right. right. rewrite Hi. auto.
  - split; [reflexivity|].
    pose proof (nonEmpty_true frac Hne) as Hf.
    split.
    + intros H. apply (f_equal nonEmpty) in H.
      rewrite nonEmpty_app_l in H; [discriminate H|exact Hf].
    + right. right. rewrite Hf. auto.
Qed.

Lemma lax_match_selects_one_form_witness :
  List.length ["1.2_3"; ""; ""; ""; ""; ""; ""; ""; "";
               "1.2_3"; "1"; ".2"; "_3"; ""; ""] = 15.
Proof.
  apply (lax_match_selects_one_form "x1.2_3"
           ["1.2_3"; ""; ""; ""; ""; ""; ""; ""; "";
            "1.2_3"; "1"; ".2"; "_3"; ""; ""]).
  vm_compute. reflexivity.
Defined.

(** X8 (patterns.go, strict.toPerlVersion).  Whenever the strict pattern
    finds a match, the submatch slice has its 7 entries, the match ends in a
    digit, and exactly one of the decimal and the dotted form took part: the
    "logic error" branch of strict.toPerlVersion cannot be taken on the
    submatches Parse passes it. *)
Theorem strict_match_selects_one_form (text : string) (matches : list string)
    (Hmatch : Regexp.FindStringSubmatch strictRegexp text = Some matches) :
  List.length matches = 7
  /\ endsInDigit (at_ matches 0) = true
  /\ ((at_ matches 1 = at_ matches 0 /\ at_ matches 4 = ""
       /\ nonEmpty (at_ matches 2) = true)
      \/ (at_ matches 1 = "" /\ at_ matches 4 = at_ matches 0
          /\ nonEmpty (at_ matches 5) = true
          /\ nonEmpty (at_ matches 6) = true)).
Proof.
  apply strict_submatches in Hmatch.
  pose proof (strictSubmatches_ending matches Hmatch) as Hend.
  destruct Hmatch as [int frac Hint Hfrac Hstrict | int dotted Hint Hdot Hstrict Hbound];
    cbn [at_ nth List.length] in *.
  - split; [reflexivity|]. split; [exact Hend|]. left.
    rewrite (digitRun_nonEmpty int Hint). auto.
  - split; [reflexivity|]. split; [exact Hend|]. right.
    rewrite (digitRun_nonEmpty int Hint), (dottedText_nonEmpty _ dotted Hdot).
    auto.
Qed.

Lemma strict_match_selects_one_form_witness :
  List.length ["v1.2.3"; ""; ""; ""; "v1.2.3"; "1"; ".2.3"] = 7.
Proof.
  apply (strict_match_selects_one_form "perl v1.2.3"
           ["v1.2.3"; ""; ""; ""; "v1.2.3"; "1"; ".2.3"]).
  vm_compute. reflexivity.
Defined.

(** ** What Parse returns *)

(** X9 (Parse and the reconstructors it calls).  Every Version that Parse
    returns has a non-empty original text and at least one component, all
    its components are non-negative, and when it is a qv version it has at
    least three components. *)
Theorem Parse_well_formed (text : string) (v : Version)
    (Hparse : Parse text = Ok v) :
  Raw v <> ""
  /\ version v <> []
  /\ Forall (fun x => (0 <= x)%Z) (version v)
  /\ (IsQv v = true -> 3 <= List.length (version v)).
Proof.
  apply Parse_Ok_from in Hparse.
  destruct Hparse as [(lm & Hl & Hv)|(sm & Hs & Hv)].
  - apply lax_submatches in Hl.
    destruct (laxVersion_results lm Hl) as [Hok _]. exact (Hok v Hv).
  - apply strict_submatches in Hs.
    destruct (strictVersion_results sm Hs) as [Hok _].
    exact (proj1 (Hok v Hv)).
Qed.

Lemma Parse_well_formed_witness :
  Raw (Build_Version "v1.2" false true [1; 2; 0]%Z) <> "".
Proof.
  apply (Parse_well_formed "v1.2" (Build_Version "v1.2" false true [1; 2; 0]%Z)).
  vm_compute. reflexivity.
Defined.

(** X10 (Parse, IsAlpha).  A Version that Parse returns is an alpha version
    exactly when the text it keeps, the part of the input that matched,
    holds an underscore. *)
Theorem Parse_alpha_iff_underscore (text : string) (v : Version)
    (Hparse : Parse text = Ok v) :
  IsAlpha v = hasByte "_" (Raw v).
Proof.
  apply Parse_Ok_from in Hparse. unfold IsAlpha, Raw.
  destruct Hparse as [(lm & Hl & Hv)|(sm & Hs & Hv)].
  - apply lax_submatches in Hl. exact (laxVersion_alpha lm v Hl Hv).
  - apply strict_submatches in Hs. exact (strictVersion_alpha sm v Hs Hv).
Qed.

Lemma Parse_alpha_iff_underscore_witness :
  IsAlpha (Build_Version "1.02_03" true false [1; 20; 300]%Z)
  = hasByte "_" (Raw (Build_Version "1.02_03" true false [1; 20; 300]%Z)).
Proof.
  apply (Parse_alpha_iff_underscore "1.02_03").
  vm_compute. reflexivity.
Defined.

Lemma Parse_short_total (text : string) (Hshort : String.length text <= 18) :
  Parse text <> Panic.
Proof.
  intros H. apply Parse_Panic_from in H.
  destruct H as [(lm & Hl & Hv)|(sm & Hs & Hv)].
  - destruct (lax_match_suffix text lm Hl) as (skipped & Htext).
    pose proof (match_length _ _ _ Htext) as Hlen.
    apply lax_submatches in Hl.
    destruct (laxVersion_results lm Hl) as [_ Hnp]. apply Hnp; [lia|exact Hv].
  - destruct (strict_match_suffix text sm Hs) as (skipped & Htext).
    pose proof (match_length _ _ _ Htext) as Hlen.
    apply strict_submatches in Hs.
    destruct (strictVersion_results sm Hs) as [_ Hnp].
    apply Hnp; [lia|exact Hv].
Qed.

(** X11 (Parse, mustParseInt64).  On an input of at most 18 bytes Parse does
    not panic: every digit run it converts fits an int64, and none of the
    unreachable branches is taken. *)
Theorem Parse_short_no_panic (text : string)
    (Hshort : String.length text <= 18) :
  Parse text <> Panic.
Proof. exact (Parse_short_total text Hshort). Qed.

Lemma Parse_short_no_panic_witness : Parse "v1.22.333_4" <> Panic.
Proof. apply Parse_short_no_panic. vm_compute. lia. Defined.

Lemma Parse_Err_iff_validEnding (text : string) :
  Parse text = Err (errInvalidVersionString text)
  <-> validEnding text = false.
Proof.
  split.
  - intros H. apply Parse_Err_no_match in H. destruct H as [Hl _].
    destruct (validEnding text) eqn:E; [|reflexivity].
    exfalso. exact (lax_matches_ending text E Hl).
  - intros H. unfold Parse, tryStrict.
    destruct (Regexp.FindStringSubmatch laxRegexp text) as [lm|] eqn:Hl.
    { apply lax_match_ending in Hl. congruence. }
    destruct (Regexp.FindStringSubmatch strictRegexp text) as [sm|] eqn:Hs.
    { apply strict_match_ending, validEnding_digit in Hs. congruence. }
    reflexivity.
Qed.

(** X12 (Parse).  Parse returns its error, "invalid version string"
    followed by the input, exactly on the inputs that end neither in a
    digit, nor in a digit and a dot, nor in "undef"; what stands before
    such an ending is never looked at. *)
Theorem Parse_error_iff_ending (text : string) :
  Parse text = Err (errInvalidVersionString text)
  <-> validEnding text = false.
Proof. exact (Parse_Err_iff_validEnding text). Qed.

(** X13 (IsValid).  On an input of at most 18 bytes IsValid says whether the
    input ends in a digit, in a digit and a dot, or in "undef". *)
Theorem IsValid_short (text : string) (Hshort : String.length text <= 18) :
  IsValid text = Ok (validEnding text).
Proof.
  unfold IsValid. pose proof (Parse_short_total text Hshort) as Hnp.
  destruct (Parse text) as [v|e|] eqn:E; [| |contradiction].
  - destruct (validEnding text) eqn:Hend; [reflexivity|].
    apply Parse_Err_iff_validEnding in Hend. congruence.
  - pose proof (Parse_Err text e E) as ->.
    apply Parse_Err_iff_validEnding in E. now rewrite E.
Qed.

Lemma IsValid_short_witness :
  IsValid "perl-5.36.0" = Ok (validEnding "perl-5.36.0").
Proof. apply IsValid_short. vm_compute. lia. Defined.

(** X14 (MustParse, CompatibleWith, parseMulti).  On an input that has none
    of the three endings MustParse panics, and so does CompatibleWith when
    such an input is its candidate or its target. *)
Theorem invalid_input_panics (text other : string)
    (Hend : validEnding text = false) :
  MustParse text = Panic
  /\ CompatibleWith text other = Panic
  /\ CompatibleWith other text = Panic.
Proof.
  apply Parse_Err_iff_validEnding in Hend.
  unfold MustParse, CompatibleWith, parseMulti. rewrite Hend. cbn [bind].
  repeat split. destruct (Parse other); reflexivity.
Qed.

Lemma invalid_input_panics_witness : MustParse "1.0-rc" = Panic.
Proof. apply (invalid_input_panics "1.0-rc" "1.0"). reflexivity. Defined.

Lemma GreaterThanOrEqual_not_less (v w : Version) :
  GreaterThanOrEqual v w = negb (LessThan v w).
Proof.
  pose proof (Less_Greater_exclusive v w) as Hex.
  unfold GreaterThanOrEqual, Equal.
  destruct (LessThan v w), (GreaterThan v w); cbn; auto.
  exfalso. auto.
Qed.

Lemma LessThan_asym (v w : Version) :
  LessThan v w = true -> LessThan w v = false.
Proof.
  intros H. destruct (LessThan w v) eqn:E; [|reflexivity].
  rewrite <- (LessThan_irrefl v). symmetry. eapply LessThan_trans; eassumption.
Qed.

(** X15 (CompatibleWith, GreaterThanOrEqual).  For two inputs that parse,
    CompatibleWith returns the negation of LessThan on the parsed Versions;
    every input is compatible with itself, and of two inputs at least one
    is compatible with the other. *)
Theorem CompatibleWith_total (candidate target : string)
    (candidatePv targetPv : Version)
    (Hcandidate : Parse candidate = Ok candidatePv)
    (Htarget : Parse target = Ok targetPv) :
  CompatibleWith candidate target = Ok (negb (LessThan candidatePv targetPv))
  /\ CompatibleWith candidate candidate = Ok true
  /\ (CompatibleWith candidate target = Ok true
      \/ CompatibleWith target candidate = Ok true).
Proof.
  unfold CompatibleWith, parseMulti. rewrite Hcandidate, Htarget. cbn [bind].
  rewrite !GreaterThanOrEqual_not_less, LessThan_irrefl. repeat split.
  destruct (LessThan candidatePv targetPv) eqn:E; [right|left; reflexivity].
  now rewrite (LessThan_asym _ _ E).
Qed.

Lemma CompatibleWith_total_witness : CompatibleWith "5.36" "5.36" = Ok true.
Proof.
  apply (CompatibleWith_total "5.36" "v5.8.1"
           (Build_Version "5.36" false false [5; 360]%Z)
           (Build_Version "v5.8.1" false true [5; 8; 1]%Z));
    vm_compute; reflexivity.
Defined.

(** ** The components of the dotted forms *)

Section Truncation.

Lemma copy_firstn (k : nat) (src : list Z) :
  copy (repeat 0%Z k) src
  = firstn k src ++ repeat 0%Z (k - List.length src).
Proof.
  revert src. induction k as [|k IH]; intros [|x src];
    cbn [repeat copy firstn List.length Nat.sub app]; try reflexivity.
  now rewrite IH.
Qed.

Lemma copy_short (k : nat) (src : list Z) :
  List.length src <= k ->
  copy (repeat 0%Z k) src = src ++ repeat 0%Z (k - List.length src).
Proof. intros H. rewrite copy_firstn, firstn_all2 by exact H. reflexivity. Qed.

Lemma copy_long (src : list Z) :
  copy (repeat 0%Z (List.length src - 1)) src = removelast src.
Proof.
  rewrite copy_firstn, removelast_firstn_len.
  replace (List.length src - 1 - List.length src) with 0 by lia.
  cbn [repeat]. rewrite app_nil_r. f_equal. lia.
Qed.

End Truncation.

(** X16 (laxDotted.toPerlVersionA).  The "v" sub-form of the lax dotted
    form sizes its components by the number of dotted groups, not by that
    number plus one for the integer: with one or two groups the components
    are the integer, the groups and zeros up to three, and with three groups
    or more the last group is left out of the Version. *)
Theorem laxDotted_A_drops_last_group (d : LaxDotted.laxDotted)
    (text : string) (groups : list string) (v : Version)
    (Hint : digitRun (LaxDotted.integer d) = true)
    (Hgroups : LaxDotted.dottedGroup d = dots groups)
    (Hall : Forall (fun g => digitRun g = true) groups)
    (Halpha : LaxDotted.alpha d = "")
    (Hok : LaxDotted.toPerlVersionA d text = Ok v) :
  IsQv v = true
  /\ List.length (version v) = Nat.max 3 (List.length groups)
  /\ (List.length groups <= 2 ->
      version v
      = decimalValue (LaxDotted.integer d)
        :: map decimalValue groups ++ repeat 0%Z (2 - List.length groups))
  /\ (3 <= List.length groups ->
      version v
      = decimalValue (LaxDotted.integer d)
        :: removelast (map decimalValue groups)).
Proof.
  assert (Heval : Ok v
                  = (do minors <- parseAll groups;
                     do major <- mustParseInt64 (LaxDotted.integer d);
                     Ok (Build_Version text (nonEmpty (LaxDotted.alpha d)) true
                           (major
                            :: copy (make (Nat.max 3 (List.length minors) - 1))
                                 minors)))).
  { rewrite <- Hok. apply laxDotted_A_eval; [|exact Hall].
    rewrite Halpha. exact Hgroups. }
  destruct (parseAll groups) as [x| |] eqn:E; try discriminate Heval.
  destruct (mustParseInt64 (LaxDotted.integer d)) as [x0| |] eqn:E0;
    try discriminate Heval.
  assert (Hv : v = Build_Version text (nonEmpty (LaxDotted.alpha d)) true
                     (x0 :: copy (make (Nat.max 3 (List.length x) - 1)) x))
    by (cbn [bind] in Heval; injection Heval as ->; reflexivity).
  subst v. clear Heval Hok. cbn [IsQv qv version].
  rewrite (mustParseInt64_digits _ _ Hint E0).
  rewrite (parseAll_digits groups x Hall E). unfold make.
  rewrite length_map. split; [reflexivity|]. split; [|split].
  - cbn [List.length]. rewrite copy_length, repeat_length. lia.
  - intros Hn. f_equal.
    replace (Nat.max 3 (List.length groups) - 1) with 2 by lia.
    rewrite copy_short by (rewrite length_map; lia).
    now rewrite length_map.
  - intros Hn. f_equal.
    replace (Nat.max 3 (List.length groups))
      with (List.length (map decimalValue groups)) by (rewrite length_map; lia).
    apply copy_long.
Qed.

Lemma laxDotted_A_drops_last_group_witness :
  IsQv (Build_Version "v1.2345.6.7" false true [1; 2345; 6]%Z) = true.
Proof.
  apply (laxDotted_A_drops_last_group
           (LaxDotted.Build_laxDotted "1" ".2345.6.7" "" "" "" "")
           "v1.2345.6.7" ["2345"; "6"; "7"]
           (Build_Version "v1.2345.6.7" false true [1; 2345; 6]%Z));
    try reflexivity.
  repeat constructor.
Defined.

(** X17 (dottedToMinors).  On the text of one or more dotted groups, each a
    digit run of at most 18 digits, dottedToMinors returns the decimal
    values of the groups in order, with or without the leading dot; on the
    empty string it panics, which is why its caller in sub-form A tests the
    text first. *)
Theorem dottedToMinors_groups (group : string) (groups : list string)
    (Hall : Forall (fun g => digitRun g = true) (group :: groups))
    (Hfit : Forall (fun g => String.length g <= 18) (group :: groups)) :
  dottedToMinors (dots (group :: groups))
  = Ok (map decimalValue (group :: groups))
  /\ dottedToMinors (Strings.drop 1 (dots (group :: groups)))
     = Ok (map decimalValue (group :: groups))
  /\ dottedToMinors "" = Panic.
Proof.
  split; [|split; [|reflexivity]].
  - rewrite (dottedToMinors_dots group groups Hall).
    apply parseAll_fits; assumption.
  - pose proof (Split_dots group groups Hall) as Hsplit.
    cbn [dots String.append] in Hsplit.
    rewrite (TrimPrefix_lead "." (group ++ dots groups)) in Hsplit.
    unfold dottedToMinors. cbn [dots String.append Strings.drop].
    destruct (digitRun_inv group (Forall_inv Hall)) as (b & ds & -> & Hb & _).
    assert (Hpre : Strings.TrimPrefix (String b ds ++ dots groups) "."
                   = (String b ds ++ dots groups)%string).
    { unfold Strings.TrimPrefix. cbn [String.append Strings.HasPrefix].
      destruct (Ascii.eqb_spec "." b) as [<-|]; [discriminate Hb|].
      reflexivity. }
    rewrite Hpre, Hsplit. apply parseAll_fits; assumption.
Qed.

Lemma dottedToMinors_groups_witness :
  dottedToMinors ".22.333" = Ok [22; 333]%Z.
Proof.
  apply (dottedToMinors_groups "22" ["333"]);
    repeat constructor; cbn; lia.
Defined.

(** ** The matcher finds the runs of a pattern *)

Section RunComplete.
Import Regexp.

Lemma laps_split (R : string -> captures -> string -> captures -> Prop)
    (n m : nat) :
  forall t1 c1 t3 c3,
    laps R (n + m) t1 c1 t3 c3 ->
    exists t2 c2, laps R n t1 c1 t2 c2 /\ laps R m t2 c2 t3 c3.
Proof.
  induction n as [|n IH]; intros t1 c1 t3 c3; cbn [Nat.add laps].
  - intros H. exists t1, c1. auto.
  - intros (mid & capm & HR & Hl).
    destruct (IH _ _ _ _ Hl) as (t2 & c2 & H1 & H2).
    exists t2, c2. split; [exists mid, capm; auto|exact H2].
Qed.

(** each lap takes some text: the laps take at least one byte each *)
Lemma laps_count (R : string -> captures -> string -> captures -> Prop) :
  (forall t c t' c', R t c t' c' -> String.length t' < String.length t) ->
  forall n t c t' c',
    laps R n t c t' c' -> n + String.length t' <= String.length t.
Proof.
  intros HR. induction n as [|n IH]; intros t c t' c'; cbn [laps].
  - intros [-> _]. lia.
  - intros (mid & capm & H & Hl). apply HR in H. apply IH in Hl. lia.
Qed.

Lemma laps_shorter (R : string -> captures -> string -> captures -> Prop) :
  (forall t c t' c', R t c t' c' -> String.length t' <= String.length t) ->
  forall n t c t' c',
    laps R n t c t' c' -> String.length t' <= String.length t.
Proof.
  intros HR. induction n as [|n IH]; intros t c t' c'; cbn [laps].
  - intros [-> _]. lia.
  - intros (mid & capm & H & Hl). apply HR in H. apply IH in Hl. lia.
Qed.

(** a run leaves a suffix, a proper one unless the pattern is nullable *)
Lemma accepts_shorter (r : regex) :
  forall g text cap text' cap',
    accepts r g text cap text' cap' ->
    String.length text' <= String.length text
    /\ (nullable r = false -> String.length text' < String.length text).
Proof.
  induction r as [| c | lo hi | r1 IH1 r2 IH2 | r1 IH1 r2 IH2
                  | lo hi r1 IH1 | r1 IH1 | ];
    intros g text cap text' cap'; cbn [accepts nullable].
  - intros [-> _]. split; [lia|discriminate].
  - intros [-> _]. cbn. split; intros; lia.
  - intros [(b & -> & _) _]. cbn. split; intros; lia.
  - intros (mid & capm & H1 & H2). apply IH1 in H1. apply IH2 in H2.
    destruct H1 as [H1 H1']. destruct H2 as [H2 H2'].
    split; [lia|]. intros Hn. apply andb_false_iff in Hn.
    destruct Hn as [Hn|Hn]; [specialize (H1' Hn)|specialize (H2' Hn)]; lia.
  - intros [H|H]; [apply IH1 in H|apply IH2 in H]; destruct H as [H H'];
      (split; [exact H|]); intros Hn; apply orb_false_iff in Hn;
      apply H'; tauto.
  - intros (n & Hn & _ & Hl). split.
    + eapply laps_shorter; [|exact Hl]. intros t c t' c' H.
      apply (IH1 _ _ _ _ _ H).
    + intros Hnull. apply orb_false_iff in Hnull. destruct Hnull as [Hlo Hr].
      apply Nat.eqb_neq in Hlo. destruct n as [|n]; [lia|].
      cbn [laps] in Hl. destruct Hl as (mid & capm & H & Hl).
      apply IH1 in H. destruct H as [_ H]. specialize (H Hr).
      apply laps_shorter in Hl; [lia|].
      intros t c t' c' H'. apply (IH1 _ _ _ _ _ H').
  - intros (cap1 & H & _). apply (IH1 _ _ _ _ _ H).
  - intros (-> & -> & _). split; [lia|discriminate].
Qed.

(** a step that passes to its continuation the end of every run [R] *)
Let finds (step : matcher)
    (R : string -> captures -> string -> captures -> Prop) : Prop :=
  forall text cap text' cap' k t,
    R text cap text' cap' -> In t (k text' cap') -> In t (step text cap k).

Lemma must_finds (step : matcher)
    (R : string -> captures -> string -> captures -> Prop) :
  finds step R ->
  forall n text cap text' cap' k t,
    laps R n text cap text' cap' -> In t (k text' cap') ->
    In t (must step k n text cap).
Proof.
  intros Hstep. induction n as [|n IH]; intros text cap text' cap' k t;
    cbn [laps must].
  - intros [-> ->] Hk. exact Hk.
  - intros (mid & capm & HR & Hl) Hk.
    apply (Hstep _ _ _ _ _ _ HR). eapply IH; eassumption.
Qed.

Lemma more_finds (step : matcher)
    (R : string -> captures -> string -> captures -> Prop) :
  finds step R ->
  (forall t c t' c', R t c t' c' -> String.length t' < String.length t) ->
  forall fuel n text cap text' cap' k t,
    n <= fuel -> laps R n text cap text' cap' -> In t (k text' cap') ->
    In t (more step k fuel text cap).
Proof.
  intros Hstep Hcut.
  induction fuel as [|fuel IH]; intros n text cap text' cap' k t Hn;
    (destruct n as [|n]; [|try lia]); cbn [laps more].
  - intros [-> ->] Hk. exact Hk.
  - intros [-> ->] Hk. apply in_or_app. right. exact Hk.
  - intros (mid & capm & HR & Hl) Hk. apply in_or_app. left.
    apply (Hstep _ _ _ _ _ _ HR). apply Hcut in HR.
    apply Nat.ltb_lt in HR. rewrite HR.
    apply (IH n _ _ _ _ _ _ ltac:(lia) Hl Hk).
Qed.

(** Every run of a productive pattern is found: what the continuation
    yields at its end is among the threads of the matcher. *)
Lemma run_finds (r : regex) :
  productive r = true -> forall g, finds (run r g) (accepts r g).
Proof.
  induction r as [| c | lo hi | r1 IH1 r2 IH2 | r1 IH1 r2 IH2
                  | lo hi r1 IH1 | r1 IH1 | ];
    cbn [productive]; intros Hp g text cap text' cap' k t;
    cbn [accepts run].
  - intros [-> ->] Hk. exact Hk.
  - intros [-> ->] Hk. now rewrite Ascii.eqb_refl.
  - intros [(b & -> & Hb) ->] Hk. now rewrite Hb.
  - apply andb_prop in Hp. destruct Hp as [Hp1 Hp2].
    intros (mid & capm & H1 & H2) Hk.
    apply (IH1 Hp1 _ _ _ _ _ _ _ H1). apply (IH2 Hp2 _ _ _ _ _ _ _ H2 Hk).
  - apply andb_prop in Hp. destruct Hp as [Hp1 Hp2].
    intros [H|H] Hk; apply in_or_app.
    + left. apply (IH1 Hp1 _ _ _ _ _ _ _ H Hk).
    + right. apply (IH2 Hp2 _ _ _ _ _ _ _ H Hk).
  - apply andb_prop in Hp. destruct Hp as [Hnull Hp1].
    apply negb_true_iff in Hnull.
    assert (Hcut : forall t c t' c',
               accepts r1 g t c t' c' -> String.length t' < String.length t).
    { intros t0 c t' c' H. apply (accepts_shorter r1 _ _ _ _ _ H), Hnull. }
    intros (n & Hlo & Hhi & Hl) Hk.
    replace n with (lo + (n - lo)) in Hl by lia.
    apply laps_split in Hl. destruct Hl as (mid & capm & Hl1 & Hl2).
    apply (must_finds (run r1 g) (accepts r1 g) (IH1 Hp1 g) _ _ _ _ _ _ _ Hl1).
    apply (more_finds (run r1 g) (accepts r1 g) (IH1 Hp1 g) Hcut
             _ (n - lo) _ _ _ _ _ _) with (2 := Hl2) (3 := Hk).
    destruct hi as [hi'|]; [lia|].
    pose proof (laps_count _ Hcut _ _ _ _ _ Hl2). lia.
  - intros (cap1 & H & ->) Hk. apply (IH1 Hp _ _ _ _ _ _ _ H). exact Hk.
  - intros (-> & -> & ->) Hk. exact Hk.
Qed.

Lemma pick_nonempty (longest : bool) (t : thread) (threads : list thread) :
  In t threads -> pick longest threads <> None.
Proof.
  destruct threads as [|t0 threads]; [contradiction|]. intros _.
  cbn [pick]. destruct longest; [|discriminate].
  destruct (pick true threads) as [t'|]; [|discriminate].
  destruct (String.length (fst t') <? String.length (fst t0))%nat;
    discriminate.
Qed.

(** so a text with a run of the pattern has a match at its first byte, and
    FindStringSubmatch returns that one *)
Lemma matchAt_finds (re : Regexp) (text rest : string) (cap : captures) :
  productive (expr re) = true ->
  accepts (expr re) 1 text noCaptures rest cap ->
  exists matches,
    matchAt re text = Some matches
    /\ FindStringSubmatch re text = Some matches.
Proof.
  intros Hp Hacc.
  assert (Hm : matchAt re text <> None).
  { unfold matchAt.
    pose proof (run_finds (expr re) Hp 1 text noCaptures rest cap
                  (fun rest cap => [(rest, cap)]) (rest, cap) Hacc
                  (or_introl eq_refl)) as Hin.
    apply (pick_nonempty (longest re)) in Hin.
    destruct (pick (longest re) _) as [[rest' cap']|];
      [discriminate|contradiction]. }
  destruct (matchAt re text) as [matches|] eqn:E; [|contradiction].
  exists matches. split; [reflexivity|].
  destruct text; cbn [FindStringSubmatch]; now rewrite E.
Qed.

End RunComplete.

(** ** Runs of the strict pattern *)

Section StrictRuns.
Import Regexp.

Lemma laps_digits_built (g : nat) (ds rest : string) (cap : captures) :
  Strconv.allDigits ds = true ->
  laps (accepts Patterns.digit g) (String.length ds) (ds ++ rest) cap rest cap.
Proof.
  induction ds as [|b ds IH]; cbn [Strconv.allDigits String.length laps].
  - auto.
  - intros H. apply andb_prop in H. destruct H as [Hb Hds].
    exists (ds ++ rest)%string, cap. split; [|apply IH, Hds].
    cbn [accepts Patterns.digit]. split; [|reflexivity].
    exists b. split; [reflexivity|]. now rewrite inClass_digit.
Qed.

Lemma accepts_digits_built (lo : nat) (hi : option nat) (g : nat)
    (ds rest : string) (cap : captures) :
  Strconv.allDigits ds = true -> lo <= String.length ds ->
  match hi with Some hi' => String.length ds <= hi' | None => True end ->
  accepts (Repeat lo hi Patterns.digit) g (ds ++ rest) cap rest cap.
Proof.
  intros Hds Hlo Hhi. cbn [accepts]. exists (String.length ds).
  split; [exact Hlo|]. split; [destruct hi; [lia|exact I]|].
  apply laps_digits_built, Hds.
Qed.

Lemma strictInt_digitRun (int : string) :
  strictInt int = true -> digitRun int = true.
Proof.
  destruct int as [|b ds]; [discriminate|]. cbn [strictInt].
  intros H. apply orb_prop in H. destruct H as [H|H].
  - apply String.eqb_eq in H. now rewrite H.
  - apply andb_prop in H. destruct H as [H Hds].
    apply andb_prop in H. destruct H as [Hb _].
    now apply digitRun_cons.
Qed.

Lemma inClass_nonzero_digit (b : ascii) :
  Strconv.isDigit b = true -> Ascii.eqb b "0" = false ->
  inClass "1" "9" b = true.
Proof.
  unfold Strconv.isDigit, inClass. intros H Hz.
  apply andb_prop in H. destruct H as [H1 H2].
  apply Nat.leb_le in H1, H2. apply Ascii.eqb_neq in Hz.
  apply andb_true_intro. split; apply Nat.leb_le; cbn; [|lia].
  destruct (Nat.eq_dec (nat_of_ascii b) 48) as [E|E]; [|lia].
  exfalso. apply Hz. rewrite <- (ascii_nat_embedding b), E. reflexivity.
Qed.

Lemma accepts_strictIntR_built (g : nat) (int rest : string) (cap : captures) :
  strictInt int = true ->
  accepts Patterns.strictIntR g (int ++ rest) cap rest (setCapture g int cap).
Proof.
  intros H. unfold Patterns.strictIntR. cbn [Alts Seq accepts].
  exists cap. rewrite consumed_app. split; [|reflexivity].
  destruct int as [|b ds]; [discriminate|]. cbn [strictInt] in H.
  apply orb_prop in H. destruct H as [H|H].
  - apply String.eqb_eq in H. injection H as -> ->. left. auto.
  - apply andb_prop in H. destruct H as [H Hds].
    apply andb_prop in H. destruct H as [Hb Hz].
    apply negb_true_iff in Hz. right.
    exists (ds ++ rest)%string, cap. split.
    + split; [|reflexivity]. exists b. split; [reflexivity|].
      now apply inClass_nonzero_digit.
    + apply (accepts_digits_built 0 None); [exact Hds|lia|exact I].
Qed.

Lemma accepts_lead_digits_built (lead : ascii) (g : nat) (s rest : string)
    (cap : captures) :
  s <> "" -> fragment lead s = true ->
  accepts (Group (Seq [Lit lead; Plus Patterns.digit])) g (s ++ rest) cap rest
    (setCapture g s cap).
Proof.
  destruct s as [|c ds]; [contradiction|]. intros _ H.
  cbn [fragment] in H. apply andb_prop in H. destruct H as [H Hds].
  apply andb_prop in H. destruct H as [Hc Hne]. apply Ascii.eqb_eq in Hc.
  subst c. cbn [Seq accepts]. exists cap. rewrite consumed_app.
  split; [|reflexivity]. exists (ds ++ rest)%string, cap.
  split; [auto|]. apply (accepts_digits_built 1 None); [exact Hds| |exact I].
  destruct ds; [discriminate Hne|cbn; lia].
Qed.

Lemma accepts_Opt_none (r : regex) (g : nat) (text : string) (cap : captures) :
  accepts (Opt r) g text cap text cap.
Proof. exists 0. cbn. auto. Qed.

Lemma accepts_Opt_some (r : regex) (g : nat) (text : string) (cap : captures)
    (text' : string) (cap' : captures) :
  accepts r g text cap text' cap' -> accepts (Opt r) g text cap text' cap'.
Proof.
  intros H. exists 1. cbn [laps]. split; [lia|]. split; [cbn; lia|].
  exists text', cap'. auto.
Qed.

(** the groups of a dotted text, each a lap of the dotted group *)
Lemma laps_dotted_built (lo : nat) (hi : option nat) (g : nat)
    (groups : list string) (rest : string) (cap : captures) :
  Forall (fun group =>
            Strconv.allDigits group = true /\ lo <= String.length group
            /\ match hi with
               | Some hi' => String.length group <= hi'
               | None => True
               end) groups ->
  laps (accepts (Seq [Lit "."; Repeat lo hi Patterns.digit]) g)
    (List.length groups) (dots groups ++ rest) cap rest cap.
Proof.
  intros Hall. induction Hall as [|group groups (Hds & Hlo & Hhi) _ IH];
    cbn [List.length laps dots].
  - auto.
  - exists (dots groups ++ rest)%string, cap. split; [|exact IH].
    cbn [Seq accepts String.append].
    exists ((group ++ dots groups) ++ rest)%string, cap. split; [auto|].
    rewrite append_assoc. apply accepts_digits_built; assumption.
Qed.

Lemma strict_productive : productive Patterns.StrictVersionRegex = true.
Proof. reflexivity. Qed.

Lemma lax_productive : productive Patterns.LaxVersionRegex = true.
Proof. reflexivity. Qed.

(** the strict pattern has a run on every strict decimal text *)
Lemma strict_run_decimal (int frac : string) :
  strictInt int = true -> fragment "." frac = true ->
  exists cap,
    accepts Patterns.StrictVersionRegex 1 (int ++ frac) noCaptures "" cap.
Proof.
  intros Hint Hfrac.
  assert (Hopt : exists cap',
             accepts (Opt Patterns.fractionR) 3 frac
               (setCapture 2 int noCaptures) "" cap').
  { destruct (String.eqb_spec frac "") as [->|Hne].
    - eexists. apply accepts_Opt_none.
    - eexists. apply accepts_Opt_some.
      rewrite <- (append_empty_r frac) at 1.
      apply accepts_lead_digits_built; [exact Hne|exact Hfrac]. }
  destruct Hopt as (cap' & Hopt).
  unfold Patterns.StrictVersionRegex.
  cbn [Seq Alts accepts]. eexists. exists "". eexists.
  split; [|repeat split]. left.
  unfold Patterns.strictDecimalFormR. cbn [Seq accepts].
  eexists. split; [|reflexivity].
  exists frac. eexists. split.
  - apply accepts_strictIntR_built, Hint.
  - exact Hopt.
Qed.

(** and on every strict dotted text *)
Lemma strict_run_dotted (int : string) (groups : list string) :
  strictInt int = true -> 2 <= List.length groups ->
  Forall (fun g => digitRun g = true /\ String.length g <= 3) groups ->
  exists cap,
    accepts Patterns.StrictVersionRegex 1 ("v" ++ int ++ dots groups)
      noCaptures "" cap.
Proof.
  intros Hint Hcount Hall. unfold Patterns.StrictVersionRegex.
  cbn [Seq Alts accepts]. eexists. exists "". eexists.
  split; [|repeat split]. right.
  unfold Patterns.strictDottedFormR. cbn [Seq accepts].
  eexists. split; [|reflexivity].
  exists (int ++ dots groups)%string. eexists. split; [split; reflexivity|].
  exists (dots groups). eexists. split.
  - apply accepts_strictIntR_built, Hint.
  - unfold Patterns.strictDotted2PR, Patterns.strictDottedNcR.
    cbn [accepts]. eexists. split; [|reflexivity].
    exists (List.length groups). split; [exact Hcount|]. split; [exact I|].
    rewrite <- (append_empty_r (dots groups)) at 1.
    apply (laps_dotted_built 1 (Some 3)).
    eapply Forall_impl; [|exact Hall]. cbn beta. intros g [Hg Hlen].
    split; [apply digitRun_allDigits, Hg|]. split; [|exact Hlen].
    destruct (digitRun_inv g Hg) as (b & ds & -> & _). cbn. lia.
Qed.

End StrictRuns.

(** ** The parts of a matched text *)

Section Parts.

Lemma digits_then_unique (a a' b b' : string) :
  Strconv.allDigits a = true -> Strconv.allDigits a' = true ->
  noDigitNext b -> noDigitNext b' ->
  (a ++ b)%string = (a' ++ b')%string -> a = a' /\ b = b'.
Proof.
  revert a'. induction a as [|c a IH]; intros [|c' a'];
    cbn [Strconv.allDigits String.append]; intros Ha Ha' Hb Hb' H.
  - auto.
  - exfalso. subst b. cbn in Hb. apply andb_prop in Ha'. destruct Ha'.
    congruence.
  - exfalso. subst b'. cbn in Hb'. apply andb_prop in Ha. destruct Ha.
    congruence.
  - injection H as -> H. apply andb_prop in Ha, Ha'.
    destruct (IH a' (proj2 Ha) (proj2 Ha') Hb Hb' H) as [-> ->]. auto.
Qed.

Lemma noDigitNext_fragment (lead : ascii) (s : string) :
  Strconv.isDigit lead = false -> fragment lead s = true -> noDigitNext s.
Proof.
  destruct s as [|c ds]; [constructor|]. cbn [fragment noDigitNext].
  intros Hlead H. apply andb_prop in H. destruct H as [H _].
  apply andb_prop in H. destruct H as [Hc _]. apply Ascii.eqb_eq in Hc.
  now subst c.
Qed.

Lemma noDigitNext_dots (groups : list string) : noDigitNext (dots groups).
Proof. destruct groups; [constructor|reflexivity]. Qed.

End Parts.

(** ** Parse on the texts of the strict grammar *)

Section StrictTexts.
Import Regexp.

(** when the strict match is the whole input, Parse returns the strict
    reconstruction *)
Lemma Parse_strict_whole (text : string) (strictMatch : list string) :
  FindStringSubmatch strictRegexp text = Some strictMatch ->
  at_ strictMatch 0 = text ->
  Parse text = strictVersion strictMatch.
Proof.
  intros Hs H0. unfold Parse, tryStrict. rewrite Hs.
  destruct (FindStringSubmatch laxRegexp text) as [lm|] eqn:Hl;
    [|reflexivity].
  destruct (lax_match_suffix text lm Hl) as (skipped & Htext).
  pose proof (match_length _ _ _ Htext) as Hlen.
  rewrite H0.
  destruct (Nat.ltb_spec (String.length text) (String.length (at_ lm 0)));
    [lia|reflexivity].
Qed.

Lemma strict_whole_match (text : string) (cap : captures) :
  accepts Patterns.StrictVersionRegex 1 text noCaptures "" cap ->
  exists strictMatch,
    FindStringSubmatch strictRegexp text = Some strictMatch
    /\ at_ strictMatch 0 = text
    /\ strictSubmatches strictMatch.
Proof.
  intros Hacc.
  destruct (matchAt_finds strictRegexp text "" cap strict_productive Hacc)
    as (sm & Hm & Hfind).
  exists sm. split; [exact Hfind|]. split.
  - apply matchAt_EndText in Hm. exact Hm.
  - apply (strict_submatches text sm Hfind).
Qed.

Lemma digit_not_v (b : ascii) (s t : string) :
  Strconv.isDigit b = true -> String b s <> String "v" t.
Proof. intros Hb H. injection H as -> _. discriminate Hb. Qed.

Lemma Parse_strict_decimal_text (int frac : string) :
  strictInt int = true -> fragment "." frac = true ->
  Parse (int ++ frac)
  = StrictDecimalForm.toPerlVersion
      (StrictDecimalForm.Build_strictDecimalForm int frac) (int ++ frac).
Proof.
  intros Hint Hfrac.
  destruct (strict_run_decimal int frac Hint Hfrac) as (cap & Hacc).
  destruct (strict_whole_match _ cap Hacc) as (sm & Hfind & H0 & Hshape).
  rewrite (Parse_strict_whole _ sm Hfind H0).
  pose proof (strictInt_digitRun int Hint) as Hrun.
  destruct Hshape as [int' frac' Hint' Hfrac' Hstrict' | int' dotted' Hint' Hdot' Hstrict'
                     Hbound'];
    cbn [at_ nth] in H0.
  - destruct (digits_then_unique int' int frac' frac) as [-> ->];
      [apply digitRun_allDigits, Hint'|apply digitRun_allDigits, Hrun
      |apply (noDigitNext_fragment "."); [reflexivity|exact Hfrac']
      |apply (noDigitNext_fragment "."); [reflexivity|exact Hfrac]
      |exact H0|].
    apply strictVersion_decimal, Hrun.
  - exfalso. destruct (digitRun_inv int Hrun) as (b & ds & -> & Hb & _).
    cbn [String.append] in H0. symmetry in H0.
    exact (digit_not_v b _ _ Hb H0).
Qed.

Lemma Parse_strict_dotted_text (int : string) (groups : list string) :
  strictInt int = true -> 2 <= List.length groups ->
  Forall (fun g => digitRun g = true /\ String.length g <= 3) groups ->
  Parse ("v" ++ int ++ dots groups)
  = StrictDottedForm.toPerlVersion
      (StrictDottedForm.Build_strictDottedForm int (dots groups))
      ("v" ++ int ++ dots groups).
Proof.
  intros Hint Hcount Hall.
  destruct (strict_run_dotted int groups Hint Hcount Hall) as (cap & Hacc).
  destruct (strict_whole_match _ cap Hacc) as (sm & Hfind & H0 & Hshape).
  rewrite (Parse_strict_whole _ sm Hfind H0).
  pose proof (strictInt_digitRun int Hint) as Hrun.
  destruct Hshape as [int' frac' Hint' Hfrac' Hstrict' | int' dotted' Hint' Hdot' Hstrict'
                     Hbound'];
    cbn [at_ nth] in H0.
  - exfalso. destruct (digitRun_inv int' Hint') as (b & ds & -> & Hb & _).
    cbn [String.append] in H0. exact (digit_not_v b _ _ Hb H0).
  - cbn [String.append] in H0. injection H0 as H0.
    destruct Hdot' as (groups' & -> & _ & _).
    destruct (digits_then_unique int' int (dots groups') (dots groups))
      as [-> ->];
      [apply digitRun_allDigits, Hint'|apply digitRun_allDigits, Hrun
      |apply noDigitNext_dots|apply noDigitNext_dots|exact H0|].
    apply strictVersion_dotted.
Qed.

Lemma strictDotted_values (int : string) (groups : list string) :
  strictInt int = true -> String.length int <= 18 ->
  2 <= List.length groups ->
  Forall (fun g => digitRun g = true /\ String.length g <= 3) groups ->
  StrictDottedForm.toPerlVersion
    (StrictDottedForm.Build_strictDottedForm int (dots groups))
    ("v" ++ int ++ dots groups)
  = Ok {| original := "v" ++ int ++ dots groups; alpha := false; qv := true;
          version := decimalValue int :: map decimalValue groups |}.
Proof.
  intros Hint Hfit Hcount Hgroups.
  destruct groups as [|group groups]; [cbn in Hcount; lia|].
  assert (Hruns : Forall (fun g => digitRun g = true) (group :: groups)).
  { eapply Forall_impl; [|exact Hgroups]. cbn beta. tauto. }
  rewrite (strictDotted_eval
             (StrictDottedForm.Build_strictDottedForm int
                (dots (group :: groups)))
             _ group groups eq_refl Hruns).
  cbn [StrictDottedForm.integerPart].
  rewrite (mustParseInt64_fits int (strictInt_digitRun int Hint) Hfit).
  cbn [bind]. rewrite (parseAll_fits (group :: groups) Hruns); [reflexivity|].
  eapply Forall_impl; [|exact Hgroups]. cbn beta. intros g [_ Hlen]. lia.
Qed.

End StrictTexts.

(** X19 (Parse, strictDottedForm.toPerlVersion).  On a strict dotted
    version, "v", an integer without a leading zero of at most 18 digits and
    two or more groups of a dot and one to three digits, Parse returns the
    Version that keeps the input, is a qv and no alpha version, and has the
    integer and the groups as components, one for one. *)
Theorem Parse_strict_dotted (int : string) (groups : list string)
    (Hint : strictInt int = true) (Hfit : String.length int <= 18)
    (Hcount : 2 <= List.length groups)
    (Hgroups : Forall (fun g => digitRun g = true /\ String.length g <= 3)
                 groups) :
  Parse ("v" ++ int ++ dots groups)
  = Ok {| original := "v" ++ int ++ dots groups; alpha := false; qv := true;
          version := decimalValue int :: map decimalValue groups |}.
Proof.
  rewrite (Parse_strict_dotted_text int groups Hint Hcount Hgroups).
  apply strictDotted_values; assumption.
Qed.

Lemma Parse_strict_dotted_witness :
  Parse "v5.36.0"
  = Ok {| original := "v5.36.0"; alpha := false; qv := true;
          version := [5; 36; 0]%Z |}.
Proof.
  apply (Parse_strict_dotted "5" ["36"; "0"]);
    [reflexivity|cbn; lia|cbn; lia|].
  repeat constructor; cbn; lia.
Defined.

(** ** Printing and parsing back *)

Section Printing.

Lemma digits_printed (d : Decimal.uint) :
  Strconv.allDigits (NilEmpty.string_of_uint d) = true.
Proof. induction d; cbn; auto. Qed.

Lemma digitsValue_printed_pos (d : Decimal.uint) :
  forall p,
    Strconv.digitsValue (Z.pos p) (NilEmpty.string_of_uint d)
    = Some (Z.pos (Pos.of_uint_acc d p)).
Proof.
  induction d; intros p; cbn [NilEmpty.string_of_uint Pos.of_uint_acc];
    [reflexivity|..];
    cbn [Strconv.digitsValue];
    match goal with
    | |- (if ?b then _ else _) = _ => change b with true; cbv iota
    end;
    match goal with
    | |- context [Strconv.digitVal ?c] =>
        let val := eval vm_compute in (Strconv.digitVal c) in
        change (Strconv.digitVal c) with val
    end;
    match goal with
    | |- Strconv.digitsValue ?acc _ = Some (Z.pos (Pos.of_uint_acc _ ?q)) =>
        replace acc with (Z.pos q) by lia
    end; apply IHd.
Qed.

Lemma digitsValue_printed (d : Decimal.uint) :
  Strconv.digitsValue 0 (NilEmpty.string_of_uint d)
  = Some (Z.of_N (Pos.of_uint d)).
Proof.
  induction d; cbn [NilEmpty.string_of_uint Pos.of_uint];
    [reflexivity|exact IHd|..];
    cbn [Strconv.digitsValue];
    match goal with
    | |- (if ?b then _ else _) = _ => change b with true; cbv iota
    end;
    match goal with
    | |- context [Strconv.digitVal ?c] =>
        let val := eval vm_compute in (Strconv.digitVal c) in
        change (Strconv.digitVal c) with val
    end;
    match goal with
    | |- Strconv.digitsValue ?acc _
         = Some (Z.of_N (N.pos (Pos.of_uint_acc _ ?q))) =>
        change acc with (Z.pos q)
    end; apply digitsValue_printed_pos.
Qed.

Lemma to_uint_normal (p : positive) :
  Decimal.unorm (Pos.to_uint p) = Pos.to_uint p.
Proof.
  rewrite <- (DecimalPos.Unsigned.to_of (Pos.to_uint p)).
  now rewrite DecimalPos.Unsigned.of_to.
Qed.

Lemma to_uint_no_leading_zero (p : positive) (d : Decimal.uint) :
  Pos.to_uint p <> Decimal.D0 d.
Proof.
  intros H. pose proof (to_uint_normal p) as Hn. rewrite H in Hn.
  rewrite DecimalFacts.unorm_D0 in Hn.
  destruct d as [| | | | | | | | | |];
    [exact (DecimalPos.Unsigned.to_uint_nonzero p H)|..];
    match type of Hn with
    | Decimal.unorm ?u = _ =>
        pose proof (DecimalFacts.nb_digits_unorm u ltac:(discriminate)) as Hd
    end;
    rewrite Hn in Hd; cbn [Decimal.nb_digits] in Hd; lia.
Qed.

Lemma formatInt_pos (p : positive) :
  formatInt (Z.pos p) = NilEmpty.string_of_uint (Pos.to_uint p).
Proof.
  unfold formatInt. cbn [Z.to_int NilZero.string_of_int].
  unfold NilZero.string_of_uint.
  destruct (Pos.to_uint p) eqn:E; try reflexivity.
  exfalso. exact (DecimalPos.Unsigned.to_uint_nonnil p E).
Qed.

(** the decimal text of a natural number reads back as the number *)
Lemma formatInt_value (n : Z) :
  (0 <= n)%Z -> decimalValue (formatInt n) = n.
Proof.
  intros Hn. destruct n as [|p|p]; [reflexivity| |lia].
  rewrite formatInt_pos. unfold decimalValue.
  rewrite digitsValue_printed, DecimalPos.Unsigned.of_to. reflexivity.
Qed.

(** and has no leading zero *)
Lemma formatInt_strictInt (n : Z) :
  (0 <= n)%Z -> strictInt (formatInt n) = true.
Proof.
  intros Hn. destruct n as [|p|p]; [reflexivity| |lia].
  rewrite formatInt_pos.
  pose proof (digits_printed (Pos.to_uint p)) as Hds.
  pose proof (to_uint_no_leading_zero p) as Hz.
  pose proof (DecimalPos.Unsigned.to_uint_nonnil p) as Hnil.
  destruct (Pos.to_uint p) as [|d|d|d|d|d|d|d|d|d|d];
    [contradiction|exfalso; exact (Hz d eq_refl)|..];
    cbn [NilEmpty.string_of_uint Strconv.allDigits] in Hds;
    apply andb_prop in Hds; destruct Hds as [_ Hds];
    cbn [NilEmpty.string_of_uint strictInt]; rewrite Hds;
    apply orb_true_iff; right; reflexivity.
Qed.

(** a text without a leading zero is at least a power of ten *)
Lemma strictInt_value (s : string) :
  strictInt s = true ->
  s = "0" \/ (10 ^ Z.of_nat (String.length s - 1) <= decimalValue s)%Z.
Proof.
  destruct s as [|b ds]; [discriminate|]. cbn [strictInt].
  intros H. apply orb_prop in H. destruct H as [H|H].
  - left. apply String.eqb_eq, H.
  - right. apply andb_prop in H. destruct H as [H Hds].
    apply andb_prop in H. destruct H as [Hb Hz]. apply negb_true_iff in Hz.
    destruct (digitsValue_digits ds Hds) as [Hrange Hacc].
    unfold decimalValue at 1. cbn [Strconv.digitsValue]. rewrite Hb, Hacc.
    replace (String.length (String b ds) - 1) with (String.length ds)
      by (cbn [String.length]; lia).
    pose proof (digitVal_range b Hb) as Hd.
    assert (Hd1 : (1 <= Strconv.digitVal b)%Z).
    { pose proof (inClass_nonzero_digit b Hb Hz) as Hc.
      unfold Regexp.inClass in Hc. apply andb_prop in Hc.
      destruct Hc as [Hc _]. apply Nat.leb_le in Hc. cbn in Hc.
      unfold Strconv.digitVal. lia. }
    nia.
Qed.

Lemma formatInt_length (n : Z) (k : nat) :
  (0 <= n < 10 ^ Z.of_nat k)%Z -> 1 <= k ->
  String.length (formatInt n) <= k.
Proof.
  intros Hn Hk.
  destruct (strictInt_value (formatInt n) (formatInt_strictInt n (proj1 Hn)))
    as [->|H]; [cbn; lia|].
  rewrite (formatInt_value n (proj1 Hn)) in H.
  assert (Hlt : (10 ^ Z.of_nat (String.length (formatInt n) - 1)
                 < 10 ^ Z.of_nat k)%Z) by lia.
  apply Z.pow_lt_mono_r_iff in Hlt; lia.
Qed.

Lemma Join_dots (elem : string) (elems : list string) :
  Join (elem :: elems) "." = (elem ++ dots elems)%string.
Proof.
  revert elem. induction elems as [|e elems IH]; intros elem.
  - cbn. now rewrite append_empty_r.
  - change (Join (elem :: e :: elems) ".")
      with (elem ++ "." ++ Join (e :: elems) ".")%string.
    rewrite IH. reflexivity.
Qed.

(** the components that Normal prints: those of the Version, and zeros up
    to three *)
Lemma Normal_components (v : Version) :
  Normal v
  = ("v" ++ Join (map formatInt
                    (version v ++ repeat 0%Z (3 - List.length (version v))))
             ".")%string.
Proof.
  unfold Normal. cbv zeta. unfold make. do 3 f_equal.
  destruct (Nat.ltb_spec (List.length (version v)) 3) as [H|H].
  - apply copy_short. lia.
  - replace (3 - List.length (version v)) with 0 by lia.
    cbn [repeat]. rewrite app_nil_r. apply copy_all. now rewrite repeat_length.
Qed.

End Printing.

(** X20 (Normal, Parse).  Normal prints a text that Parse reads back: for a
    Version whose first component is a natural number below 10^18 and whose
    other components are between 0 and 999, parsing the normal form gives
    the qv Version with the same components, padded with zeros to three,
    and with the normal form as its text. *)
Theorem Normal_round_trip (v : Version)
    (Hmajor : (0 <= hd 0%Z (version v) < 10 ^ 18)%Z)
    (Hminors : Forall (fun x => (0 <= x <= 999)%Z) (tl (version v))) :
  Parse (Normal v)
  = Ok {| original := Normal v; alpha := false; qv := true;
          version := version v ++ repeat 0%Z (3 - List.length (version v)) |}.
Proof.
  rewrite Normal_components.
  set (fixed := version v ++ repeat 0%Z (3 - List.length (version v))).
  assert (Hfixed : exists major minors,
             fixed = major :: minors /\ 2 <= List.length minors
             /\ (0 <= major < 10 ^ 18)%Z
             /\ Forall (fun x => (0 <= x <= 999)%Z) minors).
  { subst fixed. destruct (version v) as [|major minors].
    - exists 0%Z, [0; 0]%Z. cbn. repeat split; try lia.
      repeat constructor; lia.
    - cbn [hd tl] in *.
      exists major, (minors ++ repeat 0%Z (2 - List.length minors)).
      change (3 - List.length (major :: minors))
        with (2 - List.length minors).
      split; [reflexivity|].
      split; [rewrite length_app, repeat_length; lia|]. split; [exact Hmajor|].
      apply Forall_app. split; [exact Hminors|].
      apply Forall_forall. intros x Hx. apply repeat_spec in Hx. lia. }
  destruct Hfixed as (major & minors & -> & Hcount & Hm & Hall).
  cbn [map]. rewrite Join_dots.
  rewrite (Parse_strict_dotted_text (formatInt major) (map formatInt minors)).
  - rewrite (strictDotted_values (formatInt major) (map formatInt minors)).
    + rewrite (formatInt_value major) by lia.
      rewrite map_map, (map_ext_in _ (fun x => x)), map_id; [reflexivity|].
      intros x Hx. rewrite Forall_forall in Hall.
      apply formatInt_value. apply Hall in Hx. lia.
    + apply formatInt_strictInt. lia.
    + apply (formatInt_length major 18); [exact Hm|lia].
    + rewrite length_map. lia.
    + apply Forall_map. eapply Forall_impl; [|exact Hall]. cbn beta.
      intros x Hx. split.
      * apply strictInt_digitRun, formatInt_strictInt. lia.
      * apply (formatInt_length x 3); [cbn; lia|lia].
  - apply formatInt_strictInt. lia.
  - rewrite length_map. lia.
  - apply Forall_map. eapply Forall_impl; [|exact Hall]. cbn beta.
    intros x Hx. split.
    + apply strictInt_digitRun, formatInt_strictInt. lia.
    + apply (formatInt_length x 3); [cbn; lia|lia].
Qed.

Lemma Normal_round_trip_witness :
  Parse (Normal (Build_Version "5.036" false false [5; 36]%Z))
  = Ok {| original := "v5.36.0"; alpha := false; qv := true;
          version := [5; 36; 0]%Z |}.
Proof.
  apply (Normal_round_trip (Build_Version "5.036" false false [5; 36]%Z)).
  - cbn. lia.
  - repeat constructor; lia.
Defined.

(** ** Runs of the lax pattern *)

Section LaxRuns.
Import Regexp.

Lemma accepts_laxIntR_built (g : nat) (int rest : string) (cap : captures) :
  digitRun int = true ->
  accepts Patterns.laxIntR g (int ++ rest) cap rest (setCapture g int cap).
Proof.
  intros H. unfold Patterns.laxIntR. cbn [accepts]. exists cap.
  rewrite consumed_app. split; [|reflexivity].
  apply (accepts_digits_built 1 None);
    [apply digitRun_allDigits, H| |exact I].
  destruct (digitRun_inv int H) as (b & ds & -> & _). cbn. lia.
Qed.

(** an optional fragment: there, or left out *)
Lemma opt_fragment_built (lead : ascii) (g : nat) (s rest : string)
    (cap : captures) :
  fragment lead s = true ->
  exists cap',
    accepts (Opt (Group (Seq [Lit lead; Plus Patterns.digit]))) g
      (s ++ rest) cap rest cap'.
Proof.
  intros H. destruct (String.eqb_spec s "") as [->|Hne].
  - eexists. apply accepts_Opt_none.
  - eexists. apply accepts_Opt_some.
    apply accepts_lead_digits_built; assumption.
Qed.

(** the lax pattern has a run on "v", digits and dotted groups *)
Lemma lax_run_v (int : string) (groups : list string) :
  digitRun int = true ->
  Forall (fun g => digitRun g = true) groups ->
  exists cap,
    accepts Patterns.LaxVersionRegex 1 ("v" ++ int ++ dots groups)
      noCaptures "" cap.
Proof.
  intros Hint Hall.
  assert (Hopt : exists cap',
             accepts
               (Opt (Seq [Patterns.laxDottedPR; Opt Patterns.laxAlphaR])) 4
               (dots groups) (setCapture 3 int noCaptures) "" cap').
  { destruct groups as [|group groups].
    - eexists. apply accepts_Opt_none.
    - eexists. apply accepts_Opt_some. cbn [Seq accepts].
      exists "". eexists. split; [|apply accepts_Opt_none].
      unfold Patterns.laxDottedPR, Patterns.laxDottedNcR, Plus.
      cbn [accepts]. eexists. split; [|reflexivity].
      exists (List.length (group :: groups)).
      split; [cbn; lia|]. split; [exact I|].
      rewrite <- (append_empty_r (dots (group :: groups))) at 1.
      apply (laps_dotted_built 1 None).
      eapply Forall_impl; [|exact Hall]. cbn beta. intros g Hg.
      split; [apply digitRun_allDigits, Hg|]. split; [|exact I].
      destruct (digitRun_inv g Hg) as (b & ds & -> & _). cbn. lia. }
  destruct Hopt as (cap' & Hopt).
  unfold Patterns.LaxVersionRegex. cbn [Seq Alts accepts].
  eexists. exists "". eexists. split; [|repeat split]. right. left.
  unfold Patterns.laxDottedFormR. cbn [Seq Alts accepts].
  eexists. split; [|reflexivity]. left.
  exists (int ++ dots groups)%string. eexists. split; [split; reflexivity|].
  exists (dots groups). eexists. split.
  - apply accepts_laxIntR_built, Hint.
  - exact Hopt.
Qed.

(** and on digits, a fraction and an alpha suffix *)
Lemma lax_run_decimal (int frac al : string) :
  digitRun int = true -> fragment "." frac = true ->
  fragment "_" al = true ->
  exists cap,
    accepts Patterns.LaxVersionRegex 1 (int ++ frac ++ al) noCaptures ""
      cap.
Proof.
  intros Hint Hfrac Hal.
  assert (Hf : exists cap',
             accepts (Opt (Alts [Patterns.fractionR; Lit "."])) 11
               (frac ++ al) (setCapture 10 int noCaptures) al cap').
  { destruct (String.eqb_spec frac "") as [->|Hne].
    - eexists. apply accepts_Opt_none.
    - eexists. apply accepts_Opt_some. cbn [Alts accepts]. left.
      apply accepts_lead_digits_built; assumption. }
  destruct Hf as (cap1 & Hf).
  destruct (opt_fragment_built "_" 12 al "" cap1 Hal) as (cap2 & Ha).
  rewrite append_empty_r in Ha.
  unfold Patterns.LaxVersionRegex. cbn [Seq Alts accepts].
  eexists. exists "". eexists. split; [|repeat split]. right. right.
  unfold Patterns.laxDecimalFormR. cbn [Seq Alts accepts].
  eexists. split; [|reflexivity]. left.
  exists (frac ++ al)%string. eexists. split.
  - apply accepts_laxIntR_built, Hint.
  - exists al. eexists. split; [exact Hf|exact Ha].
Qed.

Lemma lax_whole_match (text : string) (cap : captures) :
  accepts Patterns.LaxVersionRegex 1 text noCaptures "" cap ->
  exists laxMatch,
    FindStringSubmatch laxRegexp text = Some laxMatch
    /\ at_ laxMatch 0 = text
    /\ laxSubmatches laxMatch.
Proof.
  intros Hacc.
  destruct (matchAt_finds laxRegexp text "" cap lax_productive Hacc)
    as (lm & Hm & Hfind).
  exists lm. split; [exact Hfind|]. split.
  - apply matchAt_EndText in Hm. exact Hm.
  - apply (lax_submatches text lm Hfind).
Qed.

(** when the lax match is the whole input and the strict match is not,
    Parse returns the lax reconstruction, unless that is an error *)
Lemma Parse_lax_whole (text : string) (laxMatch : list string) :
  FindStringSubmatch laxRegexp text = Some laxMatch ->
  at_ laxMatch 0 = text ->
  (forall strictMatch,
      FindStringSubmatch strictRegexp text = Some strictMatch ->
      at_ strictMatch 0 <> text) ->
  (forall e, laxVersion laxMatch <> Err e) ->
  Parse text = laxVersion laxMatch.
Proof.
  intros Hl H0 Hstrict Hne. unfold Parse, tryStrict. rewrite Hl.
  destruct (FindStringSubmatch strictRegexp text) as [sm|] eqn:Hs;
    [|reflexivity].
  destruct (strict_match_suffix text sm Hs) as (skipped & Htext).
  specialize (Hstrict sm eq_refl).
  assert (Hlt : String.length (at_ sm 0) < String.length (at_ laxMatch 0)).
  { destruct skipped as [|c skipped].
    - exfalso. apply Hstrict. now rewrite Htext.
    - rewrite H0, Htext. cbn [String.append String.length].
      rewrite append_length. lia. }
  apply Nat.ltb_lt in Hlt. rewrite Hlt.
  destruct (laxVersion laxMatch) as [v|e|] eqn:E; try reflexivity.
  exfalso. exact (Hne e eq_refl).
Qed.

End LaxRuns.

(** ** Parse on texts of the lax grammar *)

Section LaxTexts.
Import Regexp.

Lemma noDigitNext_app (a b : string) :
  noDigitNext a -> noDigitNext b -> noDigitNext (a ++ b).
Proof. destruct a; [intros _ H; exact H|intros H _; exact H]. Qed.

Lemma fragment_lead (lead : ascii) (s : string) :
  fragment lead s = true -> s <> "" -> exists ds, s = String lead ds.
Proof.
  destruct s as [|c ds]; [contradiction|]. cbn [fragment]. intros H _.
  apply andb_prop in H. destruct H as [H _].
  apply andb_prop in H. destruct H as [Hc _]. apply Ascii.eqb_eq in Hc.
  subst c. exists ds. reflexivity.
Qed.

Lemma strictSubmatches_no_underscore (matches : list string) :
  strictSubmatches matches -> hasByte "_" (at_ matches 0) = false.
Proof.
  intros Hshape.
  destruct Hshape as [int frac Hint Hfrac Hstrict | int dotted Hint Hdot Hstrict Hbound];
    cbn [at_ nth String.append hasByte].
  - now rewrite hasByte_app, (hasByte_digitRun int Hint),
      (hasByte_fraction frac Hfrac).
  - now rewrite hasByte_app, (hasByte_digitRun int Hint),
      (hasByte_dotted 2 dotted Hdot).
Qed.

(** a dotted text has its groups only *)
Lemma dots_inj (groups groups' : list string) :
  Forall (fun g => digitRun g = true) groups ->
  Forall (fun g => digitRun g = true) groups' ->
  dots groups = dots groups' -> groups = groups'.
Proof.
  intros Hall. revert groups'.
  induction Hall as [|g groups Hg _ IH]; intros groups' Hall' H;
    destruct Hall' as [|g' groups' Hg' Hall']; cbn [dots] in H;
    try discriminate H; [reflexivity|].
  cbn [String.append] in H. injection H as H.
  destruct (digits_then_unique g g' (dots groups) (dots groups'))
    as [-> Hd];
    [apply digitRun_allDigits, Hg|apply digitRun_allDigits, Hg'
    |apply noDigitNext_dots|apply noDigitNext_dots|exact H|].
  f_equal. apply IH; assumption.
Qed.

(** the submatches of a match that is "v", digits and dotted groups *)
Lemma lax_v_submatches (int : string) (groups : list string)
    (laxMatch : list string) :
  laxSubmatches laxMatch ->
  at_ laxMatch 0 = ("v" ++ int ++ dots groups)%string ->
  digitRun int = true -> Forall (fun g => digitRun g = true) groups ->
  laxVersion laxMatch
  = LaxDotted.toPerlVersionA
      (LaxDotted.Build_laxDotted int (dots groups) "" "" "" "")
      ("v" ++ int ++ dots groups).
Proof.
  intros Hshape H0 Hrun Hall.
  destruct Hshape as [ | int' dotted' al' Hint' Hdot' Halpha' Hempty'
                       | int' dotted' al' Hint' Hdot' Halpha'
                       | int' frac' dot' al' Hint' Hfrac' Hdotc' Halpha'
                       | frac' al' Hne' Hfrac' Halpha' ];
    cbn [at_ nth] in H0.
  - discriminate H0.
  - cbn [String.append] in H0. injection H0 as H0.
    destruct (digits_then_unique int' int (dotted' ++ al') (dots groups))
      as [-> Hrest];
      [apply digitRun_allDigits, Hint'|apply digitRun_allDigits, Hrun
      | |apply noDigitNext_dots|exact H0|].
    { apply noDigitNext_app.
      - destruct Hdot' as (gs & -> & _). apply noDigitNext_dots.
      - apply (noDigitNext_fragment "_"); [reflexivity|exact Halpha']. }
    pose proof (f_equal (hasByte "_") Hrest) as Hu.
    rewrite hasByte_app, (hasByte_dotted 0 dotted' Hdot'),
      (hasByte_alpha al' Halpha') in Hu.
    rewrite (hasByte_dotted 0 (dots groups)) in Hu
      by (exists groups; repeat split; [lia|exact Hall]).
    cbn [orb] in Hu. apply nonEmpty_false in Hu. subst al'.
    rewrite append_empty_r in Hrest. subst dotted'.
    rewrite (laxVersion_dottedA int (dots groups) "" Hrun).
    now rewrite append_empty_r.
  - exfalso. destruct Hint' as [->|Hint'].
    + destruct Hdot' as ([|g gs] & -> & Hn & _); [cbn in Hn; lia|].
      discriminate H0.
    + destruct (digitRun_inv int' Hint') as (b & ds & -> & Hb & _).
      exact (digit_not_v b _ _ Hb H0).
  - exfalso. destruct (digitRun_inv int' Hint') as (b & ds & -> & Hb & _).
    exact (digit_not_v b _ _ Hb H0).
  - exfalso. destruct (fragment_lead "." frac' Hfrac' Hne') as (ds & ->).
    discriminate H0.
Qed.

(** the strict pattern does not match the whole of "v", digits and less
    than two groups *)
Lemma strict_not_whole_v (int : string) (groups : list string)
    (strictMatch : list string) :
  strictSubmatches strictMatch ->
  digitRun int = true -> Forall (fun g => digitRun g = true) groups ->
  List.length groups <= 1 ->
  at_ strictMatch 0 <> ("v" ++ int ++ dots groups)%string.
Proof.
  intros Hshape Hrun Hall Hcount H0.
  destruct Hshape as [int' frac' Hint' Hfrac' Hstrict' | int' dotted' Hint' Hdot' Hstrict'
                     Hbound'];
    cbn [at_ nth] in H0.
  - destruct (digitRun_inv int' Hint') as (b & ds & -> & Hb & _).
    exact (digit_not_v b _ _ Hb H0).
  - cbn [String.append] in H0. injection H0 as H0.
    destruct Hdot' as (groups' & -> & Hn & Hall').
    destruct (digits_then_unique int' int (dots groups') (dots groups))
      as [_ Hd];
      [apply digitRun_allDigits, Hint'|apply digitRun_allDigits, Hrun
      |apply noDigitNext_dots|apply noDigitNext_dots|exact H0|].
    apply dots_inj in Hd; [|assumption..]. subst groups'. lia.
Qed.

(** the submatches of a match that is digits, a fraction and an alpha
    suffix *)
Lemma lax_alpha_submatches (int frac al : string) (laxMatch : list string) :
  laxSubmatches laxMatch ->
  at_ laxMatch 0 = (int ++ frac ++ al)%string ->
  digitRun int = true -> fragment "." frac = true -> frac <> "" ->
  fragment "_" al = true -> al <> "" ->
  laxVersion laxMatch
  = LaxDecimal.toPerlVersionA
      (LaxDecimal.Build_laxDecimal int frac al "" "") (int ++ frac ++ al).
Proof.
  intros Hshape H0 Hrun Hfrac Hfne Hal Hane.
  destruct (digitRun_inv int Hrun) as (b & ids & Hint_eq & Hb & _).
  destruct (fragment_lead "." frac Hfrac Hfne) as (fd & Hfd).
  destruct (fragment_lead "_" al Hal Hane) as (ad & Had).
  assert (Hfd_digits : Strconv.allDigits fd = true).
  { pose proof (fragment_digits "." frac Hfrac) as H. now subst frac. }
  assert (Hnext : noDigitNext (frac ++ al))
    by (subst frac; reflexivity).
  destruct Hshape as [ | int' dotted' al' Hint' Hdot' Halpha' Hempty'
                       | int' dotted' al' Hint' Hdot' Halpha'
                       | int' frac' dot' al' Hint' Hfrac' Hdotc' Halpha'
                       | frac' al' Hne' Hfrac' Halpha' ];
    cbn [at_ nth] in H0.
  - exfalso. subst int. cbn [String.append] in H0. injection H0 as <- _.
    discriminate Hb.
  - exfalso. subst int. symmetry in H0. exact (digit_not_v b _ _ Hb H0).
  - exfalso. destruct Hdot' as ([|g1 [|g2 gs]] & -> & Hn & Hall');
      try (cbn in Hn; lia).
    destruct Hint' as [->|Hint'].
    { subst int. cbn [String.append dots] in H0. injection H0 as <- _.
      discriminate Hb. }
    destruct (digits_then_unique int' int
                (dots (g1 :: g2 :: gs) ++ al') (frac ++ al)) as [_ Hrest];
      [apply digitRun_allDigits, Hint'|apply digitRun_allDigits, Hrun
      |reflexivity|exact Hnext|exact H0|].
    subst frac al. cbn [dots String.append] in Hrest. injection Hrest as Hrest.
    rewrite !append_assoc in Hrest. cbn [String.append] in Hrest.
    apply digits_then_unique in Hrest;
      [destruct Hrest as [_ Habs]; discriminate Habs
      |apply digitRun_allDigits, (Forall_inv Hall')|exact Hfd_digits
      |reflexivity|reflexivity].
  - destruct (digits_then_unique int' int (frac' ++ dot' ++ al') (frac ++ al))
      as [-> Hrest];
      [apply digitRun_allDigits, Hint'|apply digitRun_allDigits, Hrun
      | |exact Hnext|exact H0|].
    { apply noDigitNext_app;
        [apply (noDigitNext_fragment "."); [reflexivity|exact Hfrac']|].
      apply noDigitNext_app;
        [destruct Hdotc' as [->|[-> _]]; reflexivity|].
      apply (noDigitNext_fragment "_"); [reflexivity|exact Halpha']. }
    assert (Hparts : frac' = frac /\ dot' = "" /\ al' = al).
    { subst frac al.
      destruct (String.eqb_spec frac' "") as [->|Hfne'].
      - exfalso. cbn [String.append] in Hrest.
        destruct Hdotc' as [->|[-> _]]; cbn [String.append] in Hrest.
        + destruct al' as [|c al']; [discriminate Hrest|].
          destruct (fragment_lead "_" _ Halpha' ltac:(discriminate))
            as (ds & Hds).
          rewrite Hds in Hrest. discriminate Hrest.
        + injection Hrest as Hrest.
          destruct al' as [|c al'].
          * destruct fd; discriminate Hrest.
          * destruct (fragment_lead "_" _ Halpha' ltac:(discriminate))
              as (ds & Hds).
            rewrite Hds in Hrest. destruct fd as [|d fd];
              [cbn in Hfrac; discriminate Hfrac|].
            cbn [String.append] in Hrest. injection Hrest as <- _.
            cbn in Hfd_digits. discriminate Hfd_digits.
      - destruct (fragment_lead "." frac' Hfrac' Hfne') as (fd' & ->).
        destruct Hdotc' as [->|[_ Habs]]; [|discriminate Habs].
        cbn [String.append] in Hrest. injection Hrest as Hrest.
        destruct (digits_then_unique fd' fd al' (String "_" ad))
          as [-> ->];
          [exact (fragment_digits "." _ Hfrac')|exact Hfd_digits
          |apply (noDigitNext_fragment "_"); [reflexivity|exact Halpha']
          |reflexivity|exact Hrest|].
        auto. }
    destruct Hparts as (-> & -> & ->).
    apply (laxVersion_decimalA int frac "" al Hrun).
  - exfalso. destruct (fragment_lead "." frac' Hfrac' Hne') as (ds & ->).
    subst int. cbn [String.append] in H0. injection H0 as <- _.
    discriminate Hb.
Qed.

(** the end of a match of the lax pattern that is not "undef" *)
Lemma laxSubmatches_last (matches : list string) :
  laxSubmatches matches ->
  at_ matches 0 = "undef"
  \/ endsInDigit (at_ matches 0) = true
  \/ endsWithDot (at_ matches 0) = true.
Proof.
  intros Hshape.
  destruct Hshape as [ | int dotted al Hint Hdot Halpha Hempty
                       | int dotted al Hint Hdot Halpha
                       | int frac dot al Hint Hfrac Hdotc Halpha
                       | frac al Hne Hfrac Halpha ];
    cbn [at_ nth].
  - left. reflexivity.
  - right. left. apply (endsInDigit_app "v"). rewrite <- append_assoc.
    apply endsInDigit_opt; [|eapply endsInDigit_fragment; eassumption].
    apply endsInDigit_opt; [apply endsInDigit_digitRun, Hint|].
    eapply endsInDigit_dotted; eassumption.
  - right. left. apply endsInDigit_app.
    apply endsInDigit_opt; [|eapply endsInDigit_fragment; eassumption].
    destruct (endsInDigit_dotted 2 dotted Hdot) as [->|H]; [|exact H].
    destruct Hdot as (groups & Hdots & Hn & _).
    destruct groups as [|g groups]; [cbn in Hn; lia|discriminate].
  - right. apply endsInDigit_digitRun in Hint.
    destruct (endsInDigit_fragment "_" al Halpha) as [->|Ha].
    + destruct Hdotc as [->|[-> ->]].
      * left. rewrite !append_empty_r.
        apply endsInDigit_opt; [exact Hint|].
        eapply endsInDigit_fragment; eassumption.
      * right. cbn [String.append]. unfold endsWithDot.
        rewrite lastByte_app by discriminate. reflexivity.
    + left. rewrite <- !append_assoc. now apply endsInDigit_app.
  - right. left.
    apply endsInDigit_opt; [|eapply endsInDigit_fragment; eassumption].
    destruct (endsInDigit_fragment "." frac Hfrac) as [->|H];
      [contradiction|exact H].
Qed.

(** the match of the lax pattern in a text that ends in "undef" *)
Lemma lax_undef_submatches (p : string) (laxMatch : list string) :
  FindStringSubmatch laxRegexp (p ++ "undef") = Some laxMatch ->
  laxVersion laxMatch = Ok Undef.
Proof.
  intros Hl. pose proof (lax_submatches _ _ Hl) as Hshape.
  destruct (lax_match_suffix _ _ Hl) as (skipped & Htext).
  assert (Hlast : Strings.lastByte (at_ laxMatch 0) = Some "f"%char).
  { assert (Hne : at_ laxMatch 0 <> "").
    { pose proof (laxSubmatches_ending laxMatch Hshape) as Hend.
      intros E. rewrite E in Hend. discriminate Hend. }
    rewrite <- (lastByte_app skipped _ Hne), <- Htext.
    rewrite lastByte_app by discriminate. reflexivity. }
  destruct (laxSubmatches_last laxMatch Hshape) as [H|[H|H]].
  - destruct Hshape; cbn [at_ nth] in H; try reflexivity; exfalso.
    + discriminate H.
    + match goal with
      | Hi : _ \/ digitRun _ = true |- _ => destruct Hi as [->|Hi]
      end.
      * match goal with
        | Hd : dottedText 2 _ |- _ =>
            destruct Hd as ([|g gs] & -> & Hn & _); [cbn in Hn; lia|]
        end.
        discriminate H.
      * match goal with
        | Hi : digitRun ?i = true |- _ =>
            destruct (digitRun_inv i Hi) as (b & ds & -> & Hb & _)
        end.
        cbn [String.append] in H. injection H as -> _. discriminate Hb.
    + match goal with
      | Hi : digitRun ?i = true |- _ =>
          destruct (digitRun_inv i Hi) as (b & ds & -> & Hb & _)
      end.
      cbn [String.append] in H. injection H as -> _. discriminate Hb.
    + match goal with
      | Hf : fragment "." ?f = true, Hn : ?f <> "" |- _ =>
          destruct (fragment_lead "." f Hf Hn) as (ds & ->)
      end.
      discriminate H.
  - exfalso. unfold endsInDigit in H. rewrite Hlast in H. discriminate H.
  - exfalso. unfold endsWithDot in H. rewrite Hlast in H. discriminate H.
Qed.

End LaxTexts.

(** X21 (Parse, laxDotted.toPerlVersionA).  On "v" and digits, followed by
    no or by one dotted group, Parse takes the lax reconstruction.  When the
    integer and the group are at most 2^63-1 it returns a qv Version of
    exactly three components: the integer, the group if there is one, and
    zeros; when one of them is larger it panics. *)
Theorem Parse_v_implied_zeros (int : string) (groups : list string)
    (Hint : digitRun int = true)
    (Hgroups : Forall (fun g => digitRun g = true) groups)
    (Hcount : List.length groups <= 1) :
  Parse ("v" ++ int ++ dots groups)
  = if fitsInt64 int && forallb fitsInt64 groups
    then Ok {| original := "v" ++ int ++ dots groups; alpha := false;
               qv := true;
               version := decimalValue int
                          :: map decimalValue groups
                             ++ repeat 0%Z (2 - List.length groups) |}
    else Panic.
Proof.
  destruct (lax_run_v int groups Hint Hgroups) as (cap & Hacc).
  destruct (lax_whole_match _ cap Hacc) as (lm & Hfind & H0 & Hshape).
  assert (Hlax : laxVersion lm
                 = if fitsInt64 int && forallb fitsInt64 groups
                   then Ok {| original := "v" ++ int ++ dots groups;
                              alpha := false; qv := true;
                              version := decimalValue int
                                         :: map decimalValue groups
                                            ++ repeat 0%Z
                                                 (2 - List.length groups) |}
                   else Panic).
  { rewrite (lax_v_submatches int groups lm Hshape H0 Hint Hgroups).
    rewrite (laxDotted_A_eval
               (LaxDotted.Build_laxDotted int (dots groups) "" "" "" "") _
               groups eq_refl Hgroups).
    rewrite (parseAll_runs groups Hgroups).
    destruct (forallb fitsInt64 groups);
      [|now rewrite andb_false_r].
    cbn [bind LaxDotted.integer LaxDotted.alpha].
    rewrite (mustParseInt64_run int Hint), andb_true_r.
    destruct (fitsInt64 int); [|reflexivity]. cbn [bind nonEmpty].
    do 3 f_equal. rewrite length_map. unfold make.
    replace (Nat.max 3 (List.length groups) - 1) with 2 by lia.
    rewrite copy_short by (rewrite length_map; lia).
    now rewrite length_map. }
  rewrite (Parse_lax_whole _ lm Hfind H0); [exact Hlax| |].
  - intros sm Hs. apply (strict_not_whole_v int groups sm); try assumption.
    apply (strict_submatches _ _ Hs).
  - intros e He. rewrite Hlax in He.
    destruct (fitsInt64 int && forallb fitsInt64 groups); discriminate He.
Qed.

Lemma Parse_v_implied_zeros_witness :
  Parse "v5.36"
  = Ok {| original := "v5.36"; alpha := false; qv := true;
          version := [5; 36; 0]%Z |}.
Proof.
  refine (Parse_v_implied_zeros "5" ["36"] eq_refl _ _); [|cbn; lia].
  repeat constructor.
Defined.

(** X22 (Parse, laxDecimal.toPerlVersionA).  On digits, a fraction and an
    alpha suffix Parse takes the lax reconstruction.  When the integer is at
    most 2^63-1 the Version is an alpha, not a qv version, and its
    components are the integer and the digits of the fraction and of the
    suffix, put together before they are grouped by three; when the integer
    is larger Parse panics. *)
Theorem Parse_decimal_alpha (int frac suffix : string)
    (Hint : digitRun int = true)
    (Hfrac : fragment "." frac = true) (Hfne : frac <> "")
    (Hsuffix : fragment "_" suffix = true) (Hsne : suffix <> "") :
  Parse (int ++ frac ++ suffix)
  = if fitsInt64 int
    then Ok {| original := int ++ frac ++ suffix; alpha := true; qv := false;
               version := decimalValue int
                          :: fractionGrouping
                               (digitsOf frac ++ digitsOf suffix) |}
    else Panic.
Proof.
  destruct (lax_run_decimal int frac suffix Hint Hfrac Hsuffix)
    as (cap & Hacc).
  destruct (lax_whole_match _ cap Hacc) as (lm & Hfind & H0 & Hshape).
  assert (Hlax : laxVersion lm
                 = if fitsInt64 int
                   then Ok {| original := int ++ frac ++ suffix;
                              alpha := true; qv := false;
                              version := decimalValue int
                                         :: fractionGrouping
                                              (digitsOf frac
                                               ++ digitsOf suffix) |}
                   else Panic).
  { rewrite (lax_alpha_submatches int frac suffix lm Hshape H0 Hint Hfrac
               Hfne Hsuffix Hsne).
    rewrite laxDecimal_A_eval;
      cbn [LaxDecimal.fraction LaxDecimal.alpha LaxDecimal.integer];
      try assumption.
    - rewrite (mustParseInt64_run int Hint).
      destruct (fitsInt64 int); [|reflexivity]. cbn [bind].
      rewrite (nonEmpty_true suffix Hsne).
      destruct (String.eqb_spec frac "") as [E|_]; [contradiction|].
      rewrite andb_false_r, app_nil_r. reflexivity.
    - destruct (digitRun_inv int Hint) as (b & ds & -> & _). discriminate.
    - tauto. }
  rewrite (Parse_lax_whole _ lm Hfind H0); [exact Hlax| |].
  - intros sm Hs H0'. apply strict_submatches in Hs.
    pose proof (strictSubmatches_no_underscore sm Hs) as Hu.
    rewrite H0', !hasByte_app, (hasByte_alpha suffix Hsuffix),
      (nonEmpty_true suffix Hsne), !orb_true_r in Hu.
    discriminate Hu.
  - intros e He. rewrite Hlax in He. destruct (fitsInt64 int); discriminate He.
Qed.

Lemma Parse_decimal_alpha_witness :
  Parse "1.02_03"
  = Ok {| original := "1.02_03"; alpha := true; qv := false;
          version := [1; 20; 300]%Z |}.
Proof.
  refine (Parse_decimal_alpha "1" ".02" "_03" eq_refl eq_refl _ eq_refl _);
    discriminate.
Defined.

(** X23 (Parse, Undef, lax.toPerlVersion).  On every text that ends in
    "undef" Parse returns the undefined Version, the value of Undef(),
    whatever stands before. *)
Theorem Parse_undef (text : string) (Hend : HasSuffix text "undef" = true) :
  Parse text = Ok Undef.
Proof.
  destruct (HasSuffix_inv text "undef" Hend) as (p & ->).
  assert (Hvalid : validEnding (p ++ "undef") = true).
  { unfold validEnding. rewrite Hend. apply orb_true_r. }
  pose proof (lax_matches_ending _ Hvalid) as Hl.
  destruct (Regexp.FindStringSubmatch laxRegexp (p ++ "undef")) as [lm|] eqn:El;
    [|contradiction].
  assert (Hs : Regexp.FindStringSubmatch strictRegexp (p ++ "undef") = None).
  { destruct (Regexp.FindStringSubmatch strictRegexp (p ++ "undef"))
      as [sm|] eqn:Es; [|reflexivity].
    apply strict_match_ending in Es. unfold endsInDigit in Es.
    rewrite lastByte_app in Es by discriminate. discriminate Es. }
  unfold Parse. rewrite El, Hs. apply (lax_undef_submatches p lm El).
Qed.

Lemma Parse_undef_witness : Parse "version undef" = Ok Undef.
Proof. apply Parse_undef. reflexivity. Defined.

(** ** The last group of a long lax dotted version *)

Section LongDotted.

(** what the strict pattern asks of a text "v", digits and groups that it
    matches as a whole *)
Lemma strict_whole_v (int : string) (groups : list string)
    (strictMatch : list string) :
  strictSubmatches strictMatch ->
  at_ strictMatch 0 = ("v" ++ int ++ dots groups)%string ->
  digitRun int = true -> Forall (fun g => digitRun g = true) groups ->
  strictInt int = true
  /\ Forall (fun g => String.length g <= 3) groups.
Proof.
  intros Hshape H0 Hrun Hall.
  destruct Hshape as [int' frac' Hint' Hfrac' Hstrict'
                     | int' dotted' Hint' Hdot' Hstrict' Hbound'];
    cbn [at_ nth] in H0.
  - exfalso. destruct (digitRun_inv int' Hint') as (b & ds & -> & Hb & _).
    exact (digit_not_v b _ _ Hb H0).
  - cbn [String.append] in H0. injection H0 as H0.
    destruct Hbound' as (groups' & -> & Hall').
    destruct (digits_then_unique int' int (dots groups') (dots groups))
      as [-> Hd];
      [apply digitRun_allDigits, Hint'|apply digitRun_allDigits, Hrun
      |apply noDigitNext_dots|apply noDigitNext_dots|exact H0|].
    split; [exact Hstrict'|].
    apply dots_inj in Hd; [|eapply Forall_impl; [|exact Hall']; cbn beta; tauto
                           |exact Hall].
    subst groups'. eapply Forall_impl; [|exact Hall']. cbn beta. tauto.
Qed.

End LongDotted.

(** X24 (Parse, laxDotted.toPerlVersionA).  On "v", digits and three or more
    dotted groups that the strict grammar refuses, because the integer has a
    leading zero or a group has more than three digits, Parse takes the lax
    reconstruction, which converts every group and leaves the last one out.
    When the integer and all the groups, the last included, are at most
    2^63-1, the components are the integer and all the groups but the last;
    when one of them is larger Parse panics. *)
Theorem Parse_v_drops_last_group (int : string) (groups : list string)
    (Hint : digitRun int = true)
    (Hgroups : Forall (fun g => digitRun g = true) groups)
    (Hcount : 3 <= List.length groups)
    (Hlax : strictInt int = false
            \/ Exists (fun g => 3 < String.length g) groups) :
  Parse ("v" ++ int ++ dots groups)
  = if fitsInt64 int && forallb fitsInt64 groups
    then Ok {| original := "v" ++ int ++ dots groups; alpha := false;
               qv := true;
               version := decimalValue int
                          :: removelast (map decimalValue groups) |}
    else Panic.
Proof.
  destruct (lax_run_v int groups Hint Hgroups) as (cap & Hacc).
  destruct (lax_whole_match _ cap Hacc) as (lm & Hfind & H0 & Hshape).
  assert (Hval : laxVersion lm
                 = if fitsInt64 int && forallb fitsInt64 groups
                   then Ok {| original := "v" ++ int ++ dots groups;
                              alpha := false; qv := true;
                              version := decimalValue int
                                         :: removelast
                                              (map decimalValue groups) |}
                   else Panic).
  { rewrite (lax_v_submatches int groups lm Hshape H0 Hint Hgroups).
    rewrite (laxDotted_A_eval
               (LaxDotted.Build_laxDotted int (dots groups) "" "" "" "") _
               groups eq_refl Hgroups).
    rewrite (parseAll_runs groups Hgroups).
    destruct (forallb fitsInt64 groups);
      [|now rewrite andb_false_r].
    cbn [bind LaxDotted.integer LaxDotted.alpha].
    rewrite (mustParseInt64_run int Hint), andb_true_r.
    destruct (fitsInt64 int); [|reflexivity]. cbn [bind nonEmpty].
    do 3 f_equal. unfold make.
    replace (Nat.max 3 (List.length (map decimalValue groups)))
      with (List.length (map decimalValue groups))
      by (rewrite length_map; lia).
    apply copy_long. }
  rewrite (Parse_lax_whole _ lm Hfind H0); [exact Hval| |].
  - intros sm Hs H0'. apply strict_submatches in Hs.
    destruct (strict_whole_v int groups sm Hs H0' Hint Hgroups)
      as [Hstrict Hshort].
    destruct Hlax as [Hlax|Hlax]; [congruence|].
    apply Exists_exists in Hlax. destruct Hlax as (g & Hin & Hlong).
    rewrite Forall_forall in Hshort. specialize (Hshort g Hin). lia.
  - intros e He. rewrite Hval in He.
    destruct (fitsInt64 int && forallb fitsInt64 groups); discriminate He.
Qed.

Lemma Parse_v_drops_last_group_witness :
  Parse "v1.2345.6.7"
  = Ok {| original := "v1.2345.6.7"; alpha := false; qv := true;
          version := [1; 2345; 6]%Z |}.
Proof.
  refine (Parse_v_drops_last_group "1" ["2345"; "6"; "7"] eq_refl _ _ _);
    [repeat constructor|cbn; lia|].
  right. apply Exists_cons_hd. cbn. lia.
Defined.

(** ** Parse on the other texts of the lax grammar *)

Section LaxDecimalTexts.
Import Regexp.

Lemma endsWithDot_digit (s : string) :
  endsInDigit s = true -> endsWithDot s = false.
Proof.
  unfold endsInDigit, endsWithDot.
  destruct (Strings.lastByte s) as [b|]; [|discriminate].
  intros Hb. destruct (Ascii.eqb_spec b ".") as [->|]; [|reflexivity].
  discriminate Hb.
Qed.

(** the lax pattern has a run on digits and a dot *)
Lemma lax_run_trailing_dot (int : string) :
  digitRun int = true ->
  exists cap,
    accepts Patterns.LaxVersionRegex 1 (int ++ ".") noCaptures "" cap.
Proof.
  intros Hint.
  unfold Patterns.LaxVersionRegex. cbn [Seq Alts accepts].
  eexists. exists "". eexists. split; [|repeat split]. right. right.
  unfold Patterns.laxDecimalFormR. cbn [Seq Alts accepts].
  eexists. split; [|reflexivity]. left.
  exists ".". eexists. split.
  - apply accepts_laxIntR_built, Hint.
  - exists "". eexists. split; [|apply accepts_Opt_none].
    apply accepts_Opt_some. cbn [accepts]. right. split; reflexivity.
Qed.

(** on a fraction and an alpha suffix *)
Lemma lax_run_leading_dot (frac al : string) :
  frac <> "" -> fragment "." frac = true -> fragment "_" al = true ->
  exists cap,
    accepts Patterns.LaxVersionRegex 1 (frac ++ al) noCaptures "" cap.
Proof.
  intros Hne Hfrac Hal.
  destruct (opt_fragment_built "_" 14 al ""
              (setCapture 13 frac noCaptures) Hal) as (cap2 & Ha).
  rewrite append_empty_r in Ha.
  unfold Patterns.LaxVersionRegex. cbn [Seq Alts accepts].
  eexists. exists "". eexists. split; [|repeat split]. right. right.
  unfold Patterns.laxDecimalFormR. cbn [Seq Alts accepts].
  eexists. split; [|reflexivity]. right.
  exists al. eexists. split; [|exact Ha].
  apply accepts_lead_digits_built; assumption.
Qed.

(** and on dotted groups, two or more, behind digits or none *)
Lemma lax_run_dotted (int : string) (groups : list string) :
  int = "" \/ digitRun int = true -> 2 <= List.length groups ->
  Forall (fun g => digitRun g = true) groups ->
  exists cap,
    accepts Patterns.LaxVersionRegex 1 (int ++ dots groups) noCaptures ""
      cap.
Proof.
  intros Hint Hcount Hall.
  assert (Hlead : exists cap',
             accepts (Opt Patterns.laxIntR) 6 (int ++ dots groups)
               noCaptures (dots groups) cap').
  { destruct Hint as [->|Hint].
    - eexists. apply accepts_Opt_none.
    - eexists. apply accepts_Opt_some, accepts_laxIntR_built, Hint. }
  destruct Hlead as (cap1 & Hlead).
  unfold Patterns.LaxVersionRegex. cbn [Seq Alts accepts].
  eexists. exists "". eexists. split; [|repeat split]. right. left.
  unfold Patterns.laxDottedFormR. cbn [Seq Alts accepts].
  eexists. split; [|reflexivity]. right.
  exists (dots groups). eexists. split; [exact Hlead|].
  exists "". eexists. split; [|apply accepts_Opt_none].
  unfold Patterns.laxDotted2PR, Patterns.laxDottedNcR, Plus.
  cbn [accepts]. eexists. split; [|reflexivity].
  exists (List.length groups). split; [exact Hcount|]. split; [exact I|].
  rewrite <- (append_empty_r (dots groups)) at 1.
  apply (laps_dotted_built 1 None).
  eapply Forall_impl; [|exact Hall]. cbn beta. intros g Hg.
  split; [apply digitRun_allDigits, Hg|]. split; [|exact I].
  destruct (digitRun_inv g Hg) as (b & ds & -> & _). cbn. lia.
Qed.

End LaxDecimalTexts.

Section LaxForms.
Import Regexp.

Lemma digits_or_none (int : string) :
  int = "" \/ digitRun int = true -> Strconv.allDigits int = true.
Proof. intros [->|H]; [reflexivity|apply digitRun_allDigits, H]. Qed.

(** an alpha suffix that a text without an underscore ends in is empty *)
Lemma no_alpha (before al text : string) :
  fragment "_" al = true -> hasByte "_" text = false ->
  (before ++ al)%string = text -> al = "".
Proof.
  intros Hal Htext H. apply (f_equal (hasByte "_")) in H.
  rewrite hasByte_app, (hasByte_alpha al Hal), Htext in H.
  apply orb_false_iff in H. apply nonEmpty_false, H.
Qed.

Lemma hasByte_dots (groups : list string) :
  Forall (fun g => digitRun g = true) groups ->
  hasByte "_" (dots groups) = false.
Proof.
  intros Hall. apply (hasByte_dotted 0). exists groups.
  repeat split; [lia|exact Hall].
Qed.

(** the submatches of a match that is digits and perhaps a fraction *)
Lemma lax_plain_submatches (int frac : string) (laxMatch : list string) :
  laxSubmatches laxMatch ->
  at_ laxMatch 0 = (int ++ frac)%string ->
  digitRun int = true -> fragment "." frac = true ->
  laxVersion laxMatch
  = LaxDecimal.toPerlVersionA
      (LaxDecimal.Build_laxDecimal int frac "" "" "") (int ++ frac).
Proof.
  intros Hshape H0 Hrun Hfrac.
  destruct (digitRun_inv int Hrun) as (b & ids & Hint_eq & Hb & _).
  assert (Hnext : noDigitNext frac)
    by (apply (noDigitNext_fragment "."); [reflexivity|exact Hfrac]).
  destruct Hshape as [ | int' dotted' al' Hint' Hdot' Halpha' Hempty'
                       | int' dotted' al' Hint' Hdot' Halpha'
                       | int' frac' dot' al' Hint' Hfrac' Hdotc' Halpha'
                       | frac' al' Hne' Hfrac' Halpha' ];
    cbn [at_ nth] in H0.
  - exfalso. subst int. cbn [String.append] in H0. injection H0 as <- _.
    discriminate Hb.
  - exfalso. subst int. symmetry in H0. exact (digit_not_v b _ _ Hb H0).
  - exfalso. destruct Hdot' as ([|g1 [|g2 gs]] & -> & Hn & Hall');
      try (cbn in Hn; lia).
    destruct Hint' as [->|Hint'].
    { subst int. cbn [String.append dots] in H0. injection H0 as <- _.
      discriminate Hb. }
    destruct (digits_then_unique int' int
                (dots (g1 :: g2 :: gs) ++ al') frac) as [_ Hrest];
      [apply digitRun_allDigits, Hint'|apply digitRun_allDigits, Hrun
      |reflexivity|exact Hnext|exact H0|].
    destruct frac as [|c fd]; [discriminate Hrest|].
    pose proof (fragment_digits "." _ Hfrac) as Hfd.
    cbn [digitsOf Strings.drop] in Hfd.
    cbn [dots String.append] in Hrest. injection Hrest as _ Hrest.
    rewrite <- (append_empty_r fd) in Hrest.
    rewrite !append_assoc in Hrest. cbn [String.append] in Hrest.
    apply digits_then_unique in Hrest;
      [destruct Hrest as [_ Habs]; discriminate Habs
      |apply digitRun_allDigits, (Forall_inv Hall')|exact Hfd
      |reflexivity|exact I].
  - destruct (digits_then_unique int' int (frac' ++ dot' ++ al') frac)
      as [-> Hrest];
      [apply digitRun_allDigits, Hint'|apply digitRun_allDigits, Hrun
      | |exact Hnext|exact H0|].
    { apply noDigitNext_app;
        [apply (noDigitNext_fragment "."); [reflexivity|exact Hfrac']|].
      apply noDigitNext_app;
        [destruct Hdotc' as [->|[-> _]]; reflexivity|].
      apply (noDigitNext_fragment "_"); [reflexivity|exact Halpha']. }
    rewrite <- append_assoc in Hrest.
    pose proof (no_alpha _ al' frac Halpha' (hasByte_fraction frac Hfrac)
                  Hrest) as ->.
    rewrite append_empty_r in Hrest.
    destruct Hdotc' as [->|[-> ->]].
    + rewrite append_empty_r in Hrest. subst frac'.
      rewrite (laxVersion_decimalA int frac "" "" Hrun).
      cbn [String.append]. now rewrite append_empty_r.
    + exfalso. cbn in Hrest. subst frac. discriminate Hfrac.
  - exfalso. destruct (fragment_lead "." frac' Hfrac' Hne') as (ds & ->).
    subst int. cbn [String.append] in H0. injection H0 as <- _.
    discriminate Hb.
Qed.

(** the submatches of a match that is digits and a dot *)
Lemma lax_trailing_dot_submatches (int : string) (laxMatch : list string) :
  laxSubmatches laxMatch ->
  at_ laxMatch 0 = (int ++ ".")%string ->
  digitRun int = true ->
  laxVersion laxMatch
  = LaxDecimal.toPerlVersionA
      (LaxDecimal.Build_laxDecimal int "" "" "" "") (int ++ ".").
Proof.
  intros Hshape H0 Hrun.
  destruct (digitRun_inv int Hrun) as (b & ids & Hint_eq & Hb & _).
  destruct Hshape as [ | int' dotted' al' Hint' Hdot' Halpha' Hempty'
                       | int' dotted' al' Hint' Hdot' Halpha'
                       | int' frac' dot' al' Hint' Hfrac' Hdotc' Halpha'
                       | frac' al' Hne' Hfrac' Halpha' ];
    cbn [at_ nth] in H0.
  - exfalso. subst int. cbn [String.append] in H0. injection H0 as <- _.
    discriminate Hb.
  - exfalso. subst int. symmetry in H0. exact (digit_not_v b _ _ Hb H0).
  - exfalso. destruct Hdot' as ([|g1 [|g2 gs]] & -> & Hn & Hall');
      try (cbn in Hn; lia).
    destruct Hint' as [->|Hint'].
    { subst int. cbn [String.append dots] in H0. injection H0 as <- _.
      discriminate Hb. }
    destruct (digits_then_unique int' int
                (dots (g1 :: g2 :: gs) ++ al') ".") as [_ Hrest];
      [apply digitRun_allDigits, Hint'|apply digitRun_allDigits, Hrun
      |reflexivity|reflexivity|exact H0|].
    destruct (digitRun_inv g1 (Forall_inv Hall')) as (c & ds & -> & _).
    discriminate Hrest.
  - destruct (digits_then_unique int' int (frac' ++ dot' ++ al') ".")
      as [-> Hrest];
      [apply digitRun_allDigits, Hint'|apply digitRun_allDigits, Hrun
      | |reflexivity|exact H0|].
    { apply noDigitNext_app;
        [apply (noDigitNext_fragment "."); [reflexivity|exact Hfrac']|].
      apply noDigitNext_app;
        [destruct Hdotc' as [->|[-> _]]; reflexivity|].
      apply (noDigitNext_fragment "_"); [reflexivity|exact Halpha']. }
    destruct Hdotc' as [->|[-> ->]].
    + exfalso. cbn [String.append] in Hrest.
      destruct (fragment_inv "." frac' Hfrac') as [->|(c & ds & -> & _)].
      * cbn [String.append] in Hrest. subst al'. discriminate Halpha'.
      * discriminate Hrest.
    + cbn [String.append] in Hrest. injection Hrest as ->.
      apply (laxVersion_decimalA int "" "." "" Hrun).
  - exfalso. destruct (fragment_lead "." frac' Hfrac' Hne') as (ds & ->).
    subst int. cbn [String.append] in H0. injection H0 as <- _.
    discriminate Hb.
Qed.

(** the submatches of a match that is a fraction and perhaps an alpha
    suffix *)
Lemma lax_leading_dot_submatches (frac al : string)
    (laxMatch : list string) :
  laxSubmatches laxMatch ->
  at_ laxMatch 0 = (frac ++ al)%string ->
  frac <> "" -> fragment "." frac = true -> fragment "_" al = true ->
  laxVersion laxMatch
  = LaxDecimal.toPerlVersionB
      (LaxDecimal.Build_laxDecimal "" "" "" frac al) (frac ++ al).
Proof.
  intros Hshape H0 Hne Hfrac Hal.
  destruct (fragment_lead "." frac Hfrac Hne) as (fd & Hfd).
  pose proof (fragment_digits "." frac Hfrac) as Hfd_digits.
  assert (Hnext : noDigitNext al)
    by (apply (noDigitNext_fragment "_"); [reflexivity|exact Hal]).
  subst frac. cbn [digitsOf Strings.drop] in Hfd_digits.
  destruct Hshape as [ | int' dotted' al' Hint' Hdot' Halpha' Hempty'
                       | int' dotted' al' Hint' Hdot' Halpha'
                       | int' frac' dot' al' Hint' Hfrac' Hdotc' Halpha'
                       | frac' al' Hne' Hfrac' Halpha' ];
    cbn [at_ nth] in H0.
  - discriminate H0.
  - discriminate H0.
  - exfalso. destruct Hdot' as ([|g1 [|g2 gs]] & -> & Hn & Hall');
      try (cbn in Hn; lia).
    destruct Hint' as [->|Hint'].
    + cbn [String.append dots] in H0. injection H0 as H0.
      rewrite !append_assoc in H0. cbn [String.append] in H0.
      apply digits_then_unique in H0;
        [|apply digitRun_allDigits, (Forall_inv Hall')|exact Hfd_digits
         |reflexivity|exact Hnext].
      destruct H0 as [_ Habs]. subst al. discriminate Hal.
    + destruct (digitRun_inv int' Hint') as (b & ds & -> & Hb & _).
      cbn [String.append] in H0. injection H0 as -> _. discriminate Hb.
  - exfalso. destruct (digitRun_inv int' Hint') as (b & ds & -> & Hb & _).
    cbn [String.append] in H0. injection H0 as -> _. discriminate Hb.
  - destruct (fragment_lead "." frac' Hfrac' Hne') as (fd' & ->).
    pose proof (fragment_digits "." _ Hfrac') as Hfd'.
    cbn [digitsOf Strings.drop] in Hfd'.
    cbn [String.append] in H0. injection H0 as H0.
    apply digits_then_unique in H0;
      [|exact Hfd'|exact Hfd_digits
       |apply (noDigitNext_fragment "_"); [reflexivity|exact Halpha']
       |exact Hnext].
    destruct H0 as [-> ->]. apply (laxVersion_decimalB _ al Hne).
Qed.

(** the submatches of a match that is dotted groups, two or more, behind
    digits or none *)
Lemma lax_dotted_submatches (int : string) (groups : list string)
    (laxMatch : list string) :
  laxSubmatches laxMatch ->
  at_ laxMatch 0 = (int ++ dots groups)%string ->
  int = "" \/ digitRun int = true -> 2 <= List.length groups ->
  Forall (fun g => digitRun g = true) groups ->
  laxVersion laxMatch
  = LaxDotted.toPerlVersionB
      (LaxDotted.Build_laxDotted "" "" "" int (dots groups) "")
      (int ++ dots groups).
Proof.
  intros Hshape H0 Hint Hcount Hall.
  pose proof (digits_or_none int Hint) as Hdigits.
  pose proof (hasByte_dots groups Hall) as Hclean.
  assert (Hdot2 : dottedText 2 (dots groups))
    by (exists groups; auto).
  destruct groups as [|g1 [|g2 gs]]; try (cbn in Hcount; lia).
  pose proof (Forall_inv Hall) as Hg1.
  destruct Hshape as [ | int' dotted' al' Hint' Hdot' Halpha' Hempty'
                       | int' dotted' al' Hint' Hdot' Halpha'
                       | int' frac' dot' al' Hint' Hfrac' Hdotc' Halpha'
                       | frac' al' Hne' Hfrac' Halpha' ];
    cbn [at_ nth] in H0.
  - exfalso. destruct Hint as [->|Hint]; [discriminate H0|].
    destruct (digitRun_inv int Hint) as (b & ds & -> & Hb & _).
    cbn [String.append] in H0. injection H0 as <- _. discriminate Hb.
  - exfalso. destruct Hint as [->|Hint]; [discriminate H0|].
    destruct (digitRun_inv int Hint) as (b & ds & -> & Hb & _).
    symmetry in H0. exact (digit_not_v b _ _ Hb H0).
  - destruct (digits_then_unique int' int (dotted' ++ al')
                (dots (g1 :: g2 :: gs))) as [-> Hrest];
      [apply digits_or_none, Hint'|exact Hdigits
      | |reflexivity|exact H0|].
    { apply noDigitNext_app.
      - destruct Hdot' as (gs' & -> & _). apply noDigitNext_dots.
      - apply (noDigitNext_fragment "_"); [reflexivity|exact Halpha']. }
    pose proof (no_alpha _ al' _ Halpha' Hclean Hrest) as ->.
    rewrite append_empty_r in Hrest. subst dotted'.
    rewrite (laxVersion_dottedB int _ "" Hdot2).
    now rewrite append_empty_r.
  - exfalso.
    destruct (digits_then_unique int' int (frac' ++ dot' ++ al')
                (dots (g1 :: g2 :: gs))) as [_ Hrest];
      [apply digitRun_allDigits, Hint'|exact Hdigits
      | |reflexivity|exact H0|].
    { apply noDigitNext_app;
        [apply (noDigitNext_fragment "."); [reflexivity|exact Hfrac']|].
      apply noDigitNext_app;
        [destruct Hdotc' as [->|[-> _]]; reflexivity|].
      apply (noDigitNext_fragment "_"); [reflexivity|exact Halpha']. }
    rewrite <- append_assoc in Hrest.
    pose proof (no_alpha _ al' _ Halpha' Hclean Hrest) as ->.
    rewrite append_empty_r in Hrest.
    destruct (digitRun_inv g1 Hg1) as (c & cs & Hg1_eq & _).
    destruct Hdotc' as [->|[-> ->]].
    + rewrite append_empty_r in Hrest.
      destruct (fragment_inv "." frac' Hfrac') as [->|(d & ds & -> & Hds)];
        [discriminate Hrest|].
      cbn [dots String.append] in Hrest. injection Hrest as Hrest.
      rewrite <- (append_empty_r (String d ds)) in Hrest.
      apply digits_then_unique in Hrest;
        [destruct Hrest as [_ Habs]; discriminate Habs
        |exact Hds|apply digitRun_allDigits, Hg1|exact I|reflexivity].
    + subst g1. discriminate Hrest.
  - exfalso. destruct (fragment_lead "." frac' Hfrac' Hne') as (fd' & ->).
    pose proof (fragment_digits "." _ Hfrac') as Hfd'.
    cbn [digitsOf Strings.drop] in Hfd'.
    destruct Hint as [->|Hint].
    + cbn [String.append dots] in H0. injection H0 as H0.
      apply digits_then_unique in H0;
        [|exact Hfd'|apply digitRun_allDigits, Hg1
         |apply (noDigitNext_fragment "_"); [reflexivity|exact Halpha']
         |reflexivity].
      destruct H0 as [_ Habs]. subst al'. discriminate Halpha'.
    + destruct (digitRun_inv int Hint) as (b & ds & -> & Hb & _).
      cbn [String.append] in H0. injection H0 as <- _. discriminate Hb.
Qed.

(** the strict pattern does not match the whole of such a text *)
Lemma strict_not_whole_dotted (int : string) (groups : list string)
    (strictMatch : list string) :
  strictSubmatches strictMatch ->
  int = "" \/ digitRun int = true -> 2 <= List.length groups ->
  Forall (fun g => digitRun g = true) groups ->
  at_ strictMatch 0 <> (int ++ dots groups)%string.
Proof.
  intros Hshape Hint Hcount Hall H0.
  pose proof (digits_or_none int Hint) as Hdigits.
  destruct groups as [|g1 [|g2 gs]]; try (cbn in Hcount; lia).
  pose proof (Forall_inv Hall) as Hg1.
  destruct Hshape as [int' frac' Hint' Hfrac' Hstrict'
                     | int' dotted' Hint' Hdot' Hstrict' Hbound'];
    cbn [at_ nth] in H0.
  - destruct (digits_then_unique int' int frac' (dots (g1 :: g2 :: gs)))
      as [_ Hrest];
      [apply digitRun_allDigits, Hint'|exact Hdigits
      |apply (noDigitNext_fragment "."); [reflexivity|exact Hfrac']
      |reflexivity|exact H0|].
    destruct (fragment_inv "." frac' Hfrac') as [->|(d & ds & -> & Hds)];
      [discriminate Hrest|].
    cbn [dots String.append] in Hrest. injection Hrest as Hrest.
    rewrite <- (append_empty_r (String d ds)) in Hrest.
    apply digits_then_unique in Hrest;
      [destruct Hrest as [_ Habs]; discriminate Habs
      |exact Hds|apply digitRun_allDigits, Hg1|exact I|reflexivity].
  - destruct Hint as [->|Hint]; [discriminate H0|].
    destruct (digitRun_inv int Hint) as (b & ds & -> & Hb & _).
    symmetry in H0. exact (digit_not_v b _ _ Hb H0).
Qed.

End LaxForms.

(** X18 (Parse, strictDecimalForm.toPerlVersion, laxDecimal.toPerlVersionA).
    On a decimal version, an integer of at most 18 digits and possibly a
    fraction, Parse returns the Version that keeps the input, is neither
    alpha nor qv, and has as components the integer and the fraction digits
    in groups of three, the last one padded with zeros on the right; this
    is so whether the strict reconstruction is taken or, when the integer
    has a leading zero, the lax one. *)
Theorem Parse_decimal (int frac : string)
    (Hint : digitRun int = true) (Hfit : String.length int <= 18)
    (Hfrac : fragment "." frac = true) :
  Parse (int ++ frac)
  = Ok {| original := int ++ frac; alpha := false; qv := false;
          version := decimalValue int :: fractionGrouping (digitsOf frac) |}.
Proof.
  destruct (strictInt int) eqn:Hstrict.
  - rewrite (Parse_strict_decimal_text int frac Hstrict Hfrac).
    rewrite strictDecimal_eval by exact Hfrac.
    cbn [StrictDecimalForm.integerPart StrictDecimalForm.fractionPart].
    rewrite (mustParseInt64_fits int Hint Hfit). reflexivity.
  - destruct (lax_run_decimal int frac "" Hint Hfrac eq_refl) as (cap & Hacc).
    rewrite append_empty_r in Hacc.
    destruct (lax_whole_match _ cap Hacc) as (lm & Hfind & H0 & Hshape).
    assert (Hval : laxVersion lm
                   = Ok {| original := int ++ frac; alpha := false;
                           qv := false;
                           version := decimalValue int
                                      :: fractionGrouping (digitsOf frac) |}).
    { rewrite (lax_plain_submatches int frac lm Hshape H0 Hint Hfrac).
      rewrite laxDecimal_A_eval;
        cbn [LaxDecimal.fraction LaxDecimal.alpha LaxDecimal.integer];
        [|exact Hfrac|reflexivity| |intros [H _]; apply H; reflexivity].
      - rewrite (mustParseInt64_fits int Hint Hfit). cbn [bind nonEmpty].
        rewrite endsWithDot_digit.
        + cbn [andb digitsOf Strings.drop]. rewrite app_nil_r.
          now rewrite append_empty_r.
        + apply endsInDigit_opt; [apply endsInDigit_digitRun, Hint|].
          eapply endsInDigit_fragment; eassumption.
      - destruct (digitRun_inv int Hint) as (b & ds & -> & _). discriminate. }
    rewrite (Parse_lax_whole _ lm Hfind H0); [exact Hval| |].
    + intros sm Hs H0'. apply strict_submatches in Hs.
      destruct Hs as [int' frac' Hint' Hfrac' Hstrict'
                     | int' dotted' Hint' Hdot' Hstrict' Hbound'];
        cbn [at_ nth] in H0'.
      * destruct (digits_then_unique int' int frac' frac) as [-> _];
          [apply digitRun_allDigits, Hint'|apply digitRun_allDigits, Hint
          |apply (noDigitNext_fragment "."); [reflexivity|exact Hfrac']
          |apply (noDigitNext_fragment "."); [reflexivity|exact Hfrac]
          |exact H0'|].
        congruence.
      * destruct (digitRun_inv int Hint) as (b & ds & -> & Hb & _).
        symmetry in H0'. exact (digit_not_v b _ _ Hb H0').
    + intros e He. rewrite Hval in He. discriminate He.
Qed.

Lemma Parse_decimal_witness :
  Parse "05.036001"
  = Ok {| original := "05.036001"; alpha := false; qv := false;
          version := [5; 36; 1]%Z |}.
Proof.
  apply (Parse_decimal "05" ".036001"); [reflexivity|cbn; lia|reflexivity].
Defined.

(** X25 (Parse, laxDecimal.toPerlVersionA).  On digits followed by a dot and
    nothing more Parse returns, when the integer is at most 2^63-1, a
    Version that is neither alpha nor qv and has two components, the integer
    and one implied zero; when the integer is larger Parse panics. *)
Theorem Parse_trailing_dot (int : string) (Hint : digitRun int = true) :
  Parse (int ++ ".")
  = if fitsInt64 int
    then Ok {| original := int ++ "."; alpha := false; qv := false;
               version := [decimalValue int; 0%Z] |}
    else Panic.
Proof.
  destruct (lax_run_trailing_dot int Hint) as (cap & Hacc).
  destruct (lax_whole_match _ cap Hacc) as (lm & Hfind & H0 & Hshape).
  assert (Hs : Regexp.FindStringSubmatch strictRegexp (int ++ ".") = None).
  { destruct (Regexp.FindStringSubmatch strictRegexp (int ++ "."))
      as [sm|] eqn:Es; [|reflexivity].
    apply strict_match_ending in Es. unfold endsInDigit in Es.
    rewrite lastByte_app in Es by discriminate. discriminate Es. }
  unfold Parse. rewrite Hfind, Hs.
  rewrite (lax_trailing_dot_submatches int lm Hshape H0 Hint).
  rewrite laxDecimal_A_eval;
    cbn [LaxDecimal.fraction LaxDecimal.alpha LaxDecimal.integer];
    [|reflexivity|reflexivity| |intros [H _]; apply H; reflexivity].
  - rewrite (mustParseInt64_run int Hint).
    destruct (fitsInt64 int); [|reflexivity]. cbn [bind nonEmpty].
    unfold endsWithDot. rewrite lastByte_app by discriminate. reflexivity.
  - destruct (digitRun_inv int Hint) as (b & ds & -> & _). discriminate.
Qed.

Lemma Parse_trailing_dot_witness :
  Parse "7."
  = Ok {| original := "7."; alpha := false; qv := false;
          version := [7; 0]%Z |}.
Proof. exact (Parse_trailing_dot "7" eq_refl). Defined.

(** X26 (Parse, laxDecimal.toPerlVersionB).  On a fraction without an
    integer, with or without an alpha suffix, Parse returns an implied zero
    followed by the digits of the fraction and of the suffix in groups of
    three; it neither panics nor fails, however long the input. *)
Theorem Parse_leading_dot (frac suffix : string)
    (Hne : frac <> "") (Hfrac : fragment "." frac = true)
    (Hsuffix : fragment "_" suffix = true) :
  Parse (frac ++ suffix)
  = Ok {| original := frac ++ suffix; alpha := nonEmpty suffix; qv := false;
          version := 0%Z
                     :: fractionGrouping (digitsOf frac ++ digitsOf suffix) |}.
Proof.
  destruct (lax_run_leading_dot frac suffix Hne Hfrac Hsuffix)
    as (cap & Hacc).
  destruct (lax_whole_match _ cap Hacc) as (lm & Hfind & H0 & Hshape).
  assert (Hval : laxVersion lm
                 = Ok {| original := frac ++ suffix;
                         alpha := nonEmpty suffix; qv := false;
                         version := 0%Z
                                    :: fractionGrouping
                                         (digitsOf frac ++ digitsOf suffix) |}).
  { rewrite (lax_leading_dot_submatches frac suffix lm Hshape H0 Hne Hfrac
               Hsuffix).
    now rewrite laxDecimal_B_eval by assumption. }
  rewrite (Parse_lax_whole _ lm Hfind H0); [exact Hval| |].
  - intros sm Hs H0'. apply strict_submatches in Hs.
    destruct (fragment_lead "." frac Hfrac Hne) as (fd & ->).
    destruct Hs as [int' frac' Hint' Hfrac' Hstrict'
                   | int' dotted' Hint' Hdot' Hstrict' Hbound'];
      cbn [at_ nth] in H0'; [|discriminate H0'].
    destruct (digitRun_inv int' Hint') as (b & ds & -> & Hb & _).
    cbn [String.append] in H0'. injection H0' as -> _. discriminate Hb.
  - intros e He. rewrite Hval in He. discriminate He.
Qed.

Lemma Parse_leading_dot_witness :
  Parse ".5"
  = Ok {| original := ".5"; alpha := false; qv := false;
          version := [0; 500]%Z |}.
Proof.
  apply (Parse_leading_dot ".5" ""); [discriminate|reflexivity|reflexivity].
Defined.

(** X27 (Parse, laxDotted.toPerlVersionB).  On two or more dotted groups
    without a "v", behind an integer or none, Parse takes the lax
    reconstruction.  When the integer and the groups are at most 2^63-1 the
    components are the integer, zero when there is none, and the groups, one
    for one, and the Version is a qv version exactly when the groups are
    two; when one of them is larger Parse panics. *)
Theorem Parse_lax_dotted (int : string) (groups : list string)
    (Hint : int = "" \/ digitRun int = true)
    (Hgroups : Forall (fun g => digitRun g = true) groups)
    (Hcount : 2 <= List.length groups) :
  Parse (int ++ dots groups)
  = if fitsInt64 int && forallb fitsInt64 groups
    then Ok {| original := int ++ dots groups; alpha := false;
               qv := (List.length groups =? 2)%nat;
               version := decimalValue int :: map decimalValue groups |}
    else Panic.
Proof.
  destruct (lax_run_dotted int groups Hint Hcount Hgroups) as (cap & Hacc).
  destruct (lax_whole_match _ cap Hacc) as (lm & Hfind & H0 & Hshape).
  assert (Hval : laxVersion lm
                 = if fitsInt64 int && forallb fitsInt64 groups
                   then Ok {| original := int ++ dots groups; alpha := false;
                              qv := (List.length groups =? 2)%nat;
                              version := decimalValue int
                                         :: map decimalValue groups |}
                   else Panic).
  { rewrite (lax_dotted_submatches int groups lm Hshape H0 Hint Hcount
               Hgroups).
    destruct groups as [|group groups]; [cbn in Hcount; lia|].
    rewrite (laxDotted_B_eval
               (LaxDotted.Build_laxDotted "" "" "" int
                  (dots (group :: groups)) "") _
               group groups (group ++ dots groups) eq_refl eq_refl Hgroups).
    rewrite (parseAll_runs _ Hgroups).
    destruct (forallb fitsInt64 (group :: groups));
      [|now rewrite andb_false_r].
    cbn [bind LaxDotted.secondInteger LaxDotted.secondAlpha].
    rewrite length_map, andb_true_r.
    destruct Hint as [->|Hint]; [reflexivity|].
    rewrite (digitRun_nonEmpty int Hint), (mustParseInt64_run int Hint).
    now destruct (fitsInt64 int). }
  rewrite (Parse_lax_whole _ lm Hfind H0); [exact Hval| |].
  - intros sm Hs. apply (strict_not_whole_dotted int groups sm);
      try assumption.
    apply (strict_submatches _ _ Hs).
  - intros e He. rewrite Hval in He.
    destruct (fitsInt64 int && forallb fitsInt64 groups); discriminate He.
Qed.

Lemma Parse_lax_dotted_witness :
  Parse "1.2.3.4"
  = Ok {| original := "1.2.3.4"; alpha := false; qv := false;
          version := [1; 2; 3; 4]%Z |}.
Proof.
  refine (Parse_lax_dotted "1" ["2"; "3"; "4"] (or_intror eq_refl) _ _);
    [repeat constructor|cbn; lia].
Defined.

(** ** Parse on dotted versions with an alpha suffix *)

Section DottedAlpha.
Import Regexp.

(** the parts of a text before and behind its one underscore *)
Lemma underscore_split (a a' b b' : string) :
  hasByte "_" a = false -> hasByte "_" a' = false ->
  (a ++ String "_" b)%string = (a' ++ String "_" b')%string ->
  a = a' /\ b = b'.
Proof.
  revert a'. induction a as [|c a IH]; intros [|c' a'];
    cbn [hasByte String.append]; intros Ha Ha' H.
  - injection H as ->. auto.
  - exfalso. injection H as <- _. discriminate Ha'.
  - exfalso. injection H as -> _. discriminate Ha.
  - injection H as -> H. apply orb_false_iff in Ha, Ha'.
    destruct (IH a' (proj2 Ha) (proj2 Ha') H) as [-> ->]. auto.
Qed.

(** the lax pattern has a run on "v", digits, dotted groups and an alpha
    suffix *)
Lemma lax_run_v_alpha (int : string) (groups : list string) (al : string) :
  digitRun int = true -> groups <> [] ->
  Forall (fun g => digitRun g = true) groups ->
  fragment "_" al = true ->
  exists cap,
    accepts Patterns.LaxVersionRegex 1 ("v" ++ int ++ dots groups ++ al)
      noCaptures "" cap.
Proof.
  intros Hint Hne Hall Hal.
  destruct (opt_fragment_built "_" 5 al ""
              (setCapture 4 (dots groups) (setCapture 3 int noCaptures)) Hal)
    as (cap2 & Ha).
  rewrite append_empty_r in Ha.
  unfold Patterns.LaxVersionRegex. cbn [Seq Alts accepts].
  eexists. exists "". eexists. split; [|repeat split]. right. left.
  unfold Patterns.laxDottedFormR. cbn [Seq Alts accepts].
  eexists. split; [|reflexivity]. left.
  exists (int ++ dots groups ++ al)%string. eexists.
  split; [split; reflexivity|].
  exists (dots groups ++ al)%string. eexists. split.
  - apply accepts_laxIntR_built, Hint.
  - apply accepts_Opt_some. cbn [Seq accepts].
    exists al. eexists. split; [|exact Ha].
    unfold Patterns.laxDottedPR, Patterns.laxDottedNcR, Plus.
    cbn [accepts]. exists (setCapture 3 int noCaptures).
    rewrite consumed_app. split; [|reflexivity].
    exists (List.length groups).
    split; [destruct groups; [contradiction|cbn; lia]|]. split; [exact I|].
    apply (laps_dotted_built 1 None).
    eapply Forall_impl; [|exact Hall]. cbn beta. intros g Hg.
    split; [apply digitRun_allDigits, Hg|]. split; [|exact I].
    destruct (digitRun_inv g Hg) as (b & ds & -> & _). cbn. lia.
Qed.

(** and on dotted groups, two or more, behind digits or none, and an alpha
    suffix *)
Lemma lax_run_dotted_alpha (int : string) (groups : list string)
    (al : string) :
  int = "" \/ digitRun int = true -> 2 <= List.length groups ->
  Forall (fun g => digitRun g = true) groups ->
  fragment "_" al = true ->
  exists cap,
    accepts Patterns.LaxVersionRegex 1 (int ++ dots groups ++ al)
      noCaptures "" cap.
Proof.
  intros Hint Hcount Hall Hal.
  assert (Hlead : exists cap',
             accepts (Opt Patterns.laxIntR) 6 (int ++ dots groups ++ al)
               noCaptures (dots groups ++ al) cap').
  { destruct Hint as [->|Hint].
    - eexists. apply accepts_Opt_none.
    - eexists. apply accepts_Opt_some, accepts_laxIntR_built, Hint. }
  destruct Hlead as (cap1 & Hlead).
  destruct (opt_fragment_built "_" 8 al ""
              (setCapture 7 (dots groups) cap1) Hal) as (cap2 & Ha).
  rewrite append_empty_r in Ha.
  unfold Patterns.LaxVersionRegex. cbn [Seq Alts accepts].
  eexists. exists "". eexists. split; [|repeat split]. right. left.
  unfold Patterns.laxDottedFormR. cbn [Seq Alts accepts].
  eexists. split; [|reflexivity]. right.
  exists (dots groups ++ al)%string. eexists. split; [exact Hlead|].
  exists al. eexists. split; [|exact Ha].
  unfold Patterns.laxDotted2PR, Patterns.laxDottedNcR, Plus.
  cbn [accepts]. exists cap1. rewrite consumed_app. split; [|reflexivity].
  exists (List.length groups). split; [exact Hcount|]. split; [exact I|].
  apply (laps_dotted_built 1 None).
  eapply Forall_impl; [|exact Hall]. cbn beta. intros g Hg.
  split; [apply digitRun_allDigits, Hg|]. split; [|exact I].
  destruct (digitRun_inv g Hg) as (b & ds & -> & _). cbn. lia.
Qed.

Lemma noDigitNext_dots_alpha (groups : list string) (al : string) :
  fragment "_" al = true -> noDigitNext (dots groups ++ al).
Proof.
  intros Hal. apply noDigitNext_app; [apply noDigitNext_dots|].
  apply (noDigitNext_fragment "_"); [reflexivity|exact Hal].
Qed.

(** dotted groups and an alpha suffix, read in two ways *)
Lemma dotted_alpha_unique (dotted' al' : string) (groups : list string)
    (al : string) :
  hasByte "_" dotted' = false -> fragment "_" al' = true ->
  Forall (fun g => digitRun g = true) groups ->
  fragment "_" al = true -> al <> "" ->
  (dotted' ++ al')%string = (dots groups ++ al)%string ->
  dotted' = dots groups /\ al' = al.
Proof.
  intros Hd Hal' Hall Hal Hne H.
  destruct (fragment_lead "_" al Hal Hne) as (ad & ->).
  assert (Hne' : al' <> "").
  { intros ->. apply (f_equal (hasByte "_")) in H.
    rewrite !hasByte_app, Hd, (hasByte_dots groups Hall) in H.
    discriminate H. }
  destruct (fragment_lead "_" al' Hal' Hne') as (ad' & ->).
  apply underscore_split in H; [|exact Hd|apply hasByte_dots, Hall].
  destruct H as [-> ->]. auto.
Qed.

(** a fraction, or a lone dot, is not two dotted groups *)
Lemma fraction_not_dotted (frac dot g1 g2 : string) (gs : list string) :
  fragment "." frac = true -> dot = "" \/ (dot = "." /\ frac = "") ->
  digitRun g1 = true ->
  (frac ++ dot)%string <> dots (g1 :: g2 :: gs).
Proof.
  intros Hfrac Hdot Hg1 H.
  destruct (digitRun_inv g1 Hg1) as (c & cs & Hg1_eq & _).
  destruct Hdot as [->|[-> ->]].
  - rewrite append_empty_r in H.
    destruct (fragment_inv "." frac Hfrac) as [->|(d & ds & -> & Hds)];
      [discriminate H|].
    cbn [dots String.append] in H. injection H as H.
    rewrite <- (append_empty_r (String d ds)) in H.
    apply digits_then_unique in H;
      [destruct H as [_ Habs]; discriminate Habs
      |exact Hds|apply digitRun_allDigits, Hg1|exact I|reflexivity].
  - subst g1. discriminate H.
Qed.

(** the submatches of a match that is "v", digits, dotted groups and an
    alpha suffix *)
Lemma lax_v_alpha_submatches (int : string) (groups : list string)
    (al : string) (laxMatch : list string) :
  laxSubmatches laxMatch ->
  at_ laxMatch 0 = ("v" ++ int ++ dots groups ++ al)%string ->
  digitRun int = true -> Forall (fun g => digitRun g = true) groups ->
  fragment "_" al = true -> al <> "" ->
  laxVersion laxMatch
  = LaxDotted.toPerlVersionA
      (LaxDotted.Build_laxDotted int (dots groups) al "" "" "")
      ("v" ++ int ++ dots groups ++ al).
Proof.
  intros Hshape H0 Hrun Hall Hal Hne.
  destruct Hshape as [ | int' dotted' al' Hint' Hdot' Halpha' Hempty'
                       | int' dotted' al' Hint' Hdot' Halpha'
                       | int' frac' dot' al' Hint' Hfrac' Hdotc' Halpha'
                       | frac' al' Hne' Hfrac' Halpha' ];
    cbn [at_ nth] in H0.
  - discriminate H0.
  - cbn [String.append] in H0. injection H0 as H0.
    destruct (digits_then_unique int' int (dotted' ++ al')
                (dots groups ++ al)) as [-> Hrest];
      [apply digitRun_allDigits, Hint'|apply digitRun_allDigits, Hrun
      | |apply noDigitNext_dots_alpha, Hal|exact H0|].
    { destruct Hdot' as (gs & -> & _).
      apply noDigitNext_dots_alpha, Halpha'. }
    destruct (dotted_alpha_unique dotted' al' groups al
                (hasByte_dotted 0 dotted' Hdot') Halpha' Hall Hal Hne Hrest)
      as [-> ->].
    apply (laxVersion_dottedA int (dots groups) al Hrun).
  - exfalso. destruct Hint' as [->|Hint'].
    + destruct Hdot' as ([|g gs] & -> & Hn & _); [cbn in Hn; lia|].
      discriminate H0.
    + destruct (digitRun_inv int' Hint') as (b & ds & -> & Hb & _).
      exact (digit_not_v b _ _ Hb H0).
  - exfalso. destruct (digitRun_inv int' Hint') as (b & ds & -> & Hb & _).
    exact (digit_not_v b _ _ Hb H0).
  - exfalso. destruct (fragment_lead "." frac' Hfrac' Hne') as (ds & ->).
    discriminate H0.
Qed.

(** the submatches of a match that is dotted groups, two or more, behind
    digits or none, and an alpha suffix *)
Lemma lax_dotted_alpha_submatches (int : string) (groups : list string)
    (al : string) (laxMatch : list string) :
  laxSubmatches laxMatch ->
  at_ laxMatch 0 = (int ++ dots groups ++ al)%string ->
  int = "" \/ digitRun int = true -> 2 <= List.length groups ->
  Forall (fun g => digitRun g = true) groups ->
  fragment "_" al = true -> al <> "" ->
  laxVersion laxMatch
  = LaxDotted.toPerlVersionB
      (LaxDotted.Build_laxDotted "" "" "" int (dots groups) al)
      (int ++ dots groups ++ al).
Proof.
  intros Hshape H0 Hint Hcount Hall Hal Hne.
  pose proof (digits_or_none int Hint) as Hdigits.
  assert (Hdot2 : dottedText 2 (dots groups))
    by (exists groups; auto).
  pose proof (noDigitNext_dots_alpha groups al Hal) as Hnext.
  destruct Hshape as [ | int' dotted' al' Hint' Hdot' Halpha' Hempty'
                       | int' dotted' al' Hint' Hdot' Halpha'
                       | int' frac' dot' al' Hint' Hfrac' Hdotc' Halpha'
                       | frac' al' Hne' Hfrac' Halpha' ];
    cbn [at_ nth] in H0.
  - exfalso. destruct groups as [|g1 gs]; [cbn in Hcount; lia|].
    destruct Hint as [->|Hint]; [discriminate H0|].
    destruct (digitRun_inv int Hint) as (b & ds & -> & Hb & _).
    cbn [String.append] in H0. injection H0 as <- _. discriminate Hb.
  - exfalso. destruct groups as [|g1 gs]; [cbn in Hcount; lia|].
    destruct Hint as [->|Hint]; [discriminate H0|].
    destruct (digitRun_inv int Hint) as (b & ds & -> & Hb & _).
    symmetry in H0. exact (digit_not_v b _ _ Hb H0).
  - destruct (digits_then_unique int' int (dotted' ++ al')
                (dots groups ++ al)) as [-> Hrest];
      [apply digits_or_none, Hint'|exact Hdigits
      | |exact Hnext|exact H0|].
    { destruct Hdot' as (gs' & -> & _).
      apply noDigitNext_dots_alpha, Halpha'. }
    destruct (dotted_alpha_unique dotted' al' groups al
                (hasByte_dotted 2 dotted' Hdot') Halpha' Hall Hal Hne Hrest)
      as [-> ->].
    apply (laxVersion_dottedB int (dots groups) al Hdot2).
  - exfalso.
    destruct (digits_then_unique int' int (frac' ++ dot' ++ al')
                (dots groups ++ al)) as [_ Hrest];
      [apply digitRun_allDigits, Hint'|exact Hdigits
      | |exact Hnext|exact H0|].
    { apply noDigitNext_app;
        [apply (noDigitNext_fragment "."); [reflexivity|exact Hfrac']|].
      apply noDigitNext_app;
        [destruct Hdotc' as [->|[-> _]]; reflexivity|].
      apply (noDigitNext_fragment "_"); [reflexivity|exact Halpha']. }
    rewrite <- append_assoc in Hrest.
    assert (Hclean : hasByte "_" (frac' ++ dot') = false).
    { rewrite hasByte_app, (hasByte_fraction frac' Hfrac').
      destruct Hdotc' as [->|[-> _]]; reflexivity. }
    destruct (dotted_alpha_unique _ al' groups al Hclean Halpha' Hall Hal
                Hne Hrest) as [Hd _].
    destruct groups as [|g1 [|g2 gs]]; try (cbn in Hcount; lia).
    exact (fraction_not_dotted frac' dot' g1 g2 gs Hfrac' Hdotc'
             (Forall_inv Hall) Hd).
  - exfalso. destruct (fragment_lead "." frac' Hfrac' Hne') as (fd' & ->).
    pose proof (fragment_digits "." _ Hfrac') as Hfd'.
    cbn [digitsOf Strings.drop] in Hfd'.
    destruct groups as [|g1 [|g2 gs]]; try (cbn in Hcount; lia).
    destruct Hint as [->|Hint].
    + cbn [String.append dots] in H0. injection H0 as H0.
      rewrite !append_assoc in H0. cbn [String.append] in H0.
      apply digits_then_unique in H0;
        [|exact Hfd'|apply digitRun_allDigits, (Forall_inv Hall)
         |apply (noDigitNext_fragment "_"); [reflexivity|exact Halpha']
         |reflexivity].
      destruct H0 as [_ Habs]. subst al'. discriminate Halpha'.
    + destruct (digitRun_inv int Hint) as (b & ds & -> & Hb & _).
      cbn [String.append] in H0. injection H0 as <- _. discriminate Hb.
Qed.

(** the strict pattern matches no text with an underscore as a whole *)
Lemma strict_not_whole_alpha (before al : string)
    (strictMatch : list string) :
  strictSubmatches strictMatch -> fragment "_" al = true -> al <> "" ->
  at_ strictMatch 0 <> (before ++ al)%string.
Proof.
  intros Hshape Hal Hne H0.
  pose proof (strictSubmatches_no_underscore strictMatch Hshape) as Hu.
  rewrite H0, hasByte_app, (hasByte_alpha al Hal), (nonEmpty_true al Hne),
    orb_true_r in Hu.
  discriminate Hu.
Qed.

End DottedAlpha.

(** X28 (Parse, laxDotted.toPerlVersionA, dottedToMinors).  On "v", digits,
    one or more dotted groups and an alpha suffix, Parse takes the lax
    reconstruction: the digits of the suffix are appended to the last group
    before the groups are converted.  When the integer and the groups so
    changed are at most 2^63-1, the converted groups are copied into
    max(3, n) - 1 places behind the integer, n the number of groups: zeros
    fill the places left, and with three groups or more the last group,
    suffix included, has no place.  When one of them is larger Parse
    panics. *)
Theorem Parse_v_alpha (int : string) (groups : list string)
    (suffix : string)
    (Hint : digitRun int = true)
    (Hne : groups <> [])
    (Hgroups : Forall (fun g => digitRun g = true) groups)
    (Hsuffix : fragment "_" suffix = true) (Hsne : suffix <> "") :
  Parse ("v" ++ int ++ dots groups ++ suffix)
  = if fitsInt64 int
       && forallb fitsInt64 (appendToLast groups (digitsOf suffix))
    then Ok {| original := "v" ++ int ++ dots groups ++ suffix;
               alpha := true; qv := true;
               version :=
                 decimalValue int
                 :: copy (make (Nat.max 3 (List.length groups) - 1))
                      (map decimalValue
                         (appendToLast groups (digitsOf suffix))) |}
    else Panic.
Proof.
  destruct (lax_run_v_alpha int groups suffix Hint Hne Hgroups Hsuffix)
    as (cap & Hacc).
  destruct (lax_whole_match _ cap Hacc) as (lm & Hfind & H0 & Hshape).
  pose proof (appendToLast_digitRun groups (digitsOf suffix) Hgroups
                (fragment_digits "_" suffix Hsuffix)) as Hruns.
  assert (Hval : laxVersion lm
                 = if fitsInt64 int
                      && forallb fitsInt64
                           (appendToLast groups (digitsOf suffix))
                   then Ok {| original := "v" ++ int ++ dots groups ++ suffix;
                              alpha := true; qv := true;
                              version :=
                                decimalValue int
                                :: copy
                                     (make
                                        (Nat.max 3 (List.length groups) - 1))
                                     (map decimalValue
                                        (appendToLast groups
                                           (digitsOf suffix))) |}
                   else Panic).
  { rewrite (lax_v_alpha_submatches int groups suffix lm Hshape H0 Hint
               Hgroups Hsuffix Hsne).
    rewrite (laxDotted_A_eval
               (LaxDotted.Build_laxDotted int (dots groups) suffix "" "" "")
               _ (appendToLast groups (digitsOf suffix))).
    - rewrite (parseAll_runs _ Hruns).
      destruct (forallb fitsInt64 (appendToLast groups (digitsOf suffix)));
        [|now rewrite andb_false_r].
      cbn [bind LaxDotted.integer LaxDotted.alpha].
      rewrite (mustParseInt64_run int Hint), andb_true_r.
      destruct (fitsInt64 int); [|reflexivity]. cbn [bind].
      rewrite (nonEmpty_true suffix Hsne).
      now rewrite length_map, appendToLast_length.
    - cbn [LaxDotted.alpha LaxDotted.dottedGroup].
      rewrite (nonEmpty_true suffix Hsne).
      rewrite (TrimPrefix_fragment "_" suffix Hsuffix).
      apply dots_appendToLast, Hne.
    - exact Hruns. }
  rewrite (Parse_lax_whole _ lm Hfind H0); [exact Hval| |].
  - intros sm Hs. apply strict_submatches in Hs.
    replace ("v" ++ int ++ dots groups ++ suffix)%string
      with (("v" ++ int ++ dots groups) ++ suffix)%string
      by (cbn [String.append]; now rewrite append_assoc).
    apply strict_not_whole_alpha; assumption.
  - intros e He. rewrite Hval in He.
    destruct (fitsInt64 int && _); discriminate He.
Qed.

Lemma Parse_v_alpha_witness :
  Parse "v1.2_3"
  = Ok {| original := "v1.2_3"; alpha := true; qv := true;
          version := [1; 23; 0]%Z |}.
Proof.
  refine (Parse_v_alpha "1" ["2"] "_3" eq_refl _ _ eq_refl _);
    [discriminate|repeat constructor|discriminate].
Defined.

(** X29 (Parse, laxDotted.toPerlVersionB, dottedToMinors).  On two or more
    dotted groups without a "v", behind an integer or none, and an alpha
    suffix, Parse takes the lax reconstruction: the digits of the suffix
    are appended to the last group.  When the integer and the groups so
    changed are at most 2^63-1, the components are the integer, zero when
    there is none, and the groups so changed, and the Version is an alpha
    version, and a qv version exactly when there are two groups.  When one
    of them is larger Parse panics. *)
Theorem Parse_lax_dotted_alpha (int : string) (groups : list string)
    (suffix : string)
    (Hint : int = "" \/ digitRun int = true)
    (Hcount : 2 <= List.length groups)
    (Hgroups : Forall (fun g => digitRun g = true) groups)
    (Hsuffix : fragment "_" suffix = true) (Hsne : suffix <> "") :
  Parse (int ++ dots groups ++ suffix)
  = if fitsInt64 int
       && forallb fitsInt64 (appendToLast groups (digitsOf suffix))
    then Ok {| original := int ++ dots groups ++ suffix; alpha := true;
               qv := (List.length groups =? 2)%nat;
               version :=
                 decimalValue int
                 :: map decimalValue
                      (appendToLast groups (digitsOf suffix)) |}
    else Panic.
Proof.
  destruct (lax_run_dotted_alpha int groups suffix Hint Hcount Hgroups
              Hsuffix) as (cap & Hacc).
  destruct (lax_whole_match _ cap Hacc) as (lm & Hfind & H0 & Hshape).
  pose proof (appendToLast_digitRun groups (digitsOf suffix) Hgroups
                (fragment_digits "_" suffix Hsuffix)) as Hruns.
  assert (Hne : groups <> [])
    by (destruct groups; [cbn in Hcount; lia|discriminate]).
  assert (Hval : laxVersion lm
                 = if fitsInt64 int
                      && forallb fitsInt64
                           (appendToLast groups (digitsOf suffix))
                   then Ok {| original := int ++ dots groups ++ suffix;
                              alpha := true;
                              qv := (List.length groups =? 2)%nat;
                              version :=
                                decimalValue int
                                :: map decimalValue
                                     (appendToLast groups
                                        (digitsOf suffix)) |}
                   else Panic).
  { rewrite (lax_dotted_alpha_submatches int groups suffix lm Hshape H0 Hint
               Hcount Hgroups Hsuffix Hsne).
    pose proof (appendToLast_length groups (digitsOf suffix)) as Hlen.
    pose proof (dots_appendToLast groups (digitsOf suffix) Hne) as Hdots.
    destruct (appendToLast groups (digitsOf suffix)) as [|group' groups']
      eqn:Egroups; [destruct groups; [contradiction|discriminate Hlen]|].
    destruct groups as [|group groups]; [contradiction|].
    rewrite (laxDotted_B_eval
               (LaxDotted.Build_laxDotted "" "" "" int
                  (dots (group :: groups)) suffix) _
               group' groups' (group ++ dots groups) eq_refl).
    - rewrite (parseAll_runs _ Hruns).
      destruct (forallb fitsInt64 (group' :: groups'));
        [|now rewrite andb_false_r].
      cbn [bind LaxDotted.secondInteger LaxDotted.secondAlpha].
      rewrite (nonEmpty_true suffix Hsne), length_map, Hlen, andb_true_r.
      destruct Hint as [->|Hint]; [reflexivity|].
      rewrite (digitRun_nonEmpty int Hint), (mustParseInt64_run int Hint).
      now destruct (fitsInt64 int).
    - cbn [LaxDotted.secondAlpha LaxDotted.secondDottedGroup].
      rewrite (nonEmpty_true suffix Hsne).
      rewrite (TrimPrefix_fragment "_" suffix Hsuffix). exact Hdots.
    - exact Hruns. }
  rewrite (Parse_lax_whole _ lm Hfind H0); [exact Hval| |].
  - intros sm Hs. apply strict_submatches in Hs.
    rewrite <- append_assoc. apply strict_not_whole_alpha; assumption.
  - intros e He. rewrite Hval in He.
    destruct (fitsInt64 int && _); discriminate He.
Qed.

Lemma Parse_lax_dotted_alpha_witness :
  Parse "1.2.3_4"
  = Ok {| original := "1.2.3_4"; alpha := true; qv := true;
          version := [1; 2; 34]%Z |}.
Proof.
  refine (Parse_lax_dotted_alpha "1" ["2"; "3"] "_4" (or_intror eq_refl)
            _ _ eq_refl _);
    [cbn; lia|repeat constructor|discriminate].
Defined.

(** ** The record codec *)

Section Utf8Text.

Lemma take_drop (n : nat) (s : string) :
  (Strings.take n s ++ Strings.drop n s)%string = s.
Proof.
  revert s. induction n as [|n IH]; intros [|c s]; cbn; try reflexivity.
  now rewrite IH.
Qed.

Lemma take_app_length (p t : string) :
  Strings.take (String.length p) (p ++ t) = p.
Proof. induction p as [|c p IH]; cbn; [now destruct t|now rewrite IH]. Qed.

Lemma drop_app_length (p t : string) :
  Strings.drop (String.length p) (p ++ t) = t.
Proof. induction p as [|c p IH]; cbn; [reflexivity|exact IH]. Qed.

Lemma continuation_take (n : nat) (s t : string) :
  Utf8.continuation n s = true ->
  Utf8.continuation n (Strings.take n s ++ t) = true
  /\ String.length (Strings.take n s) = n.
Proof.
  revert s. induction n as [|n IH]; intros s; cbn; [auto|].
  destruct s as [|c s]; [discriminate|]. rewrite andb_true_iff.
  intros [Hc Hs]. destruct (IH s Hs) as [H1 H2].
  cbn. rewrite Hc, H1, H2. auto.
Qed.

(** the size of a rune is read off its own bytes *)
Lemma runeLen_take (s t : string) (n : nat) :
  Utf8.runeLen s = S n ->
  Utf8.runeLen (Strings.take (S n) s ++ t) = S n
  /\ String.length (Strings.take (S n) s) = S n.
Proof.
  destruct s as [|c0 rest]; [discriminate|]. unfold Utf8.runeLen.
  destruct (Utf8.byte c0 <? 128)%N eqn:E0.
  - intros H. injection H as <-. cbn. rewrite E0. auto.
  - destruct (Utf8.first c0) as [[[size lo] hi]|] eqn:Ef; [|discriminate].
    destruct rest as [|c1 rest']; [discriminate|].
    destruct (Utf8.inRange lo hi c1) eqn:E1; [|discriminate].
    destruct (Utf8.continuation (size - 2) rest') eqn:Ec; [|discriminate].
    cbn [andb]. intros H. subst size.
    assert (Hsize : n = S (S n - 2)).
    { unfold Utf8.first in Ef.
      repeat match type of Ef with
             | (if ?b then _ else _) = _ => destruct b
             end; try discriminate; injection Ef as <- _ _; reflexivity. }
    destruct (continuation_take (S n - 2) rest' t Ec) as [H1 H2].
    rewrite Hsize at 1 3. cbn [Strings.take String.append String.length].
    rewrite E0, Ef, E1, H1, H2. cbn [andb]. split; congruence.
Qed.

Lemma coerceLoop_valid (fuel : nat) (s : string) :
  Utf8.validFrom fuel s = true -> coerceLoop fuel s = s.
Proof.
  revert s. induction fuel as [|fuel IH]; intros [|c rest];
    cbn [Utf8.validFrom coerceLoop]; try reflexivity; try discriminate.
  destruct (Utf8.runeLen (String c rest)) as [|n] eqn:E; [discriminate|].
  intros H. rewrite (IH _ H). apply take_drop.
Qed.

Lemma coerceUTF8_valid (s : string) :
  Utf8.ValidString s = true -> coerceUTF8 s = s.
Proof. apply coerceLoop_valid. Qed.

End Utf8Text.

Section StringLiterals.
Import Json.

Lemma passes_app (p q : string) : passes p -> passes q -> passes (p ++ q).
Proof.
  intros Hp Hq t. rewrite append_assoc, Hp, Hq.
  destruct (scanString InString t) as [[literal rest]|]; cbn [prefixed];
    [|reflexivity].
  now rewrite append_assoc.
Qed.

Lemma passes_escapeByte (c : ascii) :
  (Utf8.byte c <? 128)%N = true -> passes (escapeByte c).
Proof.
  intros H t. destruct (scanString InString t) as [[literal rest]|] eqn:E;
    destruct c as [[] [] [] [] [] [] [] []]; try discriminate H;
    cbn; rewrite E; reflexivity.
Qed.

Lemma passes_escaped (a b c d : ascii) :
  hexVal a <> None -> hexVal b <> None -> hexVal c <> None ->
  hexVal d <> None ->
  passes (String backslash (String "u" (String a (String b (String c
            (String d "")))))).
Proof.
  intros Ha Hb Hc Hd t. cbn.
  destruct (hexVal a); [|contradiction]. destruct (hexVal b); [|contradiction].
  destruct (hexVal c); [|contradiction]. destruct (hexVal d); [|contradiction].
  destruct (scanString InString t) as [[literal rest]|]; reflexivity.
Qed.

Lemma high_byte (c : ascii) :
  (Utf8.byte c <? 128)%N = false ->
  Ascii.eqb c dquote = false /\ Ascii.eqb c backslash = false
  /\ (Utf8.byte c <? 32)%N = false.
Proof.
  intros H. apply N.ltb_ge in H. repeat split.
  - destruct (Ascii.eqb_spec c dquote) as [->|]; [|reflexivity].
    exfalso. cbn in H. lia.
  - destruct (Ascii.eqb_spec c backslash) as [->|]; [|reflexivity].
    exfalso. cbn in H. lia.
  - apply N.ltb_ge. lia.
Qed.

Lemma passes_high (p : string) : allHigh p = true -> passes p.
Proof.
  induction p as [|c p IH]; cbn [allHigh].
  - intros _ t. cbn. now destruct (scanString InString t) as [[? ?]|].
  - rewrite andb_true_iff, negb_true_iff. intros [Hc Hp] t.
    destruct (high_byte c Hc) as (H1 & H2 & H3).
    cbn [String.append scanString]. rewrite H1, H2, H3, (IH Hp t).
    now destruct (scanString InString t) as [[? ?]|].
Qed.

Lemma continuation_high (n : nat) (s : string) :
  Utf8.continuation n s = true -> allHigh (Strings.take n s) = true.
Proof.
  revert s. induction n as [|n IH]; intros [|c s]; cbn; try reflexivity;
    try discriminate.
  rewrite andb_true_iff. intros [Hc Hs]. rewrite (IH s Hs), andb_true_r.
  unfold Utf8.inRange in Hc. apply andb_true_iff in Hc as [Hc _].
  apply N.leb_le in Hc. apply negb_true_iff, N.ltb_ge. lia.
Qed.

(** the bytes of a rune of two bytes or more are all above 127 *)
Lemma rune_high (s : string) (n : nat) :
  Utf8.runeLen s = S n ->
  match s with
  | String c _ => (Utf8.byte c <? 128)%N = false
  | "" => False
  end ->
  allHigh (Strings.take (S n) s) = true.
Proof.
  destruct s as [|c0 rest]; [discriminate|]. unfold Utf8.runeLen.
  intros H E0. rewrite E0 in H.
  destruct (Utf8.first c0) as [[[size lo] hi]|] eqn:Ef; [|discriminate].
  destruct rest as [|c1 rest']; [discriminate|].
  destruct (Utf8.inRange lo hi c1) eqn:E1; [|discriminate].
  destruct (Utf8.continuation (size - 2) rest') eqn:Ec; [|discriminate].
  cbn [andb] in H. subst size.
  assert (Hlo : n = S (S n - 2) /\ (128 <= lo)%N).
  { unfold Utf8.first in Ef.
    repeat match type of Ef with
           | (if ?b then _ else _) = _ => destruct b
           end; try discriminate; injection Ef as <- <- _; split;
      try reflexivity; lia. }
  destruct Hlo as [Hn Hlo]. rewrite Hn at 1.
  cbn [Strings.take allHigh]. rewrite E0, (continuation_high _ _ Ec).
  unfold Utf8.inRange in E1. apply andb_true_iff in E1 as [E1 _].
  apply N.leb_le in E1.
  replace (Utf8.byte c1 <? 128)%N with false
    by (symmetry; apply N.ltb_ge; lia).
  reflexivity.
Qed.

(** what appendString writes between the quotes is scanned as one literal *)
Lemma scanString_appendLoop (fuel : nat) (s rest : string) :
  scanString InString (appendLoop fuel s ++ String dquote rest)
  = Some (appendLoop fuel s, rest).
Proof.
  assert (Hend : scanString InString (String dquote rest) = Some ("", rest))
    by reflexivity.
  revert s. induction fuel as [|fuel IH]; intros s; cbn [appendLoop];
    [exact Hend|].
  destruct s as [|c s']; [exact Hend|].
  assert (Hstep : forall p s'',
             passes p ->
             scanString InString ((p ++ appendLoop fuel s'')
                                  ++ String dquote rest)
             = Some ((p ++ appendLoop fuel s'')%string, rest)).
  { intros p s'' Hp. rewrite append_assoc, Hp, IH. reflexivity. }
  destruct (Utf8.byte c <? 128)%N eqn:E0.
  { apply Hstep, passes_escapeByte, E0. }
  destruct (Utf8.runeLen (String c s')) as [|n] eqn:En.
  { apply (Hstep (String backslash "ufffd")).
    apply passes_escaped; discriminate. }
  cbv zeta.
  destruct (String.eqb _ lineSeparator).
  { apply (Hstep (String backslash "u2028")).
    apply passes_escaped; discriminate. }
  destruct (String.eqb _ paragraphSeparator).
  { apply (Hstep (String backslash "u2029")).
    apply passes_escaped; discriminate. }
  apply Hstep, passes_high, rune_high; assumption.
Qed.

(** unquote reads back what appendString wrote for a byte, *)
Lemma unquote_escapeByte (c : ascii) (fuel : nat) (t : string) :
  (Utf8.byte c <? 128)%N = true ->
  unquoteLoop (S fuel) (escapeByte c ++ t) = String c (unquoteLoop fuel t).
Proof.
  intros H. destruct c as [[] [] [] [] [] [] [] []]; try discriminate H;
    reflexivity.
Qed.

(** for a byte that is no encoding and for the two separators, *)
Lemma unquote_escaped (a b c d : ascii) (r : N) (fuel : nat) (t : string) :
  getu4 (String a (String b (String c (String d "")))) = Some r ->
  ((55296 <=? r) && (r <=? 57343))%N = false ->
  unquoteLoop (S fuel)
    (String backslash (String "u" (String a (String b (String c
       (String d t))))))
  = (Utf8.EncodeRune r ++ unquoteLoop fuel t)%string.
Proof.
  intros Hr Hs. cbn [unquoteLoop].
  replace (Ascii.eqb backslash backslash) with true by reflexivity.
  replace (Ascii.eqb "u" "u") with true by reflexivity.
  unfold unquoteU.
  replace (getu4 (String a (String b (String c (String d t)))))
    with (Some r) by (rewrite <- Hr; reflexivity).
  rewrite Hs. reflexivity.
Qed.

Lemma unquoteLoop_plain (fuel : nat) (c : ascii) (rest : string) :
  Ascii.eqb c backslash = false ->
  unquoteLoop (S fuel) (String c rest)
  = match Utf8.runeLen (String c rest) with
    | O => (Utf8.replacement ++ unquoteLoop fuel rest)%string
    | S n =>
        (Strings.take (S n) (String c rest)
         ++ unquoteLoop fuel (Strings.drop (S n) (String c rest)))%string
    end.
Proof. intros H. cbn [unquoteLoop]. rewrite H. reflexivity. Qed.

(** and for a rune that it copied *)
Lemma unquote_rune (s t : string) (n fuel : nat) :
  Utf8.runeLen s = S n ->
  match s with
  | String c _ => (Utf8.byte c <? 128)%N = false
  | "" => False
  end ->
  unquoteLoop (S fuel) (Strings.take (S n) s ++ t)
  = (Strings.take (S n) s ++ unquoteLoop fuel t)%string.
Proof.
  intros Hn Hc. destruct (runeLen_take s t n Hn) as [Hlen Hsize].
  destruct s as [|c rest]; [contradiction|].
  destruct (high_byte c Hc) as (_ & Hb & _).
  change (Strings.take (S n) (String c rest) ++ t)%string
    with (String c (Strings.take n rest ++ t)) in Hlen |- * at 1.
  rewrite (unquoteLoop_plain fuel c _ Hb), Hlen.
  change (String c (Strings.take n rest ++ t))
    with (Strings.take (S n) (String c rest) ++ t)%string.
  set (p := Strings.take (S n) (String c rest)) in *.
  rewrite <- Hsize. now rewrite take_app_length, drop_app_length.
Qed.

Lemma append_longer (p q : string) (fuel : nat) :
  String.length (p ++ q) <= fuel -> p <> "" ->
  exists fuel', fuel = S fuel' /\ String.length q <= fuel'.
Proof.
  rewrite append_length. intros Hlen Hp.
  destruct p as [|c p]; [contradiction|]. cbn [String.length] in Hlen.
  destruct fuel as [|fuel']; [lia|]. exists fuel'. split; [reflexivity|lia].
Qed.

Lemma escapeByte_nonempty (c : ascii) : escapeByte c <> "".
Proof.
  unfold escapeByte.
  repeat match goal with
         | |- (if ?b then _ else _) <> _ => destruct b
         end; discriminate.
Qed.

(** the literal that appendString writes reads back as the text, coerced to
    valid UTF-8 *)
Lemma unquoteLoop_appendLoop (fuel : nat) (s : string) (fuel' : nat) :
  String.length (appendLoop fuel s) <= fuel' ->
  unquoteLoop fuel' (appendLoop fuel s) = coerceLoop fuel s.
Proof.
  assert (Hnil : forall k, unquoteLoop k "" = "") by (intros [|k]; reflexivity).
  revert s fuel'. induction fuel as [|fuel IH]; intros s fuel';
    cbn [appendLoop coerceLoop]; [intros _; apply Hnil|].
  destruct s as [|c s']; [intros _; apply Hnil|].
  destruct (Utf8.byte c <? 128)%N eqn:E0.
  { intros Hlen.
    destruct (append_longer _ _ _ Hlen (escapeByte_nonempty c))
      as (k & -> & Hk).
    rewrite (unquote_escapeByte c k _ E0), (IH s' k Hk).
    unfold Utf8.runeLen. rewrite E0. reflexivity. }
  destruct (Utf8.runeLen (String c s')) as [|n] eqn:En.
  { intros Hlen.
    destruct (append_longer _ _ _ Hlen ltac:(discriminate)) as (k & -> & Hk).
    cbn [String.append].
    rewrite (unquote_escaped "f" "f" "f" "d" 65533%N k _ eq_refl eq_refl).
    now rewrite (IH s' k Hk). }
  cbv zeta.
  destruct (String.eqb_spec (Strings.take (S n) (String c s')) lineSeparator)
    as [Hl|_].
  { intros Hlen.
    destruct (append_longer _ _ _ Hlen ltac:(discriminate)) as (k & -> & Hk).
    cbn [String.append].
    rewrite (unquote_escaped "2" "0" "2" "8" 8232%N k _ eq_refl eq_refl).
    rewrite (IH _ k Hk), Hl. reflexivity. }
  destruct (String.eqb_spec (Strings.take (S n) (String c s'))
              paragraphSeparator) as [Hp|_].
  { intros Hlen.
    destruct (append_longer _ _ _ Hlen ltac:(discriminate)) as (k & -> & Hk).
    cbn [String.append].
    rewrite (unquote_escaped "2" "0" "2" "9" 8233%N k _ eq_refl eq_refl).
    rewrite (IH _ k Hk), Hp. reflexivity. }
  intros Hlen.
  destruct (append_longer _ _ _ Hlen ltac:(discriminate)) as (k & -> & Hk).
  rewrite (unquote_rune (String c s') _ n k En E0), (IH _ k Hk).
  reflexivity.
Qed.

Lemma unquote_appendLoop (s : string) :
  unquote (appendLoop (String.length s) s) = coerceUTF8 s.
Proof. apply unquoteLoop_appendLoop. apply Nat.le_refl. Qed.

End StringLiterals.

Section Numbers64.
Import Json.

Lemma digitsOf_closed (ds rest : string) :
  Strconv.allDigits ds = true -> closes rest ->
  Json.spanDigits (ds ++ rest) = (ds, rest).
Proof.
  intros Hds (rest' & Hrest). induction ds as [|c ds IH].
  - destruct Hrest as [->| ->]; reflexivity.
  - cbn [Strconv.allDigits] in Hds. apply andb_true_iff in Hds as [Hc Hds].
    cbn [String.append Json.spanDigits]. rewrite Hc, (IH Hds). reflexivity.
Qed.

Lemma strictInt_inv (s : string) :
  strictInt s = true ->
  s = "0"
  \/ exists b ds,
       s = String b ds /\ Strconv.isDigit b = true
       /\ Ascii.eqb b "0" = false /\ Strconv.allDigits ds = true.
Proof.
  destruct s as [|b ds]; [discriminate|]. cbn [strictInt].
  rewrite orb_true_iff, !andb_true_iff, negb_true_iff.
  intros [H|[[Hb Hz] Hds]].
  - left. apply String.eqb_eq, H.
  - right. exists b, ds. auto.
Qed.

(** the scanner takes a printed integer as one number *)
Lemma scanNumber_strictInt (s rest : string) :
  strictInt s = true -> closes rest ->
  scanNumber (s ++ rest) = Some (s, rest)
  /\ scanNumber (String "-" (s ++ rest)) = Some (String "-" s, rest).
Proof.
  intros Hs Hrest. destruct (strictInt_inv s Hs) as [->|(b & ds & -> & Hb & Hz & Hds)].
  - destruct Hrest as (rest' & [->| ->]); split; reflexivity.
  - pose proof (digitsOf_closed ds rest Hds Hrest) as Hd.
    destruct Hrest as (rest' & Hrest).
    destruct b as [[] [] [] [] [] [] [] []]; try discriminate Hb;
      try discriminate Hz;
      unfold scanNumber; cbn [String.append Json.spanDigits];
      rewrite Hb, Hd; destruct Hrest as [->| ->]; split; cbv iota beta zeta;
      cbn [Ascii.eqb Bool.eqb orb String.append]; rewrite ?append_empty_r;
      reflexivity.
Qed.

Lemma appendInt_neg (p : positive) :
  appendInt (Z.neg p) = String "-" (formatInt (Z.pos p)).
Proof. reflexivity. Qed.

Lemma appendInt_nonneg (n : Z) : (0 <= n)%Z -> appendInt n = formatInt n.
Proof. reflexivity. Qed.

Lemma scanNumber_appendInt (n : Z) (rest : string) :
  closes rest -> scanNumber (appendInt n ++ rest) = Some (appendInt n, rest).
Proof.
  intros Hrest. destruct n as [|p|p].
  - apply (scanNumber_strictInt "0" rest eq_refl Hrest).
  - apply (scanNumber_strictInt _ rest
             (formatInt_strictInt (Z.pos p) ltac:(lia)) Hrest).
  - rewrite appendInt_neg.
    apply (scanNumber_strictInt _ rest
             (formatInt_strictInt (Z.pos p) ltac:(lia)) Hrest).
Qed.

Lemma digitsValue_formatInt (n : Z) :
  (0 <= n)%Z -> Strconv.digitsValue 0 (formatInt n) = Some n.
Proof.
  intros Hn. pose proof (formatInt_value n Hn) as Hv.
  pose proof (formatInt_strictInt n Hn) as Hs.
  apply strictInt_digitRun, digitRun_allDigits in Hs.
  destruct (digitsValue_digits _ Hs) as [_ Hacc].
  unfold decimalValue in Hv. rewrite (Hacc 0%Z) in Hv |- *.
  now rewrite Hv.
Qed.

(** strconv.ParseInt reads a printed int64 back as its value *)
Lemma Atoi_appendInt (n : Z) :
  int64 n -> Strconv.Atoi (appendInt n) = Some n.
Proof.
  unfold int64. intros Hn.
  assert (Hrange : ((Strconv.minInt <=? n) && (n <=? Strconv.maxInt))%Z = true).
  { apply andb_true_iff. split; apply Z.leb_le; lia. }
  destruct n as [|p|p]; [reflexivity| |].
  - pose proof (formatInt_strictInt (Z.pos p) ltac:(lia)) as Hs.
    destruct (digitRun_inv _ (strictInt_digitRun _ Hs))
      as (b & ds & E & Hb & Hds).
    change (appendInt (Z.pos p)) with (formatInt (Z.pos p)). rewrite E.
    rewrite (Atoi_unsigned b ds Hb), <- E.
    rewrite (digitsValue_formatInt (Z.pos p)) by lia. now rewrite Hrange.
  - rewrite appendInt_neg. unfold Strconv.Atoi.
    pose proof (formatInt_strictInt (Z.pos p) ltac:(lia)) as Hs.
    destruct (digitRun_inv _ (strictInt_digitRun _ Hs))
      as (b & ds & E & Hb & Hds).
    rewrite (digitsValue_formatInt (Z.pos p)) by lia. rewrite E.
    change (- Z.pos p)%Z with (Z.neg p). now rewrite Hrange.
Qed.

Lemma appendInt_leads (n : Z) :
  exists c s, appendInt n = String c s /\ leads c = true.
Proof.
  destruct n as [|p|p].
  - exists "0"%char, "". auto.
  - pose proof (formatInt_strictInt (Z.pos p) ltac:(lia)) as Hs.
    destruct (digitRun_inv _ (strictInt_digitRun _ Hs))
      as (b & ds & E & Hb & Hds).
    exists b, ds. split; [exact E|]. unfold leads. now rewrite Hb.
  - exists "-"%char, (formatInt (Z.pos p)). auto.
Qed.

Lemma scanValue_number (fuel : nat) (depth : N) (c : ascii) (s : string)
    (literal rest : string) :
  leads c = true ->
  scanNumber (String c s) = Some (literal, rest) ->
  scanValue (S fuel) depth (String c s) = Some (Number literal, rest).
Proof.
  intros Hc H.
  destruct c as [[] [] [] [] [] [] [] []]; try discriminate Hc;
    cbn -[scanNumber]; rewrite H; reflexivity.
Qed.

Lemma scanValue_appendInt (fuel : nat) (depth : N) (n : Z) (rest : string) :
  closes rest ->
  scanValue (S fuel) depth (appendInt n ++ rest)
  = Some (Number (appendInt n), rest).
Proof.
  intros Hrest. pose proof (scanNumber_appendInt n rest Hrest) as H.
  destruct (appendInt_leads n) as (c & s & E & Hc). rewrite E in H |- *.
  apply (scanValue_number fuel depth c _ _ _ Hc H).
Qed.

Lemma scanElements_ints (l : list Z) :
  l <> [] ->
  forall fuel depth rest,
    List.length l < fuel ->
    scanElements fuel depth (appendInts l ++ String "]" rest)
    = Some (numbers l, rest).
Proof.
  induction l as [|n l IH]; [contradiction|]. intros _ fuel depth rest Hfuel.
  destruct fuel as [|fuel]; [lia|]. cbn [List.length] in Hfuel.
  destruct l as [|n' l].
  - destruct fuel as [|fuel]; [lia|].
    cbn [appendInts scanElements numbers map].
    rewrite scanValue_appendInt by (exists rest; auto). reflexivity.
  - change (appendInts (n :: n' :: l))
      with (appendInt n ++ String "," (appendInts (n' :: l)))%string.
    rewrite append_assoc. cbn [String.append scanElements].
    destruct fuel as [|fuel]; [cbn in Hfuel; lia|].
    rewrite scanValue_appendInt by (eexists; left; reflexivity).
    cbn [skipSpace isSpace Ascii.eqb Bool.eqb orb].
    rewrite (IH ltac:(discriminate) (S fuel) depth rest)
      by (cbn [List.length] in *; lia).
    reflexivity.
Qed.

Lemma decodeInts_numbers (l : list Z) :
  Forall int64 l -> decodeInts (numbers l) = Some l.
Proof.
  intros H. induction H as [|n l Hn _ IH]; [reflexivity|].
  change (numbers (n :: l)) with (Number (appendInt n) :: numbers l).
  cbn [decodeInts]. now rewrite (Atoi_appendInt n Hn), IH.
Qed.

End Numbers64.

Section Document.
Import Json.

Lemma scanValue_text (fuel : nat) (depth : N) (text rest : string) :
  scanValue (S fuel) depth (appendString text ++ rest)
  = Some (Text (coerceUTF8 text), rest).
Proof.
  unfold appendString. cbn [String.append]. rewrite append_assoc.
  cbn [String.append scanValue skipSpace].
  change (isSpace dquote) with false. cbv iota.
  change (Ascii.eqb dquote "{") with false.
  change (Ascii.eqb dquote "[") with false.
  change (Ascii.eqb dquote dquote) with true. cbv iota.
  now rewrite scanString_appendLoop, unquote_appendLoop.
Qed.

Lemma scanValue_bool (fuel : nat) (depth : N) (b : bool) (rest : string) :
  scanValue (S fuel) depth (appendBool b ++ rest) = Some (Bool b, rest).
Proof.
  destruct b; cbn; unfold scanLiteral; cbn; now rewrite HasPrefix_empty.
Qed.

Lemma scanValue_slice (fuel : nat) (depth : N) (l : list Z) (rest : string) :
  List.length l + 1 < fuel -> (depth < maxNestingDepth)%N ->
  scanValue fuel depth (appendSlice l ++ rest) = Some (slice l, rest).
Proof.
  intros Hfuel Hdepth. destruct fuel as [|fuel]; [lia|].
  destruct l as [|n l].
  { cbn. unfold scanLiteral. cbn. now rewrite HasPrefix_empty. }
  assert (Hscan : scanElements fuel (depth + 1)
                    (appendInts (n :: l) ++ String "]" rest)
                  = Some (numbers (n :: l), rest)).
  { apply scanElements_ints; [discriminate|]. cbn [List.length] in *. lia. }
  assert (Hlead : exists c s,
             (appendInts (n :: l) ++ String "]" rest)%string = String c s
             /\ leads c = true).
  { destruct (appendInt_leads n) as (c & s & E & Hc).
    destruct l as [|n' l]; cbn [appendInts]; rewrite E; cbn [String.append];
      eauto. }
  destruct Hlead as (c & s & E & Hc).
  unfold appendSlice, slice. cbn [String.append]. rewrite append_assoc.
  cbn [String.append]. rewrite E in Hscan |- *.
  apply N.leb_gt in Hdepth.
  destruct c as [[] [] [] [] [] [] [] []]; try discriminate Hc;
    cbn -[scanElements maxNestingDepth N.leb]; rewrite Hdepth, Hscan;
    reflexivity.
Qed.

(** a member whose key needs no escape, followed by another one *)
Lemma scanMembers_more (fuel : nat) (depth : N) (key text : string)
    (v : value) (more : string) (members : list (string * value))
    (rest : string) :
  (forall t, scanString InString (key ++ String dquote t) = Some (key, t)) ->
  scanValue fuel depth text = Some (v, String "," more) ->
  scanMembers fuel depth more = Some (members, rest) ->
  scanMembers (S fuel) depth
    (String dquote (key ++ String dquote (String ":" text)))
  = Some ((unquote key, v) :: members, rest).
Proof.
  intros Hkey Hv Hmore. cbn [scanMembers skipSpace].
  change (isSpace dquote) with false. cbv iota.
  change (Ascii.eqb dquote dquote) with true. cbv iota.
  rewrite Hkey. cbn [skipSpace isSpace Ascii.eqb Bool.eqb orb].
  rewrite Hv. cbn [skipSpace isSpace Ascii.eqb Bool.eqb orb].
  now rewrite Hmore.
Qed.

(** the last member *)
Lemma scanMembers_last (fuel : nat) (depth : N) (key text : string)
    (v : value) (rest : string) :
  (forall t, scanString InString (key ++ String dquote t) = Some (key, t)) ->
  scanValue fuel depth text = Some (v, String "}" rest) ->
  scanMembers (S fuel) depth
    (String dquote (key ++ String dquote (String ":" text)))
  = Some ([(unquote key, v)], rest).
Proof.
  intros Hkey Hv. cbn [scanMembers skipSpace].
  change (isSpace dquote) with false. cbv iota.
  change (Ascii.eqb dquote dquote) with true. cbv iota.
  rewrite Hkey. cbn [skipSpace isSpace Ascii.eqb Bool.eqb orb].
  rewrite Hv. reflexivity.
Qed.

Lemma scanValue_object (fuel : nat) (depth : N) (s : string)
    (members : list (string * value)) (rest : string) :
  (depth < maxNestingDepth)%N ->
  scanMembers fuel (depth + 1) (String dquote s) = Some (members, rest) ->
  scanValue (S fuel) depth (String "{" (String dquote s))
  = Some (Object members, rest).
Proof.
  intros Hdepth H. apply N.leb_gt in Hdepth.
  cbn -[scanMembers maxNestingDepth N.leb]. now rewrite Hdepth, H.
Qed.

Lemma Marshal_document (obj : object) : Marshal obj = Ok (document obj).
Proof. reflexivity. Qed.

Lemma appendInt_nonempty (n : Z) : 1 <= String.length (appendInt n).
Proof.
  destruct (appendInt_leads n) as (c & s & -> & _). cbn [String.length]. lia.
Qed.

Lemma appendInts_length (l : list Z) :
  List.length l <= String.length (appendInts l).
Proof.
  induction l as [|n l IH]; [cbn; lia|].
  pose proof (appendInt_nonempty n) as Hn.
  destruct l as [|n' l]; [exact Hn|].
  change (appendInts (n :: n' :: l))
    with (appendInt n ++ "," ++ appendInts (n' :: l))%string.
  rewrite !append_length. cbn [List.length String.length] in *.
  set (x := String.length (appendInt n)) in *.
  set (y := String.length (appendInts (n' :: l))) in *. lia.
Qed.

Lemma document_length (obj : object) :
  List.length (Version obj) + 8 <= String.length (document obj).
Proof.
  assert (Hslice : List.length (Version obj)
                   <= String.length (appendSlice (Version obj))).
  { destruct (Version obj) as [|n l] eqn:E; [cbn; lia|].
    unfold appendSlice. cbn [String.append String.length].
    rewrite append_length. pose proof (appendInts_length (n :: l)) as H.
    cbn [List.length String.length] in *.
    set (x := String.length (appendInts (n :: l))) in *. lia. }
  unfold document.
  repeat (cbn [String.length String.append]; rewrite ?append_length).
  set (x := String.length (appendSlice (Version obj))) in *. lia.
Qed.

Lemma scan_document (obj : object) :
  scan (document obj) = Some (Object (members obj)).
Proof.
  unfold scan. pose proof (document_length obj) as Hlen.
  destruct (String.length (document obj)) as [|[|[|[|[|[|[|[|fuel]]]]]]]];
    try lia.
  assert (Hfuel : List.length (Version obj) <= fuel) by lia. clear Hlen.
  assert (Hdepth : (0 < maxNestingDepth)%N) by reflexivity.
  assert (Hdepth1 : (0 + 1 < maxNestingDepth)%N) by reflexivity.
  unfold document.
  rewrite (scanValue_object _ 0 _ (members obj) "" Hdepth); [reflexivity|].
  eapply (scanMembers_more _ _ "original");
    [intros t; reflexivity|apply scanValue_text|].
  eapply (scanMembers_more _ _ "alpha");
    [intros t; reflexivity|apply scanValue_bool|].
  eapply (scanMembers_more _ _ "qv");
    [intros t; reflexivity|apply scanValue_bool|].
  eapply (scanMembers_last _ _ "version"); [intros t; reflexivity|].
  apply scanValue_slice; [lia|exact Hdepth1].
Qed.

Lemma decode_members (obj : object) :
  Forall int64 (Version obj) ->
  decodeMembers
    {| Original := ""; Alpha := false; Qv := false; Version := [] |}
    (members obj)
  = Some {| Original := coerceUTF8 (Original obj); Alpha := Alpha obj;
            Qv := Qv obj; Version := Version obj |}.
Proof.
  intros Hints. unfold members, slice.
  destruct (Version obj) as [|n l] eqn:E; [reflexivity|].
  pose proof (decodeInts_numbers (n :: l) Hints) as Hd.
  cbn [decodeMembers]. unfold decodeMember at 1 2 3.
  change (equalFold "original" "original") with true.
  change (equalFold "original" "alpha") with false.
  change (equalFold "alpha" "alpha") with true.
  change (equalFold "original" "qv") with false.
  change (equalFold "alpha" "qv") with false.
  change (equalFold "qv" "qv") with true.
  cbv iota beta. cbn [Original Alpha Qv Version].
  unfold decodeMember.
  change (equalFold "original" "version") with false.
  change (equalFold "alpha" "version") with false.
  change (equalFold "qv" "version") with false.
  change (equalFold "version" "version") with true.
  cbv iota beta. rewrite Hd. reflexivity.
Qed.

(** what json.Unmarshal reads from what json.Marshal wrote *)
Lemma Unmarshal_Marshal (obj : object) (data : string) :
  Forall int64 (Version obj) ->
  Marshal obj = Ok data ->
  Unmarshal data
  = Ok {| Original := coerceUTF8 (Original obj); Alpha := Alpha obj;
          Qv := Qv obj; Version := Version obj |}.
Proof.
  intros Hints H. rewrite Marshal_document in H. injection H as <-.
  unfold Unmarshal. rewrite scan_document, (decode_members obj Hints).
  reflexivity.
Qed.

End Document.

(** C8: the record codec, with encoding/json as it writes and reads the
    struct.  For every Version whose components are int64 values, and
    whatever the receiver held before, MarshalJSON returns a text, and
    UnmarshalJSON of that text returns no error and leaves in the receiver
    the same alpha, qv and components, and the original text coerced to
    valid UTF-8.  So when the original text is valid UTF-8, whether it is a
    version that Parse accepts or not, the receiver ends field for field
    identical to the Version: neither method parses or validates. *)
Theorem codec_round_trip (v receiver : Version)
    (Hint64 : Forall int64 (version v)) :
  exists data,
    MarshalJSON v = Ok data
    /\ UnmarshalJSON receiver data
       = Ok ({| original := coerceUTF8 (original v); alpha := alpha v;
                qv := qv v; version := version v |}, None)
    /\ (Utf8.ValidString (original v) = true ->
        UnmarshalJSON receiver data = Ok (v, None)).
Proof.
  destruct (Json.Marshal
              {| Json.Original := original v; Json.Alpha := alpha v;
                 Json.Qv := qv v; Json.Version := version v |})
    as [data| |] eqn:E; try discriminate E.
  exists data. split; [exact E|].
  assert (H : UnmarshalJSON receiver data
              = Ok ({| original := coerceUTF8 (original v); alpha := alpha v;
                       qv := qv v; version := version v |}, None)).
  { unfold UnmarshalJSON.
    rewrite (Unmarshal_Marshal
               {| Json.Original := original v; Json.Alpha := alpha v;
                  Json.Qv := qv v; Json.Version := version v |}
               data Hint64 E).
    reflexivity. }
  split; [exact H|]. intros Hvalid. rewrite H.
  rewrite (coerceUTF8_valid _ Hvalid). destruct v; reflexivity.
Qed.

Lemma codec_round_trip_witness :
  exists data,
    MarshalJSON (Build_Version "v1.2.3" false true [1; 2; 3]%Z) = Ok data
    /\ UnmarshalJSON zeroVersion data
       = Ok (Build_Version "v1.2.3" false true [1; 2; 3]%Z, None).
Proof.
  destruct (codec_round_trip
              (Build_Version "v1.2.3" false true [1; 2; 3]%Z) zeroVersion)
    as (data & Hdata & _ & Hvalid).
  - repeat constructor; discriminate.
  - exists data. split; [exact Hdata|]. apply Hvalid. reflexivity.
Defined.

(** C8 as stated fails on an original text that is not valid UTF-8:
    encoding/json writes the byte 255 as the escape of U+FFFD, and the
    decoded Version holds the three bytes of U+FFFD where the Version held
    one. *)
Lemma codec_replaces_invalid_utf8 :
  let v := Build_Version (String "255" "") false false [1%Z] in
  exists data v',
    MarshalJSON v = Ok data
    /\ UnmarshalJSON zeroVersion data = Ok (v', None)
    /\ original v' = Utf8.replacement
    /\ original v' <> original v.
Proof.
  eexists. eexists. split; [reflexivity|]. split; [vm_compute; reflexivity|].
  split; [reflexivity|discriminate].
Qed.

(** ** The record codec on parsed Versions *)

Section ParsedComponents.

Lemma Atoi_int64 (s : string) (val : Z) :
  Strconv.Atoi s = Some val -> int64 val.
Proof.
  assert (Hparse : forall (neg : bool) digits,
             match digits with
             | "" => None
             | String _ _ =>
                 match Strconv.digitsValue 0 digits with
                 | Some n =>
                     let val := if neg then (- n)%Z else n in
                     if ((Strconv.minInt <=? val)
                         && (val <=? Strconv.maxInt))%Z
                     then Some val else None
                 | None => None
                 end
             end = Some val -> int64 val).
  { intros neg digits. destruct digits as [|c digits]; [discriminate|].
    destruct (Strconv.digitsValue 0 (String c digits)) as [n|];
      [|discriminate].
    cbv zeta.
    destruct ((Strconv.minInt <=? (if neg then (- n)%Z else n))
              && ((if neg then (- n)%Z else n) <=? Strconv.maxInt))%Z
      eqn:E; [|discriminate].
    intros H. injection H as <-. apply andb_true_iff in E as [E1 E2].
    apply Z.leb_le in E1, E2. split; assumption. }
  unfold Strconv.Atoi. destruct s as [|c s]; [discriminate|].
  destruct (Ascii.eqb_spec c "-") as [->|Hm]; [apply (Hparse true)|].
  destruct (Ascii.eqb_spec c "+") as [->|Hp]; [apply (Hparse false)|].
  intros H. apply (Hparse false (String c s)).
  destruct c as [[] [] [] [] [] [] [] []]; try exact H; congruence.
Qed.

Lemma parseAll_int64 (raw : list string) (vals : list Z) :
  parseAll raw = Ok vals -> Forall int64 vals.
Proof.
  revert vals. induction raw as [|s raw IH]; intros vals; cbn [parseAll].
  - intros H. injection H as <-. constructor.
  - intros H. bind_inv H. injection H as <-. constructor; [|auto].
    unfold mustParseInt64 in E.
    destruct (Strconv.Atoi s) as [val|] eqn:Ea; [|discriminate].
    injection E as <-. exact (Atoi_int64 s val Ea).
Qed.

Lemma mustParseInt64_int64 (s : string) (val : Z) :
  mustParseInt64 s = Ok val -> int64 val.
Proof.
  unfold mustParseInt64.
  destruct (Strconv.Atoi s) as [n|] eqn:E; [|discriminate].
  intros H. injection H as <-. exact (Atoi_int64 s n E).
Qed.

Lemma getFractionValue_int64 (s : string) (vals : list Z) :
  getFractionValue s = Ok vals -> Forall int64 vals.
Proof.
  unfold getFractionValue. destruct (String.eqb s "").
  - intros H. injection H as <-. constructor.
  - cbv zeta. intros H. bind_inv H. destruct x as [stringValues current].
    destruct (if (String.length (Strings.TrimPrefix s ".") mod 3 =? 0)%nat
              then _ else _) as [|lastIndex]; [discriminate|].
    destruct (store stringValues lastIndex _) as [values|]; [|discriminate].
    exact (parseAll_int64 _ _ H).
Qed.

Lemma zero_int64 : int64 0.
Proof. split; discriminate. Qed.

Lemma make_int64 (n : nat) : Forall int64 (make n).
Proof.
  unfold make. induction n; cbn; constructor; [exact zero_int64|assumption].
Qed.

Lemma store_Forall (P : Z -> Prop) (values : list Z) :
  forall i x values',
    store values i x = Some values' -> Forall P values -> P x ->
    Forall P values'.
Proof.
  induction values as [|y values IH]; intros i x values'; cbn [store];
    [discriminate|].
  destruct i as [|i].
  - intros H Hall Hx. injection H as <-. inversion Hall; subst.
    constructor; assumption.
  - destruct (store values i x) as [rest|] eqn:E; [|discriminate].
    intros H Hall Hx. injection H as <-. inversion Hall; subst.
    constructor; [assumption|]. eapply IH; eassumption.
Qed.

Lemma assign_Forall (P : Z -> Prop) (values values' : list Z) (i : nat)
    (x : Z) :
  assign values i x = Ok values' -> Forall P values -> P x ->
  Forall P values'.
Proof.
  unfold assign. destruct (store values i x) as [l|] eqn:E; [|discriminate].
  intros H. injection H as <-. eapply store_Forall; eassumption.
Qed.

Lemma copyFrom1_Forall (P : Z -> Prop) (values values' src : list Z) :
  copyFrom1 values src = Ok values' -> Forall P values -> Forall P src ->
  Forall P values'.
Proof.
  unfold copyFrom1. destruct values as [|first tail]; [discriminate|].
  intros H Hall Hsrc. injection H as <-. inversion Hall; subst.
  constructor; [assumption|]. apply copy_Forall; assumption.
Qed.

Lemma copied_Forall (P : Z -> Prop) (values values' src : list Z) :
  match src with
  | [] => Ok values
  | _ :: _ => copyFrom1 values src
  end = Ok values' ->
  Forall P values -> Forall P src -> Forall P values'.
Proof.
  destruct src as [|x src].
  - intros H. injection H as <-. auto.
  - apply copyFrom1_Forall.
Qed.

Lemma fillMinors_int64 (minors : list string) :
  forall values i values',
    StrictDottedForm.fillMinors values i minors = Ok values' ->
    Forall int64 values -> Forall int64 values'.
Proof.
  induction minors as [|part minors IH]; intros values i values';
    cbn [StrictDottedForm.fillMinors].
  - intros H. injection H as <-. auto.
  - intros H Hall. bind_inv H. eapply IH; [exact H|].
    eapply assign_Forall; [exact E0|exact Hall|].
    eapply mustParseInt64_int64, E.
Qed.

Ltac int64_values :=
  repeat match goal with
         | H : assign _ _ _ = Ok ?v |- Forall int64 ?v =>
             eapply assign_Forall; [exact H| |]
         | H : copyFrom1 _ _ = Ok ?v |- Forall int64 ?v =>
             eapply copyFrom1_Forall; [exact H| |]
         | H : match _ with [] => _ | _ :: _ => _ end = Ok ?v
           |- Forall int64 ?v =>
             eapply copied_Forall; [exact H| |]
         | H : getFractionValue _ = Ok ?v |- Forall int64 ?v =>
             exact (getFractionValue_int64 _ _ H)
         | H : dottedToMinors _ = Ok ?v |- Forall int64 ?v =>
             exact (parseAll_int64 _ _ H)
         | H : mustParseInt64 _ = Ok ?v |- int64 ?v =>
             exact (mustParseInt64_int64 _ _ H)
         | |- Forall int64 (make _) => apply make_int64
         | |- int64 0 => exact zero_int64
         | |- Forall int64 [] => constructor
         end.

(** every component that a reconstructor stores is a value of
    mustParseInt64 or a zero *)
Lemma laxVersion_int64 (matches : list string) (v : Version) :
  laxVersion matches = Ok v -> Forall int64 (version v).
Proof.
  unfold laxVersion, Lax.toPerlVersion, LaxDotted.toPerlVersion,
    LaxDecimal.toPerlVersion.
  cbn [Lax.undef Lax.dotted Lax.decimal Lax.dottedMatches Lax.decimalMatches
       Lax.original].
  repeat match goal with
         | |- (if ?b then _ else _) = Ok v -> _ => destruct b
         end; try discriminate.
  - intros H. injection H as <-. repeat constructor; discriminate.
  - unfold LaxDotted.toPerlVersionA. intros H. bind_inv H.
    injection H as <-. cbn [version]. int64_values.
    destruct (nonEmpty _); [int64_values|].
    injection E as <-. constructor.
  - unfold LaxDotted.toPerlVersionB. intros H. bind_inv H.
    injection H as <-. cbn [version]. int64_values.
    destruct (nonEmpty (LaxDotted.secondInteger _)).
    + bind_inv E1. int64_values.
    + destruct (_ && _); [int64_values|].
      injection E1 as <-. int64_values.
  - unfold LaxDecimal.toPerlVersionA. intros H. bind_inv H.
    injection H as <-. cbn [version].
    destruct (_ && _); [int64_values|].
    injection E5 as <-. int64_values.
  - unfold LaxDecimal.toPerlVersionB. intros H. bind_inv H.
    destruct x as [|f fractions]; [discriminate|]. bind_inv H.
    injection H as <-. cbn [version]. int64_values.
Qed.

Lemma strictVersion_int64 (matches : list string) (v : Version) :
  strictVersion matches = Ok v -> Forall int64 (version v).
Proof.
  unfold strictVersion, Strict.toPerlVersion.
  cbn [Strict.decimal Strict.dotted Strict.decimalMatches
       Strict.dottedMatches Strict.original].
  repeat match goal with
         | |- (if ?b then _ else _) = Ok v -> _ => destruct b
         end; try discriminate.
  - unfold StrictDecimalForm.toPerlVersion. intros H. bind_inv H.
    injection H as <-. cbn [version]. int64_values.
  - unfold StrictDottedForm.toPerlVersion. intros H. bind_inv H.
    injection H as <-. cbn [version].
    eapply fillMinors_int64; [exact E1|]. int64_values.
Qed.

End ParsedComponents.

Section ParsedText.

Lemma isASCII_app (s t : string) :
  isASCII (s ++ t) = isASCII s && isASCII t.
Proof.
  induction s as [|c s IH]; cbn [String.append isASCII]; [reflexivity|].
  now rewrite IH, andb_assoc.
Qed.

Lemma isASCII_digits (s : string) :
  Strconv.allDigits s = true -> isASCII s = true.
Proof.
  induction s as [|c s IH]; cbn [Strconv.allDigits isASCII]; [reflexivity|].
  rewrite andb_true_iff. intros [Hc Hs]. rewrite (IH Hs), andb_true_r.
  destruct c as [[] [] [] [] [] [] [] []]; try discriminate Hc; reflexivity.
Qed.

Lemma isASCII_fragment (lead : ascii) (s : string) :
  (Utf8.byte lead <? 128)%N = true -> fragment lead s = true ->
  isASCII s = true.
Proof.
  intros Hlead H.
  destruct (fragment_inv lead s H) as [->|(c & digits & -> & Hd)];
    [reflexivity|].
  cbn [isASCII]. rewrite Hlead. apply (isASCII_digits _ Hd).
Qed.

Lemma isASCII_dots (groups : list string) :
  Forall (fun g => digitRun g = true) groups -> isASCII (dots groups) = true.
Proof.
  intros H. induction H as [|g groups Hg _ IH]; [reflexivity|].
  cbn [dots]. change ("." ++ g ++ dots groups)%string
    with (String "." (g ++ dots groups)).
  cbn [isASCII]. rewrite isASCII_app, IH.
  now rewrite (isASCII_digits g (digitRun_allDigits g Hg)).
Qed.

Lemma isASCII_dotted (n : nat) (dotted : string) :
  dottedText n dotted -> isASCII dotted = true.
Proof. intros (groups & -> & _ & Hall). apply isASCII_dots, Hall. Qed.

Lemma isASCII_int (int : string) :
  int = "" \/ digitRun int = true -> isASCII int = true.
Proof.
  intros [->|H]; [reflexivity|]. apply isASCII_digits, digitRun_allDigits, H.
Qed.

Lemma laxSubmatches_ASCII (matches : list string) :
  laxSubmatches matches -> isASCII (at_ matches 0) = true.
Proof.
  intros Hshape.
  destruct Hshape as [ | int dotted alpha Hint Hdot Halpha Hempty
                       | int dotted alpha Hint Hdot Halpha
                       | int frac dot alpha Hint Hfrac Hdotc Halpha
                       | frac alpha Hne Hfrac Halpha ];
    cbn [at_ nth]; [reflexivity|..];
    try change ("v" ++ int ++ dotted ++ alpha)%string
      with (String "v" (int ++ dotted ++ alpha));
    cbn [isASCII]; rewrite ?isASCII_app;
    rewrite ?(isASCII_int int) by auto;
    rewrite ?(isASCII_dotted _ dotted Hdot);
    rewrite ?(isASCII_fragment "_" alpha eq_refl Halpha);
    rewrite ?(isASCII_fragment "." frac eq_refl Hfrac);
    try reflexivity.
  destruct Hdotc as [->|[-> _]]; reflexivity.
Qed.

Lemma strictSubmatches_ASCII (matches : list string) :
  strictSubmatches matches -> isASCII (at_ matches 0) = true.
Proof.
  intros Hshape.
  destruct Hshape as [int frac Hint Hfrac Hstrict
                     | int dotted Hint Hdot Hstrict Hbound];
    cbn [at_ nth];
    try change ("v" ++ int ++ dotted)%string
      with (String "v" (int ++ dotted));
    cbn [isASCII]; rewrite ?isASCII_app;
    rewrite ?(isASCII_int int) by auto;
    rewrite ?(isASCII_dotted _ dotted Hdot);
    rewrite ?(isASCII_fragment "." frac eq_refl Hfrac);
    reflexivity.
Qed.

(** ASCII text is valid UTF-8 *)
Lemma validFrom_ASCII (s : string) (fuel : nat) :
  isASCII s = true -> String.length s <= fuel ->
  Utf8.validFrom fuel s = true.
Proof.
  revert fuel. induction s as [|c s IH]; intros fuel; [now destruct fuel|].
  cbn [isASCII String.length]. rewrite andb_true_iff. intros [Hc Hs] Hlen.
  destruct fuel as [|fuel]; [lia|]. cbn [Utf8.validFrom Utf8.runeLen].
  rewrite Hc. cbn [Strings.drop]. apply IH; [exact Hs|lia].
Qed.

Lemma Parse_text_and_components (text : string) (v : Version) :
  Parse text = Ok v ->
  isASCII (original v) = true /\ Forall int64 (version v).
Proof.
  intros H. apply Parse_Ok_from in H.
  destruct H as [(lm & Hl & Hv)|(sm & Hs & Hv)].
  - rewrite (laxVersion_original lm v Hv). split.
    + apply laxSubmatches_ASCII, (lax_submatches text lm Hl).
    + exact (laxVersion_int64 lm v Hv).
  - rewrite (strictVersion_original sm v Hv). split.
    + apply strictSubmatches_ASCII, (strict_submatches text sm Hs).
    + exact (strictVersion_int64 sm v Hv).
Qed.

End ParsedText.

(** X30 (MarshalJSON, UnmarshalJSON, Parse).  A Version that Parse returns
    comes back from the record codec as it was: its original text is ASCII
    and its components are int64 values, so MarshalJSON returns a text, and
    UnmarshalJSON of that text, whatever the receiver held, returns no error
    and leaves the receiver field for field identical to the Version. *)
Theorem Parse_codec_round_trip (text : string) (v receiver : Version)
    (Hparse : Parse text = Ok v) :
  isASCII (original v) = true
  /\ Forall int64 (version v)
  /\ exists data,
       MarshalJSON v = Ok data
       /\ UnmarshalJSON receiver data = Ok (v, None).
Proof.
  destruct (Parse_text_and_components text v Hparse) as [Hascii Hints].
  split; [exact Hascii|]. split; [exact Hints|].
  destruct (MarshalJSON v) as [data| |] eqn:E; try discriminate E.
  exists data. split; [reflexivity|]. unfold UnmarshalJSON.
  rewrite (Unmarshal_Marshal
             {| Json.Original := original v; Json.Alpha := alpha v;
                Json.Qv := qv v; Json.Version := version v |}
             data Hints E).
  cbn [Json.Original Json.Alpha Json.Qv Json.Version].
  rewrite coerceUTF8_valid
    by (apply validFrom_ASCII; [exact Hascii|apply Nat.le_refl]).
  destruct v; reflexivity.
Qed.

Lemma Parse_codec_round_trip_witness :
  exists data,
    MarshalJSON (Build_Version "1.02_03" true false [1; 20; 300]%Z) = Ok data
    /\ UnmarshalJSON Undef data
       = Ok (Build_Version "1.02_03" true false [1; 20; 300]%Z, None).
Proof.
  apply (Parse_codec_round_trip "1.02_03"
           (Build_Version "1.02_03" true false [1; 20; 300]%Z) Undef).
  vm_compute. reflexivity.
Defined.
